(** * go-bigwig: a shallow embedding of the read core

    The development follows the Go sources of the [gobigwig] package:
    the resource layer ([URL], with its local and remote variants), the
    R-tree overlap walker ([overlapsLeaf], [overlapsNonLeaf]), the block
    decoder ([bwGetOverlappingIntervalsCore]), the block iterator
    ([bwOverlappingIntervalsIterator], [bwIteratorNext]), the per-base
    expansion ([bwGetValues]) and the zoom engine ([bwGetValuesFromZoom],
    [bwGetValuesFromRaw], [bwGetValuesAutoZoom], [GetZoomValues]).

    Conventions.
    - A Go [uintN] is a [Z] in [0, 2^N); every operation that can leave
      that range is followed by its wrap-around ([u16], [u32], [u64]).
    - A Go function that reports failure by returning [nil] (or a non-nil
      [error]) returns [Nil]; a run-time panic (index out of range,
      negative [make], integer division by zero) is [Panic].
    - A [float32] or [float64] is a [spec_float] of the corresponding
      format (IEEE 754 binary32 / binary64, round to nearest even); NaN
      payloads are not represented.
    - Byte buffers are [list byte]; slices indexed in place are lists
      with stdpp's lookup and insert. *)

From Stdlib Require Import ZArith List String Bool Lia.
From Stdlib.Strings Require Import Byte.
From Stdlib Require Import SpecFloat.
From stdpp Require Import base list.

Local Open Scope Z_scope.

(** ** Machine integers *)

Definition u8 (z : Z) : Z := z mod 2 ^ 8.
Definition u16 (z : Z) : Z := z mod 2 ^ 16.
Definition u32 (z : Z) : Z := z mod 2 ^ 32.
Definition u64 (z : Z) : Z := z mod 2 ^ 64.

(** [int64(x)] for a [uint64] [x]: two's complement reinterpretation. *)
Definition int64_of_u64 (z : Z) : Z :=
  if z <? 2 ^ 63 then z else z - 2 ^ 64.

(** [^uint32(0)], the "no such chromosome" sentinel of [bwGetTid]. *)
Definition TID_NONE : Z := 4294967295.

Definition is_u32 (z : Z) : Prop := 0 <= z < 2 ^ 32.

(** ** Results of Go calls *)

Inductive outcome (A : Type) : Type :=
| Ok (a : A)
| Nil
| Panic.
Arguments Ok {A} a.
Arguments Nil {A}.
Arguments Panic {A}.

Definition obind {A B} (m : outcome A) (k : A -> outcome B) : outcome B :=
  match m with
  | Ok a => k a
  | Nil => Nil
  | Panic => Panic
  end.

Declare Scope outcome_scope.
Delimit Scope outcome_scope with outcome.
Notation "x <- m ;; k" := (obind m (fun x => k))
  (at level 100, m at next level, right associativity) : outcome_scope.
Local Open Scope outcome_scope.

(** ** Little-endian decoding ([encoding/binary]) *)

Definition byteZ (b : byte) : Z := Z.of_N (Byte.to_N b).

(** [binary.LittleEndian.Uint16(b)] and [Uint32(b)] on a slice that holds
    at least 2 (resp. 4) bytes; every call site checks the length first. *)
Definition le_uint16 (b : list byte) : Z :=
  match b with
  | b0 :: b1 :: _ => byteZ b0 + byteZ b1 * 2 ^ 8
  | _ => 0
  end.

Definition le_uint32 (b : list byte) : Z :=
  match b with
  | b0 :: b1 :: b2 :: b3 :: _ =>
      byteZ b0 + byteZ b1 * 2 ^ 8 + byteZ b2 * 2 ^ 16 + byteZ b3 * 2 ^ 24
  | _ => 0
  end.

(** [b[i:]] *)
Definition slice_from (i : nat) (b : list byte) : list byte := drop i b.

Definition lenZ {A} (l : list A) : Z := Z.of_nat (length l).

(** ** The R-tree index *)

(** One child slot of an R-tree node.  The Go struct keeps six parallel
    slices of length [NChildren]; slot [i] of each is gathered here.
    [rc_size] is only read on leaves. *)
Record rchild : Type := {
  chrIdxStart : Z;
  baseStart : Z;
  chrIdxEnd : Z;
  baseEnd : Z;
  dataOffset : Z;
  rc_size : Z
}.

#[local] Set Warnings "-register-all".

(** [bwRTreeNode_t].  [Child[i]] of a branch is filled on first touch by
    [bwGetRTreeNode(fp, DataOffset[i])]; the tree below is the one those
    loads produce, with [None] for a child whose load returns an error. *)
Inductive bwRTreeNode_t : Type :=
| RLeaf (children : list rchild)
| RBranch (children : list (rchild * option bwRTreeNode_t)).

Record bwOverlapBlock_t : Type := {
  ob_N : Z;
  ob_Offset : list Z;
  ob_Size : list Z
}.

Definition emptyOverlapBlock : bwOverlapBlock_t :=
  {| ob_N := 0; ob_Offset := []; ob_Size := [] |}.

(** What the body of a child loop does with the current child. *)
Inductive verdict : Type := Accept | Continue | Break.

(** The first (counting) loop of [overlapsLeaf]. *)
Definition leafCountChild (tid start end_ : Z) (c : rchild) : verdict :=
  if (tid <? chrIdxStart c) || (chrIdxEnd c <? tid) then Continue
  else if negb (chrIdxStart c =? chrIdxEnd c) then
    if tid =? chrIdxStart c then
      if end_ <=? baseStart c then Break else Accept
    else if tid =? chrIdxEnd c then
      if baseEnd c <=? start then Continue else Accept
    else Accept
  else
    if (end_ <=? baseStart c) || (baseEnd c <=? start) then Continue
    else Accept.

(** The second (filling) loop of [overlapsLeaf]. *)
Definition leafFillChild (tid start end_ : Z) (c : rchild) : verdict :=
  if (tid <? chrIdxStart c) || (chrIdxEnd c <? tid) then Continue
  else if negb (chrIdxStart c =? chrIdxEnd c) then
    if tid =? chrIdxStart c then
      if end_ <=? baseStart c then Continue else Accept
    else if tid =? chrIdxEnd c then
      if baseEnd c <=? start then Continue else Accept
    else Accept
  else
    if (end_ <=? baseStart c) || (baseEnd c <=? start) then Continue
    else Accept.

(** The child test of [overlapsNonLeaf]. *)
Definition nonLeafChild (tid start end_ : Z) (c : rchild) : verdict :=
  if (tid <? chrIdxStart c) || (chrIdxEnd c <? tid) then Continue
  else if negb (chrIdxStart c =? chrIdxEnd c) then
    if (tid =? chrIdxStart c) && (end_ <=? baseStart c) then Continue
    else if (tid =? chrIdxEnd c) && (baseEnd c <=? start) then Continue
    else Accept
  else
    if (end_ <=? baseStart c) || (baseEnd c <=? start) then Continue
    else Accept.

Fixpoint leafCount (tid start end_ : Z) (cs : list rchild) (n : Z) : Z :=
  match cs with
  | [] => n
  | c :: cs' =>
      match leafCountChild tid start end_ c with
      | Continue => leafCount tid start end_ cs' n
      | Break => n
      | Accept => leafCount tid start end_ cs' (n + 1)
      end
  end.

(** State of the filling loop: [idx] and the two output slices. *)
Fixpoint leafFill (tid start end_ : Z) (cs : list rchild) (n idx : Z)
    (offs sizes : list Z) : Z * list Z * list Z :=
  match cs with
  | [] => (idx, offs, sizes)
  | c :: cs' =>
      match leafFillChild tid start end_ c with
      | Accept =>
          let offs' := <[Z.to_nat idx := dataOffset c]> offs in
          let sizes' := <[Z.to_nat idx := rc_size c]> sizes in
          let idx' := idx + 1 in
          if n <=? idx' then (idx', offs', sizes')
          else leafFill tid start end_ cs' n idx' offs' sizes'
      | _ => leafFill tid start end_ cs' n idx offs sizes
      end
  end.

Definition overlapsLeaf (node : option bwRTreeNode_t) (tid start end_ : Z)
  : option bwOverlapBlock_t :=
  match node with
  | Some (RLeaf cs) =>
      let n := leafCount tid start end_ cs 0 in
      if n =? 0 then Some emptyOverlapBlock
      else
        let '(idx, offs, sizes) :=
          leafFill tid start end_ cs n 0
            (replicate (Z.to_nat n) 0) (replicate (Z.to_nat n) 0) in
        if idx =? n
        then Some {| ob_N := n; ob_Offset := offs; ob_Size := sizes |}
        else None
  | _ => None
  end.

Definition mergeOverlapBlocks (b1 b2 : option bwOverlapBlock_t)
  : option bwOverlapBlock_t :=
  match b2 with
  | None => b1
  | Some o2 =>
      if ob_N o2 =? 0 then b1
      else
        match b1 with
        | None => b2
        | Some o1 =>
            if ob_N o1 =? 0 then b2
            else Some {| ob_N := ob_N o1 + ob_N o2;
                         ob_Offset := ob_Offset o1 ++ ob_Offset o2;
                         ob_Size := ob_Size o1 ++ ob_Size o2 |}
        end
  end.

(** [overlapsNonLeaf] is only ever entered on a branch: [walkRTreeNodes]
    and the loop itself dispatch on [IsLeaf].  [None] is the [nil] the Go
    function returns when a child fails to load or a sub-walk fails. *)
Fixpoint overlapsNonLeaf (node : bwRTreeNode_t) (tid start end_ : Z)
    {struct node} : option bwOverlapBlock_t :=
  match node with
  | RLeaf _ => None
  | RBranch cs =>
      (fix loop (cs : list (rchild * option bwRTreeNode_t))
           (output : option bwOverlapBlock_t) {struct cs}
         : option bwOverlapBlock_t :=
         match cs with
         | [] => output
         | (c, child) :: cs' =>
             match nonLeafChild tid start end_ c with
             | Accept =>
                 match child with
                 | None => None
                 | Some ch =>
                     let nodeBlocks :=
                       match ch with
                       | RLeaf _ => overlapsLeaf (Some ch) tid start end_
                       | RBranch _ => overlapsNonLeaf ch tid start end_
                       end in
                     match nodeBlocks with
                     | None => None
                     | Some _ =>
                         match mergeOverlapBlocks output nodeBlocks with
                         | None => None
                         | Some o => loop cs' (Some o)
                         end
                     end
                 end
             | _ => loop cs' output
             end
         end) cs (Some emptyOverlapBlock)
  end.

Definition walkRTreeNodes (root : bwRTreeNode_t) (tid start end_ : Z)
  : option bwOverlapBlock_t :=
  match root with
  | RLeaf _ => overlapsLeaf (Some root) tid start end_
  | RBranch _ => overlapsNonLeaf root tid start end_
  end.

(** ** The resource layer ([URL]) *)

Inductive bigWigFileType : Type := BWG_FILE | BWG_HTTP | BWG_HTTPS | BWG_FTP.

(** [io.EOF], or any other error value. *)
Inductive error : Type := EOF | ErrOther.

(** An [*os.File] as [Read] and [Seek] see it: the bytes of the file and
    the offset of the descriptor. *)
Record os_File : Type := { f_data : list byte; f_pos : Z }.

(** [whence] values of [io.Seeker]. *)
Definition SeekStart : Z := 0.
Definition SeekCurrent : Z := 1.
Definition SeekEnd : Z := 2.

Definition File_Read (f : os_File) (n : Z) : (list byte * option error) * os_File :=
  if n <=? 0 then (([], None), f)
  else if lenZ (f_data f) <=? f_pos f then (([], Some EOF), f)
  else
    let got := take (Z.to_nat n) (drop (Z.to_nat (f_pos f)) (f_data f)) in
    ((got, None), {| f_data := f_data f; f_pos := f_pos f + lenZ got |}).

Definition File_Seek (f : os_File) (offset whence : Z) : (Z * option error) * os_File :=
  let target :=
    if whence =? SeekStart then Some offset
    else if whence =? SeekCurrent then Some (f_pos f + offset)
    else if whence =? SeekEnd then Some (lenZ (f_data f) + offset)
    else None in
  match target with
  | Some t =>
      if t <? 0 then ((0, Some ErrOther), f)
      else ((t, None), {| f_data := f_data f; f_pos := t |})
  | None => ((0, Some ErrOther), f)
  end.

(** [URL].  For a remote resource [client] and [url] are represented by
    [server]: the body answered to a GET with header
    [Range: bytes=p-(p+65535)], or [None] when the request fails.  [Open]
    always installs a client on the remote variants, so the nil-client
    branch of [fillBuffer] is not represented. *)
Record URL : Type := {
  rs : os_File;
  server : Z -> option (list byte);
  buf : list byte;
  Type_ : bigWigFileType;
  FilePos : Z
}.

Definition set_rs (u : URL) (f : os_File) : URL :=
  {| rs := f; server := server u; buf := buf u; Type_ := Type_ u;
     FilePos := FilePos u |}.

Definition set_remote (u : URL) (pos : Z) (b : list byte) : URL :=
  {| rs := rs u; server := server u; buf := b; Type_ := Type_ u;
     FilePos := pos |}.

Definition is_local (u : URL) : bool :=
  match Type_ u with BWG_FILE => true | _ => false end.

Definition fillBuffer (u : URL) : option error * URL :=
  match server u (FilePos u) with
  | None => (Some ErrOther, u)
  | Some body => (None, set_remote u (FilePos u + lenZ body) body)
  end.

(** [bytes.Buffer.Read] on the unread part [b] of the buffer. *)
Definition Buffer_Read (b : list byte) (n : Z)
  : (list byte * option error) * list byte :=
  match b with
  | [] => if n <=? 0 then (([], None), b) else (([], Some EOF), b)
  | _ => ((take (Z.to_nat n) b, None), drop (Z.to_nat n) b)
  end.

(** [u.Read(p)] with [len(p) = n]: the bytes stored in [p] and the error. *)
Definition URL_Read (u : URL) (n : Z) : (list byte * option error) * URL :=
  if is_local u then
    let '(r, f) := File_Read (rs u) n in (r, set_rs u f)
  else
    let '(err, u1) :=
      match buf u with
      | [] => fillBuffer u
      | _ => (None, u)
      end in
    match err with
    | Some e => (([], Some e), u1)
    | None =>
        let '(r, b) := Buffer_Read (buf u1) n in
        (r, set_remote u1 (FilePos u1) b)
    end.

Definition URL_Seek (u : URL) (offset whence : Z) : (Z * option error) * URL :=
  if is_local u then
    let '(r, f) := File_Seek (rs u) offset whence in (r, set_rs u f)
  else
    let absPos :=
      if whence =? SeekStart then Some offset
      else if whence =? SeekCurrent then Some (FilePos u + offset)
      else None in
    match absPos with
    | Some a => ((a, None), set_remote u a [])
    | None => ((0, Some ErrOther), u)
    end.

(** [bwSetPos]: 0 on success, -1 on error. *)
Definition bwSetPos (u : URL) (pos : Z) : Z * URL :=
  match URL_Seek u (int64_of_u64 pos) SeekStart with
  | ((_, Some _), u') => (-1, u')
  | ((_, None), u') => (0, u')
  end.

Definition bwTell (u : URL) : Z * URL :=
  let '((pos, _), u') := URL_Seek u 0 SeekCurrent in (u64 pos, u').

(** The spec's [seek(Start, tell())]. *)
Definition seek_tell (u : URL) : (Z * option error) * URL :=
  let '(pos, u1) := bwTell u in URL_Seek u1 (int64_of_u64 pos) SeekStart.

(** A well-behaved range server over fixed contents. *)
Definition range_server (content : list byte) (p : Z) : option (list byte) :=
  if p <? 0 then None
  else Some (take (Z.to_nat 65536) (drop (Z.to_nat p) content)).

Definition byte_of_Z (z : Z) : byte :=
  match Byte.of_N (Z.to_N (z mod 256)) with
  | Some b => b
  | None => x00
  end.

Definition open_remote (content : list byte) : URL :=
  {| rs := {| f_data := []; f_pos := 0 |}; server := range_server content;
     buf := []; Type_ := BWG_HTTP; FilePos := 0 |}.

Definition open_local (content : list byte) : URL :=
  {| rs := {| f_data := content; f_pos := 0 |}; server := fun _ => None;
     buf := []; Type_ := BWG_FILE; FilePos := 0 |}.

(** ** Floating point *)

Abbreviation f32 := spec_float (only parsing).
Abbreviation f64 := spec_float (only parsing).

Definition round32 (m e : Z) (s : bool) : f32 := binary_normalize 24 128 m e s.
Definition round64 (m e : Z) (s : bool) : f64 := binary_normalize 53 1024 m e s.

(** [math.Float32frombits] *)
Definition Float32frombits (bits : Z) : f32 :=
  let s := Z.testbit bits 31 in
  let e := (bits / 2 ^ 23) mod 2 ^ 8 in
  let m := bits mod 2 ^ 23 in
  if e =? 0 then
    match m with
    | Zpos p => S754_finite s p (-149)
    | _ => S754_zero s
    end
  else if e =? 255 then
    if m =? 0 then S754_infinity s else S754_nan
  else
    match m + 2 ^ 23 with
    | Zpos p => S754_finite s p (e - 150)
    | _ => S754_nan
    end.

(** [float64(x)] for a [float32] [x] (exact) and [float32(x)] for a
    [float64] [x] (rounded). *)
Definition f64_of_f32 (x : f32) : f64 :=
  match x with
  | S754_finite s m e => round64 (cond_Zopp s (Zpos m)) e s
  | _ => x
  end.

Definition f32_of_f64 (x : f64) : f32 :=
  match x with
  | S754_finite s m e => round32 (cond_Zopp s (Zpos m)) e s
  | _ => x
  end.

(** [float64(n)] for an integer [n]. *)
Definition f64_of_Z (n : Z) : f64 := round64 n 0 false.

(** [uint32(x)] for a [float64] [x]: truncation toward zero.  Go leaves
    the result implementation-dependent when the truncated value does not
    fit; the model follows the amd64 code generator (64-bit truncating
    conversion, low 32 bits kept, and 0 for NaN, infinities and values
    outside the 64-bit range). *)
Definition uint32_of_f64 (x : f64) : Z :=
  match x with
  | S754_finite s m e =>
      let v := cond_Zopp s (Zpos m) in
      let t := if e <? 0 then Z.quot v (2 ^ (- e)) else v * 2 ^ e in
      if (- 2 ^ 63 <=? t) && (t <? 2 ^ 63) then u32 t else 0
  | _ => 0
  end.

Definition isNaN (x : spec_float) : bool :=
  match x with S754_nan => true | _ => false end.

(** [float32(math.NaN())], [float32(math.Inf(1))], [float32(math.Inf(-1))]
    and the zero value of a float variable. *)
Definition f32_NaN : f32 := S754_nan.
Definition f32_posInf : f32 := S754_infinity false.
Definition f32_negInf : f32 := S754_infinity true.
Definition f_zero : spec_float := S754_zero false.

Definition f64_add : f64 -> f64 -> f64 := SFadd 53 1024.
Definition f64_mul : f64 -> f64 -> f64 := SFmul 53 1024.
Definition f64_div : f64 -> f64 -> f64 := SFdiv 53 1024.
(** [a < b] and [a > b] on floats; both are false when an operand is NaN. *)
Definition f_lt (a b : spec_float) : bool := SFltb a b.
Definition f_gt (a b : spec_float) : bool := SFltb b a.

(** ** Interval containers *)

Record bwOverlappingIntervals_t : Type := {
  iv_L : Z;
  iv_M : Z;
  iv_Start : list Z;
  iv_End : list Z;
  iv_Value : list f32
}.

Definition emptyIntervals : bwOverlappingIntervals_t :=
  {| iv_L := 0; iv_M := 0; iv_Start := []; iv_End := []; iv_Value := [] |}.

Definition roundup (v : Z) : Z :=
  let v := u32 (v - 1) in
  let v := Z.lor v (Z.shiftr v 1) in
  let v := Z.lor v (Z.shiftr v 2) in
  let v := Z.lor v (Z.shiftr v 4) in
  let v := Z.lor v (Z.shiftr v 8) in
  let v := Z.lor v (Z.shiftr v 16) in
  u32 (v + 1).

(** [dst := make([]T, n); copy(dst, src)] *)
Definition make_copy {A} (zero : A) (n : Z) (src : list A) : list A :=
  take (Z.to_nat n) src ++ replicate (Z.to_nat n - length src) zero.

(** [pushIntervals].  The three stores [o.Start[o.L] = ...] panic when
    [o.L] is not a valid index of the (possibly regrown) slices. *)
Definition pushIntervals (o : bwOverlappingIntervals_t) (start end_ : Z)
    (value : f32) : outcome bwOverlappingIntervals_t :=
  let o1 :=
    if iv_M o <=? u32 (iv_L o + 1) then
      let newM := roundup (u32 (iv_L o + 1)) in
      {| iv_L := iv_L o; iv_M := newM;
         iv_Start := make_copy 0 newM (iv_Start o);
         iv_End := make_copy 0 newM (iv_End o);
         iv_Value := make_copy f_zero newM (iv_Value o) |}
    else o in
  if (iv_L o1 <? lenZ (iv_Start o1)) && (iv_L o1 <? lenZ (iv_End o1))
     && (iv_L o1 <? lenZ (iv_Value o1))
  then
    Ok {| iv_L := u32 (iv_L o1 + 1); iv_M := iv_M o1;
          iv_Start := <[Z.to_nat (iv_L o1) := start]> (iv_Start o1);
          iv_End := <[Z.to_nat (iv_L o1) := end_]> (iv_End o1);
          iv_Value := <[Z.to_nat (iv_L o1) := value]> (iv_Value o1) |}
  else Panic.

(** The [L] live entries of a container, as (start, end, value) triples. *)
Definition interval : Type := Z * Z * f32.

Definition zip3 (a b : list Z) (c : list f32) : list interval :=
  zip (zip a b) c.

Definition intervals_of (o : bwOverlappingIntervals_t) : list interval :=
  take (Z.to_nat (iv_L o)) (zip3 (iv_Start o) (iv_End o) (iv_Value o)).

(** ** Data blocks *)

Record bwDataHeader_t : Type := {
  dh_Tid : Z;
  dh_Start : Z;
  dh_End : Z;
  dh_Step : Z;
  dh_Span : Z;
  dh_Type : Z;
  dh_NItems : Z
}.

(** [bwFillDataHdr]: [None] is the error for a slice shorter than 24. *)
Definition bwFillDataHdr (b : list byte) : option bwDataHeader_t :=
  if lenZ b <? 24 then None
  else Some {| dh_Tid := le_uint32 b;
               dh_Start := le_uint32 (drop 4 b);
               dh_End := le_uint32 (drop 8 b);
               dh_Step := le_uint32 (drop 12 b);
               dh_Span := le_uint32 (drop 16 b);
               dh_Type := match drop 20 b with x :: _ => byteZ x | [] => 0 end;
               dh_NItems := le_uint16 (drop 22 b) |}.

(** The [switch hdr.Type] of the record loop.  The result is the state
    the loop body continues with: the running [start], [end], [value] and
    the rest of the payload.  A [break] inside a case only leaves the
    [switch]: the body goes on with [end = 0] and [value = 0] and with
    [start] and [p] untouched.  [None] is the [return nil] of the default
    case. *)
Definition decodeItem (hdr : bwDataHeader_t) (start : Z) (p : list byte)
  : option (Z * Z * f32 * list byte) :=
  if dh_Type hdr =? 1 then
    if lenZ p <? 12 then Some (start, 0, f_zero, p)
    else Some (le_uint32 p, le_uint32 (drop 4 p),
               Float32frombits (le_uint32 (drop 8 p)), drop 12 p)
  else if dh_Type hdr =? 2 then
    if lenZ p <? 8 then Some (start, 0, f_zero, p)
    else
      let start' := le_uint32 p in
      Some (start', u32 (start' + dh_Span hdr),
            Float32frombits (le_uint32 (drop 4 p)), drop 8 p)
  else if dh_Type hdr =? 3 then
    if lenZ p <? 4 then Some (start, 0, f_zero, p)
    else
      let start' := u32 (start + dh_Step hdr) in
      Some (start', u32 (start' + dh_Span hdr),
            Float32frombits (le_uint32 p), drop 4 p)
  else None.

(** The record loop [for j := uint16(0); j < hdr.NItems; j++], with [n]
    the number of iterations still to run. *)
Fixpoint coreItems (hdr : bwDataHeader_t) (ostart oend : Z) (n : nat)
    (start : Z) (p : list byte) (output : bwOverlappingIntervals_t)
  : outcome bwOverlappingIntervals_t :=
  match n with
  | O => Ok output
  | S n' =>
      match decodeItem hdr start p with
      | None => Nil
      | Some (start', end_, value, p') =>
          if (end_ <=? ostart) || (oend <=? start')
          then coreItems hdr ostart oend n' start' p' output
          else
            output' <- pushIntervals output start' end_ value ;;
            coreItems hdr ostart oend n' start' p' output'
      end
  end.

(** ** Files *)

Record chromList : Type := {
  NKeys : Z;
  Chrom : list string
}.

(** [bwZoomHdr_t].  [zh_Idx] holds, per level, the root that
    [bwReadZoomIndex] loads from [IndexOffset] on first use ([None] when
    that load fails). *)
Record bwZoomHdr_t : Type := {
  zh_Level : list Z;
  zh_IndexOffset : list Z;
  zh_Idx : list (option bwRTreeNode_t)
}.

Record bigWigHdr_t : Type := {
  bufsize : Z;
  ZoomHdrs : list (option bwZoomHdr_t)
}.

(** [bigWigFile_t] without its [URL], which is the state threaded through
    the operations below.  [Idx] is the root of the main index as loaded
    by [readRTreeIdx] and [bwGetRTreeNode] ([None] when that load fails);
    [bw_Type] is 0 for bigWig. *)
Record bigWigFile_t : Type := {
  Hdr : bigWigHdr_t;
  Cl : chromList;
  Idx : option bwRTreeNode_t;
  bw_Type : Z
}.

Fixpoint bwGetTid_loop (names : list string) (chrom : string) (n : nat) (i : Z)
  : outcome Z :=
  match n with
  | O => Ok TID_NONE
  | S n' =>
      match names !! Z.to_nat i with
      | None => Panic
      | Some c =>
          if String.eqb c chrom then Ok i
          else bwGetTid_loop names chrom n' (i + 1)
      end
  end.

Definition bwGetTid (fp : bigWigFile_t) (chrom : string) : outcome Z :=
  if String.eqb chrom "" then Ok TID_NONE
  else bwGetTid_loop (Chrom (Cl fp)) chrom (Z.to_nat (u32 (NKeys (Cl fp)))) 0.

(** [bwGetOverlappingBlocks]: [Nil] is the nil block list. *)
Definition bwGetOverlappingBlocks (fp : bigWigFile_t) (chrom : string)
    (start end_ : Z) : outcome bwOverlapBlock_t :=
  tid <- bwGetTid fp chrom ;;
  if tid =? TID_NONE then Nil
  else
    match Idx fp with
    | None => Nil
    | Some root =>
        match walkRTreeNodes root tid start end_ with
        | None => Nil
        | Some o => Ok o
        end
    end.

(** ** Operations on the resource: a state and outcome monad *)

Definition M (A : Type) : Type := URL -> outcome A * URL.

Definition ret {A} (a : A) : M A := fun u => (Ok a, u).
Definition fail {A} : M A := fun u => (Nil, u).
Definition panic {A} : M A := fun u => (Panic, u).
Definition lift {A} (r : outcome A) : M A := fun u => (r, u).

Definition bind {A B} (m : M A) (k : A -> M B) : M B :=
  fun u =>
    match m u with
    | (Ok a, u') => k a u'
    | (Nil, u') => (Nil, u')
    | (Panic, u') => (Panic, u')
    end.

(** A call whose nil result is kept as a value instead of ending the
    caller. *)
Definition nilable {A} (m : M A) : M (option A) :=
  fun u =>
    match m u with
    | (Ok a, u') => (Ok (Some a), u')
    | (Nil, u') => (Ok None, u')
    | (Panic, u') => (Panic, u')
    end.

Notation "x <~ m ;; k" := (bind m (fun x => k))
  (at level 100, m at next level, right associativity) : outcome_scope.

(** Largest slice length [make([]byte, n)] accepts (64-bit platforms). *)
Definition maxAlloc : Z := 2 ^ 48.

Section Decoder.

(** [decompressZlibDebug] / [decompressZlibSimple]: the inflated bytes,
    or [None] when [compress/zlib] reports an error. *)
Variable zlib : list byte -> option (list byte).

(** The head of both block loops: seek to the block, read [size] bytes,
    inflate them when the file is compressed. *)
Definition readBlock (compressed : bool) (off size : Z) : M (list byte) :=
  fun u =>
    let '(rc, u1) := bwSetPos u off in
    if negb (rc =? 0) then (Nil, u1)
    else if maxAlloc <? size then (Panic, u1)
    else
      let '((data, err), u2) := URL_Read u1 size in
      match err with
      | Some _ => (Nil, u2)
      | None =>
          if negb (lenZ data =? size) then (Nil, u2)
          else if compressed then
            match zlib data with
            | Some d => (Ok d, u2)
            | None => (Nil, u2)
            end
          else (Ok data, u2)
      end.

(** The block loop [for i := uint64(0); i < o.N; i++] of
    [bwGetOverlappingIntervalsCore]; [n] iterations remain and [offs],
    [sizes] are [o.Offset[i:]], [o.Size[i:]]. *)
Fixpoint coreBlocks (compressed : bool) (tid ostart oend : Z) (n : nat)
    (offs sizes : list Z) (output : bwOverlappingIntervals_t)
  : M bwOverlappingIntervals_t :=
  match n with
  | O => ret output
  | S n' =>
      match offs, sizes with
      | off :: offs', sz :: sizes' =>
          uncompressed <~ readBlock compressed off sz ;;
          match bwFillDataHdr uncompressed with
          | None => fail
          | Some hdr =>
              if negb (dh_Tid hdr =? tid)
              then coreBlocks compressed tid ostart oend n' offs' sizes' output
              else
                output' <~ lift (coreItems hdr ostart oend
                                   (Z.to_nat (dh_NItems hdr)) (dh_Start hdr)
                                   (drop 24 uncompressed) output) ;;
                coreBlocks compressed tid ostart oend n' offs' sizes' output'
          end
      | _, _ => panic
      end
  end.

Definition bwGetOverlappingIntervalsCore (fp : bigWigFile_t)
    (o : option bwOverlapBlock_t) (tid ostart oend : Z)
  : M bwOverlappingIntervals_t :=
  match o with
  | None => ret emptyIntervals
  | Some o =>
      if ob_N o =? 0 then ret emptyIntervals
      else coreBlocks (0 <? bufsize (Hdr fp)) tid ostart oend
             (Z.to_nat (ob_N o)) (ob_Offset o) (ob_Size o) emptyIntervals
  end.

Definition bwGetOverlappingIntervals (fp : bigWigFile_t) (chrom : string)
    (start end_ : Z) : M bwOverlappingIntervals_t :=
  tid <~ lift (bwGetTid fp chrom) ;;
  if tid =? TID_NONE then fail
  else
    blocks <~ lift (bwGetOverlappingBlocks fp chrom start end_) ;;
    bwGetOverlappingIntervalsCore fp (Some blocks) tid start end_.

(** ** The block iterator *)

Record bbOverlappingEntries_t : Type := {
  bb_L : Z;
  bb_M : Z;
  bb_Start : list Z;
  bb_End : list Z;
  bb_Str : list string
}.

(** [bwOverlapIterator_t].  [Blocks] and [Data] are [interface{}] values:
    [None] is the nil interface, [Some None] an interface that holds a nil
    pointer (which compares unequal to [nil]). *)
Record bwOverlapIterator_t : Type := {
  it_Bw : bigWigFile_t;
  it_Tid : Z;
  it_Start : Z;
  it_End : Z;
  it_Offset : Z;
  it_BlocksPerIteration : Z;
  it_Blocks : option (option bwOverlapBlock_t);
  it_Intervals : option bwOverlappingIntervals_t;
  it_Entries : option bbOverlappingEntries_t;
  it_Data : option (option bwOverlappingIntervals_t)
}.

Definition with_N (o : bwOverlapBlock_t) (n : Z) : bwOverlapBlock_t :=
  {| ob_N := n; ob_Offset := ob_Offset o; ob_Size := ob_Size o |}.

(** [Ok None] is the nil iterator. *)
Definition bwOverlappingIntervalsIterator (fp : bigWigFile_t) (chrom : string)
    (start end_ blocksPerIteration : Z) : M (option bwOverlapIterator_t) :=
  tid <~ lift (bwGetTid fp chrom) ;;
  if tid =? TID_NONE then ret None
  else
    blocks <~ nilable (lift (bwGetOverlappingBlocks fp chrom start end_)) ;;
    match blocks with
    | Some b =>
        let n := ob_N b in
        let b' := if blocksPerIteration <? n then with_N b blocksPerIteration else b in
        intervals <~ nilable (bwGetOverlappingIntervalsCore fp (Some b') tid start end_) ;;
        ret (Some {| it_Bw := fp; it_Tid := tid; it_Start := start; it_End := end_;
                     it_Offset := blocksPerIteration;
                     it_BlocksPerIteration := blocksPerIteration;
                     it_Blocks := Some (Some b);
                     it_Intervals := intervals; it_Entries := None;
                     it_Data := Some intervals |})
    | None =>
        ret (Some {| it_Bw := fp; it_Tid := tid; it_Start := start; it_End := end_;
                     it_Offset := 0;
                     it_BlocksPerIteration := blocksPerIteration;
                     it_Blocks := Some None;
                     it_Intervals := None; it_Entries := None;
                     it_Data := Some None |})
    end.

Definition it_update (it : bwOverlapIterator_t) (offset : Z)
    (intervals : option bwOverlappingIntervals_t)
    (data : option (option bwOverlappingIntervals_t)) : bwOverlapIterator_t :=
  {| it_Bw := it_Bw it; it_Tid := it_Tid it; it_Start := it_Start it;
     it_End := it_End it; it_Offset := offset;
     it_BlocksPerIteration := it_BlocksPerIteration it;
     it_Blocks := it_Blocks it; it_Intervals := intervals; it_Entries := None;
     it_Data := data |}.

(** [bwIteratorNext].  The slice expressions
    [blocks.Offset[iter.Offset : iter.Offset+currentN]] panic when the upper
    bound exceeds the slice. *)
Definition bwIteratorNext (iter : option bwOverlapIterator_t)
  : M (option bwOverlapIterator_t) :=
  match iter with
  | None => ret None
  | Some it =>
      match it_Blocks it with
      | None | Some None => ret None
      | Some (Some blocks) =>
          if it_Offset it <? ob_N blocks then
            let n := ob_N blocks in
            let currentN :=
              if n <? u64 (it_Offset it + it_BlocksPerIteration it)
              then u64 (n - it_Offset it)
              else it_BlocksPerIteration it in
            let hi := u64 (it_Offset it + currentN) in
            if (hi <? it_Offset it) || (lenZ (ob_Offset blocks) <? hi)
               || (lenZ (ob_Size blocks) <? hi)
            then panic
            else
              let currentBlocks :=
                {| ob_N := currentN;
                   ob_Offset := take (Z.to_nat currentN)
                                  (drop (Z.to_nat (it_Offset it)) (ob_Offset blocks));
                   ob_Size := take (Z.to_nat currentN)
                                (drop (Z.to_nat (it_Offset it)) (ob_Size blocks)) |} in
              st <~
                (if bw_Type (it_Bw it) =? 0
                 then
                   intervals <~
                     nilable (bwGetOverlappingIntervalsCore (it_Bw it)
                                (Some currentBlocks) (it_Tid it) (it_Start it)
                                (it_End it)) ;;
                   ret (intervals, Some intervals)
                 else ret (None, None)) ;;
              let '(intervals, data) := st in
              let offset' := u64 (it_Offset it + it_BlocksPerIteration it) in
              match intervals with
              | None => ret None
              | Some _ => ret (Some (it_update it offset' intervals data))
              end
          else ret (Some (it_update it (it_Offset it) None None))
      end
  end.

(** The consumer loop [for iter.Data != nil { ...; iter = bwIteratorNext(iter) }]
    of [ReadBigWigSignal], run for at most [fuel] rounds.  [visit] is what
    the body takes from the current batch.  Reading [iter.Data] through a
    nil iterator panics; [Nil] reports that the fuel ran out. *)
Fixpoint iterLoop {A} (visit : bwOverlappingIntervals_t -> list A)
    (fuel : nat) (iter : option bwOverlapIterator_t) (acc : list A)
  : M (list A) :=
  match fuel with
  | O => fail
  | S fuel' =>
      match iter with
      | None => panic
      | Some it =>
          match it_Data it with
          | None => ret acc
          | Some _ =>
              let acc' :=
                match it_Intervals it with
                | Some intervals => acc ++ visit intervals
                | None => acc
                end in
              iter' <~ bwIteratorNext iter ;;
              iterLoop visit fuel' iter' acc'
          end
      end
  end.

(** All batches of an iterator, concatenated. *)
Definition iterIntervals (fuel : nat) (fp : bigWigFile_t) (chrom : string)
    (start end_ blocksPerIteration : Z) : M (list interval) :=
  iter <~ bwOverlappingIntervalsIterator fp chrom start end_ blocksPerIteration ;;
  iterLoop intervals_of fuel iter [].

(** [ReadBigWigSignal]: the body appends [intervals.Value...], the whole
    slice.  The nil result for a nil iterator is the empty list. *)
Definition ReadBigWigSignal (fuel : nat) (fp : bigWigFile_t) (chrom : string)
    (start end_ : Z) : M (list f32) :=
  iter <~ bwOverlappingIntervalsIterator fp chrom (u32 start) (u32 end_) 10 ;;
  match iter with
  | None => ret []
  | Some _ => iterLoop iv_Value fuel iter []
  end.

(** ** Per-base values *)

(** [for j := Start[i]; j < End[i]; j++] of the [includeNA] branch, with
    [n] iterations to go. *)
Fixpoint fillRange (start end_ : Z) (v : f32) (n : nat) (j : Z)
    (out : list f32) : list f32 :=
  match n with
  | O => out
  | S n' =>
      let out' :=
        if (j <? start) || (end_ <=? j) then out
        else <[Z.to_nat (j - start) := v]> out in
      fillRange start end_ v n' (j + 1) out'
  end.

(** [for i := uint32(0); i < intermediate.L; i++] of the [includeNA]
    branch. *)
Fixpoint valuesNA (start end_ : Z) (n : nat) (ss es : list Z) (vs : list f32)
    (out : list f32) : outcome (list f32) :=
  match n with
  | O => Ok out
  | S n' =>
      match ss, es with
      | s :: ss', e :: es' =>
          match vs with
          | v :: vs' =>
              valuesNA start end_ n' ss' es' vs'
                (fillRange start end_ v (Z.to_nat (e - s)) s out)
          | [] =>
              if Z.max s start <? Z.min e end_ then Panic
              else valuesNA start end_ n' ss' es' [] out
          end
      | _, _ => Panic
      end
  end.

(** First loop of the other branch: clamp in place, add up the widths. *)
Fixpoint clampIntervals (start end_ : Z) (n : nat) (ss es : list Z) (total : Z)
  : outcome (list Z * list Z * Z) :=
  match n with
  | O => Ok ([], [], total)
  | S n' =>
      match ss, es with
      | s :: ss', e :: es' =>
          let s1 := if s <? start then start else s in
          let e1 := if end_ <? e then end_ else e in
          r <- clampIntervals start end_ n' ss' es' (u32 (total + (e1 - s1))) ;;
          let '(cs, ce, t) := r in Ok (s1 :: cs, e1 :: ce, t)
      | _, _ => Panic
      end
  end.

Fixpoint emitRange (start end_ : Z) (v : f32) (n : nat) (j : Z)
    (st : Z * list Z * list f32) : outcome (Z * list Z * list f32) :=
  match n with
  | O => Ok st
  | S n' =>
      if (j <? start) || (end_ <=? j) then emitRange start end_ v n' (j + 1) st
      else
        let '(idx, os, ov) := st in
        if (idx <? lenZ os) && (idx <? lenZ ov) then
          emitRange start end_ v n' (j + 1)
            (u32 (idx + 1), <[Z.to_nat idx := j]> os, <[Z.to_nat idx := v]> ov)
        else Panic
  end.

Fixpoint valuesDefined (start end_ : Z) (ss es : list Z) (vs : list f32)
    (st : Z * list Z * list f32) : outcome (Z * list Z * list f32) :=
  match ss, es with
  | s :: ss', e :: es' =>
      match vs with
      | v :: vs' =>
          st' <- emitRange start end_ v (Z.to_nat (e - s)) s st ;;
          valuesDefined start end_ ss' es' vs' st'
      | [] => if s <? e then Panic else valuesDefined start end_ ss' es' [] st
      end
  | _, _ => Ok st
  end.

Definition bwGetValues (fp : bigWigFile_t) (chrom : string) (start end_ : Z)
    (includeNA : bool) : M bwOverlappingIntervals_t :=
  intermediate <~ bwGetOverlappingIntervals fp chrom start end_ ;;
  if includeNA then
    let length := u32 (end_ - start) in
    values <~ lift (valuesNA start end_ (Z.to_nat (iv_L intermediate))
                      (iv_Start intermediate) (iv_End intermediate)
                      (iv_Value intermediate)
                      (replicate (Z.to_nat length) f32_NaN)) ;;
    ret {| iv_L := length; iv_M := 0; iv_Start := []; iv_End := [];
           iv_Value := values |}
  else
    r <~ lift (clampIntervals start end_ (Z.to_nat (iv_L intermediate))
                 (iv_Start intermediate) (iv_End intermediate) 0) ;;
    let '(cs, ce, n) := r in
    st <~ lift (valuesDefined start end_ cs ce (iv_Value intermediate)
                  (0, replicate (Z.to_nat n) 0, replicate (Z.to_nat n) f_zero)) ;;
    let '(_, os, ov) := st in
    ret {| iv_L := n; iv_M := 0; iv_Start := os; iv_End := [];
           iv_Value := ov |}.

(** ** The zoom engine *)

Record bwSummary : Type := {
  s_ChromId : Z;
  s_Start : Z;
  s_End : Z;
  s_ValidCount : Z;
  s_MinVal : f32;
  s_MaxVal : f32;
  s_SumData : f32;
  s_SumSquares : f32
}.

(** The loop of [bwSelectBestZoomLevel] over [zhdr.Level[i:]]. *)
Fixpoint selectBestLoop (desiredReduction : Z) (levels : list Z) (i : Z)
    (bestIdx closestDiff : Z) : Z :=
  match levels with
  | [] => bestIdx
  | level :: levels' =>
      if level <=? desiredReduction then
        let diff := desiredReduction - level in
        if diff <? closestDiff
        then selectBestLoop desiredReduction levels' (i + 1) i diff
        else selectBestLoop desiredReduction levels' (i + 1) bestIdx closestDiff
      else selectBestLoop desiredReduction levels' (i + 1) bestIdx closestDiff
  end.

Definition bwSelectBestZoomLevel (zhdr : option bwZoomHdr_t)
    (desiredReduction : Z) : Z :=
  match zhdr with
  | None => -1
  | Some z =>
      if (desiredReduction <=? 1) || (lenZ (zh_Level z) =? 0) then -1
      else selectBestLoop desiredReduction (zh_Level z) 0 (-1) 4294967295
  end.

(** The loop of [bwGetBestZoomClosest].  Both operands are below [2^32],
    so [uint32(math.Abs(float64(int64(d) - int64(level))))] is the exact
    absolute difference. *)
Fixpoint selectClosestLoop (desiredReduction : Z) (levels : list Z) (i : Z)
    (bestIdx closestDiff : Z) : Z :=
  match levels with
  | [] => bestIdx
  | level :: levels' =>
      let diff := Z.abs (desiredReduction - level) in
      if diff <? closestDiff
      then selectClosestLoop desiredReduction levels' (i + 1) i diff
      else selectClosestLoop desiredReduction levels' (i + 1) bestIdx closestDiff
  end.

Definition bwGetBestZoomClosest (zhdr : option bwZoomHdr_t)
    (desiredReduction : Z) : Z :=
  match zhdr with
  | None => -1
  | Some z =>
      if lenZ (zh_Level z) =? 0 then -1
      else selectClosestLoop desiredReduction (zh_Level z) 0 (-1) 4294967295
  end.

(** The 32-byte records of one zoom block that pass the filter, in
    order; [n] is [len(data) / 32] still to read. *)
Fixpoint parseSummaries (tid start end_ : Z) (n : nat) (data : list byte)
  : list bwSummary :=
  match n with
  | O => []
  | S n' =>
      if lenZ data <? 32 then []
      else
        let sum :=
          {| s_ChromId := le_uint32 data;
             s_Start := le_uint32 (drop 4 data);
             s_End := le_uint32 (drop 8 data);
             s_ValidCount := le_uint32 (drop 12 data);
             s_MinVal := Float32frombits (le_uint32 (drop 16 data));
             s_MaxVal := Float32frombits (le_uint32 (drop 20 data));
             s_SumData := Float32frombits (le_uint32 (drop 24 data));
             s_SumSquares := Float32frombits (le_uint32 (drop 28 data)) |} in
        let rest := parseSummaries tid start end_ n' (drop 32 data) in
        if (s_ChromId sum =? tid) && (s_Start sum <? end_) && (start <? s_End sum)
        then sum :: rest
        else rest
  end.

(** The block loop of [bwGetSummariesInRegion]. *)
Fixpoint summaryBlocks (compressed : bool) (tid start end_ : Z) (n : nat)
    (offs sizes : list Z) (summaries : list bwSummary) : M (list bwSummary) :=
  match n with
  | O => ret summaries
  | S n' =>
      match offs, sizes with
      | off :: offs', sz :: sizes' =>
          data <~ readBlock compressed off sz ;;
          summaryBlocks compressed tid start end_ n' offs' sizes'
            (summaries ++ parseSummaries tid start end_
                            (Z.to_nat (lenZ data / 32)) data)
      | _, _ => panic
      end
  end.

(** [bwGetSummariesInRegion]: [Nil] is a non-nil error, [Ok []] the
    [nil, nil] result. *)
Definition bwGetSummariesInRegion (fp : bigWigFile_t) (zoomIdx : Z)
    (chrom : string) (start end_ : Z) : M (list bwSummary) :=
  match ZoomHdrs (Hdr fp) with
  | [] => fail
  | None :: _ => panic
  | Some zhdr :: _ =>
      if (zoomIdx <? 0) || (lenZ (zh_Level zhdr) <=? zoomIdx) then fail
      else
        tid <~ lift (bwGetTid fp chrom) ;;
        if tid =? TID_NONE then fail
        else
          match zh_Idx zhdr !! Z.to_nat zoomIdx,
                zh_IndexOffset zhdr !! Z.to_nat zoomIdx with
          | Some cached, Some indexOffset =>
              if indexOffset =? 0 then fail
              else
                match cached with
                | None => fail
                | Some root =>
                    match walkRTreeNodes root tid start end_ with
                    | None => ret []
                    | Some blocks =>
                        if ob_N blocks =? 0 then ret []
                        else summaryBlocks (0 <? bufsize (Hdr fp)) tid start end_
                               (Z.to_nat (ob_N blocks)) (ob_Offset blocks)
                               (ob_Size blocks) []
                    end
                end
          | _, _ => panic
          end
  end.

Definition max32 (a b : Z) : Z := if b <? a then a else b.
Definition min32 (a b : Z) : Z := if a <? b then a else b.

(** Accumulators of one output bin: [sumData], [validCount] (or [count]),
    [minVal], [maxVal]. *)
Record binAcc : Type := {
  acc_sumData : f64;
  acc_count : Z;
  acc_minVal : f32;
  acc_maxVal : f32
}.

Definition binAcc0 : binAcc :=
  {| acc_sumData := f_zero; acc_count := 0;
     acc_minVal := f32_posInf; acc_maxVal := f32_negInf |}.

(** Body of [for _, sum := range summaries] in [bwGetValuesFromZoom]. *)
Definition zoomStep (binStart binEnd : Z) (a : binAcc) (sum : bwSummary) : binAcc :=
  if (s_End sum <=? binStart) || (binEnd <=? s_Start sum) then a
  else
    let overlapStart := max32 (s_Start sum) binStart in
    let overlapEnd := min32 (s_End sum) binEnd in
    let overlap := u32 (overlapEnd - overlapStart) in
    if overlap =? 0 then a
    else
      let sumWidth := u32 (s_End sum - s_Start sum) in
      let overlapFactor := f64_div (f64_of_Z overlap) (f64_of_Z sumWidth) in
      {| acc_sumData :=
           f64_add (acc_sumData a)
             (f64_mul (f64_of_f32 (s_SumData sum)) overlapFactor);
         acc_count :=
           u32 (acc_count a
                + uint32_of_f64 (f64_mul (f64_of_Z (s_ValidCount sum)) overlapFactor));
         acc_minVal :=
           if f_lt (s_MinVal sum) (acc_minVal a) then s_MinVal sum else acc_minVal a;
         acc_maxVal :=
           if f_gt (s_MaxVal sum) (acc_maxVal a) then s_MaxVal sum else acc_maxVal a |}.

Definition zoomAccumulate (binStart binEnd : Z) (summaries : list bwSummary)
  : binAcc :=
  fold_left (zoomStep binStart binEnd) summaries binAcc0.

(** The [switch summaryType] of [bwGetValuesFromZoom]. *)
Definition zoomBinValue (summaryType : string) (numBins start end_ : Z)
    (a : binAcc) : f32 :=
  let mean := f32_of_f64 (f64_div (acc_sumData a) (f64_of_Z (acc_count a))) in
  if String.eqb summaryType "mean" || String.eqb summaryType "average" then mean
  else if String.eqb summaryType "max" || String.eqb summaryType "maximum"
  then acc_maxVal a
  else if String.eqb summaryType "min" || String.eqb summaryType "minimum"
  then acc_minVal a
  else if String.eqb summaryType "coverage" then
    let covFactor := f64_div (f64_of_Z numBins) (f64_of_Z (u32 (end_ - start))) in
    f32_of_f64 (f64_mul covFactor (f64_of_Z (acc_count a)))
  else if String.eqb summaryType "sum" then f32_of_f64 (acc_sumData a)
  else mean.

Definition binBound (start : Z) (binSize : f64) (i : Z) : Z :=
  u32 (start + uint32_of_f64 (f64_mul (f64_of_Z i) binSize)).

(** [for i := 0; i < numBins; i++] of [bwGetValuesFromZoom]. *)
Fixpoint zoomBins (summaryType : string) (numBins start end_ : Z)
    (binSize : f64) (summaries : list bwSummary) (n : nat) (i : Z)
    (values : list f32) : list f32 :=
  match n with
  | O => values
  | S n' =>
      let binStart := binBound start binSize i in
      let binEnd := binBound start binSize (i + 1) in
      let a := zoomAccumulate binStart binEnd summaries in
      let values' :=
        if 0 <? acc_count a
        then <[Z.to_nat i := zoomBinValue summaryType numBins start end_ a]> values
        else values in
      zoomBins summaryType numBins start end_ binSize summaries n' (i + 1) values'
  end.

(** [make([]float32, numBins)] *)
Definition makeValues (numBins : Z) : outcome (list f32) :=
  if (numBins <? 0) || (maxAlloc <? 4 * numBins) then Panic
  else Ok (replicate (Z.to_nat numBins) f32_NaN).

Definition binSizeOf (numBins start end_ : Z) : f64 :=
  f64_div (f64_of_Z (u32 (end_ - start))) (f64_of_Z numBins).

Definition bwGetValuesFromZoom (fp : bigWigFile_t) (zoomIdx : Z) (chrom : string)
    (start end_ numBins : Z) (summaryType : string) : M (list f32) :=
  summaries <~ bwGetSummariesInRegion fp zoomIdx chrom start end_ ;;
  values <~ lift (makeValues numBins) ;;
  match summaries with
  | [] => ret values
  | _ =>
      ret (zoomBins summaryType numBins start end_ (binSizeOf numBins start end_)
             summaries (Z.to_nat numBins) 0 values)
  end.

(** Body of the record loop of [bwGetValuesFromRaw] on interval
    [(s, e, v)]. *)
Definition rawStep (binStart binEnd : Z) (a : binAcc) (r : interval) : binAcc :=
  let '(s, e, v) := r in
  if (e <=? binStart) || (binEnd <=? s) then a
  else
    let overlapStart := max32 s binStart in
    let overlapEnd := min32 e binEnd in
    let overlap := u32 (overlapEnd - overlapStart) in
    if 0 <? overlap then
      {| acc_sumData :=
           f64_add (acc_sumData a) (f64_mul (f64_of_f32 v) (f64_of_Z overlap));
         acc_count := u32 (acc_count a + overlap);
         acc_minVal := if f_lt v (acc_minVal a) then v else acc_minVal a;
         acc_maxVal := if f_gt v (acc_maxVal a) then v else acc_maxVal a |}
    else a.

(** [for j := uint32(0); j < intervals.L; j++] of [bwGetValuesFromRaw]. *)
Fixpoint rawAccumulate (binStart binEnd : Z) (n : nat) (ss es : list Z)
    (vs : list f32) (a : binAcc) : outcome binAcc :=
  match n with
  | O => Ok a
  | S n' =>
      match ss, es with
      | s :: ss', e :: es' =>
          match vs with
          | v :: vs' =>
              rawAccumulate binStart binEnd n' ss' es' vs'
                (rawStep binStart binEnd a (s, e, v))
          | [] =>
              if Z.max s binStart <? Z.min e binEnd then Panic
              else rawAccumulate binStart binEnd n' ss' es' [] a
          end
      | _, _ => Panic
      end
  end.

(** The [switch summaryType] of [bwGetValuesFromRaw]. *)
Definition rawBinValue (summaryType : string) (numBins start end_ : Z)
    (a : binAcc) : f32 :=
  let mean := f32_of_f64 (f64_div (acc_sumData a) (f64_of_Z (acc_count a))) in
  if String.eqb summaryType "mean" || String.eqb summaryType "average" then mean
  else if String.eqb summaryType "max" || String.eqb summaryType "maximum"
  then acc_maxVal a
  else if String.eqb summaryType "min" || String.eqb summaryType "minimum"
  then acc_minVal a
  else if String.eqb summaryType "coverage" then
    let covFactor := f64_div (f64_of_Z numBins) (f64_of_Z (u32 (end_ - start))) in
    f32_of_f64 (f64_mul covFactor (f64_of_Z (acc_count a)))
  else if String.eqb summaryType "sum" then f32_of_f64 (acc_sumData a)
  else mean.

Fixpoint rawBins (summaryType : string) (numBins start end_ : Z)
    (binSize : f64) (intervals : bwOverlappingIntervals_t) (n : nat) (i : Z)
    (values : list f32) : outcome (list f32) :=
  match n with
  | O => Ok values
  | S n' =>
      let binStart := binBound start binSize i in
      let binEnd := binBound start binSize (i + 1) in
      a <- rawAccumulate binStart binEnd (Z.to_nat (iv_L intervals))
             (iv_Start intervals) (iv_End intervals) (iv_Value intervals) binAcc0 ;;
      let values' :=
        if 0 <? acc_count a
        then <[Z.to_nat i := rawBinValue summaryType numBins start end_ a]> values
        else values in
      rawBins summaryType numBins start end_ binSize intervals n' (i + 1) values'
  end.

Definition bwGetValuesFromRaw (fp : bigWigFile_t) (chrom : string)
    (start end_ numBins : Z) (summaryType : string) : M (list f32) :=
  intervals <~ nilable (bwGetOverlappingIntervals fp chrom start end_) ;;
  values <~ lift (makeValues numBins) ;;
  match intervals with
  | None => ret values
  | Some intervals =>
      if iv_L intervals =? 0 then ret values
      else
        lift (rawBins summaryType numBins start end_
                (binSizeOf numBins start end_) intervals (Z.to_nat numBins) 0
                values)
  end.

Definition bwGetValuesAutoZoom (fp : bigWigFile_t) (chrom : string)
    (start end_ numBins : Z) (summaryType : string) : M (list f32) :=
  match ZoomHdrs (Hdr fp) with
  | [] | None :: _ => bwGetValuesFromRaw fp chrom start end_ numBins summaryType
  | Some zhdr :: _ =>
      let baseSize := u32 (end_ - start) in
      if u32 numBins =? 0 then panic
      else
        let desiredReduction := baseSize / u32 numBins in
        let desiredReduction := if desiredReduction <? 2 then 2 else desiredReduction in
        let bestIdx := bwSelectBestZoomLevel (Some zhdr) desiredReduction in
        if 0 <=? bestIdx
        then bwGetValuesFromZoom fp bestIdx chrom start end_ numBins summaryType
        else bwGetValuesFromRaw fp chrom start end_ numBins summaryType
  end.

(** One goroutine of [GetZoomValues]: [for j := s; j < e; j++]. *)
Fixpoint nanToZero (n : nat) (j : Z) (values : list f32) : list f32 :=
  match n with
  | O => values
  | S n' =>
      let values' :=
        match values !! Z.to_nat j with
        | Some v =>
            if isNaN (f64_of_f32 v) then <[Z.to_nat j := f_zero]> values
            else values
        | None => values
        end in
      nanToZero n' (j + 1) values'
  end.

(** The loop that starts the goroutines, [for i := 0; i < numCPU; i++].
    The goroutines write disjoint index ranges and are all joined by
    [wg.Wait()], so their effect is that of running them in turn. *)
Fixpoint nanChunks (chunkSize n : Z) (k : nat) (i : Z) (values : list f32)
  : list f32 :=
  match k with
  | O => values
  | S k' =>
      let startIdx := i * chunkSize in
      let endIdx := if n <? startIdx + chunkSize then n else startIdx + chunkSize in
      if n <=? startIdx then values
      else nanChunks chunkSize n k' (i + 1)
             (nanToZero (Z.to_nat (endIdx - startIdx)) startIdx values)
  end.

(** [GetZoomValues]; [numCPU] is [runtime.NumCPU()]. *)
Definition GetZoomValues (numCPU : Z) (fp : bigWigFile_t) (chrom : string)
    (start end_ numBins : Z) (useClosest : bool) (desiredReduction : Z)
  : M (list f32) :=
  let IndexZoomModel :=
    if useClosest then bwGetBestZoomClosest else bwSelectBestZoomLevel in
  match ZoomHdrs (Hdr fp) with
  | [] => fail
  | zhdr :: _ =>
      let zoomIdx := IndexZoomModel zhdr (u32 desiredReduction) in
      if zoomIdx <? 0 then fail
      else
        values <~ bwGetValuesFromZoom fp zoomIdx chrom (u32 start) (u32 end_)
                    numBins "mean" ;;
        let n := lenZ values in
        if n =? 0 then ret values
        else if numCPU =? 0 then panic
        else
          let chunkSize := Z.quot (n + numCPU - 1) numCPU in
          ret (nanChunks chunkSize n (Z.to_nat numCPU) 0 values)
  end.

End Decoder.

(** ** Properties used in the statements *)

(** Shape of a container built by [pushIntervals]: the three slices have
    [M] entries and the live part fits. *)
Definition wf_intervals (o : bwOverlappingIntervals_t) : Prop :=
  0 <= iv_L o <= iv_M o /\ iv_M o <= 2 ^ 31 /\
  lenZ (iv_Start o) = iv_M o /\ lenZ (iv_End o) = iv_M o /\
  lenZ (iv_Value o) = iv_M o.

(** Two states of the same resource: same variant, same file bytes, same
    server; the read position and the buffer may differ. *)
Definition same_resource (u u' : URL) : Prop :=
  Type_ u = Type_ u' /\ f_data (rs u) = f_data (rs u') /\ server u = server u'.

(** The query filter of the record loop. *)
Definition overlapsQuery (ostart oend : Z) (r : interval) : bool :=
  let '(s, e, _) := r in (ostart <? e) && (s <? oend).

(** Whether the next record of the payload is cut short. *)
Definition truncatedItem (hdr : bwDataHeader_t) (p : list byte) : bool :=
  ((dh_Type hdr =? 1) && (lenZ p <? 12))
  || ((dh_Type hdr =? 2) && (lenZ p <? 8))
  || ((dh_Type hdr =? 3) && (lenZ p <? 4)).

(** The records the loop decodes in [n] rounds, before the query filter:
    one triple per round whose record is complete. *)
Fixpoint decodedRecords (hdr : bwDataHeader_t) (n : nat) (start : Z)
    (p : list byte) : list interval :=
  match n with
  | O => []
  | S n' =>
      match decodeItem hdr start p with
      | None => []
      | Some (start', end_, value, p') =>
          if truncatedItem hdr p then decodedRecords hdr n' start' p'
          else (start', end_, value) :: decodedRecords hdr n' start' p'
      end
  end.

(** Record [j] of a fixedStep block, from the header and the payload. *)
Definition fixedStepRecord (hdr : bwDataHeader_t) (p : list byte) (j : Z)
  : interval :=
  let s := u32 (dh_Start hdr + (j + 1) * dh_Step hdr) in
  (s, u32 (s + dh_Span hdr),
   Float32frombits (le_uint32 (drop (Z.to_nat (4 * j)) p))).

(** The section types the record loop knows. *)
Definition knownType (hdr : bwDataHeader_t) : bool :=
  (dh_Type hdr =? 1) || (dh_Type hdr =? 2) || (dh_Type hdr =? 3).

(** Record [j] of a fixedStep payload when the loop is entered with the
    running position [start]. *)
Definition fixedStepFrom (hdr : bwDataHeader_t) (start : Z) (p : list byte)
    (j : Z) : interval :=
  let s := u32 (start + (j + 1) * dh_Step hdr) in
  (s, u32 (s + dh_Span hdr),
   Float32frombits (le_uint32 (drop (Z.to_nat (4 * j)) p))).

(** Same resource, same read position, same buffered bytes. *)
Definition same_cursor (u u' : URL) : Prop :=
  same_resource u u'
  /\ if is_local u then f_pos (rs u) = f_pos (rs u')
     else FilePos u = FilePos u' /\ buf u = buf u'.

(** An iterator positioned at block [off] whose current batch is [cur]. *)
Definition iterAt (fp : bigWigFile_t) (tid start end_ off k : Z)
    (blocks : bwOverlapBlock_t) (cur : bwOverlappingIntervals_t)
  : bwOverlapIterator_t :=
  {| it_Bw := fp; it_Tid := tid; it_Start := start; it_End := end_;
     it_Offset := off; it_BlocksPerIteration := k;
     it_Blocks := Some (Some blocks);
     it_Intervals := Some cur; it_Entries := None;
     it_Data := Some (Some cur) |}.

(** Whether an interval covers a base, and the value of the last
    interval of a list that covers it. *)
Definition covers (pos : Z) (r : interval) : bool :=
  let '(s, e, _) := r in (s <=? pos) && (pos <? e).

Fixpoint lastCover (pos : Z) (ivs : list interval) : option f32 :=
  match ivs with
  | [] => None
  | (s, e, v) :: rest =>
      match lastCover pos rest with
      | Some v' => Some v'
      | None => if covers pos (s, e, v) then Some v else None
      end
  end.

(** The accumulated [validCount] of output bin [i] over [summaries]. *)
Definition zoomBinAcc (start : Z) (binSize : f64) (summaries : list bwSummary)
    (i : Z) : binAcc :=
  zoomAccumulate (binBound start binSize i) (binBound start binSize (i + 1))
    summaries.

(** What the goroutines of [GetZoomValues] do to one value. *)
Definition nanFix (v : f32) : f32 :=
  if isNaN (f64_of_f32 v) then f_zero else v.

(** ** Rebinning, in the words of the specification

    "For each summary record [r] overlapping the bin:
    [overlap = min(r.end, binEnd) - max(r.start, binStart)] (skip if
    [<= 0]); [f = overlap / (r.end - r.start)];
    [validCount += floor(r.validCount * f)], [sumData += r.sumData * f];
    [minVal = min(minVal, r.minVal)], [maxVal = max(maxVal, r.maxVal)]."
    The fallback path uses "the same formulas but with overlap in base
    pairs (i.e., treat each interval as one record with
    [validCount = overlap], [sumData = value * overlap])". *)
Module RebinSpec.

(** What one record contributes to a bin. *)
Record contribution : Type := {
  validCount : Z;
  sumData : f64;
  minVal : f32;
  maxVal : f32
}.

Definition overlap (binStart binEnd s e : Z) : Z :=
  Z.min e binEnd - Z.max s binStart.

(** [validCount += ...], [sumData += ...], [minVal = min ...],
    [maxVal = max ...]; the counter is a [uint32]. *)
Definition absorb (a : binAcc) (r : contribution) : binAcc :=
  {| acc_sumData := f64_add (acc_sumData a) (sumData r);
     acc_count := u32 (acc_count a + validCount r);
     acc_minVal := if f_lt (minVal r) (acc_minVal a) then minVal r else acc_minVal a;
     acc_maxVal := if f_gt (maxVal r) (acc_maxVal a) then maxVal r else acc_maxVal a |}.

(** A zoom summary record, weighted by the covered fraction. *)
Definition ofSummary (binStart binEnd : Z) (r : bwSummary) : option contribution :=
  let ov := overlap binStart binEnd (s_Start r) (s_End r) in
  if ov <=? 0 then None
  else
    let f := f64_div (f64_of_Z ov) (f64_of_Z (s_End r - s_Start r)) in
    Some {| validCount := uint32_of_f64 (f64_mul (f64_of_Z (s_ValidCount r)) f);
            sumData := f64_mul (f64_of_f32 (s_SumData r)) f;
            minVal := s_MinVal r;
            maxVal := s_MaxVal r |}.

(** A raw interval as one record, with the overlap in base pairs. *)
Definition ofInterval (binStart binEnd : Z) (r : interval) : option contribution :=
  let '(s, e, v) := r in
  let ov := overlap binStart binEnd s e in
  if ov <=? 0 then None
  else Some {| validCount := ov;
               sumData := f64_mul (f64_of_f32 v) (f64_of_Z ov);
               minVal := v;
               maxVal := v |}.

Definition absorbAll (a : binAcc) (rs : list (option contribution)) : binAcc :=
  fold_left (fun a r => match r with Some c => absorb a c | None => a end) rs a.

Definition zoomAcc (binStart binEnd : Z) (summaries : list bwSummary) : binAcc :=
  absorbAll binAcc0 (map (ofSummary binStart binEnd) summaries).

Definition fallbackAcc (binStart binEnd : Z) (intervals : list interval) : binAcc :=
  absorbAll binAcc0 (map (ofInterval binStart binEnd) intervals).

End RebinSpec.

(** A record with coordinates in [uint32] and [start <= end]. *)
Definition wf_interval (r : interval) : Prop :=
  let '(s, e, _) := r in 0 <= s <= e /\ e < 2 ^ 32.

Definition wf_summary (r : bwSummary) : Prop :=
  0 <= s_Start r <= s_End r /\ s_End r < 2 ^ 32.

(** ** Tactics *)

Ltac break_match :=
  repeat match goal with
         | |- context [match ?x with _ => _ end] => destruct x eqn:?; cbn
         | H : context [match ?x with _ => _ end] |- _ =>
             destruct x eqn:?; cbn in H
         end.

(** ** A sample file *)

Module Sample.

Definition enc_u16 (z : Z) : list byte := [byte_of_Z z; byte_of_Z (z / 2 ^ 8)].

Definition enc_u32 (z : Z) : list byte :=
  [byte_of_Z z; byte_of_Z (z / 2 ^ 8); byte_of_Z (z / 2 ^ 16);
   byte_of_Z (z / 2 ^ 24)].

(** A 24-byte data block header. *)
Definition enc_hdr (tid start end_ step span typ nItems : Z) : list byte :=
  enc_u32 tid ++ enc_u32 start ++ enc_u32 end_ ++ enc_u32 step ++ enc_u32 span
  ++ [byte_of_Z typ; byte_of_Z 0] ++ enc_u16 nItems.

(** A 32-byte zoom summary record. *)
Definition enc_summary (chromId start end_ validCount minVal maxVal sumData
    sumSquares : Z) : list byte :=
  enc_u32 chromId ++ enc_u32 start ++ enc_u32 end_ ++ enc_u32 validCount
  ++ enc_u32 minVal ++ enc_u32 maxVal ++ enc_u32 sumData ++ enc_u32 sumSquares.

(** Bit patterns of the float32 values used below. *)
Definition b1 : Z := 1065353216.   (* 1.0 *)
Definition b2 : Z := 1073741824.   (* 2.0 *)
Definition b3 : Z := 1077936128.   (* 3.0 *)
Definition b5 : Z := 1084227584.   (* 5.0 *)
Definition b6 : Z := 1086324736.   (* 6.0 *)
Definition b7 : Z := 1088421888.   (* 7.0 *)
Definition b8 : Z := 1090519040.   (* 8.0 *)
Definition b100 : Z := 1120403456. (* 100.0 *)
Definition b200 : Z := 1128792064. (* 200.0 *)

(** bedGraph block of chromosome 0: (100,200,1), (200,300,2), (400,500,3). *)
Definition blockA : list byte :=
  enc_hdr 0 100 500 0 0 1 3
  ++ enc_u32 100 ++ enc_u32 200 ++ enc_u32 b1
  ++ enc_u32 200 ++ enc_u32 300 ++ enc_u32 b2
  ++ enc_u32 400 ++ enc_u32 500 ++ enc_u32 b3.

(** fixedStep block of chromosome 0: start 1000, step 10, span 5, values
    5, 6, 7, 8. *)
Definition blockB : list byte :=
  enc_hdr 0 1000 1045 10 5 3 4
  ++ enc_u32 b5 ++ enc_u32 b6 ++ enc_u32 b7 ++ enc_u32 b8.

(** variableStep block of chromosome 1: span 10, starts 100, 120, 140. *)
Definition blockC : list byte :=
  enc_hdr 1 100 150 0 10 2 3
  ++ enc_u32 100 ++ enc_u32 b1 ++ enc_u32 120 ++ enc_u32 b2
  ++ enc_u32 140 ++ enc_u32 b3.

(** Zoom block of chromosome 0: (0,100) with 100 bases of value 1 and
    (100,200) with 100 bases of value 2. *)
Definition zoomBlock : list byte :=
  enc_summary 0 0 100 100 b1 b1 b100 0
  ++ enc_summary 0 100 200 100 b2 b2 b200 0.

Definition content : list byte := blockA ++ blockB ++ blockC ++ zoomBlock.

Definition child (cs bs ce be off sz : Z) : rchild :=
  {| chrIdxStart := cs; baseStart := bs; chrIdxEnd := ce; baseEnd := be;
     dataOffset := off; rc_size := sz |}.

(** Main index: one leaf; the third child spans chromosomes 0 and 1. *)
Definition root : bwRTreeNode_t :=
  RLeaf [child 0 100 0 500 0 60; child 0 1010 0 1045 60 40;
         child 0 2000 1 150 100 48].

Definition zoomRoot : bwRTreeNode_t := RLeaf [child 0 0 0 200 148 64].

Definition zoomHdr : bwZoomHdr_t :=
  {| zh_Level := [10]; zh_IndexOffset := [4096]; zh_Idx := [Some zoomRoot] |}.

Definition file : bigWigFile_t :=
  {| Hdr := {| bufsize := 0; ZoomHdrs := [Some zoomHdr] |};
     Cl := {| NKeys := 2; Chrom := ["chr1"%string; "chr2"%string] |};
     Idx := Some root; bw_Type := 0 |}.

(** The same file written without zoom levels. *)
Definition fileNoZoom : bigWigFile_t :=
  {| Hdr := {| bufsize := 0; ZoomHdrs := [] |};
     Cl := Cl file; Idx := Idx file; bw_Type := 0 |}.

(** The sample files are not compressed; no call reaches the inflater. *)
Definition nozlib (b : list byte) : option (list byte) := None.

Definition local : URL := open_local content.
Definition remote : URL := open_remote content.

(** [n] bytes whose values follow the offsets: byte [i] is [(i0 + i) mod 251]. *)
Fixpoint pattern_bytes (n : nat) (i0 : Z) : list byte :=
  match n with
  | O => []
  | S n' => byte_of_Z (i0 mod 251) :: pattern_bytes n' (i0 + 1)
  end.

(** A remote resource of 65544 bytes, eight more than one fetch window. *)
Definition bigRemote : URL := open_remote (pattern_bytes (Z.to_nat 65544) 0).

(** A leaf whose first child spans chromosomes 0 and 1 and starts at base
    900 of chromosome 0; the second child lies on chromosome 0. *)
Definition mixedLeaf : bwRTreeNode_t :=
  RLeaf [child 0 900 1 10 0 60; child 0 100 0 200 60 40].

(** A branch with the same two child boxes, each over a one-block leaf. *)
Definition mixedBranch : bwRTreeNode_t :=
  RBranch [(child 0 900 1 10 4096 0, Some (RLeaf [child 0 900 1 10 0 60]));
           (child 0 100 0 200 8192 0, Some (RLeaf [child 0 100 0 200 60 40]))].

Definition okOr {A} (d : A) (r : outcome A) : A :=
  match r with Ok a => a | _ => d end.

End Sample.

(** Decide the integer comparisons of the goal and of the hypotheses. *)
Ltac zb :=
  repeat match goal with
         | H : context [?a <=? ?b] |- _ => destruct (Z.leb_spec a b); cbn in H
         | H : context [?a <? ?b] |- _ => destruct (Z.ltb_spec a b); cbn in H
         | H : context [?a =? ?b] |- _ => destruct (Z.eqb_spec a b); cbn in H
         | |- context [?a <=? ?b] => destruct (Z.leb_spec a b); cbn
         | |- context [?a <? ?b] => destruct (Z.ltb_spec a b); cbn
         | |- context [?a =? ?b] => destruct (Z.eqb_spec a b); cbn
         end.

(** * Further definitions

    Views, invariants and reference functions used to state the
    properties of the second part of the development. *)

(** ** Containers *)

(** A container as the decoder leaves it: the capacity is
    [roundup] of the number of live entries and the values behind the
    live part are the zeros [make] put there. *)
Definition padded (o : bwOverlappingIntervals_t) : Prop :=
  wf_intervals o
  /\ iv_M o = roundup (iv_L o)
  /\ drop (Z.to_nat (iv_L o)) (iv_Value o)
     = replicate (Z.to_nat (iv_M o - iv_L o)) f_zero.

(** ** Block lists *)

(** [N] counts the entries of both slices. *)
Definition wf_block (o : bwOverlapBlock_t) : Prop :=
  lenZ (ob_Offset o) = ob_N o /\ lenZ (ob_Size o) = ob_N o.

(** The (offset, size) pairs of a block list. *)
Definition blocks_of (o : bwOverlapBlock_t) : list (Z * Z) :=
  zip (ob_Offset o) (ob_Size o).

Definition isAccept (v : verdict) : bool :=
  match v with Accept => true | _ => false end.

Definition isBreak (v : verdict) : bool :=
  match v with Break => true | _ => false end.

(** The children of a node that pass the child test of the filling loop. *)
Definition acceptedChildren (tid start end_ : Z) (cs : list rchild)
  : list rchild :=
  List.filter (fun c => isAccept (leafFillChild tid start end_ c)) cs.

Definition childBlock (c : rchild) : Z * Z := (dataOffset c, rc_size c).

(** ** The R-tree walk, as a filter *)

(** The blocks a walk is after: the leaf children that pass the child
    test, below branch children that pass it, in depth-first order. *)
Fixpoint treeBlocks (tid start end_ : Z) (node : bwRTreeNode_t)
  : list (Z * Z) :=
  match node with
  | RLeaf cs => map childBlock (acceptedChildren tid start end_ cs)
  | RBranch cs =>
      flat_map
        (fun cc =>
           if isAccept (nonLeafChild tid start end_ (fst cc)) then
             match snd cc with
             | Some ch => treeBlocks tid start end_ ch
             | None => []
             end
           else [])
        cs
  end.

(** A tree on which the walk for a query meets neither a child that fails
    to load nor a leaf child that makes the counting loop of
    [overlapsLeaf] leave early. *)
Fixpoint walkable (tid start end_ : Z) (node : bwRTreeNode_t) : bool :=
  match node with
  | RLeaf cs =>
      forallb (fun c => negb (isBreak (leafCountChild tid start end_ c))) cs
  | RBranch cs =>
      forallb
        (fun cc =>
           if isAccept (nonLeafChild tid start end_ (fst cc)) then
             match snd cc with
             | Some ch => walkable tid start end_ ch
             | None => false
             end
           else true)
        cs
  end.

(** The child loop of [overlapsNonLeaf] on its own, with the walk of a
    child as a parameter. *)
Fixpoint branchLoop (walk : bwRTreeNode_t -> option bwOverlapBlock_t)
    (tid start end_ : Z) (cs : list (rchild * option bwRTreeNode_t))
    (output : option bwOverlapBlock_t) : option bwOverlapBlock_t :=
  match cs with
  | [] => output
  | (c, child) :: cs' =>
      match nonLeafChild tid start end_ c with
      | Accept =>
          match child with
          | None => None
          | Some ch =>
              match walk ch with
              | None => None
              | Some nodeBlocks =>
                  match mergeOverlapBlocks output (Some nodeBlocks) with
                  | None => None
                  | Some o => branchLoop walk tid start end_ cs' (Some o)
                  end
              end
          end
      | _ => branchLoop walk tid start end_ cs' output
      end
  end.

(** What the properties below say of the walk on one node: its result is
    well formed and lists blocks of [treeBlocks] in order, and on a
    walkable tree it lists them all. *)
Definition walk_ok (tid start end_ : Z) (n : bwRTreeNode_t) : Prop :=
  (forall o, walkRTreeNodes n tid start end_ = Some o ->
             wf_block o /\ blocks_of o `sublist_of` treeBlocks tid start end_ n)
  /\ (walkable tid start end_ n = true ->
      exists o, walkRTreeNodes n tid start end_ = Some o
                /\ wf_block o /\ blocks_of o = treeBlocks tid start end_ n).

(** ** Records of the other section types *)

(** Record [j] of a bedGraph payload: three words at byte [12 * j]. *)
Definition bedGraphRecord (p : list byte) (j : Z) : interval :=
  let q := drop (Z.to_nat (12 * j)) p in
  (le_uint32 q, le_uint32 (drop 4 q), Float32frombits (le_uint32 (drop 8 q))).

(** Record [j] of a variableStep payload: two words at byte [8 * j]. *)
Definition variableStepRecord (hdr : bwDataHeader_t) (p : list byte) (j : Z)
  : interval :=
  let q := drop (Z.to_nat (8 * j)) p in
  (le_uint32 q, u32 (le_uint32 q + dh_Span hdr),
   Float32frombits (le_uint32 (drop 4 q))).

(** ** Zoom level selection *)

(** State of the loop of [bwSelectBestZoomLevel] after the levels [pre]:
    nothing selected yet and no level of [pre] eligible, or the selected
    index holds the largest eligible level, first among equals.  A level
    is eligible when it is not above [d] and [d - level] is below the
    initial [closestDiff]. *)
Definition bestUnder (d : Z) (pre : list Z) (best cd : Z) : Prop :=
  (best = -1 /\ cd = 4294967295
   /\ forall (j : nat) l, pre !! j = Some l -> d < l \/ 4294967295 <= d - l)
  \/ (exists l,
        0 <= best /\ pre !! Z.to_nat best = Some l /\ l <= d
        /\ cd = d - l /\ cd < 4294967295
        /\ forall (j : nat) l',
            pre !! j = Some l' -> l' <= d ->
            l' <= l /\ (l' = l -> best <= Z.of_nat j)).

(** State of the loop of [bwGetBestZoomClosest] after the levels [pre]. *)
Definition closestTo (d : Z) (pre : list Z) (best cd : Z) : Prop :=
  (best = -1 /\ cd = 4294967295
   /\ forall (j : nat) l, pre !! j = Some l -> 4294967295 <= Z.abs (d - l))
  \/ (exists l,
        0 <= best /\ pre !! Z.to_nat best = Some l
        /\ cd = Z.abs (d - l) /\ cd < 4294967295
        /\ forall (j : nat) l',
            pre !! j = Some l' ->
            Z.abs (d - l) <= Z.abs (d - l')
            /\ (Z.abs (d - l') = Z.abs (d - l) -> best <= Z.of_nat j)).

(** ** Resources and their contents *)

(** A local file that holds [content]. *)
Definition holds (content : list byte) (u : URL) : Prop :=
  is_local u = true /\ f_data (rs u) = content.

(** A remote resource whose server answers range requests over
    [content]. *)
Definition serves (content : list byte) (u : URL) : Prop :=
  is_local u = false /\ server u = range_server content.

(** A remote resource read up to byte [pos]: [FilePos] is ahead of [pos]
    by the bytes that are buffered, and these are the bytes of [content]
    from [pos] on. *)
Definition remote_at (content : list byte) (pos : Z) (u : URL) : Prop :=
  serves content u /\ 0 <= pos
  /\ FilePos u = pos + lenZ (buf u)
  /\ buf u = take (length (buf u)) (drop (Z.to_nat pos) content).

(** The bytes [off, off + size) of [content]. *)
Definition bytesAt (content : list byte) (off size : Z) : list byte :=
  take (Z.to_nat size) (drop (Z.to_nat off) content).

(** What [readBlock] is to return for the block stored at
    [off, off + size): its bytes, inflated when the file is compressed;
    nil when the block runs past the end of the data or does not
    inflate. *)
Definition storedBlock (zlib : list byte -> option (list byte))
    (compressed : bool) (content : list byte) (off size : Z)
  : outcome (list byte) :=
  if off + size <=? lenZ content then
    let data := bytesAt content off size in
    if compressed then
      match zlib data with
      | Some d => Ok d
      | None => Nil
      end
    else Ok data
  else Nil.

(** * The loader *)

(** ** Fixed-size reads *)

Definition BIGWIG_MAGIC : Z := 2291137574.   (* 0x888FFC26 *)
Definition CIRTREE_MAGIC : Z := 2026540177.  (* 0x78CA8C91 *)
Definition IDX_MAGIC : Z := 610839776.       (* 0x2468ace0 *)

(** [binary.LittleEndian.Uint64] on a slice of at least 8 bytes. *)
Definition le_uint64 (b : list byte) : Z :=
  le_uint32 b + le_uint32 (drop 4 b) * 2 ^ 32.

(** The value of a one-byte field. *)
Definition le_uint8 (b : list byte) : Z :=
  match b with x :: _ => byteZ x | [] => 0 end.

(** [bwRead(&x, sz, nmemb, fp)] with [n = sz * nmemb], a positive
    constant at every call site: one [Read] into a buffer of [n] bytes;
    an error or a short read is an error ([Nil]).  The bytes are decoded
    by the caller ([le_uint16], [le_uint32], [le_uint64]), as the final
    [binary.Read] from the full buffer does. *)
Definition bwRead (n : Z) : M (list byte) :=
  fun u =>
    let '((data, err), u1) := URL_Read u n in
    match err with
    | Some _ => (Nil, u1)
    | None => if lenZ data =? n then (Ok data, u1) else (Nil, u1)
    end.

(** The loop of [io.ReadAtLeast(r, buf, n)] with [len(buf) = n], which
    [binary.Read] runs through [io.ReadFull]: [acc] is [buf[:len(acc)]],
    the part filled so far.  A round that does not end the loop stores at
    least one byte, so [n] rounds suffice; [fuel] counts them. *)
Fixpoint ReadFull_loop (fuel : nat) (n : Z) (acc : list byte)
  : M (list byte) :=
  fun u =>
    if n <=? lenZ acc then (Ok acc, u)
    else
      match fuel with
      | O => (Panic, u)
      | S fuel' =>
          let '((got, err), u1) := URL_Read u (n - lenZ acc) in
          match err with
          | Some _ =>
              if n <=? lenZ (acc ++ got) then (Ok (acc ++ got), u1)
              else (Nil, u1)
          | None => ReadFull_loop fuel' n (acc ++ got) u1
          end
      end.

(** [binary.Read(fp.URL.rs, binary.LittleEndian, &x)] for a value of [n]
    bytes: the bytes read, to be decoded by the caller.  [rs] is the file
    of a local resource and the [URL] itself for a remote one, so that
    its [Read] is [URL.Read] in both cases. *)
Definition binaryRead (n : Z) : M (list byte) :=
  ReadFull_loop (Z.to_nat n) n [].

(** ** The index header and its nodes *)

(** [bwRTree_t], without [Root]. *)
Record bwRTree_t : Type := {
  rt_BlockSize : Z;
  rt_NItems : Z;
  rt_ChrIdxStart : Z;
  rt_BaseStart : Z;
  rt_ChrIdxEnd : Z;
  rt_BaseEnd : Z;
  rt_IdxSize : Z;
  rt_NItemsPerSlot : Z;
  rt_RootOffset : Z
}.

(** [bwSetPos] as a step of [M]; [Nil] when it returns -1. *)
Definition setPos (pos : Z) : M unit :=
  fun u =>
    let '(rc, u1) := bwSetPos u pos in
    if rc =? 0 then (Ok tt, u1) else (Nil, u1).

Definition tell : M Z := fun u => let '(pos, u1) := bwTell u in (Ok pos, u1).

(** [readRTreeIdx(fp, offset)]; [indexoffset] is [fp.Hdr.indexoffset]. *)
Definition readRTreeIdx (indexoffset offset : Z) : M bwRTree_t :=
  _ <~ setPos (if offset =? 0 then indexoffset else offset) ;;
  magic <~ bwRead 4 ;;
  if negb (le_uint32 magic =? IDX_MAGIC) then fail
  else
    blockSize <~ bwRead 4 ;;
    nItems <~ bwRead 8 ;;
    chrIdxStart <~ bwRead 4 ;;
    baseStart <~ bwRead 4 ;;
    chrIdxEnd <~ bwRead 4 ;;
    baseEnd <~ bwRead 4 ;;
    idxSize <~ bwRead 8 ;;
    nItemsPerSlot <~ bwRead 4 ;;
    padding <~ bwRead 4 ;;
    rootOffset <~ tell ;;
    ret {| rt_BlockSize := le_uint32 blockSize;
           rt_NItems := le_uint64 nItems;
           rt_ChrIdxStart := le_uint32 chrIdxStart;
           rt_BaseStart := le_uint32 baseStart;
           rt_ChrIdxEnd := le_uint32 chrIdxEnd;
           rt_BaseEnd := le_uint32 baseEnd;
           rt_IdxSize := le_uint64 idxSize;
           rt_NItemsPerSlot := le_uint32 nItemsPerSlot;
           rt_RootOffset := rootOffset |}.

(** A node as [bwGetRTreeNode] returns it: [IsLeaf], [NChildren] and the
    child slots; [Child] is all nil, and [rc_size] is 0 in the slots of a
    branch, which has no [Size] slice. *)
Record rtNode : Type := {
  n_IsLeaf : Z;
  n_NChildren : Z;
  n_Children : list rchild
}.

(** The loop [for i := 0; i < n; i++] of [bwGetRTreeNode]. *)
Fixpoint readChildren (isLeaf : bool) (n : nat) : M (list rchild) :=
  match n with
  | O => ret []
  | S n' =>
      cs <~ bwRead 4 ;;
      bs <~ bwRead 4 ;;
      ce <~ bwRead 4 ;;
      be <~ bwRead 4 ;;
      off <~ bwRead 8 ;;
      sz <~ (if isLeaf then bwRead 8 else ret []) ;;
      rest <~ readChildren isLeaf n' ;;
      ret ({| chrIdxStart := le_uint32 cs; baseStart := le_uint32 bs;
              chrIdxEnd := le_uint32 ce; baseEnd := le_uint32 be;
              dataOffset := le_uint64 off;
              rc_size := if isLeaf then le_uint64 sz else 0 |} :: rest)
  end.

(** [bwGetRTreeNode(fp, offset)]; [rootOffset] is [fp.Idx.RootOffset],
    [None] when [fp.Idx] is nil (reading it then panics). *)
Definition bwGetRTreeNode (rootOffset : option Z) (offset : Z) : M rtNode :=
  match (if offset =? 0 then rootOffset else Some offset) with
  | None => panic
  | Some pos =>
      _ <~ setPos pos ;;
      isLeaf <~ bwRead 1 ;;
      padding <~ bwRead 1 ;;
      nChildren <~ bwRead 2 ;;
      children <~ readChildren (negb (le_uint8 isLeaf =? 0))
                    (Z.to_nat (le_uint16 nChildren)) ;;
      ret {| n_IsLeaf := le_uint8 isLeaf; n_NChildren := le_uint16 nChildren;
             n_Children := children |}
  end.

(** [bwReadIndex(fp, offset)], called by [OpenBigWig] while [fp.Idx] is
    still nil: the index header and its root node. *)
Definition bwReadIndex (indexoffset offset : Z) : M (bwRTree_t * rtNode) :=
  idx <~ readRTreeIdx indexoffset offset ;;
  root <~ bwGetRTreeNode None (rt_RootOffset idx) ;;
  ret (idx, root).

(** [bwReadZoomIndex(fp, indexOffset)]; [rootOffset] as for
    [bwGetRTreeNode]. *)
Definition bwReadZoomIndex (rootOffset : option Z) (indexoffset offset : Z)
  : M (bwRTree_t * rtNode) :=
  if offset =? 0 then fail
  else
    idx <~ readRTreeIdx indexoffset offset ;;
    root <~ bwGetRTreeNode rootOffset (rt_RootOffset idx) ;;
    ret (idx, root).

(** ** The lazy walk *)

(** A node with its [Child] slice: a child is nil until a walk first
    needs it, and then stays. *)
Inductive cnode : Type :=
| CNode (isLeaf : Z) (children : list (rchild * option cnode)).

Definition cn_isLeaf (n : cnode) : Z :=
  match n with CNode l _ => l end.

Definition cn_children (n : cnode) : list (rchild * option cnode) :=
  match n with CNode _ cs => cs end.

(** A node as it comes from [bwGetRTreeNode]. *)
Definition unloaded (n : rtNode) : cnode :=
  CNode (n_IsLeaf n) (map (fun c => (c, None)) (n_Children n)).

Definition outcome_of_nil {A} (o : option A) : outcome A :=
  match o with Some a => Ok a | None => Nil end.

(** The loop [for i := 0; i < node.NChildren; i++] of [overlapsNonLeaf]
    with the loads it does: [node.Child[i]] is read from [DataOffset[i]]
    when it is still nil, and stays in the node whatever happens next.
    [walk] is the recursive call on a child that is a branch;
    [rootOffset] is [fp.Idx.RootOffset].  The result comes with the
    [Child] slice as the loop leaves it. *)
Fixpoint branchLoop_io
    (walk : cnode -> URL -> (outcome bwOverlapBlock_t * cnode) * URL)
    (rootOffset tid start end_ : Z) (cs : list (rchild * option cnode))
    (output : option bwOverlapBlock_t) (u : URL) {struct cs}
  : (outcome bwOverlapBlock_t * list (rchild * option cnode)) * URL :=
  match cs with
  | [] => ((outcome_of_nil output, []), u)
  | (c, child) :: cs' =>
      match nonLeafChild tid start end_ c with
      | Accept =>
          let '(loaded, u1) :=
            match child with
            | Some ch => (Ok ch, u)
            | None =>
                match bwGetRTreeNode (Some rootOffset) (dataOffset c) u with
                | (Ok n, u1) => (Ok (unloaded n), u1)
                | (Nil, u1) => (Nil, u1)
                | (Panic, u1) => (Panic, u1)
                end
            end in
          match loaded with
          | Ok ch =>
              let '((nodeBlocks, ch'), u2) :=
                if negb (cn_isLeaf ch =? 0) then
                  ((outcome_of_nil
                      (overlapsLeaf (Some (RLeaf (map fst (cn_children ch))))
                         tid start end_), ch), u1)
                else walk ch u1 in
              match nodeBlocks with
              | Ok nb =>
                  match mergeOverlapBlocks output (Some nb) with
                  | None => ((Nil, (c, Some ch') :: cs'), u2)
                  | Some o =>
                      let '((r, cs''), u3) :=
                        branchLoop_io walk rootOffset tid start end_ cs'
                          (Some o) u2 in
                      ((r, (c, Some ch') :: cs''), u3)
                  end
              | Nil => ((Nil, (c, Some ch') :: cs'), u2)
              | Panic => ((Panic, (c, Some ch') :: cs'), u2)
              end
          | Nil => ((Nil, (c, child) :: cs'), u1)
          | Panic => ((Panic, (c, child) :: cs'), u1)
          end
      | _ =>
          let '((r, cs''), u1) :=
            branchLoop_io walk rootOffset tid start end_ cs' output u in
          ((r, (c, child) :: cs''), u1)
      end
  end.

(** [overlapsNonLeaf(fp, node, tid, start, end)] with its loads; the
    result comes with the node as the call leaves it.  [fuel] bounds the
    depth of the recursion, which in Go is bounded by nothing but the
    file; running out of it is [Panic]. *)
Fixpoint overlapsNonLeaf_io (fuel : nat) (rootOffset tid start end_ : Z)
    (node : cnode) {struct fuel}
  : URL -> (outcome bwOverlapBlock_t * cnode) * URL :=
  match fuel with
  | O => fun u => ((Panic, node), u)
  | S fuel' =>
      fun u =>
        let '((r, cs'), u') :=
          branchLoop_io (overlapsNonLeaf_io fuel' rootOffset tid start end_)
            rootOffset tid start end_ (cn_children node)
            (Some emptyOverlapBlock) u in
        ((r, CNode (cn_isLeaf node) cs'), u')
  end.

(** [walkRTreeNodes(fp, root, tid, start, end)] with its loads. *)
Definition walkRTreeNodes_io (fuel : nat) (rootOffset tid start end_ : Z)
    (root : cnode) : URL -> (outcome bwOverlapBlock_t * cnode) * URL :=
  fun u =>
    if negb (cn_isLeaf root =? 0) then
      ((outcome_of_nil
          (overlapsLeaf (Some (RLeaf (map fst (cn_children root))))
             tid start end_), root), u)
    else overlapsNonLeaf_io fuel rootOffset tid start end_ root u.

(** ** The index as the bytes spell it *)

(** A local file that holds [content], with its descriptor at [pos]. *)
Definition local_at (content : list byte) (pos : Z) (u : URL) : Prop :=
  holds content u /\ f_pos (rs u) = pos /\ 0 <= pos.

Definition childBytes (isLeaf : bool) : Z := if isLeaf then 32 else 24.

(** The child slot written at the head of [b]. *)
Definition parseChild (isLeaf : bool) (b : list byte) : rchild :=
  {| chrIdxStart := le_uint32 b;
     baseStart := le_uint32 (drop 4 b);
     chrIdxEnd := le_uint32 (drop 8 b);
     baseEnd := le_uint32 (drop 12 b);
     dataOffset := le_uint64 (drop 16 b);
     rc_size := if isLeaf then le_uint64 (drop 24 b) else 0 |}.

Fixpoint parseChildren (isLeaf : bool) (n : nat) (b : list byte)
  : list rchild :=
  match n with
  | O => []
  | S n' =>
      parseChild isLeaf b
      :: parseChildren isLeaf n' (drop (Z.to_nat (childBytes isLeaf)) b)
  end.

(** The node written at byte [off] of [content]: a leaf flag, a padding
    byte, the number of children, then the child slots, of 32 bytes in a
    leaf and 24 in a branch.  [None] when the bytes end before the node
    does. *)
Definition parseNode (content : list byte) (off : Z) : option rtNode :=
  let b := drop (Z.to_nat off) content in
  if lenZ b <? 4 then None
  else
    let isLeaf := le_uint8 b in
    let n := le_uint16 (drop 2 b) in
    let leaf := negb (isLeaf =? 0) in
    if lenZ b <? 4 + n * childBytes leaf then None
    else Some {| n_IsLeaf := isLeaf; n_NChildren := n;
                 n_Children := parseChildren leaf (Z.to_nat n) (drop 4 b) |}.

(** Where [bwGetRTreeNode] seeks for the child of slot [c]. *)
Definition childPos (rootOffset : Z) (c : rchild) : Z :=
  if dataOffset c =? 0 then rootOffset else dataOffset c.

(** The tree below a node, as far as [fuel] levels of branches reach:
    the child of a slot is the node written at its [DataOffset] (at
    [rootOffset] when that is 0), nil when there is none. *)
Fixpoint decodeTree (fuel : nat) (content : list byte) (rootOffset : Z)
    (n : rtNode) : option bwRTreeNode_t :=
  if negb (n_IsLeaf n =? 0) then Some (RLeaf (n_Children n))
  else
    match fuel with
    | O => None
    | S fuel' =>
        Some (RBranch
                (map (fun c =>
                        (c, match parseNode content (childPos rootOffset c) with
                            | Some m => decodeTree fuel' content rootOffset m
                            | None => None
                            end))
                   (n_Children n)))
    end.

(** The walk over the decoded tree. *)
Definition decodedWalk (fuel : nat) (content : list byte)
    (rootOffset tid start end_ : Z) (root : rtNode)
  : option bwOverlapBlock_t :=
  match decodeTree fuel content rootOffset root with
  | Some t => walkRTreeNodes t tid start end_
  | None => None
  end.

(** A node with its loaded children agrees with the file: it has the
    fields of the node [m] written there, and each child it holds is the
    node written where its slot points, agreeing in turn. *)
Inductive agrees (content : list byte) (rootOffset : Z)
  : cnode -> rtNode -> Prop :=
| agrees_node l cs m :
    l = n_IsLeaf m ->
    agrees_list content rootOffset cs (n_Children m) ->
    agrees content rootOffset (CNode l cs) m
with agrees_list (content : list byte) (rootOffset : Z)
  : list (rchild * option cnode) -> list rchild -> Prop :=
| agrees_nil : agrees_list content rootOffset [] []
| agrees_unloaded c cs l :
    agrees_list content rootOffset cs l ->
    agrees_list content rootOffset ((c, None) :: cs) (c :: l)
| agrees_loaded c ch m cs l :
    parseNode content (childPos rootOffset c) = Some m ->
    agrees content rootOffset ch m ->
    agrees_list content rootOffset cs l ->
    agrees_list content rootOffset ((c, Some ch) :: cs) (c :: l).

(** The decoded child of slot [c], [fuel] levels deep. *)
Definition childTree (content : list byte) (rootOffset : Z) (fuel : nat)
    (c : rchild) : option bwRTreeNode_t :=
  match parseNode content (childPos rootOffset c) with
  | Some m => decodeTree fuel content rootOffset m
  | None => None
  end.

(** What the walk of a branch owes the loop above it: on a local file
    that holds [content] it leaves the file as it is and the node in
    agreement with it, and its result is the one of the walk over the
    decoded tree. *)
Definition walk_refines (content : list byte) (rootOffset tid start end_ : Z)
    (fuel : nat)
    (walk : cnode -> URL -> (outcome bwOverlapBlock_t * cnode) * URL)
  : Prop :=
  forall cn m u,
    agrees content rootOffset cn m -> holds content u ->
    Forall (fun c => 0 <= dataOffset c < 2 ^ 64) (n_Children m) ->
    n_IsLeaf m = 0 ->
    holds content (snd (walk cn u))
    /\ agrees content rootOffset (snd (fst (walk cn u))) m
    /\ forall o, fst (fst (walk cn u)) = Ok o
                 <-> decodedWalk fuel content rootOffset tid start end_ m
                     = Some o.

(** The index header written at byte [off] of [content] (48 bytes, the
    magic number first), with the root offset [rootOffset]. *)
Definition parseIdx (content : list byte) (off rootOffset : Z)
  : option bwRTree_t :=
  let b := drop (Z.to_nat off) content in
  if lenZ b <? 4 then None
  else if negb (le_uint32 b =? IDX_MAGIC) then None
  else if lenZ b <? 48 then None
  else Some {| rt_BlockSize := le_uint32 (drop 4 b);
               rt_NItems := le_uint64 (drop 8 b);
               rt_ChrIdxStart := le_uint32 (drop 16 b);
               rt_BaseStart := le_uint32 (drop 20 b);
               rt_ChrIdxEnd := le_uint32 (drop 24 b);
               rt_BaseEnd := le_uint32 (drop 28 b);
               rt_IdxSize := le_uint64 (drop 32 b);
               rt_NItemsPerSlot := le_uint32 (drop 40 b);
               rt_RootOffset := rootOffset |}.

(** The index written at byte [off]: its header and, behind it, its root
    node. *)
Definition parseIndex (content : list byte) (off : Z)
  : option (bwRTree_t * rtNode) :=
  match parseIdx content off (off + 48) with
  | Some idx =>
      match parseNode content (off + 48) with
      | Some root => Some (idx, root)
      | None => None
      end
  | None => None
  end.

(** A remote resource read up to byte [pos] whose last fetch ended at
    byte [fetched]. *)
Definition remote_win (fetched : Z) (content : list byte) (pos : Z) (u : URL)
  : Prop :=
  remote_at content pos u /\ FilePos u = fetched.

(** The size of the window fetched at byte [pos]. *)
Definition windowAt (content : list byte) (pos : Z) : Z :=
  Z.min 65536 (lenZ content - pos).

(** ** Block lookup with its loads *)

(** [fp.Idx] while a file is in use: nil, or the index header with its
    root node, nil until first needed. *)
Definition idxState : Type := option (bwRTree_t * option cnode).

(** [bwGetOverlappingBlocks(fp, chrom, start, end)] with the loads it
    does: the index header when [fp.Idx] is nil, the root node when
    [fp.Idx.Root] is nil, and the children the walk needs.  [fp] gives
    the chromosome list, [indexoffset] is [fp.Hdr.indexoffset] and [idx]
    is [fp.Idx]; the result comes with [fp.Idx] as the call leaves it. *)
Definition bwGetOverlappingBlocks_io (fuel : nat) (fp : bigWigFile_t)
    (indexoffset : Z) (idx : idxState) (chrom : string) (start end_ : Z)
  : URL -> (outcome bwOverlapBlock_t * idxState) * URL :=
  fun u =>
    match bwGetTid fp chrom with
    | Panic => ((Panic, idx), u)
    | Nil => ((Nil, idx), u)
    | Ok tid =>
        if tid =? TID_NONE then ((Nil, idx), u)
        else
          let '(loaded, u1) :=
            match idx with
            | Some hr => (Ok hr, u)
            | None =>
                match readRTreeIdx indexoffset indexoffset u with
                | (Ok h, u1) => (Ok (h, None), u1)
                | (Nil, u1) => (Nil, u1)
                | (Panic, u1) => (Panic, u1)
                end
            end in
          match loaded with
          | Nil => ((Nil, idx), u1)
          | Panic => ((Panic, idx), u1)
          | Ok (h, r) =>
              let '(root, u2) :=
                match r with
                | Some cn => (Ok cn, u1)
                | None =>
                    match bwGetRTreeNode (Some (rt_RootOffset h)) 0 u1 with
                    | (Ok n, u2) => (Ok (unloaded n), u2)
                    | (Nil, u2) => (Nil, u2)
                    | (Panic, u2) => (Panic, u2)
                    end
                end in
              match root with
              | Nil => ((Nil, Some (h, None)), u2)
              | Panic => ((Panic, Some (h, None)), u2)
              | Ok cn =>
                  let '((res, cn'), u3) :=
                    walkRTreeNodes_io fuel (rt_RootOffset h) tid start end_
                      cn u2 in
                  ((res, Some (h, Some cn')), u3)
              end
          end
    end.

(** The main index of a file that consists of [content], decoded
    [fuel] levels deep. *)
Definition indexTree (fuel : nat) (content : list byte) (indexoffset : Z)
  : option bwRTreeNode_t :=
  match parseIndex content indexoffset with
  | Some (_, root) => decodeTree fuel content (indexoffset + 48) root
  | None => None
  end.

(** [fp.Idx] agrees with the file: what is loaded of it is what the
    bytes at [indexoffset] spell. *)
Definition idx_agrees (content : list byte) (indexoffset : Z)
    (idx : idxState) : Prop :=
  match idx with
  | None => True
  | Some (h, r) =>
      parseIdx content indexoffset (indexoffset + 48) = Some h
      /\ match r with
         | None => True
         | Some cn =>
             exists root,
               parseNode content (indexoffset + 48) = Some root
               /\ agrees content (indexoffset + 48) cn root
         end
  end.

(** ** The file header *)

(** [math.Float64frombits] *)
Definition Float64frombits (bits : Z) : spec_float :=
  let s := Z.testbit bits 63 in
  let e := (bits / 2 ^ 52) mod 2 ^ 11 in
  let m := bits mod 2 ^ 52 in
  if e =? 0 then
    match m with
    | Zpos p => S754_finite s p (-1074)
    | _ => S754_zero s
    end
  else if e =? 2047 then
    if m =? 0 then S754_infinity s else S754_nan
  else
    match m + 2 ^ 52 with
    | Zpos p => S754_finite s p (e - 1075)
    | _ => S754_nan
    end.

(** [bwisBigWig(fname)] on the resource that [Open(fname)] returns: one
    [Read] into a buffer of 4 bytes.  An error other than [io.EOF] is the
    error result ([Nil]); fewer than 4 bytes are [false]. *)
Definition bwisBigWig : M bool :=
  fun u =>
    let '((data, err), u1) := URL_Read u 4 in
    match err with
    | Some ErrOther => (Nil, u1)
    | _ =>
        if negb (lenZ data =? 4) then (Ok false, u1)
        else (Ok (le_uint32 data =? BIGWIG_MAGIC), u1)
    end.

(** One zoom level of the header: [Level[i]], [DataOffset[i]] and
    [IndexOffset[i]]. *)
Record zoomLevel : Type := {
  zl_Level : Z;
  zl_DataOffset : Z;
  zl_IndexOffset : Z
}.

(** The loop of [bwReadZoomHdrs(r, nLevels)]. *)
Fixpoint readZoomLevels (n : nat) : M (list zoomLevel) :=
  match n with
  | O => ret []
  | S n' =>
      level <~ binaryRead 4 ;;
      padding <~ binaryRead 4 ;;
      dataOff <~ binaryRead 8 ;;
      indexOff <~ binaryRead 8 ;;
      rest <~ readZoomLevels n' ;;
      ret ({| zl_Level := le_uint32 level; zl_DataOffset := le_uint64 dataOff;
              zl_IndexOffset := le_uint64 indexOff |} :: rest)
  end.

(** [bwReadZoomHdrs(r, nLevels)]: [None] is the nil header of a file
    without zoom levels. *)
Definition bwReadZoomHdrs (nLevels : Z) : M (option (list zoomLevel)) :=
  if nLevels =? 0 then ret None
  else
    levels <~ readZoomLevels (Z.to_nat nLevels) ;;
    ret (Some levels).

(** The summary that [bwHdrRead] reads at [summaryoffset]. *)
Record hdrSummary : Type := {
  hs_NBasesCovered : Z;
  hs_MinVal : spec_float;
  hs_MaxVal : spec_float;
  hs_SumData : spec_float;
  hs_SumSquared : spec_float
}.

Definition hdrSummary0 : hdrSummary :=
  {| hs_NBasesCovered := 0; hs_MinVal := S754_zero false;
     hs_MaxVal := S754_zero false; hs_SumData := S754_zero false;
     hs_SumSquared := S754_zero false |}.

(** [bigWigHdr_t] as [bwHdrRead] fills it.  [h_ZoomHdrs] is the slice
    [ZoomHdrs]: empty without zoom levels, and otherwise one header that
    holds all the levels. *)
Record bigWigHdr_read : Type := {
  h_version : Z;
  h_nLevels : Z;
  h_ctoffset : Z;
  h_dataOffset : Z;
  h_indexoffset : Z;
  h_fieldCount : Z;
  h_definedFieldCount : Z;
  h_sqloffset : Z;
  h_summaryoffset : Z;
  h_bufsize : Z;
  h_extensionoffset : Z;
  h_ZoomHdrs : list (list zoomLevel);
  h_summary : hdrSummary
}.

(** The summary fields read after the seek to [summaryoffset]. *)
Definition readSummary : M hdrSummary :=
  nBases <~ binaryRead 8 ;;
  minVal <~ binaryRead 8 ;;
  maxVal <~ binaryRead 8 ;;
  sumData <~ binaryRead 8 ;;
  sumSquared <~ binaryRead 8 ;;
  ret {| hs_NBasesCovered := le_uint64 nBases;
         hs_MinVal := Float64frombits (le_uint64 minVal);
         hs_MaxVal := Float64frombits (le_uint64 maxVal);
         hs_SumData := Float64frombits (le_uint64 sumData);
         hs_SumSquared := Float64frombits (le_uint64 sumSquared) |}.

(** [bwHdrRead(bw)] on a file opened for reading.  The seek to the
    summary is [rs.Seek], which is [URL.Seek] for either kind of
    resource.  [IsCompressed], which the call sets last, is
    [0 <? h_bufsize] of the result. *)
Definition bwHdrRead : M bigWigHdr_read :=
  magic <~ binaryRead 4 ;;
  if negb (le_uint32 magic =? BIGWIG_MAGIC) then fail
  else
    version <~ binaryRead 2 ;;
    nLevels <~ binaryRead 2 ;;
    ctoffset <~ binaryRead 8 ;;
    dataOff <~ binaryRead 8 ;;
    indexoffset <~ binaryRead 8 ;;
    fieldCount <~ binaryRead 2 ;;
    definedFieldCount <~ binaryRead 2 ;;
    sqloffset <~ binaryRead 8 ;;
    summaryoffset <~ binaryRead 8 ;;
    bufsz <~ binaryRead 4 ;;
    extensionoffset <~ binaryRead 8 ;;
    zoom <~ (if 0 <? le_uint16 nLevels
             then z <~ bwReadZoomHdrs (le_uint16 nLevels) ;;
                  ret match z with Some l => [l] | None => [] end
             else ret []) ;;
    summary <~ (if 0 <? le_uint64 summaryoffset
                then _ <~ setPos (le_uint64 summaryoffset) ;; readSummary
                else ret hdrSummary0) ;;
    ret {| h_version := le_uint16 version;
           h_nLevels := le_uint16 nLevels;
           h_ctoffset := le_uint64 ctoffset;
           h_dataOffset := le_uint64 dataOff;
           h_indexoffset := le_uint64 indexoffset;
           h_fieldCount := le_uint16 fieldCount;
           h_definedFieldCount := le_uint16 definedFieldCount;
           h_sqloffset := le_uint64 sqloffset;
           h_summaryoffset := le_uint64 summaryoffset;
           h_bufsize := le_uint32 bufsz;
           h_extensionoffset := le_uint64 extensionoffset;
           h_ZoomHdrs := zoom;
           h_summary := summary |}.

(** *** The header as the bytes spell it *)

(** Zoom level [i] of [n], written in 24 bytes at the head of [b]. *)
Fixpoint parseZoomLevels (n : nat) (b : list byte) : list zoomLevel :=
  match n with
  | O => []
  | S n' =>
      {| zl_Level := le_uint32 b; zl_DataOffset := le_uint64 (drop 8 b);
         zl_IndexOffset := le_uint64 (drop 16 b) |}
      :: parseZoomLevels n' (drop 24 b)
  end.

Definition parseSummary (b : list byte) : hdrSummary :=
  {| hs_NBasesCovered := le_uint64 b;
     hs_MinVal := Float64frombits (le_uint64 (drop 8 b));
     hs_MaxVal := Float64frombits (le_uint64 (drop 16 b));
     hs_SumData := Float64frombits (le_uint64 (drop 24 b));
     hs_SumSquared := Float64frombits (le_uint64 (drop 32 b)) |}.

(** The header of a file that consists of [content]: 64 bytes of fixed
    fields, 24 bytes per zoom level right behind them, and 40 bytes of
    summary at [summaryoffset] when that is not 0.  [None] when the magic
    number is another one or the file ends before any of these does. *)
Definition parseHdr (content : list byte) : option bigWigHdr_read :=
  if lenZ content <? 4 then None
  else if negb (le_uint32 content =? BIGWIG_MAGIC) then None
  else if lenZ content <? 64 then None
  else
    let nLevels := le_uint16 (drop 6 content) in
    let summaryoffset := le_uint64 (drop 44 content) in
    if lenZ content <? 64 + 24 * nLevels then None
    else if (0 <? summaryoffset) && (lenZ content <? summaryoffset + 40)
    then None
    else
      Some {| h_version := le_uint16 (drop 4 content);
              h_nLevels := nLevels;
              h_ctoffset := le_uint64 (drop 8 content);
              h_dataOffset := le_uint64 (drop 16 content);
              h_indexoffset := le_uint64 (drop 24 content);
              h_fieldCount := le_uint16 (drop 32 content);
              h_definedFieldCount := le_uint16 (drop 34 content);
              h_sqloffset := le_uint64 (drop 36 content);
              h_summaryoffset := summaryoffset;
              h_bufsize := le_uint32 (drop 52 content);
              h_extensionoffset := le_uint64 (drop 56 content);
              h_ZoomHdrs :=
                if 0 <? nLevels
                then [parseZoomLevels (Z.to_nat nLevels) (drop 64 content)]
                else [];
              h_summary :=
                if 0 <? summaryoffset
                then parseSummary (drop (Z.to_nat summaryoffset) content)
                else hdrSummary0 |}.

(** ** The chromosome list *)

(** [chromList] as [bwReadchromList] builds it, with the lengths. *)
Record chromList_read : Type := {
  c_NKeys : Z;
  c_Chrom : list string;
  c_Len : list Z
}.

(** What [bwGetTid] looks at. *)
Definition chromList_of (cl : chromList_read) : chromList :=
  {| NKeys := c_NKeys cl; Chrom := c_Chrom cl |}.

Fixpoint trimLeft (b : list byte) : list byte :=
  match b with
  | x :: r => if Byte.eqb x x00 then trimLeft r else b
  | [] => []
  end.

(** [bytes.Trim(chrom, "\x00")] *)
Definition trimNul (b : list byte) : list byte :=
  rev (trimLeft (rev (trimLeft b))).

(** The end of the loop body of [readChromLeaf]: both slices grow to
    [idx + 1] entries when [idx] is not an index of [Chrom] yet, then
    name and length are stored at [idx]. *)
Definition storeChrom (cl : chromList_read) (idx : Z) (name : string)
    (len : Z) : outcome chromList_read :=
  let grow := lenZ (c_Chrom cl) <=? idx in
  let chrom :=
    if grow
    then c_Chrom cl
         ++ replicate (Z.to_nat (idx + 1 - lenZ (c_Chrom cl))) EmptyString
    else c_Chrom cl in
  if grow && (idx + 1 - lenZ (c_Len cl) <? 0) then Panic
  else
    let lens :=
      if grow
      then c_Len cl ++ replicate (Z.to_nat (idx + 1 - lenZ (c_Len cl))) 0
      else c_Len cl in
    if lenZ lens <=? idx then Panic
    else Ok {| c_NKeys := c_NKeys cl;
               c_Chrom := <[Z.to_nat idx := name]> chrom;
               c_Len := <[Z.to_nat idx := len]> lens |}.

(** [bw.URL.Read(chrom)] with its check in [readChromLeaf]: one [Read]
    into the buffer of [keySize] bytes, which must fill it. *)
Definition readKey (keySize : Z) : M (list byte) :=
  fun u =>
    let '((data, err), u1) := URL_Read u keySize in
    match err with
    | Some _ => (Nil, u1)
    | None => if lenZ data =? keySize then (Ok data, u1) else (Nil, u1)
    end.

(** The loop of [readChromLeaf]; [n] entries remain. *)
Fixpoint readChromEntries (keySize : Z) (n : nat) (cl : chromList_read)
  : M chromList_read :=
  match n with
  | O => ret cl
  | S n' =>
      chrom <~ readKey keySize ;;
      idx <~ bwRead 4 ;;
      len <~ bwRead 4 ;;
      cl' <~ lift (storeChrom cl (le_uint32 idx)
                     (string_of_list_byte (trimNul chrom)) (le_uint32 len)) ;;
      readChromEntries keySize n' cl'
  end.

(** [readChromLeaf(bw, cl, valueSize)], which [readChromBlock] calls with
    the key size: the number of entries read, and [cl] as it leaves it. *)
Definition readChromLeaf (keySize : Z) (cl : chromList_read)
  : M (Z * chromList_read) :=
  nVals <~ bwRead 2 ;;
  cl' <~ readChromEntries keySize (Z.to_nat (le_uint16 nVals)) cl ;;
  ret (le_uint16 nVals, cl').

(** The loop of [readChromNonLeaf]; [block] is the recursive call of
    [readChromBlock], [n] children remain.  [8 + keySize] is computed in
    32 bits. *)
Fixpoint chromNonLeafLoop
    (block : chromList_read -> M (Z * chromList_read)) (keySize : Z)
    (n : nat) (previous rv : Z) (cl : chromList_read)
  : M (Z * chromList_read) :=
  match n with
  | O => ret (rv, cl)
  | S n' =>
      _ <~ setPos previous ;;
      offset <~ bwRead 8 ;;
      _ <~ setPos (le_uint64 offset) ;;
      r <~ block cl ;;
      chromNonLeafLoop block keySize n' (u64 (previous + u32 (8 + keySize)))
        (u64 (rv + fst r)) (snd r)
  end.

Definition readChromNonLeaf
    (block : chromList_read -> M (Z * chromList_read)) (keySize : Z)
    (cl : chromList_read) : M (Z * chromList_read) :=
  nVals <~ bwRead 2 ;;
  currentPos <~ tell ;;
  chromNonLeafLoop block keySize (Z.to_nat (le_uint16 nVals))
    (u64 (currentPos + keySize)) 0 cl.

(** [readChromBlock(bw, cl, keySize)].  [fuel] bounds the depth of the
    recursion, which in Go is bounded by nothing but the file; running
    out of it is [Panic]. *)
Fixpoint readChromBlock (fuel : nat) (keySize : Z) (cl : chromList_read)
  : M (Z * chromList_read) :=
  match fuel with
  | O => panic
  | S fuel' =>
      isLeaf <~ bwRead 1 ;;
      padding <~ bwRead 1 ;;
      if negb (le_uint8 isLeaf =? 0) then readChromLeaf keySize cl
      else readChromNonLeaf (readChromBlock fuel' keySize) keySize cl
  end.

(** [bwReadchromList(bw)] on a file opened for reading; [ctoffset] is
    [bw.Hdr.ctoffset].  [make([]string, itemCount)] panics when the
    slice would exceed the largest allocation. *)
Definition bwReadchromList (fuel : nat) (ctoffset : Z) : M chromList_read :=
  _ <~ setPos ctoffset ;;
  magic <~ binaryRead 4 ;;
  if negb (le_uint32 magic =? CIRTREE_MAGIC) then fail
  else
    itemsPerBlock <~ binaryRead 4 ;;
    keySize <~ binaryRead 4 ;;
    valueSize <~ binaryRead 4 ;;
    itemCount <~ binaryRead 8 ;;
    if maxAlloc <? 16 * le_uint64 itemCount then panic
    else
      _ <~ binaryRead 4 ;;
      _ <~ binaryRead 4 ;;
      r <~ readChromBlock fuel (le_uint32 keySize)
             {| c_NKeys := int64_of_u64 (le_uint64 itemCount);
                c_Chrom := replicate (Z.to_nat (le_uint64 itemCount))
                             EmptyString;
                c_Len := replicate (Z.to_nat (le_uint64 itemCount)) 0 |} ;;
      if negb (fst r =? le_uint64 itemCount) then fail
      else ret (snd r).

(** A chromosome list whose two slices have one length, which the
    number of keys does not exceed. *)
Definition wf_chromList (cl : chromList_read) : Prop :=
  lenZ (c_Chrom cl) = lenZ (c_Len cl)
  /\ 0 <= c_NKeys cl <= lenZ (c_Chrom cl).

(** *** The chromosome tree as the bytes spell it *)

(** [n] leaf entries from byte [pos] on: a key of [keySize] bytes, the
    chromosome id and the chromosome length. *)
Fixpoint parseChromEntries (content : list byte) (keySize : Z) (n : nat)
    (pos : Z) (cl : chromList_read) : outcome chromList_read :=
  match n with
  | O => Ok cl
  | S n' =>
      if lenZ content <? pos + keySize + 8 then Nil
      else
        cl' <- storeChrom cl
                 (le_uint32 (drop (Z.to_nat (pos + keySize)) content))
                 (string_of_list_byte (trimNul (bytesAt content pos keySize)))
                 (le_uint32 (drop (Z.to_nat (pos + keySize + 4)) content)) ;;
        parseChromEntries content keySize n' (pos + keySize + 8) cl'
  end.

(** [n] children of a branch; the offset of the next child is at byte
    [previous], behind its key. *)
Fixpoint parseChromChildren
    (block : Z -> chromList_read -> outcome (Z * chromList_read))
    (content : list byte) (keySize : Z) (n : nat) (previous rv : Z)
    (cl : chromList_read) : outcome (Z * chromList_read) :=
  match n with
  | O => Ok (rv, cl)
  | S n' =>
      if (2 ^ 63 <=? previous) || (lenZ content <? previous + 8) then Nil
      else
        let offset := le_uint64 (drop (Z.to_nat previous) content) in
        if 2 ^ 63 <=? offset then Nil
        else
          r <- block offset cl ;;
          parseChromChildren block content keySize n'
            (u64 (previous + u32 (8 + keySize))) (u64 (rv + fst r)) (snd r)
  end.

(** The block at byte [pos]: a leaf flag, a padding byte and a 16-bit
    count, then the entries of a leaf or the children of a branch. *)
Fixpoint parseChromBlock (fuel : nat) (content : list byte) (keySize : Z)
    (pos : Z) (cl : chromList_read) : outcome (Z * chromList_read) :=
  match fuel with
  | O => Panic
  | S fuel' =>
      if lenZ content <? pos + 4 then Nil
      else
        let isLeaf := le_uint8 (drop (Z.to_nat pos) content) in
        let n := le_uint16 (drop (Z.to_nat (pos + 2)) content) in
        if negb (isLeaf =? 0) then
          cl' <- parseChromEntries content keySize (Z.to_nat n) (pos + 4) cl ;;
          Ok (n, cl')
        else
          parseChromChildren (parseChromBlock fuel' content keySize) content
            keySize (Z.to_nat n) (u64 (pos + 4 + keySize)) 0 cl
  end.

(** The chromosome list of a file that consists of [content], with its
    tree at [ctoffset]: a header of 32 bytes (magic number 0x78CA8C91,
    items per block, key size, value size, item count, 8 unused bytes)
    and the root block behind it. *)
Definition parseChromList (fuel : nat) (content : list byte) (ctoffset : Z)
  : outcome chromList_read :=
  if 2 ^ 63 <=? ctoffset then Nil
  else
    let b := drop (Z.to_nat ctoffset) content in
    if lenZ content <? ctoffset + 4 then Nil
    else if negb (le_uint32 b =? CIRTREE_MAGIC) then Nil
    else if lenZ content <? ctoffset + 24 then Nil
    else
      let keySize := le_uint32 (drop 8 b) in
      let itemCount := le_uint64 (drop 16 b) in
      if maxAlloc <? 16 * itemCount then Panic
      else if lenZ content <? ctoffset + 32 then Nil
      else
        r <- parseChromBlock fuel content keySize (ctoffset + 32)
               {| c_NKeys := int64_of_u64 itemCount;
                  c_Chrom := replicate (Z.to_nat itemCount) EmptyString;
                  c_Len := replicate (Z.to_nat itemCount) 0 |} ;;
        if negb (fst r =? itemCount) then Nil else Ok (snd r).

(** ** Opening a file *)

(** What [OpenBigWig] leaves in [bf_fp]: the header, the chromosome
    list, the main index and its root node, whose children are all
    unloaded.  [Info] repeats fields of the header. *)
Record Bigwig_file_out : Type := {
  bf_Hdr : bigWigHdr_read;
  bf_Cl : chromList_read;
  bf_Idx : bwRTree_t;
  bf_Root : rtNode
}.

(** [OpenBigWig(fname)].  [opened] is the resource as [Open(fname)]
    returns it; the function opens the name twice, once for [bwisBigWig]
    and once to load the file, and the two resources are taken to be in
    the same state.  [bwReadIndex(fp, 0)] seeks to [fp.Hdr.indexoffset].
    [fuel] bounds the depth of the chromosome tree. *)
Definition OpenBigWig (fuel : nat) (opened : URL)
  : outcome Bigwig_file_out * URL :=
  match fst (bwisBigWig opened) with
  | Ok true =>
      (hdr <~ bwHdrRead ;;
       cl <~ bwReadchromList fuel (h_ctoffset hdr) ;;
       idx <~ bwReadIndex (h_indexoffset hdr) 0 ;;
       ret {| bf_Hdr := hdr; bf_Cl := cl; bf_Idx := fst idx;
              bf_Root := snd idx |}) opened
  | Ok false => (Nil, opened)
  | Nil => (Nil, opened)
  | Panic => (Panic, opened)
  end.

(** The file that the bytes spell: the header, the chromosome list at
    its [ctoffset] and the index at its [indexoffset]. *)
Definition parseFile (fuel : nat) (content : list byte)
  : outcome Bigwig_file_out :=
  match parseHdr content with
  | None => Nil
  | Some hdr =>
      cl <- parseChromList fuel content (h_ctoffset hdr) ;;
      match parseIndex content (h_indexoffset hdr) with
      | None => Nil
      | Some idx =>
          Ok {| bf_Hdr := hdr; bf_Cl := cl; bf_Idx := fst idx;
                bf_Root := snd idx |}
      end
  end.

(** ** A sample index *)

Module IndexSample.

Definition enc_u64 (z : Z) : list byte :=
  Sample.enc_u32 z ++ Sample.enc_u32 (z / 2 ^ 32).

(** A child slot of a leaf (32 bytes) or of a branch (24 bytes). *)
Definition enc_slot (leaf : bool) (c : rchild) : list byte :=
  Sample.enc_u32 (chrIdxStart c) ++ Sample.enc_u32 (baseStart c)
  ++ Sample.enc_u32 (chrIdxEnd c) ++ Sample.enc_u32 (baseEnd c)
  ++ enc_u64 (dataOffset c) ++ (if leaf then enc_u64 (rc_size c) else []).

Definition enc_node (leaf : bool) (cs : list rchild) : list byte :=
  [byte_of_Z (if leaf then 1 else 0); byte_of_Z 0]
  ++ Sample.enc_u16 (lenZ cs) ++ flat_map (enc_slot leaf) cs.

(** The 48 bytes of an index header. *)
Definition enc_idx (blockSize nItems chrIdxStart baseStart chrIdxEnd baseEnd
    idxSize nItemsPerSlot : Z) : list byte :=
  Sample.enc_u32 IDX_MAGIC ++ Sample.enc_u32 blockSize ++ enc_u64 nItems
  ++ Sample.enc_u32 chrIdxStart ++ Sample.enc_u32 baseStart
  ++ Sample.enc_u32 chrIdxEnd ++ Sample.enc_u32 baseEnd
  ++ enc_u64 idxSize ++ Sample.enc_u32 nItemsPerSlot ++ Sample.enc_u32 0.

Definition leafA : list rchild :=
  [Sample.child 0 100 0 500 4096 60; Sample.child 0 1010 0 1045 4156 40].

Definition leafB : list rchild := [Sample.child 0 2000 1 150 4196 48].

(** The root: a branch over [leafA], written at byte 100, and [leafB],
    written at byte 168. *)
Definition rootSlots : list rchild :=
  [Sample.child 0 100 0 1045 100 0; Sample.child 0 2000 1 150 168 0].

(** An index at byte 0: the header, the root at byte 48 and the two
    leaves. *)
Definition content : list byte :=
  enc_idx 256 3 0 100 1 150 204 512
  ++ enc_node false rootSlots ++ enc_node true leafA ++ enc_node true leafB.

Definition root : rtNode :=
  {| n_IsLeaf := 0; n_NChildren := 2; n_Children := rootSlots |}.

Definition local : URL := open_local content.
Definition remote : URL := open_remote content.

End IndexSample.

(** ** A sample file *)

Module FileSample.

Import IndexSample.

(** The 64 bytes of fixed header fields. *)
Definition enc_header (version nLevels ctoffset dataOff indexoffset
    fieldCount definedFieldCount sqloffset summaryoffset bufsz
    extensionoffset : Z) : list byte :=
  Sample.enc_u32 BIGWIG_MAGIC ++ Sample.enc_u16 version
  ++ Sample.enc_u16 nLevels ++ enc_u64 ctoffset ++ enc_u64 dataOff
  ++ enc_u64 indexoffset ++ Sample.enc_u16 fieldCount
  ++ Sample.enc_u16 definedFieldCount ++ enc_u64 sqloffset
  ++ enc_u64 summaryoffset ++ Sample.enc_u32 bufsz ++ enc_u64 extensionoffset.

(** One zoom level (24 bytes). *)
Definition enc_zoom (level dataOff indexOff : Z) : list byte :=
  Sample.enc_u32 level ++ Sample.enc_u32 0 ++ enc_u64 dataOff
  ++ enc_u64 indexOff.

(** Bit patterns of the float64 values of the summary. *)
Definition d1 : Z := 4607182418800017408.   (* 1.0 *)
Definition d8 : Z := 4620693217682128896.   (* 8.0 *)

(** The header of the chromosome tree (32 bytes). *)
Definition enc_chromHdr (itemsPerBlock keySize valueSize itemCount : Z)
  : list byte :=
  Sample.enc_u32 CIRTREE_MAGIC ++ Sample.enc_u32 itemsPerBlock
  ++ Sample.enc_u32 keySize ++ Sample.enc_u32 valueSize ++ enc_u64 itemCount
  ++ Sample.enc_u32 0 ++ Sample.enc_u32 0.

(** A leaf of the chromosome tree with one entry, the key padded with
    zero bytes to 8 bytes. *)
Definition enc_chromLeaf (name : string) (id len : Z) : list byte :=
  [x01; x00] ++ Sample.enc_u16 1
  ++ take 8 (list_byte_of_string name ++ replicate 8 x00)
  ++ Sample.enc_u32 id ++ Sample.enc_u32 len.

(** A branch of the chromosome tree over two blocks. *)
Definition enc_chromBranch (key1 : string) (off1 : Z) (key2 : string)
    (off2 : Z) : list byte :=
  [x00; x00] ++ Sample.enc_u16 2
  ++ take 8 (list_byte_of_string key1 ++ replicate 8 x00) ++ enc_u64 off1
  ++ take 8 (list_byte_of_string key2 ++ replicate 8 x00) ++ enc_u64 off2.

Definition mainLeafA : list rchild :=
  [Sample.child 0 100 0 500 256 60; Sample.child 0 1010 0 1045 316 40].

Definition mainLeafB : list rchild := [Sample.child 0 2000 1 150 356 48].

Definition mainRootSlots : list rchild :=
  [Sample.child 0 100 0 1045 568 0; Sample.child 0 2000 1 150 636 0].

(** A whole file: the header with one zoom level (bytes 0 to 88), the
    summary (88 to 128), the chromosome tree (128 to 256: header, a
    branch at 160 and its two leaves at 196 and 216; 20 unused bytes),
    the three data blocks and the zoom block of [Sample.content] (256 to
    468), the main index (468: header, root at 516, leaves at 568 and
    636) and the zoom index (672: header, root at 720). *)
Definition content : list byte :=
  enc_header 4 1 128 256 468 0 0 0 88 0 0
  ++ enc_zoom 10 404 672
  ++ (enc_u64 830 ++ enc_u64 d1 ++ enc_u64 d8 ++ enc_u64 d8 ++ enc_u64 d8)
  ++ enc_chromHdr 1 8 8 2
  ++ enc_chromBranch "chr1" 196 "chr2" 216
  ++ enc_chromLeaf "chr1" 0 5000
  ++ enc_chromLeaf "chr2" 1 3000
  ++ replicate 20 x00
  ++ Sample.content
  ++ enc_idx 256 3 0 100 1 150 672 1
  ++ enc_node false mainRootSlots
  ++ enc_node true mainLeafA ++ enc_node true mainLeafB
  ++ enc_idx 256 1 0 0 0 200 756 1
  ++ enc_node true [Sample.child 0 0 0 200 404 64].

Definition local : URL := open_local content.
Definition remote : URL := open_remote content.

End FileSample.

(** ** Tactics for chains of reads *)

(** One [bwRead] at the head of a chain on a local file.  [lem] is the
    lemma on [bwRead] at a known position and [Hat] the hypothesis on the
    position; two goals remain, for a read that fits and for one that
    does not. *)
Ltac read_step lem Hat :=
  match goal with
  | |- context [bind (bwRead ?n) _ ?u] =>
      let H := fresh "Hrd" in
      pose proof (lem _ _ n u Hat ltac:(lia)) as H;
      unfold bind at 1;
      match type of H with
      | if ?c then _ else _ =>
          let E := fresh "Efit" in
          destruct c eqn:E;
          [ let u' := fresh "u" in
            let H' := fresh "Hrd" in
            let Hat' := fresh "Hat" in
            destruct H as (u' & H' & Hat'); rewrite H'; clear H' Hat;
            rename Hat' into Hat; apply Z.leb_le in E; cbv beta iota
          | destruct (bwRead n u) as [[?| |] ?]; cbn [fst] in H;
            try discriminate H; clear H; apply Z.leb_gt in E; cbv beta iota ]
      end
  end.

(** * Properties *)

(** ** Capacity growth *)

Lemma land_le_r a b : 0 <= b -> Z.land a b <= b.
Proof.
  intros Hb.
  assert (Hd : Z.land (Z.ldiff b a) (Z.land b a) = 0).
  { apply Z.bits_inj'. intros n Hn.
    rewrite !Z.land_spec, Z.ldiff_spec, Z.bits_0.
    destruct (Z.testbit b n), (Z.testbit a n); reflexivity. }
  pose proof (Z.add_nocarry_lor _ _ Hd) as Hs.
  rewrite Z.lor_ldiff_and in Hs.
  assert (0 <= Z.ldiff b a) by (apply Z.ldiff_nonneg; lia).
  rewrite (Z.land_comm a b). lia.
Qed.

Lemma lor_ge_l a b : 0 <= a -> 0 <= b -> a <= Z.lor a b.
Proof.
  intros Ha Hb. pose proof (Z.add_lor_land a b). pose proof (land_le_r a b Hb). lia.
Qed.

Lemma log2_lt_pow2_nonneg x n : 0 < n -> 0 <= x < 2 ^ n -> Z.log2 x < n.
Proof.
  intros Hn Hx. destruct (Z.eq_dec x 0) as [->|Hx0]; [simpl; lia|].
  apply Z.log2_lt_pow2; lia.
Qed.

Lemma lor_lt_pow2 a b n :
  0 <= n -> 0 <= a < 2 ^ n -> 0 <= b < 2 ^ n -> 0 <= Z.lor a b < 2 ^ n.
Proof.
  intros Hn Ha Hb. split; [apply Z.lor_nonneg; lia|].
  destruct (Z.eq_dec n 0) as [->|Hn0].
  { assert (a = 0) by (simpl in *; lia). assert (b = 0) by (simpl in *; lia).
    subst. reflexivity. }
  destruct (Z.eq_dec (Z.lor a b) 0) as [->|Hz]; [lia|].
  assert (0 < Z.lor a b) by (pose proof (proj2 (Z.lor_nonneg a b)); lia).
  apply Z.log2_lt_pow2; [lia|].
  rewrite Z.log2_lor by lia.
  apply Z.max_lub_lt; apply log2_lt_pow2_nonneg; lia.
Qed.

Lemma shiftr_bounds a k n : 0 <= k -> 0 <= a < 2 ^ n -> 0 <= Z.shiftr a k < 2 ^ n.
Proof.
  intros Hk Ha. rewrite Z.shiftr_div_pow2 by lia.
  assert (0 < 2 ^ k) by (apply Z.pow_pos_nonneg; lia).
  split; [apply Z.div_pos; lia|].
  apply Z.le_lt_trans with a; [|lia]. apply Z.div_le_upper_bound; nia.
Qed.

Lemma smear_step a k :
  0 <= k -> 0 <= a < 2 ^ 31 -> a <= Z.lor a (Z.shiftr a k) < 2 ^ 31.
Proof.
  intros Hk Ha. pose proof (shiftr_bounds a k 31 Hk Ha).
  split; [apply lor_ge_l; lia|]. apply lor_lt_pow2; lia.
Qed.

Lemma roundup_bounds v : 1 <= v <= 2 ^ 31 -> v <= roundup v <= 2 ^ 31.
Proof.
  intros Hv. unfold roundup, u32.
  rewrite (Z.mod_small (v - 1)) by lia.
  pose proof (smear_step (v - 1) 1 ltac:(lia) ltac:(lia)) as H1.
  set (v1 := Z.lor (v - 1) _) in *.
  pose proof (smear_step v1 2 ltac:(lia) ltac:(lia)) as H2.
  set (v2 := Z.lor v1 _) in *.
  pose proof (smear_step v2 4 ltac:(lia) ltac:(lia)) as H3.
  set (v3 := Z.lor v2 _) in *.
  pose proof (smear_step v3 8 ltac:(lia) ltac:(lia)) as H4.
  set (v4 := Z.lor v3 _) in *.
  pose proof (smear_step v4 16 ltac:(lia) ltac:(lia)) as H5.
  set (v5 := Z.lor v4 _) in *.
  rewrite Z.mod_small by lia. lia.
Qed.

(** ** Containers *)

Lemma lenZ_nonneg {A} (l : list A) : 0 <= lenZ l.
Proof. unfold lenZ. lia. Qed.

Lemma lenZ_insert {A} (l : list A) i x : lenZ (<[i:=x]> l) = lenZ l.
Proof. unfold lenZ. now rewrite length_insert. Qed.

Lemma make_copy_grow {A} (zero : A) n (src : list A) :
  lenZ src <= n ->
  make_copy zero n src = src ++ replicate (Z.to_nat n - length src) zero
  /\ lenZ (make_copy zero n src) = n.
Proof.
  unfold make_copy, lenZ. intros H.
  rewrite take_ge by lia. split; [reflexivity|].
  rewrite length_app, length_replicate. lia.
Qed.

Lemma lookup_zip3 a b c i :
  zip3 a b c !! i =
  match a !! i, b !! i, c !! i with
  | Some x, Some y, Some z => Some (x, y, z)
  | _, _, _ => None
  end.
Proof.
  unfold zip3. rewrite !lookup_zip_with.
  destruct (a !! i), (b !! i), (c !! i); reflexivity.
Qed.

Lemma length_zip3 a b c :
  length a = length b -> length b = length c -> length (zip3 a b c) = length a.
Proof. intros H1 H2. unfold zip3. rewrite !length_zip_with. lia. Qed.

(** The live entries after a store at index [L]. *)
Lemma take_zip3_store a b c (n : nat) s e v :
  (n < length a)%nat -> (n < length b)%nat -> (n < length c)%nat ->
  take (S n) (zip3 (<[n:=s]> a) (<[n:=e]> b) (<[n:=v]> c))
  = take n (zip3 a b c) ++ [(s, e, v)].
Proof.
  intros Ha Hb Hc.
  erewrite take_S_r.
  2:{ rewrite lookup_zip3, !list_lookup_insert_eq by assumption. reflexivity. }
  f_equal. apply list_eq. intros i.
  destruct (decide (i < n)%nat) as [Hi|Hi].
  - rewrite !lookup_take_lt, !lookup_zip3 by assumption.
    rewrite !list_lookup_insert_ne by lia. reflexivity.
  - rewrite !lookup_take_ge by lia. reflexivity.
Qed.

Lemma take_zip3_pad a b c a' b' c' (n : nat) :
  (n <= length a)%nat -> (n <= length b)%nat -> (n <= length c)%nat ->
  take n (zip3 (a ++ a') (b ++ b') (c ++ c')) = take n (zip3 a b c).
Proof.
  intros Ha Hb Hc. apply list_eq. intros i.
  destruct (decide (i < n)%nat) as [Hi|Hi].
  - rewrite !lookup_take_lt, !lookup_zip3 by assumption.
    rewrite !lookup_app_l by lia. reflexivity.
  - rewrite !lookup_take_ge by lia. reflexivity.
Qed.

Lemma wf_emptyIntervals : wf_intervals emptyIntervals.
Proof. unfold wf_intervals, emptyIntervals, lenZ. simpl. lia. Qed.

Lemma intervals_of_empty : intervals_of emptyIntervals = [].
Proof. reflexivity. Qed.

Lemma length_intervals_of o :
  wf_intervals o -> lenZ (intervals_of o) = iv_L o.
Proof.
  intros (HL & HM & Hs & He & Hv). unfold intervals_of, lenZ in *.
  rewrite length_take, length_zip3 by lia. lia.
Qed.

(** [pushIntervals] appends one live entry as long as fewer than [2^31]
    are held; the next push finds [roundup] wrapped to 0 and panics. *)
Lemma pushIntervals_ok o s e v :
  wf_intervals o -> iv_L o < 2 ^ 31 ->
  exists o', pushIntervals o s e v = Ok o' /\ wf_intervals o'
             /\ intervals_of o' = intervals_of o ++ [(s, e, v)]
             /\ iv_L o' = iv_L o + 1.
Proof.
  intros (HL & HM & Hs & He & Hv) Hlt.
  unfold pushIntervals.
  assert (Hu : u32 (iv_L o + 1) = iv_L o + 1) by (unfold u32; apply Z.mod_small; lia).
  rewrite !Hu.
  destruct (iv_M o <=? iv_L o + 1) eqn:Hgrow.
  - apply Z.leb_le in Hgrow.
    pose proof (roundup_bounds (iv_L o + 1) ltac:(lia)) as Hr.
    set (newM := roundup (iv_L o + 1)) in *.
    destruct (make_copy_grow 0 newM (iv_Start o)) as [Es Ls]; [lia|].
    destruct (make_copy_grow 0 newM (iv_End o)) as [Ee Le]; [lia|].
    destruct (make_copy_grow f_zero newM (iv_Value o)) as [Ev Lv]; [lia|].
    cbn [iv_L iv_M iv_Start iv_End iv_Value].
    rewrite Ls, Le, Lv.
    replace (iv_L o <? newM) with true by (symmetry; apply Z.ltb_lt; lia).
    cbn [andb]. eexists. split; [reflexivity|].
    unfold wf_intervals, intervals_of. cbn [iv_L iv_M iv_Start iv_End iv_Value].
    rewrite !lenZ_insert, Ls, Le, Lv, Hu.
    split; [lia|]. split; [|reflexivity].
    replace (Z.to_nat (iv_L o + 1)) with (S (Z.to_nat (iv_L o))) by lia.
    unfold lenZ in *.
    rewrite take_zip3_store by lia.
    rewrite Es, Ee, Ev. rewrite take_zip3_pad by lia. reflexivity.
  - apply Z.leb_gt in Hgrow.
    rewrite Hs, He, Hv.
    replace (iv_L o <? iv_M o) with true by (symmetry; apply Z.ltb_lt; lia).
    cbn [andb]. eexists. split; [reflexivity|].
    unfold wf_intervals, intervals_of. cbn [iv_L iv_M iv_Start iv_End iv_Value].
    rewrite !lenZ_insert, Hu.
    split; [lia|]. split; [|reflexivity].
    replace (Z.to_nat (iv_L o + 1)) with (S (Z.to_nat (iv_L o))) by lia.
    unfold lenZ in *.
    rewrite take_zip3_store by lia. reflexivity.
Qed.

Lemma pushIntervals_full o s e v :
  wf_intervals o -> iv_L o = 2 ^ 31 -> pushIntervals o s e v = Panic.
Proof.
  intros (HL & HM & Hs & He & Hv) HLe.
  assert (HMe : iv_M o = 2 ^ 31) by lia.
  unfold pushIntervals. rewrite HLe, HMe.
  replace (2 ^ 31 <=? u32 (2 ^ 31 + 1)) with true by (vm_compute; reflexivity).
  replace (roundup (u32 (2 ^ 31 + 1))) with 0 by (vm_compute; reflexivity).
  cbn [iv_L iv_Start iv_End iv_Value].
  unfold make_copy. reflexivity.
Qed.

(** A push that returns has found room. *)
Lemma pushIntervals_inv o s e v o' :
  wf_intervals o -> pushIntervals o s e v = Ok o' ->
  iv_L o < 2 ^ 31 /\ wf_intervals o'
  /\ intervals_of o' = intervals_of o ++ [(s, e, v)]
  /\ iv_L o' = iv_L o + 1.
Proof.
  intros Hwf Hp.
  assert (Hlt : iv_L o < 2 ^ 31).
  { destruct (Z.eq_dec (iv_L o) (2 ^ 31)) as [E|NE].
    - rewrite pushIntervals_full in Hp by assumption. discriminate.
    - destruct Hwf as (HL & HM & _). lia. }
  split; [assumption|].
  destruct (pushIntervals_ok o s e v Hwf Hlt) as (o2 & E2 & R).
  rewrite E2 in Hp. injection Hp as <-. exact R.
Qed.

(** ** The record loop *)

Lemma decodeItem_truncated hdr start p :
  truncatedItem hdr p = true ->
  decodeItem hdr start p = Some (start, 0, f_zero, p).
Proof.
  unfold truncatedItem, decodeItem. intros H.
  destruct (dh_Type hdr =? 1) eqn:E1.
  { apply Z.eqb_eq in E1.
    destruct (lenZ p <? 12) eqn:El; [reflexivity|].
    rewrite E1 in H. simpl in H. discriminate. }
  destruct (dh_Type hdr =? 2) eqn:E2.
  { apply Z.eqb_eq in E2.
    destruct (lenZ p <? 8) eqn:El; [reflexivity|].
    rewrite E2 in H. simpl in H. discriminate. }
  destruct (dh_Type hdr =? 3) eqn:E3.
  { destruct (lenZ p <? 4) eqn:El; [reflexivity|]. simpl in H. discriminate. }
  simpl in H. discriminate.
Qed.

Lemma decodeItem_known hdr start p :
  knownType hdr = true -> exists r, decodeItem hdr start p = Some r.
Proof.
  unfold knownType, decodeItem. intros H.
  destruct (dh_Type hdr =? 1).
  { destruct (lenZ p <? 12); eauto. }
  destruct (dh_Type hdr =? 2).
  { destruct (lenZ p <? 8); eauto. }
  destruct (dh_Type hdr =? 3).
  { destruct (lenZ p <? 4); eauto. }
  discriminate.
Qed.

Lemma decodeItem_Some_known hdr start p r :
  decodeItem hdr start p = Some r -> knownType hdr = true.
Proof.
  unfold knownType, decodeItem.
  destruct (dh_Type hdr =? 1); [reflexivity|].
  destruct (dh_Type hdr =? 2); [reflexivity|].
  destruct (dh_Type hdr =? 3); [reflexivity|]. discriminate.
Qed.

Lemma filter_test_overlaps ostart oend s e v :
  (e <=? ostart) || (oend <=? s) = negb (overlapsQuery ostart oend (s, e, v)).
Proof.
  unfold overlapsQuery.
  destruct (e <=? ostart) eqn:A, (oend <=? s) eqn:B,
    (ostart <? e) eqn:C, (s <? oend) eqn:D; try reflexivity; lia.
Qed.

(** What the record loop appends: the decoded records that pass the
    filter, in payload order and with the decoded coordinates. *)
Lemma coreItems_sound hdr ostart oend n :
  0 <= ostart ->
  forall start p out out',
    wf_intervals out ->
    coreItems hdr ostart oend n start p out = Ok out' ->
    wf_intervals out'
    /\ intervals_of out'
       = intervals_of out
         ++ List.filter (overlapsQuery ostart oend) (decodedRecords hdr n start p).
Proof.
  intros Hos. induction n as [|n IH]; intros start p out out' Hwf Hrun.
  - simpl in Hrun. injection Hrun as <-. simpl. rewrite app_nil_r. auto.
  - simpl in Hrun. simpl decodedRecords.
    destruct (truncatedItem hdr p) eqn:Ht.
    + rewrite (decodeItem_truncated _ start _ Ht) in *.
      replace (0 <=? ostart) with true in Hrun by (symmetry; apply Z.leb_le; lia).
      simpl in Hrun. apply IH; assumption.
    + destruct (decodeItem hdr start p) as [[[[s' e] v] p']|]; [|discriminate].
      rewrite (filter_test_overlaps ostart oend s' e v) in Hrun.
      cbn [List.filter].
      destruct (overlapsQuery ostart oend (s', e, v)) eqn:Hq; cbn [negb] in Hrun.
      * destruct (pushIntervals out s' e v) as [out1| |] eqn:Hp; try discriminate.
        simpl in Hrun.
        destruct (pushIntervals_inv _ _ _ _ _ Hwf Hp) as (_ & Hwf1 & Hv1 & _).
        destruct (IH _ _ _ _ Hwf1 Hrun) as [Hwf' Hv'].
        split; [assumption|]. rewrite Hv', Hv1, <- app_assoc. reflexivity.
      * apply IH; assumption.
Qed.

(** The loop reaches the same verdict, and appends the same records, on
    any container that holds no more entries. *)
Lemma coreItems_sim hdr ostart oend n :
  forall start p out out' out0,
    wf_intervals out -> wf_intervals out0 -> iv_L out0 <= iv_L out ->
    coreItems hdr ostart oend n start p out = Ok out' ->
    exists out0' d,
      coreItems hdr ostart oend n start p out0 = Ok out0'
      /\ wf_intervals out' /\ wf_intervals out0' /\ iv_L out0' <= iv_L out'
      /\ intervals_of out' = intervals_of out ++ d
      /\ intervals_of out0' = intervals_of out0 ++ d.
Proof.
  induction n as [|n IH]; intros start p out out' out0 Hwf Hwf0 Hle Hrun.
  - simpl in *. injection Hrun as <-. exists out0, [].
    rewrite !app_nil_r. split_and!; auto.
  - simpl in *.
    destruct (decodeItem hdr start p) as [[[[s' e] v] p']|]; [|discriminate].
    destruct ((e <=? ostart) || (oend <=? s')).
    + eapply IH; eassumption.
    + destruct (pushIntervals out s' e v) as [out1| |] eqn:Hp; try discriminate.
      simpl in Hrun.
      destruct (pushIntervals_inv _ _ _ _ _ Hwf Hp) as (Hlt & Hwf1 & Hv1 & HL1).
      destruct (pushIntervals_ok out0 s' e v Hwf0 ltac:(lia))
        as (out01 & Hp0 & Hwf01 & Hv01 & HL01).
      rewrite Hp0. simpl.
      destruct (IH _ _ _ _ out01 Hwf1 Hwf01 ltac:(lia) Hrun)
        as (out0' & d & Hrun0 & Hw' & Hw0' & HL' & Hv' & Hv0').
      exists out0', ((s', e, v) :: d).
      split_and!; try assumption.
      * rewrite Hv', Hv1, <- app_assoc. reflexivity.
      * rewrite Hv0', Hv01, <- app_assoc. reflexivity.
Qed.

(** *** fixedStep payloads *)

Lemma decodedRecords_truncated hdr n :
  forall start p, truncatedItem hdr p = true -> decodedRecords hdr n start p = [].
Proof.
  induction n as [|n IH]; intros start p Ht; [reflexivity|].
  cbn [decodedRecords]. rewrite (decodeItem_truncated _ _ _ Ht), Ht. auto.
Qed.

Lemma u32_add_l a b : u32 (u32 a + b) = u32 (a + b).
Proof. unfold u32. apply Z.add_mod_idemp_l. lia. Qed.

Lemma map_seqZ_succ {A} (f : Z -> A) m n :
  map f (seqZ (1 + m) n) = map (fun j => f (1 + j)) (seqZ m n).
Proof.
  rewrite <- fmap_add_seqZ.
  change (map f (map (Z.add 1) (seqZ m n)) = map (fun j => f (1 + j)) (seqZ m n)).
  apply map_map.
Qed.

Lemma decodedRecords_fixedStep hdr :
  dh_Type hdr = 3 ->
  forall n start p,
    decodedRecords hdr n start p
    = map (fixedStepFrom hdr start p)
        (seqZ 0 (Z.min (Z.of_nat n) (lenZ p / 4))).
Proof.
  intros Hty. induction n as [|n IH]; intros start p.
  - rewrite seqZ_nil; [reflexivity|]. lia.
  - destruct (lenZ p <? 4) eqn:Hlen.
    + apply Z.ltb_lt in Hlen.
      rewrite decodedRecords_truncated.
      2:{ unfold truncatedItem. rewrite Hty. cbn.
          apply Z.ltb_lt. exact Hlen. }
      pose proof (lenZ_nonneg p).
      rewrite seqZ_nil; [reflexivity|].
      rewrite Z.div_small by lia. lia.
    + apply Z.ltb_ge in Hlen.
      cbn [decodedRecords]. unfold decodeItem, truncatedItem.
      rewrite Hty. cbn [Z.eqb Pos.eqb andb orb].
      replace (lenZ p <? 4) with false by (symmetry; apply Z.ltb_ge; exact Hlen).
      rewrite IH.
      assert (Hq : lenZ (drop 4 p) / 4 = lenZ p / 4 - 1).
      { unfold lenZ in *. rewrite length_drop.
        replace (Z.of_nat (length p))
          with (Z.of_nat (length p - 4) + 1 * 4) by lia.
        rewrite Z.div_add by lia. lia. }
      rewrite Hq.
      assert (Hd : 1 <= lenZ p / 4).
      { apply Z.div_le_lower_bound; lia. }
      rewrite (seqZ_cons 0 (Z.min (Z.of_nat (S n)) (lenZ p / 4))) by lia.
      cbn [map]. f_equal.
      * unfold fixedStepFrom. cbn. rewrite Z.mul_1_l. reflexivity.
      * replace (Z.pred (Z.min (Z.of_nat (S n)) (lenZ p / 4)))
          with (Z.min (Z.of_nat n) (lenZ p / 4 - 1)) by lia.
        change (Z.succ 0) with (1 + 0).
        rewrite map_seqZ_succ. apply map_ext_in. intros j Hj.
        apply list_elem_of_In, elem_of_seqZ in Hj.
        unfold fixedStepFrom. cbn zeta.
        rewrite u32_add_l, drop_drop.
        replace (start + dh_Step hdr + (j + 1) * dh_Step hdr)
          with (start + (1 + j + 1) * dh_Step hdr) by lia.
        replace (4 + Z.to_nat (4 * j))%nat with (Z.to_nat (4 * (1 + j))) by lia.
        reflexivity.
Qed.

(** ** Block reads do not depend on where the resource was left *)

Lemma same_resource_refl u : same_resource u u.
Proof. unfold same_resource. auto. Qed.

Lemma same_resource_sym u u' : same_resource u u' -> same_resource u' u.
Proof. unfold same_resource. intuition congruence. Qed.

Lemma same_resource_trans u u' u'' :
  same_resource u u' -> same_resource u' u'' -> same_resource u u''.
Proof. unfold same_resource. intuition congruence. Qed.

Lemma URL_Seek_same_resource u off wh :
  same_resource u (snd (URL_Seek u off wh)).
Proof.
  destruct u as [[d fp] srv b ty pos].
  unfold URL_Seek, File_Seek, same_resource, is_local, set_rs, set_remote. cbn.
  destruct ty; cbn; break_match; simplify_eq/=; auto.
Qed.

Lemma URL_Read_same_resource u n :
  same_resource u (snd (URL_Read u n)).
Proof.
  destruct u as [[d fp] srv b ty pos].
  unfold URL_Read, File_Read, fillBuffer, Buffer_Read, same_resource, is_local,
    set_rs, set_remote.
  cbn. destruct ty; cbn; break_match; simplify_eq/=; auto.
Qed.

(** After an absolute seek two states of a resource agree. *)
Lemma URL_Seek_start u u' off :
  same_resource u u' ->
  fst (URL_Seek u off SeekStart) = fst (URL_Seek u' off SeekStart)
  /\ (snd (fst (URL_Seek u off SeekStart)) = None ->
      same_cursor (snd (URL_Seek u off SeekStart))
        (snd (URL_Seek u' off SeekStart))).
Proof.
  destruct u as [[d fp] srv b ty pos], u' as [[d' fp'] srv' b' ty' pos'].
  unfold same_resource, same_cursor, URL_Seek, File_Seek, is_local,
    set_rs, set_remote. cbn.
  intros (-> & -> & ->).
  destruct ty'; cbn; destruct (off <? 0); cbn;
    (split; [reflexivity|]); intros ?; try discriminate;
    unfold same_resource; cbn; auto.
Qed.

Lemma URL_Read_cursor u u' n :
  same_cursor u u' ->
  fst (URL_Read u n) = fst (URL_Read u' n)
  /\ same_cursor (snd (URL_Read u n)) (snd (URL_Read u' n)).
Proof.
  destruct u as [[d fp] srv b ty pos], u' as [[d' fp'] srv' b' ty' pos'].
  unfold same_cursor, same_resource, URL_Read, File_Read, fillBuffer,
    Buffer_Read, is_local, set_rs, set_remote. cbn.
  intros ((-> & -> & ->) & H).
  destruct ty'; cbn in *.
  - subst fp'. break_match; simplify_eq/=; unfold same_resource; cbn; auto.
  - destruct H as [-> ->].
    break_match; simplify_eq/=; unfold same_resource; cbn; auto.
  - destruct H as [-> ->].
    break_match; simplify_eq/=; unfold same_resource; cbn; auto.
  - destruct H as [-> ->].
    break_match; simplify_eq/=; unfold same_resource; cbn; auto.
Qed.

Section DecoderFacts.

Variable zlib : list byte -> option (list byte).

Lemma readBlock_same_resource compressed off size u :
  same_resource u (snd (readBlock zlib compressed off size u)).
Proof.
  unfold readBlock, bwSetPos.
  pose proof (URL_Seek_same_resource u (int64_of_u64 off) SeekStart) as Hs.
  destruct (URL_Seek u (int64_of_u64 off) SeekStart) as [[a e] u1]. cbn in Hs.
  destruct e; cbn; [assumption|].
  destruct (maxAlloc <? size); cbn; [assumption|].
  pose proof (URL_Read_same_resource u1 size) as Hr.
  destruct (URL_Read u1 size) as [[data err] u2]. cbn in Hr.
  assert (same_resource u u2) by (eapply same_resource_trans; eassumption).
  break_match; simplify_eq/=; assumption.
Qed.

(** A block read returns the same bytes from any state of the resource. *)
Lemma readBlock_indep compressed off size u u' :
  same_resource u u' ->
  fst (readBlock zlib compressed off size u)
  = fst (readBlock zlib compressed off size u').
Proof.
  intros Hsame. unfold readBlock, bwSetPos.
  destruct (URL_Seek_start u u' (int64_of_u64 off) Hsame) as [Hf Hc].
  destruct (URL_Seek u (int64_of_u64 off) SeekStart) as [[a e] u1].
  destruct (URL_Seek u' (int64_of_u64 off) SeekStart) as [[a' e'] u1'].
  cbn in Hf, Hc. injection Hf as -> ->.
  destruct e'; cbn; [reflexivity|].
  destruct (maxAlloc <? size); cbn; [reflexivity|].
  destruct (URL_Read_cursor u1 u1' size (Hc eq_refl)) as [Hr _].
  destruct (URL_Read u1 size) as [[data err] u2].
  destruct (URL_Read u1' size) as [[data' err'] u2'].
  cbn in Hr. injection Hr as -> ->.
  break_match; simplify_eq/=; reflexivity.
Qed.

(** ** The block loop *)

Lemma coreBlocks_step compressed tid ostart oend n off offs sz sizes out u :
  coreBlocks zlib compressed tid ostart oend (S n) (off :: offs) (sz :: sizes) out u
  = match readBlock zlib compressed off sz u with
    | (Ok data, u1) =>
        match bwFillDataHdr data with
        | None => (Nil, u1)
        | Some hdr =>
            if negb (dh_Tid hdr =? tid)
            then coreBlocks zlib compressed tid ostart oend n offs sizes out u1
            else
              match coreItems hdr ostart oend (Z.to_nat (dh_NItems hdr))
                      (dh_Start hdr) (drop 24 data) out with
              | Ok out1 =>
                  coreBlocks zlib compressed tid ostart oend n offs sizes out1 u1
              | Nil => (Nil, u1)
              | Panic => (Panic, u1)
              end
        end
    | (Nil, u1) => (Nil, u1)
    | (Panic, u1) => (Panic, u1)
    end.
Proof.
  cbn [coreBlocks]. unfold bind, lift, fail.
  destruct (readBlock zlib compressed off sz u) as [[data| |] u1]; try reflexivity.
  destruct (bwFillDataHdr data) as [hdr|]; [|reflexivity].
  destruct (negb (dh_Tid hdr =? tid)); [reflexivity|].
  destruct (coreItems _ _ _ _ _ _ _); reflexivity.
Qed.

(** A run of the block loop that returns has found all its blocks. *)
Lemma coreBlocks_Ok_length compressed tid ostart oend n :
  forall offs sizes out u out' u',
    coreBlocks zlib compressed tid ostart oend n offs sizes out u = (Ok out', u') ->
    (n <= length offs)%nat /\ (n <= length sizes)%nat.
Proof.
  induction n as [|n IH]; intros offs sizes out u out' u' Hrun; [simpl; lia|].
  destruct offs as [|off offs], sizes as [|sz sizes]; try discriminate.
  rewrite coreBlocks_step in Hrun.
  destruct (readBlock zlib compressed off sz u) as [[data| |] u1]; try discriminate.
  destruct (bwFillDataHdr data) as [hdr|]; [|discriminate].
  destruct (negb (dh_Tid hdr =? tid)).
  - apply IH in Hrun. simpl. lia.
  - destruct (coreItems _ _ _ _ _ _ _); try discriminate.
    apply IH in Hrun. simpl. lia.
Qed.

(** The block loop reaches the same verdict and appends the same
    intervals from any state of the resource and on any container that
    holds no more entries. *)
Lemma coreBlocks_sim compressed tid ostart oend n :
  forall offs sizes out out0 u u0 out' u',
    wf_intervals out -> wf_intervals out0 -> iv_L out0 <= iv_L out ->
    same_resource u u0 ->
    coreBlocks zlib compressed tid ostart oend n offs sizes out u = (Ok out', u') ->
    exists out0' u0' d,
      coreBlocks zlib compressed tid ostart oend n offs sizes out0 u0
      = (Ok out0', u0')
      /\ wf_intervals out' /\ wf_intervals out0' /\ iv_L out0' <= iv_L out'
      /\ intervals_of out' = intervals_of out ++ d
      /\ intervals_of out0' = intervals_of out0 ++ d
      /\ same_resource u' u0'.
Proof.
  induction n as [|n IH];
    intros offs sizes out out0 u u0 out' u' Hwf Hwf0 Hle Hsame Hrun.
  - cbn in *. unfold ret in *. injection Hrun as <- <-.
    exists out0, u0, []. rewrite !app_nil_r. split_and!; auto.
  - destruct offs as [|off offs], sizes as [|sz sizes]; try discriminate.
    rewrite coreBlocks_step in Hrun. rewrite coreBlocks_step.
    pose proof (readBlock_indep compressed off sz u u0 Hsame) as Hind.
    pose proof (readBlock_same_resource compressed off sz u) as Hs1.
    pose proof (readBlock_same_resource compressed off sz u0) as Hs0.
    destruct (readBlock zlib compressed off sz u) as [r u1].
    destruct (readBlock zlib compressed off sz u0) as [r0 u01].
    cbn in Hind, Hs1, Hs0. subst r0.
    assert (Hsame1 : same_resource u1 u01).
    { eapply same_resource_trans; [apply same_resource_sym; exact Hs1|].
      exact (same_resource_trans _ _ _ Hsame Hs0). }
    destruct r as [data| |]; try discriminate.
    destruct (bwFillDataHdr data) as [hdr|]; [|discriminate].
    destruct (negb (dh_Tid hdr =? tid)).
    + eapply IH; eassumption.
    + destruct (coreItems hdr ostart oend (Z.to_nat (dh_NItems hdr))
                  (dh_Start hdr) (drop 24 data) out) as [out1| |] eqn:Hit;
        try discriminate.
      destruct (coreItems_sim _ _ _ _ _ _ _ _ out0 Hwf Hwf0 Hle Hit)
        as (out01 & d1 & Hit0 & Hw1 & Hw01 & HL1 & Hv1 & Hv01).
      rewrite Hit0.
      destruct (IH _ _ _ out01 _ u01 _ _ Hw1 Hw01 HL1 Hsame1 Hrun)
        as (out0' & u0' & d2 & Hrun0 & Hw' & Hw0' & HL' & Hv' & Hv0' & Hs').
      exists out0', u0', (d1 ++ d2). split_and!; try assumption.
      * rewrite Hv', Hv1, <- app_assoc. reflexivity.
      * rewrite Hv0', Hv01, <- app_assoc. reflexivity.
Qed.

(** Running [a + b] rounds is running [a] rounds and then [b] more on
    what is left of the block list. *)
Lemma coreBlocks_split compressed tid ostart oend a b :
  forall offs sizes out u,
    coreBlocks zlib compressed tid ostart oend (a + b) offs sizes out u
    = bind (coreBlocks zlib compressed tid ostart oend a offs sizes out)
        (fun out1 =>
           coreBlocks zlib compressed tid ostart oend b (drop a offs)
             (drop a sizes) out1) u.
Proof.
  induction a as [|a IH]; intros offs sizes out u.
  - reflexivity.
  - change (S a + b)%nat with (S (a + b)).
    destruct offs as [|off offs], sizes as [|sz sizes]; try reflexivity.
    rewrite coreBlocks_step. unfold bind at 1. rewrite coreBlocks_step.
    destruct (readBlock zlib compressed off sz u) as [[data| |] u1]; try reflexivity.
    destruct (bwFillDataHdr data) as [hdr|]; [|reflexivity].
    destruct (negb (dh_Tid hdr =? tid)).
    + rewrite IH. reflexivity.
    + destruct (coreItems _ _ _ _ _ _ _); try reflexivity.
      rewrite IH. reflexivity.
Qed.

Lemma coreBlocks_take compressed tid ostart oend n :
  forall offs sizes out u,
    coreBlocks zlib compressed tid ostart oend n (take n offs) (take n sizes) out u
    = coreBlocks zlib compressed tid ostart oend n offs sizes out u.
Proof.
  induction n as [|n IH]; intros offs sizes out u; [reflexivity|].
  destruct offs as [|off offs], sizes as [|sz sizes]; cbn [firstn];
    try reflexivity.
  - rewrite !coreBlocks_step.
    destruct (readBlock zlib compressed off sz u) as [[data| |] u1]; try reflexivity.
    destruct (bwFillDataHdr data) as [hdr|]; [|reflexivity].
    destruct (negb (dh_Tid hdr =? tid)); [apply IH|].
    destruct (coreItems _ _ _ _ _ _ _); try reflexivity. apply IH.
Qed.

Lemma Core_coreBlocks fp b tid ostart oend :
  bwGetOverlappingIntervalsCore zlib fp (Some b) tid ostart oend
  = coreBlocks zlib (0 <? bufsize (Hdr fp)) tid ostart oend
      (Z.to_nat (ob_N b)) (ob_Offset b) (ob_Size b) emptyIntervals.
Proof.
  unfold bwGetOverlappingIntervalsCore.
  destruct (ob_N b =? 0) eqn:E; [|reflexivity].
  apply Z.eqb_eq in E. rewrite E. reflexivity.
Qed.

(** ** The iterator *)

(** From any position, the loop collects the current batch and then what
    one run of the block loop over the remaining blocks collects. *)
Lemma iterLoop_rest fp tid start end_ k blocks :
  bw_Type fp = 0 -> 1 <= k < 2 ^ 32 -> 0 <= ob_N blocks < 2 ^ 63 ->
  (Z.to_nat (ob_N blocks) <= length (ob_Offset blocks))%nat ->
  (Z.to_nat (ob_N blocks) <= length (ob_Size blocks))%nat ->
  forall fuel off cur acc u ux uy rest,
    0 <= off ->
    (Z.to_nat (ob_N blocks - off) + 2 <= fuel)%nat ->
    same_resource ux u ->
    coreBlocks zlib (0 <? bufsize (Hdr fp)) tid start end_
      (Z.to_nat (ob_N blocks - off))
      (drop (Z.to_nat off) (ob_Offset blocks))
      (drop (Z.to_nat off) (ob_Size blocks)) emptyIntervals ux = (Ok rest, uy) ->
    exists u',
      iterLoop zlib intervals_of fuel
        (Some (iterAt fp tid start end_ off k blocks cur)) acc u
      = (Ok (acc ++ intervals_of cur ++ intervals_of rest), u').
Proof.
  intros Hty Hk HN Hlo Hls.
  set (N := ob_N blocks) in *.
  induction fuel as [|fuel IH]; intros off cur acc u ux uy rest Hoff Hfuel Hsame Hrest;
    [lia|].
  cbn [iterLoop iterAt it_Data it_Intervals]. unfold bind at 1.
  unfold bwIteratorNext. cbn [it_Blocks it_Offset it_BlocksPerIteration it_Bw
                              it_Tid it_Start it_End iterAt].
  fold N.
  destruct (off <? N) eqn:HoffN.
  - apply Z.ltb_lt in HoffN.
    assert (Hu1 : u64 (off + k) = off + k) by (unfold u64; apply Z.mod_small; lia).
    rewrite Hu1.
    set (c := if N <? off + k then u64 (N - off) else k).
    assert (Hc : 1 <= c /\ c <= k /\ off + c <= N
                 /\ (c = k \/ off + c = N)).
    { unfold c. destruct (N <? off + k) eqn:E.
      - apply Z.ltb_lt in E. unfold u64. rewrite Z.mod_small by lia. lia.
      - apply Z.ltb_ge in E. lia. }
    destruct Hc as (Hc1 & Hck & HcN & Hcase).
    assert (Hu2 : u64 (off + c) = off + c) by (unfold u64; apply Z.mod_small; lia).
    rewrite Hu2.
    replace ((off + c <? off) || (lenZ (ob_Offset blocks) <? off + c)
             || (lenZ (ob_Size blocks) <? off + c)) with false.
    2:{ symmetry. unfold lenZ. rewrite !orb_false_iff, !Z.ltb_ge. lia. }
    rewrite Hty. cbn [Z.eqb]. unfold bind at 1 2, nilable.
    rewrite Core_coreBlocks. cbn [ob_N ob_Offset ob_Size].
    rewrite coreBlocks_take.
    (* split the remaining run at the end of this batch *)
    replace (Z.to_nat (N - off)) with (Z.to_nat c + Z.to_nat (N - off - c))%nat
      in Hrest by lia.
    rewrite coreBlocks_split in Hrest. unfold bind in Hrest.
    destruct (coreBlocks zlib (0 <? bufsize (Hdr fp)) tid start end_ (Z.to_nat c)
                (drop (Z.to_nat off) (ob_Offset blocks))
                (drop (Z.to_nat off) (ob_Size blocks)) emptyIntervals ux)
      as [[next0| |] ux1] eqn:Hb0; try discriminate.
    destruct (coreBlocks_sim _ _ _ _ _ _ _ _ emptyIntervals _ u _ _
                wf_emptyIntervals wf_emptyIntervals (Z.le_refl _) Hsame Hb0)
      as (next & u1 & d & Hb & Hw0 & Hw & _ & Hv0 & Hv & Hs1).
    rewrite Hb. cbn [ret].
    destruct (coreBlocks_sim _ _ _ _ _ _ _ _ emptyIntervals _ ux1 _ _
                Hw0 wf_emptyIntervals ltac:(cbn; destruct Hw0; lia)
                (same_resource_refl _) Hrest)
      as (rest' & uy' & d' & Hr' & _ & _ & _ & Hvr & Hvr' & _).
    rewrite !drop_drop in Hr'.
    (* the iterator after this step *)
    change (it_update (iterAt fp tid start end_ off k blocks cur) (off + k)
              (Some next) (Some (Some next)))
      with (iterAt fp tid start end_ (off + k) k blocks next).
    assert (Hnext : exists rest2 uy2,
               coreBlocks zlib (0 <? bufsize (Hdr fp)) tid start end_
                 (Z.to_nat (N - (off + k)))
                 (drop (Z.to_nat (off + k)) (ob_Offset blocks))
                 (drop (Z.to_nat (off + k)) (ob_Size blocks)) emptyIntervals ux1
               = (Ok rest2, uy2)
               /\ intervals_of rest2 = d').
    { destruct Hcase as [->|Hend].
      - exists rest', uy'. split; [|exact Hvr'].
        rewrite <- Hr'. f_equal; try f_equal; lia.
      - replace (Z.to_nat (N - (off + k))) with 0%nat by lia.
        replace (Z.to_nat (N - off - c)) with 0%nat in Hr' by lia.
        cbn in Hr'. unfold ret in Hr'. injection Hr' as <- <-.
        exists emptyIntervals, ux1. split; [reflexivity|]. exact Hvr'. }
    destruct Hnext as (rest2 & uy2 & Hrun2 & Hv2).
    destruct (IH (off + k) next (acc ++ intervals_of cur) u1 ux1 uy2 rest2
                ltac:(lia) ltac:(lia) Hs1 Hrun2) as (u' & Hloop).
    exists u'. rewrite Hloop. f_equal. f_equal.
    rewrite <- !app_assoc. f_equal. f_equal.
    rewrite Hvr, Hv0, Hv, Hv2. reflexivity.
  - apply Z.ltb_ge in HoffN.
    replace (Z.to_nat (N - off)) with 0%nat in Hrest by lia.
    cbn in Hrest. unfold ret in Hrest. injection Hrest as <- <-.
    cbn [ret]. destruct fuel as [|fuel]; [lia|].
    cbn [iterLoop it_update it_Data]. eexists. unfold ret.
    rewrite intervals_of_empty, app_nil_r. reflexivity.
Qed.

Lemma bwGetOverlappingBlocks_Ok fp chrom start end_ blocks :
  bwGetOverlappingBlocks fp chrom start end_ = Ok blocks ->
  exists tid, bwGetTid fp chrom = Ok tid /\ (tid =? TID_NONE) = false.
Proof.
  unfold bwGetOverlappingBlocks. destruct (bwGetTid fp chrom) as [tid| |];
    cbn; try discriminate.
  destruct (tid =? TID_NONE) eqn:E; [discriminate|]. intros _. eauto.
Qed.

(** C5. For every batch size [k >= 1], the batches the iterator yields
    ([bwOverlappingIntervalsIterator], then [bwIteratorNext] until [Data]
    is nil), concatenated, are exactly the intervals of the one-shot query
    [bwGetOverlappingIntervals], in the same order, whenever the one-shot
    query succeeds; the consumer loop ends within [N + 2] rounds, [N]
    being the number of overlapping blocks. *)
Theorem iterator_batches_concat_eq_oneshot :
  forall fp chrom start end_ k blocks u o u1 u0 fuel,
    bw_Type fp = 0 ->
    1 <= k < 2 ^ 32 ->
    bwGetOverlappingBlocks fp chrom start end_ = Ok blocks ->
    0 <= ob_N blocks < 2 ^ 63 ->
    bwGetOverlappingIntervals zlib fp chrom start end_ u = (Ok o, u1) ->
    same_resource u u0 ->
    (Z.to_nat (ob_N blocks) + 2 <= fuel)%nat ->
    exists u2,
      iterIntervals zlib fuel fp chrom start end_ k u0 = (Ok (intervals_of o), u2).
Proof.
  intros fp chrom start end_ k blocks u o u1 u0 fuel Hty Hk Hblocks HN Hone Hsame Hfuel.
  destruct (bwGetOverlappingBlocks_Ok _ _ _ _ _ Hblocks) as (tid & Htid & Hnone).
  unfold bwGetOverlappingIntervals in Hone. unfold bind, lift in Hone.
  rewrite Htid, Hnone, Hblocks in Hone.
  rewrite Core_coreBlocks in Hone.
  destruct (coreBlocks_Ok_length _ _ _ _ _ _ _ _ _ _ _ Hone) as [Hlo Hls].
  unfold iterIntervals, bwOverlappingIntervalsIterator.
  unfold bind at 1 2 3, lift, nilable. rewrite Htid, Hnone, Hblocks.
  unfold bind at 1, nilable. rewrite Core_coreBlocks.
  set (N := ob_N blocks) in *.
  set (c := if k <? N then k else N).
  assert (Hc : 0 <= c <= N /\ (c = k \/ (c = N /\ N <= k))).
  { unfold c. destruct (k <? N) eqn:E; [apply Z.ltb_lt in E|apply Z.ltb_ge in E]; lia. }
  assert (Hb' : (if k <? N then with_N blocks k else blocks)
                = with_N blocks c).
  { unfold c. destruct (k <? N); [reflexivity|]. destruct blocks; reflexivity. }
  rewrite Hb'. cbn [with_N ob_N ob_Offset ob_Size].
  replace (Z.to_nat N) with (Z.to_nat c + Z.to_nat (N - c))%nat in Hone by lia.
  rewrite coreBlocks_split in Hone. unfold bind in Hone.
  destruct (coreBlocks zlib (0 <? bufsize (Hdr fp)) tid start end_ (Z.to_nat c)
              (ob_Offset blocks) (ob_Size blocks) emptyIntervals u)
    as [[cur0| |] ux1] eqn:Hb0; try discriminate.
  destruct (coreBlocks_sim _ _ _ _ _ _ _ _ emptyIntervals _ u0 _ _
              wf_emptyIntervals wf_emptyIntervals (Z.le_refl _) Hsame Hb0)
    as (cur & u01 & d & Hb & Hw0 & Hw & _ & Hv0 & Hv & Hs1).
  rewrite Hb. cbn [ret].
  destruct (coreBlocks_sim _ _ _ _ _ _ _ _ emptyIntervals _ ux1 _ _
              Hw0 wf_emptyIntervals ltac:(cbn; destruct Hw0; lia)
              (same_resource_refl _) Hone)
    as (rest' & uy' & d' & Hr' & _ & _ & _ & Hvr & Hvr' & _).
  assert (Hnext : exists rest2 uy2,
             coreBlocks zlib (0 <? bufsize (Hdr fp)) tid start end_
               (Z.to_nat (N - k))
               (drop (Z.to_nat k) (ob_Offset blocks))
               (drop (Z.to_nat k) (ob_Size blocks)) emptyIntervals ux1
             = (Ok rest2, uy2)
             /\ intervals_of rest2 = d').
  { destruct Hc as [_ [->|[-> HNk]]].
    - exists rest', uy'. split; [exact Hr'|exact Hvr'].
    - replace (Z.to_nat (N - k)) with 0%nat by lia.
      replace (Z.to_nat (N - N)) with 0%nat in Hr' by lia.
      cbn in Hr'. unfold ret in Hr'. injection Hr' as <- <-.
      exists emptyIntervals, ux1. split; [reflexivity|exact Hvr']. }
  destruct Hnext as (rest2 & uy2 & Hrun2 & Hv2).
  destruct (iterLoop_rest fp tid start end_ k blocks Hty Hk HN Hlo Hls
              fuel k cur [] u01 ux1 uy2 rest2 ltac:(lia) ltac:(fold N; lia)
              Hs1 Hrun2) as (u2 & Hloop).
  exists u2. unfold iterAt in Hloop. rewrite Hloop. f_equal. f_equal.
  cbn [app]. rewrite Hvr, Hv0, Hv, Hv2. reflexivity.
Qed.

End DecoderFacts.

(** ** Per-base expansion *)

Lemma fillRange_length start end_ v n :
  forall j out, length (fillRange start end_ v n j out) = length out.
Proof.
  induction n as [|n IH]; intros j out; [reflexivity|].
  cbn [fillRange]. rewrite IH.
  destruct ((j <? start) || (end_ <=? j)); [reflexivity|apply length_insert].
Qed.

(** One interval overwrites exactly the bases it covers inside the
    query. *)
Lemma fillRange_lookup start end_ v n :
  forall j out (i : nat),
    start <= end_ -> lenZ out = end_ - start -> (i < length out)%nat ->
    fillRange start end_ v n j out !! i
    = if (j <=? start + Z.of_nat i) && (start + Z.of_nat i <? j + Z.of_nat n)
      then Some v else out !! i.
Proof.
  induction n as [|n IH]; intros j out i Hse Hlen Hi.
  - cbn [fillRange]. zb; try reflexivity; lia.
  - cbn [fillRange]. unfold lenZ in Hlen.
    destruct ((j <? start) || (end_ <=? j)) eqn:Hg.
    + rewrite IH by (unfold lenZ; lia).
      zb; try reflexivity; try discriminate; lia.
    + rewrite IH; [|assumption|unfold lenZ; rewrite length_insert; lia
                   |rewrite length_insert; lia].
      destruct (decide (Z.to_nat (j - start) = i)) as [E|NE].
      * subst i. zb; try discriminate.
        all: rewrite ?list_lookup_insert_eq by lia; try reflexivity; lia.
      * rewrite list_lookup_insert_ne by assumption.
        zb; try reflexivity; try discriminate; lia.
Qed.

Lemma take_S_zip3 n s ss e es v vs :
  take (S n) (zip3 (s :: ss) (e :: es) (v :: vs))
  = (s, e, v) :: take n (zip3 ss es vs).
Proof. reflexivity. Qed.

(** The loop over the intervals leaves, at every base of the query, the
    value of the last interval that covers it. *)
Lemma valuesNA_lookup start end_ n :
  forall ss es vs out,
    start <= end_ -> lenZ out = end_ - start ->
    (n <= length ss)%nat -> (n <= length es)%nat -> (n <= length vs)%nat ->
    exists out',
      valuesNA start end_ n ss es vs out = Ok out'
      /\ length out' = length out
      /\ forall i : nat,
          (i < length out)%nat ->
          out' !! i
          = match lastCover (start + Z.of_nat i) (take n (zip3 ss es vs)) with
            | Some v => Some v
            | None => out !! i
            end.
Proof.
  induction n as [|n IH]; intros ss es vs out Hse Hlen Hs He Hv.
  - exists out. split_and!; auto.
  - destruct ss as [|s ss], es as [|e es], vs as [|v vs];
      cbn [length] in Hs, He, Hv; try lia.
    cbn [valuesNA]. rewrite take_S_zip3.
    destruct (IH ss es vs (fillRange start end_ v (Z.to_nat (e - s)) s out))
      as (out' & Hrun & Hl & Hlook);
      [assumption|unfold lenZ in *; rewrite fillRange_length; assumption
      |lia|lia|lia|].
    exists out'. rewrite fillRange_length in Hl. split_and!; [assumption..|].
    intros i Hi. rewrite Hlook by (rewrite fillRange_length; assumption).
    cbn [lastCover].
    destruct (lastCover (start + Z.of_nat i) (take n (zip3 ss es vs)));
      [reflexivity|].
    rewrite fillRange_lookup by assumption. unfold covers.
    zb; try reflexivity; lia.
Qed.

Lemma bwGetOverlappingIntervals_wf zlib fp chrom start end_ u o u1 :
  bwGetOverlappingIntervals zlib fp chrom start end_ u = (Ok o, u1) ->
  wf_intervals o.
Proof.
  unfold bwGetOverlappingIntervals, bind, lift.
  destruct (bwGetTid fp chrom) as [tid| |]; try discriminate.
  destruct (tid =? TID_NONE); [discriminate|].
  destruct (bwGetOverlappingBlocks fp chrom start end_) as [blocks| |];
    try discriminate.
  rewrite Core_coreBlocks. intros Hrun.
  destruct (coreBlocks_sim zlib _ _ _ _ _ _ _ _ emptyIntervals _ u _ _
              wf_emptyIntervals wf_emptyIntervals (Z.le_refl _)
              (same_resource_refl _) Hrun) as (_ & _ & _ & _ & Hw & _).
  exact Hw.
Qed.

Lemma valuesNA_length start end_ n :
  forall ss es vs out out',
    valuesNA start end_ n ss es vs out = Ok out' -> length out' = length out.
Proof.
  induction n as [|n IH]; intros ss es vs o o' H.
  - cbn in H. injection H as <-. reflexivity.
  - cbn [valuesNA] in H.
    destruct ss as [|s ss], es as [|e es]; try discriminate.
    destruct vs as [|v vs].
    + destruct (Z.max s start <? Z.min e end_); [discriminate|].
      exact (IH _ _ _ _ _ H).
    + rewrite (IH _ _ _ _ _ H). apply fillRange_length.
Qed.

(** ** Chromosome lookup *)

Lemma bwGetTid_loop_absent names chrom n :
  forall i : nat,
    ~ In chrom names -> (i + n <= length names)%nat ->
    bwGetTid_loop names chrom n (Z.of_nat i) = Ok TID_NONE.
Proof.
  induction n as [|n IH]; intros i Hnot Hlen; [reflexivity|].
  cbn [bwGetTid_loop]. rewrite Nat2Z.id.
  destruct (names !! i) as [c|] eqn:Hc.
  - assert (Hin : In c names).
    { apply list_elem_of_In. eapply list_elem_of_lookup_2. exact Hc. }
    destruct (String.eqb_spec c chrom) as [->|Hne]; [contradiction|].
    replace (Z.of_nat i + 1) with (Z.of_nat (S i)) by lia.
    apply IH; [assumption|lia].
  - apply lookup_ge_None in Hc. lia.
Qed.

Lemma bwGetTid_absent fp chrom :
  ~ In chrom (Chrom (Cl fp)) ->
  (Z.to_nat (u32 (NKeys (Cl fp))) <= length (Chrom (Cl fp)))%nat ->
  bwGetTid fp chrom = Ok TID_NONE.
Proof.
  intros Hnot Hlen. unfold bwGetTid.
  destruct (String.eqb chrom ""); [reflexivity|].
  apply (bwGetTid_loop_absent _ _ _ 0%nat); [assumption|lia].
Qed.

(** ** Zoom bins *)

Lemma zoomBins_length summaryType numBins start end_ binSize summaries n :
  forall i values,
    length (zoomBins summaryType numBins start end_ binSize summaries n i values)
    = length values.
Proof.
  induction n as [|n IH]; intros i values; [reflexivity|].
  cbn [zoomBins]. rewrite IH.
  destruct (0 <? acc_count _); [apply length_insert|reflexivity].
Qed.

(** After the bin loop, a bin it visited holds its aggregate when the
    accumulated count is positive and is untouched otherwise. *)
Lemma zoomBins_lookup summaryType numBins start end_ binSize summaries n :
  forall (i0 : nat) values (i : nat),
    (i < length values)%nat ->
    zoomBins summaryType numBins start end_ binSize summaries n (Z.of_nat i0)
      values !! i
    = if (i0 <=? i)%nat && (i <? i0 + n)%nat
         && (0 <? acc_count (zoomBinAcc start binSize summaries (Z.of_nat i)))
      then Some (zoomBinValue summaryType numBins start end_
                   (zoomBinAcc start binSize summaries (Z.of_nat i)))
      else values !! i.
Proof.
  induction n as [|n IH]; intros i0 values i Hi.
  - cbn [zoomBins].
    replace ((i0 <=? i)%nat && (i <? i0 + 0)%nat) with false; [reflexivity|].
    symmetry. apply andb_false_iff.
    destruct (Nat.leb_spec i0 i), (Nat.ltb_spec i (i0 + 0)); auto; lia.
  - cbn [zoomBins].
    fold (zoomBinAcc start binSize summaries (Z.of_nat i0)).
    replace (Z.of_nat i0 + 1) with (Z.of_nat (S i0)) by lia.
    rewrite IH.
    2:{ destruct (0 <? acc_count _); [rewrite length_insert|]; assumption. }
    rewrite Nat2Z.id.
    destruct (Nat.leb_spec (S i0) i), (Nat.ltb_spec i (S i0 + n)),
      (Nat.leb_spec i0 i), (Nat.ltb_spec i (i0 + S n)); cbn [andb]; try lia.
    + destruct (0 <? acc_count (zoomBinAcc start binSize summaries (Z.of_nat i)));
        [reflexivity|].
      destruct (0 <? acc_count (zoomBinAcc start binSize summaries (Z.of_nat i0)));
        [rewrite list_lookup_insert_ne by lia|]; reflexivity.
    + destruct (0 <? acc_count (zoomBinAcc start binSize summaries (Z.of_nat i0)));
        [rewrite list_lookup_insert_ne by lia|]; reflexivity.
    + assert (i = i0) by lia. subst i.
      destruct (0 <? acc_count (zoomBinAcc start binSize summaries (Z.of_nat i0)));
        [rewrite list_lookup_insert_eq by lia|]; reflexivity.
    + destruct (0 <? acc_count (zoomBinAcc start binSize summaries (Z.of_nat i0)));
        [rewrite list_lookup_insert_ne by lia|]; reflexivity.
Qed.

Lemma zoomBins_nil summaryType numBins start end_ binSize n :
  forall i values,
    zoomBins summaryType numBins start end_ binSize [] n i values = values.
Proof.
  induction n as [|n IH]; intros i values; [reflexivity|].
  cbn [zoomBins]. unfold zoomAccumulate. cbn [fold_left binAcc0 acc_count].
  cbn [Z.ltb Z.compare]. apply IH.
Qed.

Lemma makeValues_Ok numBins values :
  makeValues numBins = Ok values ->
  0 <= numBins /\ values = replicate (Z.to_nat numBins) f32_NaN.
Proof.
  unfold makeValues.
  destruct ((numBins <? 0) || (maxAlloc <? 4 * numBins)) eqn:E; [discriminate|].
  intros [= <-]. apply orb_false_iff in E. destruct E as [E _].
  apply Z.ltb_ge in E. split; [lia|reflexivity].
Qed.

(** What [bwGetValuesFromZoom] returns, bin by bin. *)
Lemma bwGetValuesFromZoom_bins zlib fp zoomIdx chrom start end_ numBins
    summaryType u values u' :
  bwGetValuesFromZoom zlib fp zoomIdx chrom start end_ numBins summaryType u
  = (Ok values, u') ->
  exists summaries,
    bwGetSummariesInRegion zlib fp zoomIdx chrom start end_ u = (Ok summaries, u')
    /\ 0 <= numBins /\ lenZ values = numBins
    /\ forall i,
        0 <= i < numBins ->
        values !! Z.to_nat i
        = Some (let a := zoomBinAcc start (binSizeOf numBins start end_) summaries i in
                if 0 <? acc_count a
                then zoomBinValue summaryType numBins start end_ a
                else f32_NaN).
Proof.
  unfold bwGetValuesFromZoom, bind, lift, ret.
  destruct (bwGetSummariesInRegion zlib fp zoomIdx chrom start end_ u)
    as [[summaries| |] u1]; try discriminate.
  destruct (makeValues numBins) as [vals| |] eqn:Hmk; try discriminate.
  destruct (makeValues_Ok _ _ Hmk) as [Hn ->].
  intros Hres. exists summaries.
  assert (Hv : values
               = zoomBins summaryType numBins start end_
                   (binSizeOf numBins start end_) summaries (Z.to_nat numBins) 0
                   (replicate (Z.to_nat numBins) f32_NaN) /\ u1 = u').
  { destruct summaries as [|s0 rest].
    - injection Hres as <- <-. split; [|reflexivity].
      symmetry. apply zoomBins_nil.
    - injection Hres as <- <-. auto. }
  destruct Hv as [-> ->]. split; [reflexivity|]. split; [assumption|].
  split.
  { unfold lenZ. rewrite zoomBins_length, length_replicate. lia. }
  intros i Hi.
  change 0 with (Z.of_nat 0) at 1.
  rewrite zoomBins_lookup by (rewrite length_replicate; lia).
  rewrite Z2Nat.id by lia. cbn zeta.
  replace ((0 <=? Z.to_nat i)%nat && (Z.to_nat i <? 0 + Z.to_nat numBins)%nat)
    with true.
  2:{ symmetry. apply andb_true_iff. split.
      - apply Nat.leb_le. lia.
      - apply Nat.ltb_lt. lia. }
  cbn [andb].
  destruct (0 <? acc_count _); [reflexivity|].
  rewrite lookup_replicate_2 by lia. reflexivity.
Qed.

(** ** NaN replacement in [GetZoomValues] *)

Lemma nanStep_lookup (values : list spec_float) (j i : nat) :
  match values !! j with
  | Some v => if isNaN (f64_of_f32 v) then <[j:=f_zero]> values else values
  | None => values
  end !! i
  = if decide (i = j) then nanFix <$> values !! i else values !! i.
Proof.
  destruct (decide (i = j)) as [->|Hne].
  - destruct (values !! j) as [v|] eqn:Hv; cbn.
    + unfold nanFix. destruct (isNaN (f64_of_f32 v)).
      * apply list_lookup_insert_eq. eapply lookup_lt_Some. exact Hv.
      * exact Hv.
    + exact Hv.
  - destruct (values !! j) as [v|]; [|reflexivity].
    destruct (isNaN (f64_of_f32 v)); [|reflexivity].
    apply list_lookup_insert_ne. congruence.
Qed.

(** One goroutine rewrites exactly its own range. *)
Lemma nanToZero_lookup n :
  forall (j : nat) (values : list spec_float) (i : nat),
    nanToZero n (Z.of_nat j) values !! i
    = if (j <=? i)%nat && (i <? j + n)%nat
      then nanFix <$> values !! i else values !! i.
Proof.
  induction n as [|n IH]; intros j values i.
  - cbn [nanToZero].
    destruct (Nat.leb_spec j i), (Nat.ltb_spec i (j + 0)); cbn [andb];
      try reflexivity; lia.
  - cbn [nanToZero]. rewrite Nat2Z.id.
    replace (Z.of_nat j + 1) with (Z.of_nat (S j)) by lia.
    rewrite IH, nanStep_lookup.
    destruct (Nat.leb_spec (S j) i), (Nat.ltb_spec i (S j + n)),
      (Nat.leb_spec j i), (Nat.ltb_spec i (j + S n)), (decide (i = j));
      cbn [andb]; try reflexivity; lia.
Qed.

Lemma nanToZero_lookupZ n j (values : list spec_float) (i : nat) :
  0 <= j ->
  nanToZero n j values !! i
  = if (j <=? Z.of_nat i) && (Z.of_nat i <? j + Z.of_nat n)
    then nanFix <$> values !! i else values !! i.
Proof.
  intros Hj. rewrite <- (Z2Nat.id j Hj) at 1. rewrite nanToZero_lookup.
  destruct (Nat.leb_spec (Z.to_nat j) i), (Nat.ltb_spec i (Z.to_nat j + n));
    cbn [andb]; zb; try reflexivity; lia.
Qed.

(** The goroutines together rewrite every index below
    [min (numCPU * chunkSize) n]. *)
Lemma nanChunks_lookup chunkSize n k :
  0 < chunkSize -> 0 <= n ->
  forall (c : nat) (values : list spec_float) (i : nat),
    nanChunks chunkSize n k (Z.of_nat c) values !! i
    = if (Z.of_nat c * chunkSize <=? Z.of_nat i)
         && (Z.of_nat i <? Z.min ((Z.of_nat c + Z.of_nat k) * chunkSize) n)
      then nanFix <$> values !! i else values !! i.
Proof.
  intros Hcs Hn. induction k as [|k IH]; intros c values i.
  - cbn [nanChunks]. zb; try reflexivity; lia.
  - cbn [nanChunks].
    destruct (n <=? Z.of_nat c * chunkSize) eqn:Hbrk.
    + zb; try reflexivity; try discriminate; nia.
    + apply Z.leb_gt in Hbrk.
      replace (Z.of_nat c + 1) with (Z.of_nat (S c)) by lia.
      rewrite IH.
      rewrite !nanToZero_lookupZ by nia.
      zb; try reflexivity; nia.
Qed.

Lemma ceil_div_covers n c :
  0 <= n -> 0 < c -> n <= c * Z.quot (n + c - 1) c /\ (0 < n -> 0 < Z.quot (n + c - 1) c).
Proof.
  intros Hn Hc. rewrite Z.quot_div_nonneg by lia.
  pose proof (Z.div_mod (n + c - 1) c ltac:(lia)) as Hdm.
  pose proof (Z.mod_pos_bound (n + c - 1) c Hc) as Hmb.
  split; [lia|]. intros Hpos.
  apply Z.div_str_pos. lia.
Qed.

(** With at least one CPU, the goroutines replace every NaN by 0 and
    leave the other values alone. *)
Lemma nanChunks_all numCPU (values : list spec_float) :
  1 <= numCPU -> values <> [] ->
  nanChunks (Z.quot (lenZ values + numCPU - 1) numCPU) (lenZ values)
    (Z.to_nat numCPU) 0 values
  = map nanFix values.
Proof.
  intros Hcpu Hne.
  assert (Hn : 0 < lenZ values).
  { unfold lenZ. destruct values; [contradiction|cbn; lia]. }
  destruct (ceil_div_covers (lenZ values) numCPU ltac:(lia) ltac:(lia)) as [Hcov Hpos].
  specialize (Hpos Hn).
  apply list_eq. intros i.
  change 0 with (Z.of_nat 0) at 1.
  rewrite nanChunks_lookup by lia.
  change (map nanFix values) with (nanFix <$> values).
  rewrite list_lookup_fmap.
  destruct (decide (i < length values)%nat) as [Hi|Hi].
  - replace ((Z.of_nat 0 * _ <=? Z.of_nat i) && _) with true; [reflexivity|].
    symmetry. apply andb_true_iff. unfold lenZ in *. rewrite Z.leb_le, Z.ltb_lt.
    rewrite Z2Nat.id by lia. split; [lia|]. apply Z.min_glb_lt; nia.
  - rewrite (lookup_ge_None_2 values i) by lia.
    destruct (_ && _); reflexivity.
Qed.

Lemma nanFix_not_NaN v : isNaN (nanFix v) = false.
Proof.
  unfold nanFix. destruct (isNaN (f64_of_f32 v)) eqn:E; [reflexivity|].
  destruct v; try reflexivity. cbn in E. discriminate.
Qed.

(** ** The two accumulation loops against the specification's formulas *)

Lemma u32_small z : 0 <= z < 2 ^ 32 -> u32 z = z.
Proof. intros H. unfold u32. apply Z.mod_small. exact H. Qed.

Lemma u32_range z : 0 <= u32 z < 2 ^ 32.
Proof. unfold u32. apply Z.mod_pos_bound. lia. Qed.

Lemma overlap_code_spec binStart binEnd s e :
  0 <= s <= e -> e < 2 ^ 32 -> 0 <= binStart <= binEnd -> binEnd < 2 ^ 32 ->
  (e <=? binStart) || (binEnd <=? s) = false ->
  u32 (min32 e binEnd - max32 s binStart) = RebinSpec.overlap binStart binEnd s e
  /\ 0 <= RebinSpec.overlap binStart binEnd s e.
Proof.
  intros Hs He Hb Hbe Hg. apply orb_false_iff in Hg. destruct Hg as [G1 G2].
  apply Z.leb_gt in G1, G2.
  unfold RebinSpec.overlap, min32, max32.
  assert (Hm : (if e <? binEnd then e else binEnd) = Z.min e binEnd) by (zb; lia).
  assert (HM : (if binStart <? s then s else binStart) = Z.max s binStart) by (zb; lia).
  rewrite Hm, HM. split; [apply u32_small|]; lia.
Qed.

Lemma overlap_skipped binStart binEnd s e :
  0 <= s <= e -> 0 <= binStart <= binEnd ->
  (e <=? binStart) || (binEnd <=? s) = true ->
  RebinSpec.overlap binStart binEnd s e <= 0.
Proof.
  intros Hs Hb Hg. apply orb_true_iff in Hg. rewrite !Z.leb_le in Hg.
  unfold RebinSpec.overlap. lia.
Qed.

(** The body of the raw loop treats an interval as one record with
    [validCount = overlap] and [sumData = value * overlap]. *)
Lemma rawStep_spec binStart binEnd a r :
  wf_interval r -> 0 <= binStart <= binEnd -> binEnd < 2 ^ 32 ->
  rawStep binStart binEnd a r
  = match RebinSpec.ofInterval binStart binEnd r with
    | Some c => RebinSpec.absorb a c
    | None => a
    end.
Proof.
  destruct r as [[s e] v]. intros [Hs He] Hb Hbe.
  unfold rawStep, RebinSpec.ofInterval.
  destruct ((e <=? binStart) || (binEnd <=? s)) eqn:Hg.
  - pose proof (overlap_skipped _ _ _ _ Hs Hb Hg) as Hov.
    replace (RebinSpec.overlap binStart binEnd s e <=? 0) with true
      by (symmetry; apply Z.leb_le; exact Hov).
    reflexivity.
  - destruct (overlap_code_spec _ _ _ _ Hs He Hb Hbe Hg) as [-> Hov].
    destruct (Z.ltb_spec 0 (RebinSpec.overlap binStart binEnd s e)),
      (Z.leb_spec (RebinSpec.overlap binStart binEnd s e) 0);
      try reflexivity; lia.
Qed.

(** The body of the zoom loop weights a summary record by the covered
    fraction of its width. *)
Lemma zoomStep_spec binStart binEnd a r :
  wf_summary r -> 0 <= binStart <= binEnd -> binEnd < 2 ^ 32 ->
  zoomStep binStart binEnd a r
  = match RebinSpec.ofSummary binStart binEnd r with
    | Some c => RebinSpec.absorb a c
    | None => a
    end.
Proof.
  intros [Hs He] Hb Hbe. unfold zoomStep, RebinSpec.ofSummary.
  destruct ((s_End r <=? binStart) || (binEnd <=? s_Start r)) eqn:Hg.
  - pose proof (overlap_skipped _ _ _ _ Hs Hb Hg) as Hov.
    replace (RebinSpec.overlap binStart binEnd (s_Start r) (s_End r) <=? 0)
      with true by (symmetry; apply Z.leb_le; exact Hov).
    reflexivity.
  - destruct (overlap_code_spec _ _ _ _ Hs He Hb Hbe Hg) as [-> Hov].
    rewrite (u32_small (s_End r - s_Start r)) by lia.
    destruct (Z.eqb_spec (RebinSpec.overlap binStart binEnd (s_Start r) (s_End r)) 0),
      (Z.leb_spec (RebinSpec.overlap binStart binEnd (s_Start r) (s_End r)) 0);
      try reflexivity; lia.
Qed.

Lemma rawBinValue_zoomBinValue summaryType numBins start end_ a :
  rawBinValue summaryType numBins start end_ a
  = zoomBinValue summaryType numBins start end_ a.
Proof. reflexivity. Qed.

Lemma fold_rawStep_spec binStart binEnd :
  0 <= binStart <= binEnd -> binEnd < 2 ^ 32 ->
  forall ivs a,
    Forall wf_interval ivs ->
    fold_left (rawStep binStart binEnd) ivs a
    = RebinSpec.absorbAll a (map (RebinSpec.ofInterval binStart binEnd) ivs).
Proof.
  intros Hb Hbe. induction ivs as [|r ivs IH]; intros a Hwf; [reflexivity|].
  inversion Hwf as [|? ? Hr Hrest]; subst.
  cbn [fold_left map RebinSpec.absorbAll].
  rewrite rawStep_spec by assumption. apply IH. assumption.
Qed.

(** The raw loop reads the [L] live entries in order. *)
Lemma rawAccumulate_fold binStart binEnd n :
  forall ss es vs a,
    (n <= length ss)%nat -> (n <= length es)%nat -> (n <= length vs)%nat ->
    rawAccumulate binStart binEnd n ss es vs a
    = Ok (fold_left (rawStep binStart binEnd) (take n (zip3 ss es vs)) a).
Proof.
  induction n as [|n IH]; intros ss es vs a Hs He Hv; [reflexivity|].
  destruct ss as [|s ss], es as [|e es], vs as [|v vs];
    cbn [length] in Hs, He, Hv; try lia.
  cbn [rawAccumulate]. rewrite take_S_zip3. cbn [fold_left].
  apply IH; lia.
Qed.

Lemma rawBins_lookup summaryType numBins start end_ binSize intervals n :
  wf_intervals intervals ->
  forall (i0 : nat) values,
    exists values',
      rawBins summaryType numBins start end_ binSize intervals n (Z.of_nat i0)
        values = Ok values'
      /\ length values' = length values
      /\ forall i : nat,
          (i < length values)%nat ->
          values' !! i
          = let a := fold_left
                       (rawStep (binBound start binSize (Z.of_nat i))
                          (binBound start binSize (Z.of_nat i + 1)))
                       (intervals_of intervals) binAcc0 in
            if (i0 <=? i)%nat && (i <? i0 + n)%nat && (0 <? acc_count a)
            then Some (zoomBinValue summaryType numBins start end_ a)
            else values !! i.
Proof.
  intros (HL & HM & Hs & He & Hv). unfold lenZ in *.
  induction n as [|n IH]; intros i0 values.
  - exists values. split_and!; try reflexivity. intros i Hi. cbn zeta.
    destruct (Nat.leb_spec i0 i), (Nat.ltb_spec i (i0 + 0)); cbn [andb];
      try reflexivity; lia.
  - cbn [rawBins]. rewrite rawAccumulate_fold by lia. cbn [obind].
    fold (intervals_of intervals).
    set (a0 := fold_left (rawStep (binBound start binSize (Z.of_nat i0))
                            (binBound start binSize (Z.of_nat i0 + 1)))
                 (intervals_of intervals) binAcc0).
    destruct (IH (S i0)
                (if 0 <? acc_count a0
                 then <[Z.to_nat (Z.of_nat i0) :=
                          rawBinValue summaryType numBins start end_ a0]> values
                 else values)) as (values' & Hrun & Hlen & Hlook).
    replace (Z.of_nat (S i0)) with (Z.of_nat i0 + 1) in Hrun by lia.
    exists values'. split; [exact Hrun|].
    assert (Hl : length (if 0 <? acc_count a0
                         then <[Z.to_nat (Z.of_nat i0) :=
                                  rawBinValue summaryType numBins start end_ a0]> values
                         else values) = length values).
    { destruct (0 <? acc_count a0); [apply length_insert|reflexivity]. }
    split; [lia|]. intros i Hi.
    rewrite Hlook by lia. cbn zeta. rewrite Nat2Z.id.
    destruct (Nat.leb_spec (S i0) i), (Nat.ltb_spec i (S i0 + n)),
      (Nat.leb_spec i0 i), (Nat.ltb_spec i (i0 + S n)); cbn [andb]; try lia.
    + destruct (0 <? acc_count (fold_left _ _ _)); [reflexivity|].
      destruct (0 <? acc_count a0);
        [rewrite list_lookup_insert_ne by lia|]; reflexivity.
    + destruct (0 <? acc_count a0);
        [rewrite list_lookup_insert_ne by lia|]; reflexivity.
    + assert (i = i0) by lia. subst i. fold a0.
      destruct (0 <? acc_count a0);
        [rewrite list_lookup_insert_eq by lia|]; reflexivity.
    + destruct (0 <? acc_count a0);
        [rewrite list_lookup_insert_ne by lia|]; reflexivity.
Qed.

Lemma rawAccumulate_not_Nil binStart binEnd n :
  forall ss es vs a, rawAccumulate binStart binEnd n ss es vs a <> Nil.
Proof.
  induction n as [|n IH]; intros ss es vs a; [discriminate|].
  cbn [rawAccumulate].
  destruct ss as [|s ss], es as [|e es]; try discriminate.
  destruct vs as [|v vs]; [|apply IH].
  destruct (Z.max s binStart <? Z.min e binEnd); [discriminate|apply IH].
Qed.

Lemma rawBins_not_Nil summaryType numBins start end_ binSize intervals n :
  forall i values,
    rawBins summaryType numBins start end_ binSize intervals n i values <> Nil.
Proof.
  induction n as [|n IH]; intros i values; [discriminate|].
  cbn [rawBins].
  destruct (rawAccumulate _ _ _ _ _ _ _) as [a| |] eqn:Ha; cbn [obind].
  - apply IH.
  - exfalso. exact (rawAccumulate_not_Nil _ _ _ _ _ _ _ Ha).
  - discriminate.
Qed.

Lemma makeValues_not_Nil numBins : makeValues numBins <> Nil.
Proof. unfold makeValues. destruct (_ || _); discriminate. Qed.

(** * The claims *)

(** ** Block decoding *)

(** C4. In a fixedStep block (type 3) with header fields [start], [step]
    and [span], the record loop gives record [j] (counted from 0) the
    interval from [start + (j+1)*step] to [start + (j+1)*step + span],
    computed in [uint32], with the [j]-th float32 of the payload; the
    records that pass the query filter are appended in that order.  When
    the sums stay below [2^32] the coordinates are exactly those sums. *)
Theorem fixedStep_record_positions :
  forall hdr ostart oend p out out',
    dh_Type hdr = 3 ->
    0 <= ostart ->
    wf_intervals out ->
    coreItems hdr ostart oend (Z.to_nat (dh_NItems hdr)) (dh_Start hdr) p out
    = Ok out' ->
    intervals_of out'
    = intervals_of out
      ++ List.filter (overlapsQuery ostart oend)
           (map (fixedStepRecord hdr p)
              (seqZ 0 (Z.min (dh_NItems hdr) (lenZ p / 4))))
    /\ forall j,
        0 <= j -> 0 <= dh_Start hdr -> 0 <= dh_Step hdr -> 0 <= dh_Span hdr ->
        dh_Start hdr + (j + 1) * dh_Step hdr + dh_Span hdr < 2 ^ 32 ->
        fixedStepRecord hdr p j
        = (dh_Start hdr + (j + 1) * dh_Step hdr,
           dh_Start hdr + (j + 1) * dh_Step hdr + dh_Span hdr,
           Float32frombits (le_uint32 (drop (Z.to_nat (4 * j)) p))).
Proof.
  intros hdr ostart oend p out out' Hty Hos Hwf Hrun. split.
  - destruct (coreItems_sound _ _ _ _ Hos _ _ _ _ Hwf Hrun) as [_ Hv].
    rewrite Hv, (decodedRecords_fixedStep hdr Hty). f_equal. f_equal.
    change (fixedStepFrom hdr (dh_Start hdr) p) with (fixedStepRecord hdr p).
    f_equal.
    pose proof (lenZ_nonneg p).
    assert (0 <= lenZ p / 4) by (apply Z.div_pos; lia).
    destruct (Z.le_gt_cases 0 (dh_NItems hdr)).
    + rewrite Z2Nat.id by lia. reflexivity.
    + rewrite !seqZ_nil by lia. reflexivity.
  - intros j Hj Hs Hst Hsp Hb. unfold fixedStepRecord, u32. cbn zeta.
    assert (0 <= (j + 1) * dh_Step hdr) by nia.
    rewrite (Z.mod_small (dh_Start hdr + (j + 1) * dh_Step hdr)) by lia.
    rewrite Z.mod_small by lia. reflexivity.
Qed.

Lemma fixedStep_record_positions_witness :
  let hdr := Sample.okOr
               {| dh_Tid := 0; dh_Start := 0; dh_End := 0; dh_Step := 0;
                  dh_Span := 0; dh_Type := 0; dh_NItems := 0 |}
               (match bwFillDataHdr Sample.blockB with
                | Some h => Ok h
                | None => Nil
                end) in
  let p := drop 24 Sample.blockB in
  let out' := Sample.okOr emptyIntervals
                (coreItems hdr 0 10000 (Z.to_nat (dh_NItems hdr)) (dh_Start hdr)
                   p emptyIntervals) in
  intervals_of out'
  = [(1010, 1015, Float32frombits Sample.b5);
     (1020, 1025, Float32frombits Sample.b6);
     (1030, 1035, Float32frombits Sample.b7);
     (1040, 1045, Float32frombits Sample.b8)]
  /\ fixedStepRecord hdr p 2 = (1030, 1035, Float32frombits Sample.b7).
Proof.
  intros hdr p out'.
  destruct (fixedStep_record_positions hdr 0 10000 p emptyIntervals out')
    as [Hv Hrec].
  - reflexivity.
  - lia.
  - unfold wf_intervals. vm_compute. intuition discriminate.
  - reflexivity.
  - split.
    + rewrite Hv. vm_compute. reflexivity.
    + rewrite (Hrec 2); [vm_compute; reflexivity| | | | |]; vm_compute;
        intuition discriminate.
Defined.

(** C9. For a block of the query's chromosome, the record loop appends
    exactly the decoded records with [end > query.start] and
    [start < query.end], in payload order, with the decoded coordinates
    and value: nothing is clamped to the query interval. *)
Theorem decoder_emits_overlapping_records_unclamped :
  forall hdr ostart oend n start p out out',
    0 <= ostart ->
    wf_intervals out ->
    coreItems hdr ostart oend n start p out = Ok out' ->
    intervals_of out'
    = intervals_of out
      ++ List.filter (overlapsQuery ostart oend) (decodedRecords hdr n start p)
    /\ forall s e v,
        In (s, e, v) (decodedRecords hdr n start p) ->
        (In (s, e, v)
           (List.filter (overlapsQuery ostart oend)
              (decodedRecords hdr n start p))
         <-> ostart < e /\ s < oend).
Proof.
  intros hdr ostart oend n start p out out' Hos Hwf Hrun. split.
  - exact (proj2 (coreItems_sound _ _ _ _ Hos _ _ _ _ Hwf Hrun)).
  - intros s e v Hin. rewrite filter_In. unfold overlapsQuery.
    rewrite andb_true_iff, !Z.ltb_lt. tauto.
Qed.

Lemma decoder_emits_overlapping_records_unclamped_witness :
  let hdr := Sample.okOr
               {| dh_Tid := 0; dh_Start := 0; dh_End := 0; dh_Step := 0;
                  dh_Span := 0; dh_Type := 0; dh_NItems := 0 |}
               (match bwFillDataHdr Sample.blockA with
                | Some h => Ok h
                | None => Nil
                end) in
  let p := drop 24 Sample.blockA in
  let out' := Sample.okOr emptyIntervals
                (coreItems hdr 150 250 3 (dh_Start hdr) p emptyIntervals) in
  intervals_of out'
  = [(100, 200, Float32frombits Sample.b1); (200, 300, Float32frombits Sample.b2)].
Proof.
  intros hdr p out'.
  destruct (decoder_emits_overlapping_records_unclamped hdr 150 250 3
              (dh_Start hdr) p emptyIntervals out') as [Hv _].
  - lia.
  - unfold wf_intervals. vm_compute. intuition discriminate.
  - reflexivity.
  - rewrite Hv. vm_compute. reflexivity.
Defined.

(** C8. A block whose header carries another chromosome id than the
    query is passed over: the block loop goes on to the next block with
    the output unchanged and without reporting an error for it. *)
Theorem foreign_tid_block_is_skipped :
  forall zlib compressed tid ostart oend n off offs sz sizes out u data u1 hdr,
    readBlock zlib compressed off sz u = (Ok data, u1) ->
    bwFillDataHdr data = Some hdr ->
    dh_Tid hdr <> tid ->
    coreBlocks zlib compressed tid ostart oend (S n) (off :: offs) (sz :: sizes)
      out u
    = coreBlocks zlib compressed tid ostart oend n offs sizes out u1.
Proof.
  intros zlib compressed tid ostart oend n off offs sz sizes out u data u1 hdr
    Hread Hhdr Hne.
  rewrite coreBlocks_step, Hread, Hhdr.
  replace (dh_Tid hdr =? tid) with false by (symmetry; apply Z.eqb_neq; exact Hne).
  reflexivity.
Qed.

Lemma foreign_tid_block_is_skipped_witness :
  let r := readBlock Sample.nozlib false 100 48 Sample.local in
  coreBlocks Sample.nozlib false 0 0 10000 1 [100] [48] emptyIntervals Sample.local
  = (Ok emptyIntervals, snd r).
Proof.
  intros r.
  rewrite (foreign_tid_block_is_skipped Sample.nozlib false 0 0 10000 0 100 []
             48 [] emptyIntervals Sample.local
             (Sample.okOr [] (fst r)) (snd r)
             (Sample.okOr
                {| dh_Tid := 0; dh_Start := 0; dh_End := 0; dh_Step := 0;
                   dh_Span := 0; dh_Type := 0; dh_NItems := 0 |}
                (match bwFillDataHdr (Sample.okOr [] (fst r)) with
                 | Some h => Ok h
                 | None => Nil
                 end))).
  - reflexivity.
  - vm_compute. reflexivity.
  - vm_compute. reflexivity.
  - vm_compute. discriminate.
Defined.

(** ** Per-base values *)

(** C10. A successful [bwGetValues] call with [includeNA = true] returns
    [uint32(end - start)] values, that is [end - start] of them for a
    query with [start <= end]; a base that no returned interval covers
    holds NaN, and a base covered by several intervals holds the value of
    the one that comes last in traversal order. *)
Theorem bwGetValues_includeNA_layout :
  forall zlib fp chrom start end_ u intermediate um out u',
    bwGetOverlappingIntervals zlib fp chrom start end_ u = (Ok intermediate, um) ->
    bwGetValues zlib fp chrom start end_ true u = (Ok out, u') ->
    lenZ (iv_Value out) = u32 (end_ - start)
    /\ iv_L out = u32 (end_ - start)
    /\ (0 <= start <= end_ -> end_ < 2 ^ 32 ->
        lenZ (iv_Value out) = end_ - start
        /\ forall p,
            0 <= p < end_ - start ->
            iv_Value out !! Z.to_nat p
            = Some (match lastCover (start + p) (intervals_of intermediate) with
                    | Some v => v
                    | None => f32_NaN
                    end)).
Proof.
  intros zlib fp chrom start end_ u intermediate um out u' Hq Hv.
  pose proof (bwGetOverlappingIntervals_wf _ _ _ _ _ _ _ _ Hq) as Hwf.
  unfold bwGetValues, bind in Hv. rewrite Hq in Hv. unfold lift, ret in Hv.
  destruct (valuesNA start end_ (Z.to_nat (iv_L intermediate))
              (iv_Start intermediate) (iv_End intermediate)
              (iv_Value intermediate)
              (replicate (Z.to_nat (u32 (end_ - start))) f32_NaN))
    as [values| |] eqn:Hrun; try discriminate.
  injection Hv as <- <-. cbn [iv_Value iv_L].
  assert (Hu : 0 <= u32 (end_ - start)) by (unfold u32; apply Z.mod_pos_bound; lia).
  assert (Hlenv : lenZ values = u32 (end_ - start)).
  { unfold lenZ. rewrite (valuesNA_length _ _ _ _ _ _ _ _ Hrun), length_replicate.
    lia. }
  split; [exact Hlenv|]. split; [reflexivity|].
  intros Hse Hend.
  assert (Hsmall : u32 (end_ - start) = end_ - start)
    by (unfold u32; apply Z.mod_small; lia).
  split; [lia|]. intros p Hp.
  destruct Hwf as (HL & HM & Hs & He & Hvl). unfold lenZ in *.
  destruct (valuesNA_lookup start end_ (Z.to_nat (iv_L intermediate))
              (iv_Start intermediate) (iv_End intermediate)
              (iv_Value intermediate)
              (replicate (Z.to_nat (u32 (end_ - start))) f32_NaN))
    as (out' & Hrun' & Hl' & Hlook); try lia.
  { unfold lenZ. rewrite length_replicate. lia. }
  rewrite Hrun in Hrun'. injection Hrun' as <-.
  rewrite Hlook by (rewrite length_replicate; lia).
  rewrite lookup_replicate_2 by lia.
  replace (start + Z.of_nat (Z.to_nat p)) with (start + p) by lia.
  unfold intervals_of. destruct (lastCover _ _); reflexivity.
Qed.

Lemma bwGetValues_includeNA_layout_witness :
  let q := bwGetValues Sample.nozlib Sample.file "chr1" 195 205 true Sample.local in
  let out := Sample.okOr emptyIntervals (fst q) in
  lenZ (iv_Value out) = 10
  /\ iv_Value out !! Z.to_nat 4 = Some (Float32frombits Sample.b1)
  /\ iv_Value out !! Z.to_nat 5 = Some (Float32frombits Sample.b2).
Proof.
  intros q out.
  pose (r := bwGetOverlappingIntervals Sample.nozlib Sample.file "chr1" 195 205
               Sample.local).
  destruct (bwGetValues_includeNA_layout Sample.nozlib Sample.file "chr1" 195 205
              Sample.local (Sample.okOr emptyIntervals (fst r)) (snd r)
              out (snd q)) as (Hlen & _ & Hpos).
  - vm_compute. reflexivity.
  - vm_compute. reflexivity.
  - destruct Hpos as [_ Hp]; [lia|lia|].
    split; [rewrite Hlen; reflexivity|]. split.
    + rewrite (Hp 4) by lia. vm_compute. reflexivity.
    + rewrite (Hp 5) by lia. vm_compute. reflexivity.
Defined.

(** ** Unknown chromosomes *)

(** C7. For a name that is not in the chromosome table, the explicit
    lookup [bwGetOverlappingIntervals] fails (it returns nil, the only
    failure value these functions have), whereas the iterator path does
    not: [bwOverlappingIntervalsIterator] yields the nil iterator, on which
    [bwIteratorNext] answers nil again, and [ReadBigWigSignal] returns the
    empty sequence.  None of them touches the resource. *)
Theorem unknown_chromosome_lookup_fails_iterator_empty :
  forall zlib fp chrom start end_ k fuel u,
    ~ In chrom (Chrom (Cl fp)) ->
    (Z.to_nat (u32 (NKeys (Cl fp))) <= length (Chrom (Cl fp)))%nat ->
    bwGetOverlappingIntervals zlib fp chrom start end_ u = (Nil, u)
    /\ bwOverlappingIntervalsIterator zlib fp chrom start end_ k u = (Ok None, u)
    /\ bwIteratorNext zlib None u = (Ok None, u)
    /\ ReadBigWigSignal zlib fuel fp chrom start end_ u = (Ok [], u).
Proof.
  intros zlib fp chrom start end_ k fuel u Hnot Hlen.
  pose proof (bwGetTid_absent fp chrom Hnot Hlen) as Htid.
  unfold bwGetOverlappingIntervals, ReadBigWigSignal,
    bwOverlappingIntervalsIterator, bwIteratorNext, bind, lift, fail, ret.
  rewrite Htid. cbn. auto.
Qed.

Lemma unknown_chromosome_lookup_fails_iterator_empty_witness :
  bwGetOverlappingIntervals Sample.nozlib Sample.file "chrX" 0 1000 Sample.remote
  = (Nil, Sample.remote)
  /\ ReadBigWigSignal Sample.nozlib 0 Sample.file "chrX" 0 1000 Sample.remote
     = (Ok [], Sample.remote).
Proof.
  destruct (unknown_chromosome_lookup_fails_iterator_empty Sample.nozlib
              Sample.file "chrX" 0 1000 10 0 Sample.remote)
    as (H1 & _ & _ & H4).
  - vm_compute. intuition discriminate.
  - vm_compute. lia.
  - split; assumption.
Defined.

(** ** The child acceptance test *)

(** The filling loop of [overlapsLeaf] and the loop of [overlapsNonLeaf]
    apply the same test to a child. *)
Lemma leafFillChild_nonLeafChild tid start end_ c :
  leafFillChild tid start end_ c = nonLeafChild tid start end_ c.
Proof.
  unfold leafFillChild, nonLeafChild.
  destruct ((tid <? chrIdxStart c) || (chrIdxEnd c <? tid)); [reflexivity|].
  destruct (chrIdxStart c =? chrIdxEnd c) eqn:E; cbn [negb]; [reflexivity|].
  apply Z.eqb_neq in E.
  destruct (tid =? chrIdxStart c) eqn:E1.
  - apply Z.eqb_eq in E1. cbn [andb].
    destruct (end_ <=? baseStart c); [reflexivity|].
    replace (tid =? chrIdxEnd c) with false
      by (symmetry; apply Z.eqb_neq; congruence).
    reflexivity.
  - cbn [andb]. destruct (tid =? chrIdxEnd c); cbn [andb]; [|reflexivity].
    destruct (baseEnd c <=? start); reflexivity.
Qed.

(** On a child whose box spans several chromosomes, the test accepts
    exactly when [(tid != chrIdxStart or baseStart < end)] and
    [(tid != chrIdxEnd or baseEnd > start)]. *)
Lemma nonLeafChild_cross tid start end_ c :
  chrIdxStart c <> chrIdxEnd c ->
  chrIdxStart c <= tid <= chrIdxEnd c ->
  (nonLeafChild tid start end_ c = Accept
   <-> (tid <> chrIdxStart c \/ baseStart c < end_)
       /\ (tid <> chrIdxEnd c \/ start < baseEnd c)).
Proof.
  intros Hne Hin. unfold nonLeafChild.
  zb; cbn; split; intros Hx; try discriminate; try reflexivity; lia.
Qed.

(** The counting loop differs from both only where it leaves the loop. *)
Lemma leafCountChild_fill tid start end_ c :
  leafCountChild tid start end_ c
  = if (negb (chrIdxStart c =? chrIdxEnd c)) && (tid =? chrIdxStart c)
       && (chrIdxStart c <=? tid) && (tid <=? chrIdxEnd c)
       && (end_ <=? baseStart c)
    then Break
    else leafFillChild tid start end_ c.
Proof.
  unfold leafCountChild, leafFillChild.
  zb; cbn; try reflexivity; lia.
Qed.

(** C2, as the code has it.  In a leaf, the child [(0, 900) - (1, 10)]
    is rejected for the query [(tid 0, 0, 500)] by leaving the counting
    loop, so the next child [(0, 100) - (0, 200)], which the acceptance
    test accepts, is never counted and no block is returned; the same two
    boxes in a branch are both considered. *)
Theorem overlapsLeaf_break_hides_later_child :
  overlapsLeaf (Some Sample.mixedLeaf) 0 0 500 = Some emptyOverlapBlock
  /\ leafFillChild 0 0 500 (Sample.child 0 100 0 200 60 40) = Accept
  /\ nonLeafChild 0 0 500 (Sample.child 0 100 0 200 60 40) = Accept
  /\ overlapsNonLeaf Sample.mixedBranch 0 0 500
     = Some {| ob_N := 1; ob_Offset := [60]; ob_Size := [40] |}.
Proof. vm_compute. auto. Qed.

(** ** Seek and tell *)

(** On a local file [seek(Start, tell())] changes nothing. *)
Lemma local_seek_tell_noop u :
  is_local u = true -> 0 <= f_pos (rs u) < 2 ^ 63 ->
  seek_tell u = ((f_pos (rs u), None), u).
Proof.
  destruct u as [[d fp] srv b ty pos]. unfold is_local. cbn.
  destruct ty; try discriminate. intros _ Hpos.
  unfold seek_tell, bwTell, URL_Seek, File_Seek, is_local, set_rs. cbn.
  replace (fp + 0) with fp by lia.
  replace (fp <? 0) with false by (symmetry; apply Z.ltb_ge; lia).
  cbn. unfold u64, int64_of_u64. rewrite Z.mod_small by lia.
  replace (fp <? 2 ^ 63) with true by (symmetry; apply Z.ltb_lt; lia).
  replace (fp <? 0) with false by (symmetry; apply Z.ltb_ge; lia).
  reflexivity.
Qed.

(** On a remote resource it keeps [FilePos], which counts the bytes
    fetched, and drops the bytes that were fetched but not yet read. *)
Lemma remote_seek_tell_drops_buffer u :
  is_local u = false -> 0 <= FilePos u < 2 ^ 63 ->
  seek_tell u = ((FilePos u, None), set_remote u (FilePos u) []).
Proof.
  destruct u as [[d fp] srv b ty pos]. unfold is_local. cbn.
  intros Hty Hpos.
  unfold seek_tell, bwTell, URL_Seek, is_local, set_remote. cbn.
  rewrite Hty. cbn. replace (pos + 0) with pos by lia.
  unfold u64, int64_of_u64. rewrite Z.mod_small by lia.
  replace (pos <? 2 ^ 63) with true by (symmetry; apply Z.ltb_lt; lia).
  destruct ty; try discriminate; reflexivity.
Qed.

(** C3, as the code has it.  On a remote resource of 65544 bytes, after a
    first read of 4 bytes the next read returns bytes 4..7; with
    [seek(Start, tell())] in between, [tell] answers 65536 and the next
    read returns bytes 65536..65539 instead. *)
Theorem remote_seek_tell_changes_reads :
  let u1 := snd (URL_Read Sample.bigRemote 4) in
  fst (URL_Read Sample.bigRemote 4) = ([x00; x01; x02; x03], None)
  /\ fst (URL_Read u1 4) = ([x04; x05; x06; x07], None)
  /\ fst (seek_tell u1) = (65536, None)
  /\ fst (URL_Read (snd (seek_tell u1)) 4) = ([x19; x1a; x1b; x1c], None).
Proof. vm_compute. auto. Qed.

Lemma iterator_batches_concat_eq_oneshot_witness :
  let r := bwGetOverlappingIntervals Sample.nozlib Sample.file "chr1" 0 10000
             Sample.local in
  let o := Sample.okOr emptyIntervals (fst r) in
  lenZ (intervals_of o) = 7
  /\ exists u2,
      iterIntervals Sample.nozlib 5 Sample.file "chr1" 0 10000 2 Sample.local
      = (Ok (intervals_of o), u2).
Proof.
  intros r o. split; [vm_compute; reflexivity|].
  apply (iterator_batches_concat_eq_oneshot Sample.nozlib Sample.file "chr1"
           0 10000 2
           (Sample.okOr emptyOverlapBlock
              (bwGetOverlappingBlocks Sample.file "chr1" 0 10000))
           Sample.local o (snd r) Sample.local 5).
  - reflexivity.
  - lia.
  - vm_compute. reflexivity.
  - vm_compute. intuition discriminate.
  - vm_compute. reflexivity.
  - unfold same_resource. auto.
  - vm_compute. lia.
Defined.

(** ** Zoom values *)

(** C1, as the code has it.  A successful [GetZoomValues] call that
    selected a zoom level returns [numBins] values; they are the values of
    [bwGetValuesFromZoom] with every NaN replaced by 0.  So a bin whose
    accumulated [validCount] is 0 holds NaN in the result of
    [bwGetValuesFromZoom] and 0 in the result of [GetZoomValues], which
    never contains a NaN. *)
Theorem GetZoomValues_gap_bins_are_zero :
  forall zlib numCPU fp chrom start end_ numBins useClosest desiredReduction
         u values u',
    1 <= numCPU ->
    GetZoomValues zlib numCPU fp chrom start end_ numBins useClosest
      desiredReduction u = (Ok values, u') ->
    exists zhdr rest zoomIdx core summaries,
      ZoomHdrs (Hdr fp) = zhdr :: rest
      /\ zoomIdx = (if useClosest then bwGetBestZoomClosest
                    else bwSelectBestZoomLevel) zhdr (u32 desiredReduction)
      /\ 0 <= zoomIdx
      /\ bwGetValuesFromZoom zlib fp zoomIdx chrom (u32 start) (u32 end_) numBins
           "mean" u = (Ok core, u')
      /\ bwGetSummariesInRegion zlib fp zoomIdx chrom (u32 start) (u32 end_) u
         = (Ok summaries, u')
      /\ lenZ core = numBins /\ lenZ values = numBins
      /\ values = map nanFix core
      /\ (forall (i : nat) v, values !! i = Some v -> isNaN v = false)
      /\ forall i,
          0 <= i < numBins ->
          acc_count (zoomBinAcc (u32 start)
                       (binSizeOf numBins (u32 start) (u32 end_)) summaries i) = 0 ->
          core !! Z.to_nat i = Some f32_NaN
          /\ values !! Z.to_nat i = Some f_zero.
Proof.
  intros zlib numCPU fp chrom start end_ numBins useClosest desiredReduction
    u values u' Hcpu Hrun.
  unfold GetZoomValues in Hrun.
  destruct (ZoomHdrs (Hdr fp)) as [|zhdr rest] eqn:Hz; [discriminate|].
  set (zoomIdx := (if useClosest then bwGetBestZoomClosest
                   else bwSelectBestZoomLevel) zhdr (u32 desiredReduction)) in *.
  destruct (zoomIdx <? 0) eqn:Hidx; [discriminate|].
  apply Z.ltb_ge in Hidx. unfold bind in Hrun.
  destruct (bwGetValuesFromZoom zlib fp zoomIdx chrom (u32 start) (u32 end_)
              numBins "mean" u) as [[core| |] u1] eqn:Hcore; try discriminate.
  destruct (bwGetValuesFromZoom_bins _ _ _ _ _ _ _ _ _ _ _ Hcore)
    as (summaries & Hsum & Hnb & Hlen & Hbins).
  assert (Hvals : values = map nanFix core /\ u1 = u').
  { destruct (lenZ core =? 0) eqn:Hn0.
    - apply Z.eqb_eq in Hn0. unfold ret in Hrun. injection Hrun as <- <-.
      destruct core; [auto|]. unfold lenZ in Hn0. cbn in Hn0. lia.
    - replace (numCPU =? 0) with false in Hrun
        by (symmetry; apply Z.eqb_neq; lia).
      unfold ret in Hrun. injection Hrun as <- <-.
      split; [|reflexivity]. apply nanChunks_all; [assumption|].
      intros ->. discriminate. }
  destruct Hvals as [-> ->].
  exists zhdr, rest, zoomIdx, core, summaries.
  split_and!; try reflexivity; try assumption.
  - unfold lenZ in *. rewrite length_map. assumption.
  - intros i v Hv.
    change (map nanFix core) with (nanFix <$> core) in Hv.
    rewrite list_lookup_fmap in Hv.
    destruct (core !! i) as [w|]; [|discriminate].
    injection Hv as <-. apply nanFix_not_NaN.
  - intros i Hi Hzero.
    pose proof (Hbins i Hi) as Hb. cbn zeta in Hb. rewrite Hzero in Hb.
    cbn in Hb. split; [exact Hb|].
    change (map nanFix core) with (nanFix <$> core).
    rewrite list_lookup_fmap, Hb. reflexivity.
Qed.

Lemma GetZoomValues_gap_bins_are_zero_witness :
  let q := GetZoomValues Sample.nozlib 4 Sample.file "chr1" 0 400 4 false 10
             Sample.local in
  let values := Sample.okOr [] (fst q) in
  lenZ values = 4 /\ forall (i : nat) v, values !! i = Some v -> isNaN v = false.
Proof.
  intros q values.
  destruct (GetZoomValues_gap_bins_are_zero Sample.nozlib 4 Sample.file "chr1"
              0 400 4 false 10 Sample.local values (snd q))
    as (zhdr & rest & zoomIdx & core & summaries & _ & _ & _ & _ & _ & _
        & Hlen & _ & Hnan & _).
  - lia.
  - vm_compute. reflexivity.
  - split; assumption.
Defined.

(** C1 as stated fails: on the sample file, the query [chr1:0-400] with 4
    bins selects zoom level 0 and succeeds; bins 2 and 3 accumulate a
    [validCount] of 0 and the returned values hold 0 there, not NaN. *)
Lemma GetZoomValues_gap_bin_is_not_NaN :
  let q := GetZoomValues Sample.nozlib 4 Sample.file "chr1" 0 400 4 false 10
             Sample.local in
  let summaries :=
    Sample.okOr []
      (fst (bwGetSummariesInRegion Sample.nozlib Sample.file 0 "chr1" 0 400
              Sample.local)) in
  bwSelectBestZoomLevel (Some Sample.zoomHdr) 10 = 0
  /\ fst q = Ok [Float32frombits Sample.b1; Float32frombits Sample.b2;
                 f_zero; f_zero]
  /\ acc_count (zoomBinAcc 0 (binSizeOf 4 0 400) summaries 2) = 0
  /\ acc_count (zoomBinAcc 0 (binSizeOf 4 0 400) summaries 3) = 0
  /\ isNaN f_zero = false.
Proof. vm_compute. auto. Qed.

(** ** The fallback to raw intervals *)

(** C6, as the code has it.  When the file has no zoom header, or the
    selector finds no level, [GetZoomValues] returns nil; it is
    [bwGetValuesAutoZoom] that falls back to [bwGetValuesFromRaw].  That
    fallback never fails; it returns [numBins] values, and each bin
    aggregates the raw intervals as the specification words it: every
    interval is one record with [validCount = overlap] (in base pairs) and
    [sumData = value * overlap], the bin is NaN when the accumulated count
    is 0, and otherwise the value of the same final formulas as for zoom
    records. *)
Theorem fallback_to_raw_only_in_AutoZoom :
  forall zlib numCPU fp chrom start end_ numBins summaryType useClosest
         desiredReduction u,
    (ZoomHdrs (Hdr fp) = [] ->
     GetZoomValues zlib numCPU fp chrom start end_ numBins useClosest
       desiredReduction u = (Nil, u))
    /\ (forall zhdr rest,
          ZoomHdrs (Hdr fp) = zhdr :: rest ->
          (if useClosest then bwGetBestZoomClosest else bwSelectBestZoomLevel)
            zhdr (u32 desiredReduction) < 0 ->
          GetZoomValues zlib numCPU fp chrom start end_ numBins useClosest
            desiredReduction u = (Nil, u))
    /\ (ZoomHdrs (Hdr fp) = [] ->
        bwGetValuesAutoZoom zlib fp chrom start end_ numBins summaryType u
        = bwGetValuesFromRaw zlib fp chrom start end_ numBins summaryType u)
    /\ (forall zhdr rest,
          ZoomHdrs (Hdr fp) = Some zhdr :: rest ->
          u32 numBins <> 0 ->
          (let d := u32 (end_ - start) / u32 numBins in
           bwSelectBestZoomLevel (Some zhdr) (if d <? 2 then 2 else d)) < 0 ->
          bwGetValuesAutoZoom zlib fp chrom start end_ numBins summaryType u
          = bwGetValuesFromRaw zlib fp chrom start end_ numBins summaryType u)
    /\ fst (bwGetValuesFromRaw zlib fp chrom start end_ numBins summaryType u)
       <> Nil
    /\ (forall values u',
          bwGetValuesFromRaw zlib fp chrom start end_ numBins summaryType u
          = (Ok values, u') ->
          lenZ values = numBins
          /\ forall intervals um,
              bwGetOverlappingIntervals zlib fp chrom start end_ u
              = (Ok intervals, um) ->
              Forall wf_interval (intervals_of intervals) ->
              forall i,
                0 <= i < numBins ->
                binBound start (binSizeOf numBins start end_) i
                <= binBound start (binSizeOf numBins start end_) (i + 1) ->
                values !! Z.to_nat i
                = Some (let a := RebinSpec.fallbackAcc
                                   (binBound start (binSizeOf numBins start end_) i)
                                   (binBound start (binSizeOf numBins start end_) (i + 1))
                                   (intervals_of intervals) in
                        if 0 <? acc_count a
                        then zoomBinValue summaryType numBins start end_ a
                        else f32_NaN)).
Proof.
  intros zlib numCPU fp chrom start end_ numBins summaryType useClosest
    desiredReduction u.
  split_and!.
  - intros Hz. unfold GetZoomValues. rewrite Hz. reflexivity.
  - intros zhdr rest Hz Hsel. unfold GetZoomValues. rewrite Hz.
    replace (_ <? 0) with true by (symmetry; apply Z.ltb_lt; exact Hsel).
    reflexivity.
  - intros Hz. unfold bwGetValuesAutoZoom. rewrite Hz. reflexivity.
  - intros zhdr rest Hz Hnb Hsel. unfold bwGetValuesAutoZoom. rewrite Hz.
    replace (u32 numBins =? 0) with false by (symmetry; apply Z.eqb_neq; exact Hnb).
    cbn zeta in Hsel.
    replace (0 <=? _) with false by (symmetry; apply Z.leb_gt; exact Hsel).
    reflexivity.
  - unfold bwGetValuesFromRaw, bind, nilable, lift, ret.
    pose proof (makeValues_not_Nil numBins) as Hmk.
    destruct (bwGetOverlappingIntervals zlib fp chrom start end_ u)
      as [[o| |] u1]; destruct (makeValues numBins) as [vals| |];
      cbn [fst]; try discriminate; try contradiction.
    destruct (iv_L o =? 0); cbn [fst]; [discriminate|].
    apply rawBins_not_Nil.
  - intros values u' Hraw.
    unfold bwGetValuesFromRaw, bind, nilable, lift, ret in Hraw.
    destruct (bwGetOverlappingIntervals zlib fp chrom start end_ u)
      as [[o| |] u1] eqn:Hq; try discriminate.
    + pose proof (bwGetOverlappingIntervals_wf _ _ _ _ _ _ _ _ Hq) as Hwf.
      destruct (makeValues numBins) as [vals| |] eqn:Hmk; try discriminate.
      destruct (makeValues_Ok _ _ Hmk) as [Hn ->].
      destruct (rawBins_lookup summaryType numBins start end_
                  (binSizeOf numBins start end_) o (Z.to_nat numBins) Hwf 0%nat
                  (replicate (Z.to_nat numBins) f32_NaN))
        as (values' & Hrun & Hlen & Hlook).
      change (Z.of_nat 0) with 0 in Hrun.
      assert (Hbins : forall i : nat,
                 (i < Z.to_nat numBins)%nat ->
                 values !! i
                 = Some (let a := fold_left
                                    (rawStep
                                       (binBound start (binSizeOf numBins start end_)
                                          (Z.of_nat i))
                                       (binBound start (binSizeOf numBins start end_)
                                          (Z.of_nat i + 1)))
                                    (intervals_of o) binAcc0 in
                         if 0 <? acc_count a
                         then zoomBinValue summaryType numBins start end_ a
                         else f32_NaN)
                 /\ length values = Z.to_nat numBins).
      { intros i Hi. rewrite length_replicate in Hlen, Hlook.
        destruct (iv_L o =? 0) eqn:HL0.
        - apply Z.eqb_eq in HL0. injection Hraw as <- <-.
          rewrite length_replicate. split; [|reflexivity].
          rewrite lookup_replicate_2 by assumption.
          unfold intervals_of. rewrite HL0. reflexivity.
        - rewrite Hrun in Hraw. injection Hraw as <- <-.
          split; [|assumption].
          rewrite (Hlook i Hi). cbn zeta.
          replace ((0 <=? i)%nat && (i <? 0 + Z.to_nat numBins)%nat) with true.
          2:{ symmetry. apply andb_true_iff. split.
              - apply Nat.leb_le. lia.
              - apply Nat.ltb_lt. lia. }
          cbn [andb]. destruct (0 <? acc_count _); [reflexivity|].
          apply lookup_replicate_2. assumption. }
      split.
      { destruct (Z.eq_dec numBins 0) as [->|Hnz].
        - destruct (iv_L o =? 0).
          + injection Hraw as <- <-. reflexivity.
          + rewrite Hrun in Hraw. injection Hraw as <- <-.
            unfold lenZ. rewrite Hlen. reflexivity.
        - destruct (Hbins 0%nat ltac:(lia)) as [_ Hl]. unfold lenZ. lia. }
      intros intervals um [= <- <-] Hall i Hi Hmono.
      destruct (Hbins (Z.to_nat i) ltac:(lia)) as [Hb _].
      rewrite Hb. rewrite Z2Nat.id by lia. cbn zeta.
      pose proof (u32_range (start + uint32_of_f64
                    (f64_mul (f64_of_Z i) (binSizeOf numBins start end_)))) as R1.
      pose proof (u32_range (start + uint32_of_f64
                    (f64_mul (f64_of_Z (i + 1)) (binSizeOf numBins start end_)))) as R2.
      fold (binBound start (binSizeOf numBins start end_) i) in R1.
      fold (binBound start (binSizeOf numBins start end_) (i + 1)) in R2.
      rewrite fold_rawStep_spec by (try assumption; lia).
      reflexivity.
    + destruct (makeValues numBins) as [vals| |] eqn:Hmk; try discriminate.
      destruct (makeValues_Ok _ _ Hmk) as [Hn ->].
      injection Hraw as <- <-. split.
      * unfold lenZ. rewrite length_replicate. lia.
      * intros intervals um Hcontra. discriminate.
Qed.

Lemma fallback_to_raw_only_in_AutoZoom_witness :
  let q := bwGetValuesFromRaw Sample.nozlib Sample.fileNoZoom "chr1" 0 400 4
             "mean" Sample.local in
  GetZoomValues Sample.nozlib 4 Sample.fileNoZoom "chr1" 0 400 4 false 10
    Sample.local = (Nil, Sample.local)
  /\ bwGetValuesAutoZoom Sample.nozlib Sample.fileNoZoom "chr1" 0 400 4 "mean"
       Sample.local = q
  /\ lenZ (Sample.okOr [] (fst q)) = 4
  /\ Sample.okOr [] (fst q) !! Z.to_nat 1 = Some (Float32frombits Sample.b1).
Proof.
  intros q.
  destruct (fallback_to_raw_only_in_AutoZoom Sample.nozlib 4 Sample.fileNoZoom
              "chr1" 0 400 4 "mean" false 10 Sample.local)
    as (H1 & _ & H3 & _ & _ & H6).
  pose (r := bwGetOverlappingIntervals Sample.nozlib Sample.fileNoZoom "chr1"
               0 400 Sample.local).
  destruct (H6 (Sample.okOr [] (fst q)) (snd q)) as [Hlen Hbin];
    [vm_compute; reflexivity|].
  split; [apply H1; reflexivity|].
  split; [apply H3; reflexivity|].
  split; [exact Hlen|].
  rewrite (Hbin (Sample.okOr emptyIntervals (fst r)) (snd r)).
  - vm_compute. reflexivity.
  - vm_compute. reflexivity.
  - set (l := intervals_of _). vm_compute in l. subst l.
    repeat constructor; cbn; lia.
  - lia.
  - vm_compute. discriminate.
Defined.

(** C6 as stated fails: on the sample file written without zoom levels
    [GetZoomValues] returns nil where rebinning the raw intervals gives
    [NaN, 1, 2, NaN]; and on the sample file with one zoom level of
    reduction 10, a desired reduction of 5 makes the selector return -1
    and [GetZoomValues] return nil as well. *)
Lemma GetZoomValues_fails_instead_of_falling_back :
  ZoomHdrs (Hdr Sample.fileNoZoom) = []
  /\ fst (GetZoomValues Sample.nozlib 4 Sample.fileNoZoom "chr1" 0 400 4 false
            10 Sample.local) = Nil
  /\ fst (bwGetValuesFromRaw Sample.nozlib Sample.fileNoZoom "chr1" 0 400 4
            "mean" Sample.local)
     = Ok [f32_NaN; Float32frombits Sample.b1; Float32frombits Sample.b2; f32_NaN]
  /\ bwSelectBestZoomLevel (Some Sample.zoomHdr) 5 = -1
  /\ fst (GetZoomValues Sample.nozlib 4 Sample.file "chr1" 0 400 4 false 5
            Sample.local) = Nil.
Proof. vm_compute. auto. Qed.

(** * Further properties *)

(** ** [roundup] *)

(** Bits of a smeared word: with [h] the position of the highest set bit,
    [m] bits from [h] downwards are set and none above. *)
Lemma smear_bits y h m s :
  0 <= h -> 0 < s <= m ->
  (forall i, h < i -> Z.testbit y i = false) ->
  (forall i, 0 <= i -> h - m < i <= h -> Z.testbit y i = true) ->
  (forall i, h < i -> Z.testbit (Z.lor y (Z.shiftr y s)) i = false)
  /\ (forall i, 0 <= i -> h - (m + s) < i <= h ->
        Z.testbit (Z.lor y (Z.shiftr y s)) i = true).
Proof.
  intros Hh Hs Hhi Hlo. split.
  - intros i Hi. rewrite Z.lor_spec, Z.shiftr_spec by lia.
    rewrite (Hhi i), (Hhi (i + s)) by lia. reflexivity.
  - intros i Hi0 Hi. rewrite Z.lor_spec, Z.shiftr_spec by lia.
    destruct (Z.lt_ge_cases (h - m) i).
    + rewrite (Hlo i) by lia. reflexivity.
    + rewrite (Hlo (i + s)) by lia. apply orb_true_r.
Qed.

Lemma smear_ones x :
  0 < x < 2 ^ 32 ->
  (let v := x in
   let v := Z.lor v (Z.shiftr v 1) in
   let v := Z.lor v (Z.shiftr v 2) in
   let v := Z.lor v (Z.shiftr v 4) in
   let v := Z.lor v (Z.shiftr v 8) in
   Z.lor v (Z.shiftr v 16)) = 2 ^ (Z.log2 x + 1) - 1.
Proof.
  intros Hx. cbn zeta.
  pose proof (Z.log2_nonneg x) as Hh0.
  assert (Hh : Z.log2 x < 32) by (apply Z.log2_lt_pow2; lia).
  set (h := Z.log2 x) in *.
  assert (H0 : (forall i, h < i -> Z.testbit x i = false)
               /\ (forall i, 0 <= i -> h - 1 < i <= h -> Z.testbit x i = true)).
  { split.
    - intros i Hi. apply Z.bits_above_log2; lia.
    - intros i _ Hi. replace i with h by lia. apply Z.bit_log2. lia. }
  destruct H0 as [A0 B0].
  destruct (smear_bits x h 1 1 Hh0 ltac:(lia) A0 B0) as [A1 B1].
  destruct (smear_bits _ h 2 2 Hh0 ltac:(lia) A1 B1) as [A2 B2].
  destruct (smear_bits _ h 4 4 Hh0 ltac:(lia) A2 B2) as [A3 B3].
  destruct (smear_bits _ h 8 8 Hh0 ltac:(lia) A3 B3) as [A4 B4].
  destruct (smear_bits _ h 16 16 Hh0 ltac:(lia) A4 B4) as [A5 B5].
  replace (2 ^ (h + 1) - 1) with (Z.ones (h + 1))
    by (rewrite Z.ones_equiv; lia).
  apply Z.bits_inj'. intros i Hi.
  destruct (Z.lt_ge_cases h i).
  - rewrite A5 by lia. rewrite Z.ones_spec_high by lia. reflexivity.
  - rewrite B5 by lia. rewrite Z.ones_spec_low by lia. reflexivity.
Qed.

(** [roundup] on the range where it does not wrap. *)
Lemma roundup_spec v :
  1 <= v <= 2 ^ 31 ->
  exists k, 0 <= k <= 31 /\ roundup v = 2 ^ k /\ v <= 2 ^ k
            /\ forall j, 0 <= j -> v <= 2 ^ j -> 2 ^ k <= 2 ^ j.
Proof.
  intros Hr. destruct (Z.eq_dec v 1) as [->|Hne].
  - exists 0. split; [lia|]. split; [reflexivity|]. split; [reflexivity|].
    intros j Hj _. apply Z.pow_le_mono_r; lia.
  - assert (Hx : 0 < v - 1 < 2 ^ 32) by lia.
    pose proof (smear_ones (v - 1) Hx) as Hs. cbn zeta in Hs.
    pose proof (Z.log2_nonneg (v - 1)) as Hh0.
    assert (Hh : Z.log2 (v - 1) < 31) by (apply Z.log2_lt_pow2; lia).
    pose proof (Z.log2_spec (v - 1) ltac:(lia)) as [Hlo Hhi].
    rewrite <- Z.add_1_r in Hhi.
    exists (Z.log2 (v - 1) + 1).
    assert (Hp : 2 ^ (Z.log2 (v - 1) + 1) <= 2 ^ 31)
      by (apply Z.pow_le_mono_r; lia).
    split_and!; try lia.
    + assert (Hu : u32 (v - 1) = v - 1) by (apply u32_small; lia).
      unfold roundup. rewrite Hu. cbn zeta. rewrite Hs.
      unfold u32. rewrite Z.mod_small by lia. lia.
    + intros j Hj Hvj.
      destruct (Z.lt_ge_cases j (Z.log2 (v - 1) + 1)) as [Hlt|Hge].
      * assert (2 ^ j <= 2 ^ Z.log2 (v - 1)) by (apply Z.pow_le_mono_r; lia).
        lia.
      * apply Z.pow_le_mono_r; lia.
Qed.

Lemma roundup_wraps v : 2 ^ 31 < v < 2 ^ 32 -> roundup v = 0.
Proof.
  intros Hbig.
  assert (Hx : 0 < v - 1 < 2 ^ 32) by lia.
  pose proof (smear_ones (v - 1) Hx) as Hs. cbn zeta in Hs.
  assert (Hh : Z.log2 (v - 1) = 31) by (apply Z.log2_unique; lia).
  assert (Hu : u32 (v - 1) = v - 1) by (apply u32_small; lia).
  unfold roundup. rewrite Hu. cbn zeta. rewrite Hs, Hh. reflexivity.
Qed.

Lemma roundup_unique v k :
  1 <= v <= 2 ^ 31 -> 0 <= k -> v <= 2 ^ k ->
  (forall j, 0 <= j -> v <= 2 ^ j -> 2 ^ k <= 2 ^ j) ->
  roundup v = 2 ^ k.
Proof.
  intros Hv Hk Hle Hleast.
  destruct (roundup_spec v Hv) as (k0 & Hk0 & -> & Hle0 & Hleast0).
  pose proof (Hleast k0 ltac:(lia) Hle0). pose proof (Hleast0 k Hk Hle). lia.
Qed.

(** No growth is due while [L + 1] stays below the capacity. *)
Lemma roundup_stable L :
  1 <= L < 2 ^ 31 -> L + 1 < roundup L -> roundup (L + 1) = roundup L.
Proof.
  intros HL Hlt.
  destruct (roundup_spec L ltac:(lia)) as (k & Hk & Hr & Hle & Hleast).
  rewrite Hr in *. apply roundup_unique; try lia.
  intros j Hj Hj'. apply Hleast; lia.
Qed.

(** X1. [roundup] gives the least power of two that is not below its
    argument, for every argument from 1 to [2^31]; on 0 and above [2^31]
    the 32-bit arithmetic wraps and the result is 0. *)
Theorem roundup_least_power_of_two v :
  0 <= v < 2 ^ 32 ->
  (1 <= v <= 2 ^ 31 ->
   exists k, 0 <= k <= 31 /\ roundup v = 2 ^ k /\ v <= 2 ^ k
             /\ forall j, 0 <= j -> v <= 2 ^ j -> 2 ^ k <= 2 ^ j)
  /\ (v = 0 \/ 2 ^ 31 < v -> roundup v = 0).
Proof.
  intros Hv. split.
  - apply roundup_spec.
  - intros [->|Hbig]; [reflexivity|]. apply roundup_wraps. lia.
Qed.

Lemma roundup_least_power_of_two_witness :
  exists k, roundup 5 = 2 ^ k /\ 5 <= 2 ^ k.
Proof.
  destruct (roundup_least_power_of_two 5) as [H _]; [lia|].
  destruct H as (k & _ & Hr & Hle & _); [lia|].
  exists k. split; assumption.
Defined.
Lemma padded_empty : padded emptyIntervals.
Proof.
  split; [apply wf_emptyIntervals|]. split; reflexivity.
Qed.

Lemma pushIntervals_padded o s e v :
  padded o -> iv_L o < 2 ^ 31 ->
  exists o', pushIntervals o s e v = Ok o' /\ padded o'
             /\ intervals_of o' = intervals_of o ++ [(s, e, v)]
             /\ iv_L o' = iv_L o + 1.
Proof.
  intros (Hwf & HM & Hpad) HL.
  destruct (pushIntervals_ok o s e v Hwf HL) as (o' & Hpush & Hwf' & Hiv & HL').
  exists o'. split; [exact Hpush|]. split; [|split; assumption].
  split; [exact Hwf'|]. clear Hwf' Hiv HL'.
  destruct Hwf as (HL0 & HM31 & Hs & He & Hv).
  unfold pushIntervals in Hpush.
  rewrite (u32_small (iv_L o + 1)) in Hpush by lia.
  destruct (iv_M o <=? iv_L o + 1) eqn:Hg.
  - apply Z.leb_le in Hg. cbn [iv_L iv_M iv_Start iv_End iv_Value] in Hpush.
    destruct (_ && _); [|discriminate]. injection Hpush as <-.
    cbn [iv_L iv_M iv_Value]. rewrite u32_small by lia.
    split; [reflexivity|].
    pose proof (roundup_bounds (iv_L o + 1) ltac:(lia)) as Hr.
    destruct (make_copy_grow f_zero (roundup (iv_L o + 1)) (iv_Value o))
      as [Hc _]; [lia|].
    rewrite Hc. unfold lenZ in *.
    rewrite <- (take_drop (Z.to_nat (iv_L o)) (iv_Value o)) at 1.
    rewrite Hpad, <- app_assoc, <- replicate_add.
    assert (Hlen : length (take (Z.to_nat (iv_L o)) (iv_Value o)) = Z.to_nat (iv_L o))
      by (rewrite length_take; lia).
    rewrite insert_app_r_alt by lia.
    rewrite drop_app_ge by lia. rewrite Hlen.
    replace (Z.to_nat (iv_L o) - Z.to_nat (iv_L o))%nat with 0%nat by lia.
    replace (Z.to_nat (iv_L o + 1) - Z.to_nat (iv_L o))%nat with 1%nat by lia.
    remember (Z.to_nat (iv_M o - iv_L o)
              + (Z.to_nat (roundup (iv_L o + 1)) - length (iv_Value o)))%nat as k.
    destruct k as [|k]; [lia|]. cbn.
    rewrite drop_0. f_equal. lia.
  - apply Z.leb_gt in Hg.
    destruct (_ && _); [|discriminate]. injection Hpush as <-.
    cbn [iv_L iv_M iv_Value]. rewrite u32_small by lia.
    assert (1 <= iv_L o).
    { destruct (Z.eq_dec (iv_L o) 0) as [E|]; [|lia].
      rewrite E in HM. change (roundup 0) with 0 in HM. lia. }
    split.
    + rewrite HM. symmetry. apply roundup_stable; lia.
    + rewrite drop_insert_lt by lia.
      replace (Z.to_nat (iv_L o + 1)) with (Z.to_nat (iv_L o) + 1)%nat by lia.
      rewrite <- drop_drop, Hpad, drop_replicate. f_equal. lia.
Qed.
(** ** What a query returns *)

Lemma pushIntervals_padded_inv o s e v o' :
  padded o -> pushIntervals o s e v = Ok o' ->
  padded o' /\ intervals_of o' = intervals_of o ++ [(s, e, v)].
Proof.
  intros Hp Hpush.
  destruct (pushIntervals_inv _ _ _ _ _ (proj1 Hp) Hpush) as (HL & _).
  destruct (pushIntervals_padded o s e v Hp HL) as (o2 & Hpush2 & Hp2 & Hiv & _).
  rewrite Hpush in Hpush2. injection Hpush2 as <-. auto.
Qed.

(** The record loop keeps the container shape and appends only records
    that pass the query filter. *)
Lemma coreItems_padded hdr ostart oend n :
  forall start p out out',
    padded out ->
    coreItems hdr ostart oend n start p out = Ok out' ->
    padded out'
    /\ exists d, intervals_of out' = intervals_of out ++ d
                 /\ Forall (fun r => overlapsQuery ostart oend r = true) d.
Proof.
  induction n as [|n IH]; intros start p out out' Hp Hrun.
  - simpl in Hrun. injection Hrun as <-. split; [assumption|].
    exists []. rewrite app_nil_r. auto.
  - simpl in Hrun.
    destruct (decodeItem hdr start p) as [[[[s' e] v] p']|]; [|discriminate].
    rewrite (filter_test_overlaps ostart oend s' e v) in Hrun.
    destruct (overlapsQuery ostart oend (s', e, v)) eqn:Hq; cbn [negb] in Hrun.
    + destruct (pushIntervals out s' e v) as [out1| |] eqn:Hpush; try discriminate.
      simpl in Hrun.
      destruct (pushIntervals_padded_inv _ _ _ _ _ Hp Hpush) as [Hp1 Hv1].
      destruct (IH _ _ _ _ Hp1 Hrun) as (Hp' & d & Hv' & Hd).
      split; [assumption|]. exists ((s', e, v) :: d). split.
      * rewrite Hv', Hv1, <- app_assoc. reflexivity.
      * constructor; assumption.
    + eapply IH; eassumption.
Qed.

Lemma coreBlocks_padded zlib compressed tid ostart oend n :
  forall offs sizes out u out' u',
    padded out ->
    coreBlocks zlib compressed tid ostart oend n offs sizes out u = (Ok out', u') ->
    padded out'
    /\ exists d, intervals_of out' = intervals_of out ++ d
                 /\ Forall (fun r => overlapsQuery ostart oend r = true) d.
Proof.
  induction n as [|n IH]; intros offs sizes out u out' u' Hp Hrun.
  - cbn in Hrun. unfold ret in Hrun. injection Hrun as <- <-.
    split; [assumption|]. exists []. rewrite app_nil_r. auto.
  - destruct offs as [|off offs], sizes as [|sz sizes]; try discriminate.
    rewrite coreBlocks_step in Hrun.
    destruct (readBlock zlib compressed off sz u) as [[data| |] u1];
      try discriminate.
    destruct (bwFillDataHdr data) as [hdr|]; [|discriminate].
    destruct (negb (dh_Tid hdr =? tid)).
    + eapply IH; eassumption.
    + destruct (coreItems hdr ostart oend (Z.to_nat (dh_NItems hdr))
                  (dh_Start hdr) (drop 24 data) out) as [out1| |] eqn:Hit;
        try discriminate.
      destruct (coreItems_padded _ _ _ _ _ _ _ _ Hp Hit) as (Hp1 & d1 & Hv1 & Hd1).
      destruct (IH _ _ _ _ _ _ Hp1 Hrun) as (Hp' & d2 & Hv' & Hd2).
      split; [assumption|]. exists (d1 ++ d2). split.
      * rewrite Hv', Hv1, <- app_assoc. reflexivity.
      * apply Forall_app; auto.
Qed.

Lemma bwGetOverlappingIntervals_padded zlib fp chrom start end_ u o u1 :
  bwGetOverlappingIntervals zlib fp chrom start end_ u = (Ok o, u1) ->
  padded o
  /\ Forall (fun r => overlapsQuery start end_ r = true) (intervals_of o).
Proof.
  unfold bwGetOverlappingIntervals, bind, lift.
  destruct (bwGetTid fp chrom) as [tid| |]; try discriminate.
  destruct (tid =? TID_NONE); [discriminate|].
  destruct (bwGetOverlappingBlocks fp chrom start end_) as [blocks| |];
    try discriminate.
  unfold bwGetOverlappingIntervalsCore.
  destruct (ob_N blocks =? 0).
  - unfold ret. intros [= <- <-]. split; [apply padded_empty|].
    rewrite intervals_of_empty. constructor.
  - intros Hrun.
    destruct (coreBlocks_padded _ _ _ _ _ _ _ _ _ _ _ _ padded_empty Hrun)
      as (Hp & d & Hv & Hd).
    split; [assumption|]. rewrite Hv, intervals_of_empty. exact Hd.
Qed.

(** X2. Every interval a successful [bwGetOverlappingIntervals] call
    returns overlaps the query: it ends after [start] and starts before
    [end].  The container holds [L] such intervals in slices whose
    capacity [M] is [roundup(L)], with zeros behind the live values. *)
Theorem query_returns_only_overlapping_intervals :
  forall zlib fp chrom start end_ u o u1,
    bwGetOverlappingIntervals zlib fp chrom start end_ u = (Ok o, u1) ->
    lenZ (intervals_of o) = iv_L o
    /\ Forall (fun r : interval => let '(s, e, _) := r in start < e /\ s < end_)
         (intervals_of o)
    /\ iv_M o = roundup (iv_L o)
    /\ lenZ (iv_Value o) = iv_M o
    /\ drop (Z.to_nat (iv_L o)) (iv_Value o)
       = replicate (Z.to_nat (iv_M o - iv_L o)) f_zero.
Proof.
  intros zlib fp chrom start end_ u o u1 Hrun.
  destruct (bwGetOverlappingIntervals_padded _ _ _ _ _ _ _ _ Hrun)
    as [(Hwf & HM & Hpad) Hall].
  split; [apply length_intervals_of; assumption|].
  split.
  - eapply Forall_impl; [exact Hall|].
    intros [[s e] v]. unfold overlapsQuery.
    rewrite andb_true_iff, !Z.ltb_lt. auto.
  - destruct Hwf as (_ & _ & _ & _ & Hv). auto.
Qed.

Lemma query_returns_only_overlapping_intervals_witness :
  let r := bwGetOverlappingIntervals Sample.nozlib Sample.file "chr1" 150 1025
             Sample.local in
  let o := Sample.okOr emptyIntervals (fst r) in
  Forall (fun r : interval => let '(s, e, _) := r in 150 < e /\ s < 1025)
    (intervals_of o)
  /\ iv_L o = 5 /\ iv_M o = 8.
Proof.
  intros r o.
  destruct (query_returns_only_overlapping_intervals Sample.nozlib Sample.file
              "chr1" 150 1025 Sample.local o (snd r))
    as (_ & Hall & HM & _).
  - vm_compute. reflexivity.
  - split; [exact Hall|]. split; [reflexivity|]. rewrite HM. reflexivity.
Defined.
(** ** [ReadBigWigSignal] *)

Lemma values_of_intervals o :
  wf_intervals o ->
  take (Z.to_nat (iv_L o)) (iv_Value o) = map snd (intervals_of o).
Proof.
  intros (HL & _ & Hs & He & Hv). unfold intervals_of, zip3, lenZ in *.
  change (map snd ?l) with (snd <$> l).
  rewrite fmap_take, snd_zip; [reflexivity|].
  rewrite length_zip_with. lia.
Qed.

Lemma ReadBigWigSignal_one_batch zlib fp chrom start end_ u blocks o u1 fuel :
  0 <= start < 2 ^ 32 -> 0 <= end_ < 2 ^ 32 ->
  bwGetOverlappingBlocks fp chrom start end_ = Ok blocks ->
  ob_N blocks <= 10 ->
  bwGetOverlappingIntervals zlib fp chrom start end_ u = (Ok o, u1) ->
  (2 <= fuel)%nat ->
  ReadBigWigSignal zlib fuel fp chrom start end_ u = (Ok (iv_Value o), u1).
Proof.
  intros Hs He Hb HN Hq Hfuel.
  unfold ReadBigWigSignal, bwOverlappingIntervalsIterator.
  rewrite !u32_small by assumption.
  unfold bwGetOverlappingIntervals in Hq. unfold bind, lift, nilable in *.
  destruct (bwGetTid fp chrom) as [tid| |]; try discriminate.
  destruct (tid =? TID_NONE); [discriminate|].
  rewrite Hb in *.
  replace (10 <? ob_N blocks) with false by (symmetry; apply Z.ltb_ge; lia).
  rewrite Hq. unfold ret.
  destruct fuel as [|[|fuel]]; try lia.
  cbn [iterLoop it_Data it_Intervals]. unfold bind.
  cbn [bwIteratorNext it_Blocks it_Offset].
  replace (10 <? ob_N blocks) with false by (symmetry; apply Z.ltb_ge; lia).
  unfold ret. cbn. reflexivity.
Qed.

(** X3. When the block list of the query has at most 10 blocks, so that
    the iterator of [ReadBigWigSignal] needs one batch, the result is the
    whole value slice of the one-shot query: one value per overlapping
    interval (not per base), in order, followed by the zeros that fill the
    slice up to its capacity [roundup(L)]. *)
Theorem ReadBigWigSignal_values_and_padding :
  forall zlib fp chrom start end_ u blocks o u1 fuel,
    0 <= start < 2 ^ 32 -> 0 <= end_ < 2 ^ 32 ->
    bwGetOverlappingBlocks fp chrom start end_ = Ok blocks ->
    ob_N blocks <= 10 ->
    bwGetOverlappingIntervals zlib fp chrom start end_ u = (Ok o, u1) ->
    (2 <= fuel)%nat ->
    ReadBigWigSignal zlib fuel fp chrom start end_ u
    = (Ok (map snd (intervals_of o)
           ++ replicate (Z.to_nat (roundup (iv_L o) - iv_L o)) f_zero), u1).
Proof.
  intros zlib fp chrom start end_ u blocks o u1 fuel Hs He Hb HN Hq Hfuel.
  rewrite (ReadBigWigSignal_one_batch _ _ _ _ _ _ _ _ _ _ Hs He Hb HN Hq Hfuel).
  destruct (bwGetOverlappingIntervals_padded _ _ _ _ _ _ _ _ Hq)
    as [(Hwf & HM & Hpad) _].
  rewrite <- (take_drop (Z.to_nat (iv_L o)) (iv_Value o)) at 1.
  rewrite Hpad, HM, (values_of_intervals o Hwf). reflexivity.
Qed.

Lemma ReadBigWigSignal_values_and_padding_witness :
  fst (ReadBigWigSignal Sample.nozlib 2 Sample.file "chr1" 150 1025 Sample.local)
  = Ok [Float32frombits Sample.b1; Float32frombits Sample.b2;
        Float32frombits Sample.b3; Float32frombits Sample.b5;
        Float32frombits Sample.b6; f_zero; f_zero; f_zero].
Proof.
  pose (r := bwGetOverlappingIntervals Sample.nozlib Sample.file "chr1" 150 1025
               Sample.local).
  rewrite (ReadBigWigSignal_values_and_padding Sample.nozlib Sample.file "chr1"
             150 1025 Sample.local
             (Sample.okOr emptyOverlapBlock
                (bwGetOverlappingBlocks Sample.file "chr1" 150 1025))
             (Sample.okOr emptyIntervals (fst r)) (snd r) 2).
  - vm_compute. reflexivity.
  - lia.
  - lia.
  - vm_compute. reflexivity.
  - vm_compute. discriminate.
  - vm_compute. reflexivity.
  - lia.
Defined.
(** ** The leaf scan *)

Lemma leafCountChild_Accept tid start end_ c :
  leafCountChild tid start end_ c = Accept ->
  leafFillChild tid start end_ c = Accept.
Proof.
  rewrite leafCountChild_fill. destruct (_ && _); [discriminate|auto].
Qed.

Lemma leafCountChild_Continue tid start end_ c :
  leafCountChild tid start end_ c = Continue ->
  leafFillChild tid start end_ c = Continue.
Proof.
  rewrite leafCountChild_fill. destruct (_ && _); [discriminate|auto].
Qed.

(** The counting loop counts accepted children, and all of them when it
    never leaves early. *)
Lemma leafCount_spec tid start end_ cs :
  forall n,
    exists k : nat,
      leafCount tid start end_ cs n = n + Z.of_nat k
      /\ (k <= length (acceptedChildren tid start end_ cs))%nat
      /\ (forallb (fun c => negb (isBreak (leafCountChild tid start end_ c))) cs
          = true -> k = length (acceptedChildren tid start end_ cs)).
Proof.
  induction cs as [|c cs IH]; intros n.
  - exists 0%nat. cbn. split_and!; auto; lia.
  - cbn [leafCount acceptedChildren List.filter forallb].
    destruct (leafCountChild tid start end_ c) eqn:E.
    + rewrite (leafCountChild_Accept _ _ _ _ E). cbn [isAccept isBreak negb andb].
      destruct (IH (n + 1)) as (k & Hk & Hle & Hall).
      exists (S k). fold (acceptedChildren tid start end_ cs).
      cbn [length]. split_and!; [lia|lia|].
      intros H. rewrite (Hall H). reflexivity.
    + rewrite (leafCountChild_Continue _ _ _ _ E). cbn [isAccept isBreak negb andb].
      destruct (IH n) as (k & Hk & Hle & Hall).
      exists k. fold (acceptedChildren tid start end_ cs). auto.
    + exists 0%nat. cbn [isBreak negb andb]. split_and!; [lia|lia|discriminate].
Qed.

(** The filling loop stores the next accepted children from [idx] on. *)
Lemma leafFill_spec tid start end_ cs :
  forall (n idx : nat) offs sizes,
    (idx < n)%nat -> length offs = n -> length sizes = n ->
    (n - idx <= length (acceptedChildren tid start end_ cs))%nat ->
    leafFill tid start end_ cs (Z.of_nat n) (Z.of_nat idx) offs sizes
    = (Z.of_nat n,
       take idx offs
       ++ map dataOffset (take (n - idx) (acceptedChildren tid start end_ cs)),
       take idx sizes
       ++ map rc_size (take (n - idx) (acceptedChildren tid start end_ cs))).
Proof.
  induction cs as [|c cs IH]; intros n idx offs sizes Hidx Ho Hs Hacc.
  - cbn in Hacc. lia.
  - cbn [leafFill acceptedChildren List.filter] in *.
    fold (acceptedChildren tid start end_ cs) in *.
    destruct (leafFillChild tid start end_ c); cbn [isAccept] in *;
      try (apply IH; assumption).
    rewrite Nat2Z.id.
    assert (Hti : forall (l : list Z) x, length l = n ->
              take (S idx) (<[idx:=x]> l) = take idx l ++ [x]).
    { intros l x Hl. rewrite take_insert_lt by lia.
      rewrite (take_S_r l idx (l !!! idx)).
      - rewrite insert_app_r_alt by (rewrite length_take; lia).
        rewrite length_take. replace (idx - idx `min` length l)%nat with 0%nat by lia.
        reflexivity.
      - apply list_lookup_lookup_total_lt. lia. }
    destruct (Z.leb_spec (Z.of_nat n) (Z.of_nat idx + 1)).
    + assert (Hn : n = S idx) by lia. rewrite Hn in *.
      replace (S idx - idx)%nat with 1%nat by lia. cbn [firstn map].
      replace (Z.of_nat idx + 1) with (Z.of_nat (S idx)) by lia.
      rewrite <- (Hti offs), <- (Hti sizes) by assumption.
      rewrite !take_ge by (rewrite length_insert; lia). reflexivity.
    + replace (Z.of_nat idx + 1) with (Z.of_nat (S idx)) by lia.
      rewrite IH; try rewrite length_insert; try lia; [|cbn [length] in Hacc; lia].
      rewrite (Hti offs), (Hti sizes) by assumption.
      replace (n - idx)%nat with (S (n - S idx)) by lia.
      cbn [firstn map]. rewrite <- !app_assoc. reflexivity.
Qed.

Lemma overlapsLeaf_spec tid start end_ cs :
  exists k : nat,
    (k <= length (acceptedChildren tid start end_ cs))%nat
    /\ leafCount tid start end_ cs 0 = Z.of_nat k
    /\ overlapsLeaf (Some (RLeaf cs)) tid start end_
       = Some {| ob_N := Z.of_nat k;
                 ob_Offset :=
                   map dataOffset (take k (acceptedChildren tid start end_ cs));
                 ob_Size :=
                   map rc_size (take k (acceptedChildren tid start end_ cs)) |}
    /\ (forallb (fun c => negb (isBreak (leafCountChild tid start end_ c))) cs
        = true -> k = length (acceptedChildren tid start end_ cs)).
Proof.
  destruct (leafCount_spec tid start end_ cs 0) as (k & Hk & Hle & Hall).
  rewrite Z.add_0_l in Hk.
  exists k. split_and!; auto.
  unfold overlapsLeaf. rewrite Hk.
  destruct k as [|k].
  - reflexivity.
  - replace (Z.of_nat (S k) =? 0) with false by (symmetry; apply Z.eqb_neq; lia).
    rewrite Nat2Z.id.
    rewrite (leafFill_spec tid start end_ cs (S k) 0);
      try rewrite length_replicate; try lia.
    rewrite Z.eqb_refl. replace (S k - 0)%nat with (S k) by lia. reflexivity.
Qed.

(** X4. On a leaf, [overlapsLeaf] never fails: it returns the first [N]
    children that pass the child test, in order, [N] being the count of
    its first loop; the mismatch report is unreachable.  When no child
    makes the first loop leave early, these are all the children that
    pass the test. *)
Theorem overlapsLeaf_returns_first_accepted :
  forall tid start end_ cs,
    let n := leafCount tid start end_ cs 0 in
    let acc := acceptedChildren tid start end_ cs in
    0 <= n <= lenZ acc
    /\ overlapsLeaf (Some (RLeaf cs)) tid start end_
       = Some {| ob_N := n;
                 ob_Offset := map dataOffset (take (Z.to_nat n) acc);
                 ob_Size := map rc_size (take (Z.to_nat n) acc) |}
    /\ (forallb (fun c => negb (isBreak (leafCountChild tid start end_ c))) cs
        = true ->
        overlapsLeaf (Some (RLeaf cs)) tid start end_
        = Some {| ob_N := lenZ acc; ob_Offset := map dataOffset acc;
                  ob_Size := map rc_size acc |}).
Proof.
  intros tid start end_ cs n acc. subst n acc.
  destruct (overlapsLeaf_spec tid start end_ cs) as (k & Hle & Hk & Hrun & Hall).
  rewrite Hk, Nat2Z.id. unfold lenZ. split_and!; try lia; [exact Hrun|].
  intros H. rewrite Hrun, (Hall H), firstn_all. reflexivity.
Qed.

Lemma overlapsLeaf_returns_first_accepted_witness :
  overlapsLeaf (Some Sample.root) 0 150 3000
  = Some {| ob_N := 3; ob_Offset := [0; 60; 100]; ob_Size := [60; 40; 48] |}.
Proof.
  destruct (overlapsLeaf_returns_first_accepted 0 150 3000
              [Sample.child 0 100 0 500 0 60; Sample.child 0 1010 0 1045 60 40;
               Sample.child 0 2000 1 150 100 48]) as (_ & _ & H).
  unfold Sample.root. rewrite H; reflexivity.
Defined.
(** ** Block lists *)

Lemma wf_emptyOverlapBlock : wf_block emptyOverlapBlock.
Proof. split; reflexivity. Qed.

Lemma mergeOverlapBlocks_spec b1 b2 :
  wf_block b1 -> wf_block b2 ->
  exists r,
    mergeOverlapBlocks (Some b1) (Some b2) = Some r
    /\ wf_block r
    /\ ob_N r = ob_N b1 + ob_N b2
    /\ ob_Offset r = ob_Offset b1 ++ ob_Offset b2
    /\ ob_Size r = ob_Size b1 ++ ob_Size b2.
Proof.
  intros [Ho1 Hs1] [Ho2 Hs2]. unfold mergeOverlapBlocks, lenZ in *.
  destruct (Z.eqb_spec (ob_N b2) 0) as [E2|E2].
  - exists b1. destruct (ob_Offset b2), (ob_Size b2); cbn in *; try lia.
    rewrite !app_nil_r. split_and!; auto; try lia. split; assumption.
  - destruct (Z.eqb_spec (ob_N b1) 0) as [E1|E1].
    + exists b2. destruct (ob_Offset b1), (ob_Size b1); cbn in *; try lia.
      split_and!; auto; try lia. split; assumption.
    + eexists. split; [reflexivity|]. cbn. split_and!; auto.
      split; cbn; unfold lenZ; rewrite length_app; lia.
Qed.

Lemma blocks_of_app r b1 b2 :
  wf_block b1 ->
  ob_Offset r = ob_Offset b1 ++ ob_Offset b2 ->
  ob_Size r = ob_Size b1 ++ ob_Size b2 ->
  blocks_of r = blocks_of b1 ++ blocks_of b2.
Proof.
  intros [Ho Hs] HO HS. unfold blocks_of, lenZ in *. rewrite HO, HS.
  apply zip_with_app. lia.
Qed.

(** X5. Merging two well-formed block lists never fails and concatenates
    them: the offsets and sizes of the first are followed by those of the
    second and [N] is the sum, so [N] keeps counting the entries of both
    slices.  Merging is associative on well-formed lists. *)
Theorem mergeOverlapBlocks_concatenates :
  forall b1 b2 b3,
    wf_block b1 -> wf_block b2 -> wf_block b3 ->
    (exists r,
        mergeOverlapBlocks (Some b1) (Some b2) = Some r
        /\ wf_block r
        /\ ob_N r = ob_N b1 + ob_N b2
        /\ blocks_of r = blocks_of b1 ++ blocks_of b2)
    /\ mergeOverlapBlocks (mergeOverlapBlocks (Some b1) (Some b2)) (Some b3)
       = mergeOverlapBlocks (Some b1) (mergeOverlapBlocks (Some b2) (Some b3)).
Proof.
  intros b1 b2 b3 H1 H2 H3.
  destruct (mergeOverlapBlocks_spec b1 b2 H1 H2) as (r12 & E12 & W12 & N12 & O12 & S12).
  destruct (mergeOverlapBlocks_spec b2 b3 H2 H3) as (r23 & E23 & W23 & N23 & O23 & S23).
  destruct (mergeOverlapBlocks_spec r12 b3 W12 H3) as (ra & Ea & _ & Na & Oa & Sa).
  destruct (mergeOverlapBlocks_spec b1 r23 H1 W23) as (rb & Eb & _ & Nb & Ob & Sb).
  split.
  - exists r12. split_and!; auto. eapply blocks_of_app; eassumption.
  - rewrite E12, E23, Ea, Eb. f_equal.
    destruct ra as [n o s], rb as [n' o' s']. cbn in *. subst n o s n' o' s'.
    rewrite N12, O12, S12, N23, O23, S23, <- !app_assoc. f_equal. lia.
Qed.

Lemma mergeOverlapBlocks_concatenates_witness :
  mergeOverlapBlocks
    (Some {| ob_N := 1; ob_Offset := [0]; ob_Size := [60] |})
    (Some {| ob_N := 2; ob_Offset := [60; 100]; ob_Size := [40; 48] |})
  <> None.
Proof.
  destruct (mergeOverlapBlocks_concatenates
              {| ob_N := 1; ob_Offset := [0]; ob_Size := [60] |}
              {| ob_N := 2; ob_Offset := [60; 100]; ob_Size := [40; 48] |}
              emptyOverlapBlock) as [(r & E & _) _];
    try (split; reflexivity).
  rewrite E. discriminate.
Defined.
(** ** The R-tree walk *)

Lemma bwRTreeNode_ind' (P : bwRTreeNode_t -> Prop) :
  (forall cs, P (RLeaf cs)) ->
  (forall cs,
      Forall (fun cc => match snd cc with Some n => P n | None => True end) cs ->
      P (RBranch cs)) ->
  forall n, P n.
Proof.
  intros Hl Hb. fix IH 1. intros [cs|cs].
  - apply Hl.
  - apply Hb. induction cs as [|[c [ch|]] cs IHcs]; constructor; cbn; auto.
Qed.

Lemma blocks_of_children (l : list rchild) :
  zip (map dataOffset l) (map rc_size l) = map childBlock l.
Proof. induction l as [|c l IH]; cbn; [reflexivity|]. rewrite IH. reflexivity. Qed.


Lemma sublist_map {A B} (f : A -> B) (l1 l2 : list A) :
  l1 `sublist_of` l2 -> map f l1 `sublist_of` map f l2.
Proof. induction 1; cbn; constructor; assumption. Qed.

Lemma overlapsNonLeaf_branchLoop cs tid start end_ :
  overlapsNonLeaf (RBranch cs) tid start end_
  = branchLoop (fun ch => walkRTreeNodes ch tid start end_) tid start end_ cs
      (Some emptyOverlapBlock).
Proof.
  cbn [overlapsNonLeaf]. generalize (Some emptyOverlapBlock).
  induction cs as [|[c child] cs IH]; intros out; [reflexivity|].
  cbn [branchLoop]. destruct (nonLeafChild tid start end_ c); try apply IH.
  destruct child as [ch|]; [|reflexivity].
  unfold walkRTreeNodes at 1.
  destruct ch as [l|l].
  - destruct (overlapsLeaf (Some (RLeaf l)) tid start end_); [|reflexivity].
    destruct (mergeOverlapBlocks out _); [apply IH|reflexivity].
  - destruct (overlapsNonLeaf (RBranch l) tid start end_); [|reflexivity].
    destruct (mergeOverlapBlocks out _); [apply IH|reflexivity].
Qed.

Lemma branchLoop_sound tid start end_ cs :
  Forall (fun cc => match snd cc with
                    | Some n => walk_ok tid start end_ n
                    | None => True
                    end) cs ->
  forall out o,
    wf_block out ->
    branchLoop (fun ch => walkRTreeNodes ch tid start end_) tid start end_ cs
      (Some out) = Some o ->
    wf_block o
    /\ exists d, blocks_of o = blocks_of out ++ d
                 /\ d `sublist_of` treeBlocks tid start end_ (RBranch cs).
Proof.
  induction 1 as [|[c child] cs Hc Hcs IH]; intros out o Hwf Hrun.
  - cbn in Hrun. injection Hrun as <-. split; [assumption|].
    exists []. rewrite app_nil_r. split; [reflexivity|]. cbn. constructor.
  - cbn [branchLoop] in Hrun. cbn [treeBlocks flat_map fst snd] in *.
    destruct (nonLeafChild tid start end_ c) eqn:E; cbn [isAccept].
    + destruct child as [ch|]; [|discriminate].
      destruct (walkRTreeNodes ch tid start end_) as [nb|] eqn:Ew; [|discriminate].
      destruct Hc as [Hsound _]. destruct (Hsound nb Ew) as [Hwnb Hsub].
      destruct (mergeOverlapBlocks_spec out nb Hwf Hwnb)
        as (r & Er & Hwr & _ & Ho & Hs).
      rewrite Er in Hrun.
      destruct (IH _ _ Hwr Hrun) as (Hwo & d & Hd & Hsubd).
      split; [assumption|]. exists (blocks_of nb ++ d). split.
      * rewrite Hd, (blocks_of_app r out nb Hwf Ho Hs), <- app_assoc. reflexivity.
      * apply sublist_app; assumption.
    + destruct (IH _ _ Hwf Hrun) as (Hwo & d & Hd & Hsubd).
      split; [assumption|]. exists d. split; [assumption|]. exact Hsubd.
    + destruct (IH _ _ Hwf Hrun) as (Hwo & d & Hd & Hsubd).
      split; [assumption|]. exists d. split; [assumption|]. exact Hsubd.
Qed.

Lemma branchLoop_complete tid start end_ cs :
  Forall (fun cc => match snd cc with
                    | Some n => walk_ok tid start end_ n
                    | None => True
                    end) cs ->
  walkable tid start end_ (RBranch cs) = true ->
  forall out,
    wf_block out ->
    exists o,
      branchLoop (fun ch => walkRTreeNodes ch tid start end_) tid start end_ cs
        (Some out) = Some o
      /\ wf_block o
      /\ blocks_of o = blocks_of out ++ treeBlocks tid start end_ (RBranch cs).
Proof.
  induction 1 as [|[c child] cs Hc Hcs IH]; intros Hw out Hwf.
  - exists out. cbn. rewrite app_nil_r. auto.
  - cbn [walkable forallb fst snd] in Hw. apply andb_true_iff in Hw as [Hw1 Hw2].
    cbn [branchLoop]. cbn [treeBlocks flat_map fst snd] in *.
    destruct (nonLeafChild tid start end_ c) eqn:E; cbn [isAccept] in *.
    + destruct child as [ch|]; [|discriminate].
      destruct Hc as [_ Hcomp]. destruct (Hcomp Hw1) as (nb & Ew & Hwnb & Hnb).
      rewrite Ew.
      destruct (mergeOverlapBlocks_spec out nb Hwf Hwnb)
        as (r & Er & Hwr & _ & Ho & Hs).
      rewrite Er.
      destruct (IH Hw2 r Hwr) as (o & Hrun & Hwo & Hbo).
      exists o. split_and!; auto.
      rewrite Hbo, (blocks_of_app r out nb Hwf Ho Hs), Hnb, <- app_assoc.
      reflexivity.
    + destruct (IH Hw2 out Hwf) as (o & Hrun & Hwo & Hbo). exists o. auto.
    + destruct (IH Hw2 out Hwf) as (o & Hrun & Hwo & Hbo). exists o. auto.
Qed.

Lemma walk_ok_all tid start end_ : forall n, walk_ok tid start end_ n.
Proof.
  induction n as [cs|cs IH] using bwRTreeNode_ind'.
  - destruct (overlapsLeaf_spec tid start end_ cs) as (k & Hle & Hk & Hrun & Hall).
    assert (Hwf : wf_block
              {| ob_N := Z.of_nat k;
                 ob_Offset := map dataOffset (take k (acceptedChildren tid start end_ cs));
                 ob_Size := map rc_size (take k (acceptedChildren tid start end_ cs)) |}).
    { split; cbn; unfold lenZ; rewrite length_map, length_take; lia. }
    split.
    + intros o Ho. cbn [walkRTreeNodes] in Ho. rewrite Hrun in Ho.
      injection Ho as <-. split; [exact Hwf|].
      unfold blocks_of. cbn [ob_Offset ob_Size treeBlocks].
      rewrite blocks_of_children. apply sublist_map, sublist_take.
    + intros Hw. cbn [walkable] in Hw. eexists. split; [exact Hrun|].
      split; [exact Hwf|].
      unfold blocks_of. cbn [ob_Offset ob_Size treeBlocks].
      rewrite blocks_of_children, (Hall Hw), firstn_all. reflexivity.
  - split.
    + intros o Ho. cbn [walkRTreeNodes] in Ho.
      rewrite overlapsNonLeaf_branchLoop in Ho.
      destruct (branchLoop_sound _ _ _ _ IH _ _ wf_emptyOverlapBlock Ho)
        as (Hwo & d & Hd & Hsub).
      split; [assumption|]. rewrite Hd. exact Hsub.
    + intros Hw. cbn [walkRTreeNodes]. rewrite overlapsNonLeaf_branchLoop.
      destruct (branchLoop_complete _ _ _ _ IH Hw _ wf_emptyOverlapBlock)
        as (o & Hrun & Hwo & Hbo).
      exists o. auto.
Qed.

(** X6. The R-tree walk is a filtered depth-first traversal.  Whatever
    block list [walkRTreeNodes] returns is well formed ([N] counts both
    slices) and lists, in depth-first order, only blocks of leaf children
    that pass the child test below branch children that pass it.  On a
    tree where the walk meets no child that failed to load and no leaf
    child that makes the counting loop leave early, it succeeds and lists
    all of them. *)
Theorem walkRTreeNodes_is_filtered_traversal :
  forall root tid start end_,
    (forall o,
        walkRTreeNodes root tid start end_ = Some o ->
        wf_block o
        /\ blocks_of o `sublist_of` treeBlocks tid start end_ root)
    /\ (walkable tid start end_ root = true ->
        exists o,
          walkRTreeNodes root tid start end_ = Some o
          /\ wf_block o
          /\ blocks_of o = treeBlocks tid start end_ root).
Proof. intros root tid start end_. apply walk_ok_all. Qed.

Lemma walkRTreeNodes_is_filtered_traversal_witness :
  exists o,
    walkRTreeNodes Sample.mixedBranch 0 0 500 = Some o
    /\ blocks_of o = [(60, 40)].
Proof.
  destruct (walkRTreeNodes_is_filtered_traversal Sample.mixedBranch 0 0 500)
    as [_ H].
  destruct H as (o & Hrun & _ & Hb); [reflexivity|].
  exists o. split; [exact Hrun|]. rewrite Hb. reflexivity.
Defined.
(** ** Chromosome names *)

Lemma bwGetTid_loop_found names chrom :
  forall (n i0 i : nat),
    (i0 <= i)%nat -> (i < i0 + n)%nat ->
    names !! i = Some chrom ->
    (forall j : nat, (i0 <= j < i)%nat -> names !! j <> Some chrom) ->
    bwGetTid_loop names chrom n (Z.of_nat i0) = Ok (Z.of_nat i).
Proof.
  induction n as [|n IH]; intros i0 i Hle Hlt Hi Hfirst; [lia|].
  cbn [bwGetTid_loop]. rewrite Nat2Z.id.
  destruct (Nat.eq_dec i0 i) as [->|Hne].
  - rewrite Hi, String.eqb_refl. reflexivity.
  - destruct (names !! i0) as [c|] eqn:Ec.
    + destruct (String.eqb_spec c chrom) as [->|Hc].
      * exfalso. apply (Hfirst i0); [lia|assumption].
      * replace (Z.of_nat i0 + 1) with (Z.of_nat (S i0)) by lia.
        apply IH; try lia; [assumption|].
        intros j Hj. apply Hfirst. lia.
    + apply lookup_ge_None in Ec. apply lookup_lt_Some in Hi. lia.
Qed.

Lemma bwGetTid_loop_sound names chrom :
  forall (n i0 : nat) r,
    bwGetTid_loop names chrom n (Z.of_nat i0) = Ok r ->
    r = TID_NONE
    \/ exists i : nat,
         r = Z.of_nat i /\ (i0 <= i < i0 + n)%nat /\ names !! i = Some chrom
         /\ forall j : nat, (i0 <= j < i)%nat -> names !! j <> Some chrom.
Proof.
  induction n as [|n IH]; intros i0 r Hrun.
  - cbn in Hrun. injection Hrun as <-. auto.
  - cbn [bwGetTid_loop] in Hrun. rewrite Nat2Z.id in Hrun.
    destruct (names !! i0) as [c|] eqn:Ec; [|discriminate].
    destruct (String.eqb_spec c chrom) as [->|Hc].
    + injection Hrun as <-. right. exists i0. split_and!; auto; try lia.
    + replace (Z.of_nat i0 + 1) with (Z.of_nat (S i0)) in Hrun by lia.
      destruct (IH _ _ Hrun) as [->|(i & -> & Hi & Hn & Hfirst)]; [auto|].
      right. exists i. split_and!; auto; try lia.
      intros j Hj. destruct (Nat.eq_dec j i0) as [->|].
      * rewrite Ec. congruence.
      * apply Hfirst. lia.
Qed.

(** X7. [bwGetTid] maps a chromosome name to the first index that holds
    it: a non-empty name stored among the first [NKeys] entries is found
    at its first position, and every index the function returns, other
    than the sentinel, is below [NKeys], holds the name, and is preceded
    by no other entry with that name. *)
Theorem bwGetTid_finds_first_index :
  forall fp chrom,
    (forall i,
        chrom <> ""%string -> 0 <= i < u32 (NKeys (Cl fp)) ->
        Chrom (Cl fp) !! Z.to_nat i = Some chrom ->
        (forall j, 0 <= j < i -> Chrom (Cl fp) !! Z.to_nat j <> Some chrom) ->
        bwGetTid fp chrom = Ok i)
    /\ (forall i,
          bwGetTid fp chrom = Ok i -> i <> TID_NONE ->
          chrom <> ""%string /\ 0 <= i < u32 (NKeys (Cl fp))
          /\ Chrom (Cl fp) !! Z.to_nat i = Some chrom
          /\ forall j, 0 <= j < i -> Chrom (Cl fp) !! Z.to_nat j <> Some chrom).
Proof.
  intros fp chrom. unfold bwGetTid. split.
  - intros i Hne Hi Hlook Hfirst.
    destruct (String.eqb_spec chrom "") as [E|_]; [contradiction|].
    rewrite <- (Z2Nat.id i) by lia.
    apply (bwGetTid_loop_found _ _ _ 0%nat (Z.to_nat i)); try lia; [assumption|].
    intros j Hj. rewrite <- (Nat2Z.id j). apply Hfirst. lia.
  - intros i Hrun Hnone.
    destruct (String.eqb_spec chrom "") as [E|Hne].
    + injection Hrun as <-. contradiction.
    + destruct (bwGetTid_loop_sound _ _ _ 0%nat _ Hrun)
        as [->|(k & -> & Hk & Hlook & Hfirst)]; [contradiction|].
      rewrite Nat2Z.id. split_and!; auto; try lia.
      intros j Hj. apply Hfirst. lia.
Qed.

Lemma bwGetTid_finds_first_index_witness :
  bwGetTid Sample.file "chr2" = Ok 1.
Proof.
  destruct (bwGetTid_finds_first_index Sample.file "chr2") as [H _].
  apply H.
  - discriminate.
  - vm_compute. intuition discriminate.
  - reflexivity.
  - intros j Hj. replace j with 0 by lia. discriminate.
Defined.
(** ** bedGraph and variableStep records *)

Lemma lenZ_drop_div (p : list byte) k :
  0 < k -> k <= lenZ p ->
  lenZ (drop (Z.to_nat k) p) / k = lenZ p / k - 1 /\ 1 <= lenZ p / k.
Proof.
  intros Hk Hlen. unfold lenZ in *. rewrite length_drop. split.
  - replace (Z.of_nat (length p))
      with (Z.of_nat (length p - Z.to_nat k) + 1 * k) by lia.
    rewrite Z.div_add by lia. lia.
  - apply Z.div_le_lower_bound; lia.
Qed.

Lemma decodedRecords_bedGraph hdr :
  dh_Type hdr = 1 ->
  forall n start p,
    decodedRecords hdr n start p
    = map (bedGraphRecord p) (seqZ 0 (Z.min (Z.of_nat n) (lenZ p / 12))).
Proof.
  intros Hty. induction n as [|n IH]; intros start p.
  - rewrite seqZ_nil; [reflexivity|]. lia.
  - destruct (lenZ p <? 12) eqn:Hlen.
    + apply Z.ltb_lt in Hlen.
      rewrite decodedRecords_truncated.
      2:{ unfold truncatedItem. rewrite Hty.
          rewrite (proj2 (Z.ltb_lt _ _) Hlen). reflexivity. }
      pose proof (lenZ_nonneg p).
      rewrite seqZ_nil; [reflexivity|].
      rewrite Z.div_small by lia. lia.
    + apply Z.ltb_ge in Hlen.
      cbn [decodedRecords]. unfold decodeItem, truncatedItem.
      rewrite Hty. cbn [Z.eqb Pos.eqb andb orb].
      replace (lenZ p <? 12) with false by (symmetry; apply Z.ltb_ge; exact Hlen).
      rewrite IH.
      destruct (lenZ_drop_div p 12 ltac:(lia) Hlen) as [Hq Hd].
      change (Z.to_nat 12) with 12%nat in Hq. rewrite Hq.
      rewrite (seqZ_cons 0 (Z.min (Z.of_nat (S n)) (lenZ p / 12))) by lia.
      cbn [map]. f_equal.
      replace (Z.pred (Z.min (Z.of_nat (S n)) (lenZ p / 12)))
        with (Z.min (Z.of_nat n) (lenZ p / 12 - 1)) by lia.
      change (Z.succ 0) with (1 + 0).
      rewrite map_seqZ_succ. apply map_ext_in. intros j Hj.
      apply list_elem_of_In, elem_of_seqZ in Hj.
      unfold bedGraphRecord. cbn zeta. rewrite !drop_drop.
      replace (12 + Z.to_nat (12 * j))%nat with (Z.to_nat (12 * (1 + j))) by lia.
      reflexivity.
Qed.

Lemma decodedRecords_variableStep hdr :
  dh_Type hdr = 2 ->
  forall n start p,
    decodedRecords hdr n start p
    = map (variableStepRecord hdr p) (seqZ 0 (Z.min (Z.of_nat n) (lenZ p / 8))).
Proof.
  intros Hty. induction n as [|n IH]; intros start p.
  - rewrite seqZ_nil; [reflexivity|]. lia.
  - destruct (lenZ p <? 8) eqn:Hlen.
    + apply Z.ltb_lt in Hlen.
      rewrite decodedRecords_truncated.
      2:{ unfold truncatedItem. rewrite Hty.
          rewrite (proj2 (Z.ltb_lt _ _) Hlen). reflexivity. }
      pose proof (lenZ_nonneg p).
      rewrite seqZ_nil; [reflexivity|].
      rewrite Z.div_small by lia. lia.
    + apply Z.ltb_ge in Hlen.
      cbn [decodedRecords]. unfold decodeItem, truncatedItem.
      rewrite Hty. cbn [Z.eqb Pos.eqb andb orb].
      replace (lenZ p <? 8) with false by (symmetry; apply Z.ltb_ge; exact Hlen).
      rewrite IH.
      destruct (lenZ_drop_div p 8 ltac:(lia) Hlen) as [Hq Hd].
      change (Z.to_nat 8) with 8%nat in Hq. rewrite Hq.
      rewrite (seqZ_cons 0 (Z.min (Z.of_nat (S n)) (lenZ p / 8))) by lia.
      cbn [map]. f_equal.
      replace (Z.pred (Z.min (Z.of_nat (S n)) (lenZ p / 8)))
        with (Z.min (Z.of_nat n) (lenZ p / 8 - 1)) by lia.
      change (Z.succ 0) with (1 + 0).
      rewrite map_seqZ_succ. apply map_ext_in. intros j Hj.
      apply list_elem_of_In, elem_of_seqZ in Hj.
      unfold variableStepRecord. cbn zeta. rewrite !drop_drop.
      replace (8 + Z.to_nat (8 * j))%nat with (Z.to_nat (8 * (1 + j))) by lia.
      reflexivity.
Qed.

Lemma seqZ_min_items (n : Z) (m : Z) :
  0 <= m -> seqZ 0 (Z.min (Z.of_nat (Z.to_nat n)) m) = seqZ 0 (Z.min n m).
Proof.
  intros Hm. destruct (Z.le_gt_cases 0 n).
  - rewrite Z2Nat.id by lia. reflexivity.
  - rewrite !seqZ_nil by lia. reflexivity.
Qed.

(** X8. In a bedGraph block (type 1) the record loop reads record [j]
    from the three words at byte [12 * j] of the payload: start, end and
    value, whatever the header says about start, step and span.  It reads
    [NItems] records or as many as the payload holds in full, and appends
    those that pass the query filter, in order. *)
Theorem bedGraph_record_positions :
  forall hdr ostart oend p out out',
    dh_Type hdr = 1 ->
    0 <= ostart ->
    wf_intervals out ->
    coreItems hdr ostart oend (Z.to_nat (dh_NItems hdr)) (dh_Start hdr) p out
    = Ok out' ->
    intervals_of out'
    = intervals_of out
      ++ List.filter (overlapsQuery ostart oend)
           (map (bedGraphRecord p)
              (seqZ 0 (Z.min (dh_NItems hdr) (lenZ p / 12)))).
Proof.
  intros hdr ostart oend p out out' Hty Hos Hwf Hrun.
  destruct (coreItems_sound _ _ _ _ Hos _ _ _ _ Hwf Hrun) as [_ Hv].
  rewrite Hv, (decodedRecords_bedGraph hdr Hty), seqZ_min_items; [reflexivity|].
  apply Z.div_pos; [apply lenZ_nonneg|lia].
Qed.

Lemma bedGraph_record_positions_witness :
  let hdr := Sample.okOr
               {| dh_Tid := 0; dh_Start := 0; dh_End := 0; dh_Step := 0;
                  dh_Span := 0; dh_Type := 0; dh_NItems := 0 |}
               (match bwFillDataHdr Sample.blockA with
                | Some h => Ok h
                | None => Nil
                end) in
  let p := drop 24 Sample.blockA in
  let out' := Sample.okOr emptyIntervals
                (coreItems hdr 250 10000 (Z.to_nat (dh_NItems hdr)) (dh_Start hdr)
                   p emptyIntervals) in
  intervals_of out'
  = [(200, 300, Float32frombits Sample.b2); (400, 500, Float32frombits Sample.b3)].
Proof.
  intros hdr p out'.
  rewrite (bedGraph_record_positions hdr 250 10000 p emptyIntervals out').
  - vm_compute. reflexivity.
  - reflexivity.
  - lia.
  - unfold wf_intervals. vm_compute. intuition discriminate.
  - reflexivity.
Defined.

(** X9. In a variableStep block (type 2) the record loop reads record
    [j] from the two words at byte [8 * j] of the payload: the start and
    the value; the end is the start plus the header's span, in 32-bit
    arithmetic.  It reads [NItems] records or as many as the payload holds
    in full, and appends those that pass the query filter, in order. *)
Theorem variableStep_record_positions :
  forall hdr ostart oend p out out',
    dh_Type hdr = 2 ->
    0 <= ostart ->
    wf_intervals out ->
    coreItems hdr ostart oend (Z.to_nat (dh_NItems hdr)) (dh_Start hdr) p out
    = Ok out' ->
    intervals_of out'
    = intervals_of out
      ++ List.filter (overlapsQuery ostart oend)
           (map (variableStepRecord hdr p)
              (seqZ 0 (Z.min (dh_NItems hdr) (lenZ p / 8)))).
Proof.
  intros hdr ostart oend p out out' Hty Hos Hwf Hrun.
  destruct (coreItems_sound _ _ _ _ Hos _ _ _ _ Hwf Hrun) as [_ Hv].
  rewrite Hv, (decodedRecords_variableStep hdr Hty), seqZ_min_items; [reflexivity|].
  apply Z.div_pos; [apply lenZ_nonneg|lia].
Qed.

Lemma variableStep_record_positions_witness :
  let hdr := Sample.okOr
               {| dh_Tid := 0; dh_Start := 0; dh_End := 0; dh_Step := 0;
                  dh_Span := 0; dh_Type := 0; dh_NItems := 0 |}
               (match bwFillDataHdr Sample.blockC with
                | Some h => Ok h
                | None => Nil
                end) in
  let p := drop 24 Sample.blockC in
  let out' := Sample.okOr emptyIntervals
                (coreItems hdr 0 125 (Z.to_nat (dh_NItems hdr)) (dh_Start hdr)
                   p emptyIntervals) in
  intervals_of out'
  = [(100, 110, Float32frombits Sample.b1); (120, 130, Float32frombits Sample.b2)].
Proof.
  intros hdr p out'.
  rewrite (variableStep_record_positions hdr 0 125 p emptyIntervals out').
  - vm_compute. reflexivity.
  - reflexivity.
  - lia.
  - unfold wf_intervals. vm_compute. intuition discriminate.
  - reflexivity.
Defined.
(** ** Zoom level selection *)

Lemma selectBestLoop_spec d :
  forall todo pre best cd,
    bestUnder d pre best cd ->
    exists cd',
      bestUnder d (pre ++ todo)
        (selectBestLoop d todo (lenZ pre) best cd) cd'.
Proof.
  induction todo as [|level rest IH]; intros pre best cd Hinv.
  - exists cd. rewrite app_nil_r. exact Hinv.
  - cbn [selectBestLoop].
    replace (pre ++ level :: rest) with ((pre ++ [level]) ++ rest)
      by (rewrite <- app_assoc; reflexivity).
    replace (lenZ pre + 1) with (lenZ (pre ++ [level]))
      by (unfold lenZ; rewrite length_app; cbn; lia).
    assert (Hlast : forall (j : nat) l',
               (pre ++ [level]) !! j = Some l' ->
               pre !! j = Some l' \/ (j = length pre /\ l' = level)).
    { intros j l' H. apply lookup_app_Some in H as [H|[Hj H]]; [auto|].
      right. destruct (j - length pre)%nat eqn:E; cbn in H; [|discriminate].
      split; [lia|congruence]. }
    assert (Hkeep : forall (j : nat) l', pre !! j = Some l' ->
               (pre ++ [level]) !! j = Some l').
    { intros j l' H. apply lookup_app_l_Some. exact H. }
    assert (Hnew : (pre ++ [level]) !! Z.to_nat (lenZ pre) = Some level).
    { unfold lenZ. rewrite Nat2Z.id, lookup_app_r by lia.
      rewrite Nat.sub_diag. reflexivity. }
    destruct (Z.leb_spec level d) as [Hle|Hgt].
    + destruct (Z.ltb_spec (d - level) cd) as [Hlt|Hge].
      * apply IH. right. exists level.
        pose proof (lenZ_nonneg pre).
        split_and!; auto; try lia.
        { destruct Hinv as [(_ & -> & _)|(l & _ & _ & _ & _ & Hc & _)]; lia. }
        intros j l' Hj Hl'. destruct (Hlast j l' Hj) as [Hp|[-> ->]].
        -- destruct Hinv as [(_ & -> & Hno)|(l & _ & _ & _ & -> & _ & Hmax)].
           ++ destruct (Hno j l' Hp); lia.
           ++ destruct (Hmax j l' Hp Hl'). lia.
        -- unfold lenZ. lia.
      * apply IH.
        destruct Hinv as [(-> & -> & Hno)|(l & Hb & Hlook & Hl & -> & Hc & Hmax)].
        -- left. split_and!; auto.
           intros j l' Hj. destruct (Hlast j l' Hj) as [Hp|[-> ->]]; [eauto|lia].
        -- right. exists l. split_and!; auto.
           intros j l' Hj Hl'. destruct (Hlast j l' Hj) as [Hp|[-> ->]]; [eauto|].
           apply lookup_lt_Some in Hlook. split; lia.
    + apply IH.
      destruct Hinv as [(-> & -> & Hno)|(l & Hb & Hlook & Hl & -> & Hc & Hmax)].
      * left. split_and!; auto.
        intros j l' Hj. destruct (Hlast j l' Hj) as [Hp|[-> ->]]; [eauto|lia].
      * right. exists l. split_and!; auto.
        intros j l' Hj Hl'. destruct (Hlast j l' Hj) as [Hp|[-> ->]]; [eauto|lia].
Qed.

Lemma selectClosestLoop_spec d :
  forall todo pre best cd,
    closestTo d pre best cd ->
    exists cd',
      closestTo d (pre ++ todo)
        (selectClosestLoop d todo (lenZ pre) best cd) cd'.
Proof.
  induction todo as [|level rest IH]; intros pre best cd Hinv.
  - exists cd. rewrite app_nil_r. exact Hinv.
  - cbn [selectClosestLoop].
    replace (pre ++ level :: rest) with ((pre ++ [level]) ++ rest)
      by (rewrite <- app_assoc; reflexivity).
    replace (lenZ pre + 1) with (lenZ (pre ++ [level]))
      by (unfold lenZ; rewrite length_app; cbn; lia).
    assert (Hlast : forall (j : nat) l',
               (pre ++ [level]) !! j = Some l' ->
               pre !! j = Some l' \/ (j = length pre /\ l' = level)).
    { intros j l' H. apply lookup_app_Some in H as [H|[Hj H]]; [auto|].
      right. destruct (j - length pre)%nat eqn:E; cbn in H; [|discriminate].
      split; [lia|congruence]. }
    assert (Hkeep : forall (j : nat) l', pre !! j = Some l' ->
               (pre ++ [level]) !! j = Some l').
    { intros j l' H. apply lookup_app_l_Some. exact H. }
    assert (Hnew : (pre ++ [level]) !! Z.to_nat (lenZ pre) = Some level).
    { unfold lenZ. rewrite Nat2Z.id, lookup_app_r by lia.
      rewrite Nat.sub_diag. reflexivity. }
    destruct (Z.ltb_spec (Z.abs (d - level)) cd) as [Hlt|Hge].
    + apply IH. right. exists level.
      pose proof (lenZ_nonneg pre).
      split_and!; auto; try lia.
      { destruct Hinv as [(_ & -> & _)|(l & _ & _ & _ & Hc & _)]; lia. }
      intros j l' Hj. destruct (Hlast j l' Hj) as [Hp|[-> ->]].
      * destruct Hinv as [(_ & -> & Hno)|(l & _ & _ & -> & _ & Hmin)].
        -- pose proof (Hno j l' Hp). lia.
        -- destruct (Hmin j l' Hp). lia.
      * unfold lenZ. lia.
    + apply IH.
      destruct Hinv as [(-> & -> & Hno)|(l & Hb & Hlook & -> & Hc & Hmin)].
      * left. split_and!; auto.
        intros j l' Hj. destruct (Hlast j l' Hj) as [Hp|[-> ->]]; [eauto|lia].
      * right. exists l. split_and!; auto.
        intros j l' Hj. destruct (Hlast j l' Hj) as [Hp|[-> ->]]; [eauto|].
        apply lookup_lt_Some in Hlook. split; lia.
Qed.

(** X10. [bwSelectBestZoomLevel] selects the largest level that does not
    exceed the desired reduction, and the first index among equal levels.
    It returns -1 when the desired reduction is 1 or less, and otherwise
    only when no level is eligible; for levels and reductions in the
    32-bit range with positive levels that is when every level exceeds
    the desired reduction. *)
Theorem bwSelectBestZoomLevel_largest_level_under :
  forall z d,
    let r := bwSelectBestZoomLevel (Some z) d in
    (d <= 1 -> r = -1)
    /\ (1 < d ->
        (r = -1
         /\ forall (j : nat) l,
             zh_Level z !! j = Some l -> d < l \/ 4294967295 <= d - l)
        \/ (exists l,
              0 <= r /\ zh_Level z !! Z.to_nat r = Some l /\ l <= d
              /\ forall (j : nat) l',
                  zh_Level z !! j = Some l' -> l' <= d ->
                  l' <= l /\ (l' = l -> r <= Z.of_nat j)))
    /\ (1 < d < 2 ^ 32 -> Forall (fun l => 0 < l) (zh_Level z) ->
        (r = -1 <-> Forall (fun l => d < l) (zh_Level z))).
Proof.
  intros z d r. subst r. unfold bwSelectBestZoomLevel.
  assert (Hmain : 1 < d ->
            exists cd, bestUnder d (zh_Level z)
                         (if (d <=? 1) || (lenZ (zh_Level z) =? 0) then -1
                          else selectBestLoop d (zh_Level z) 0 (-1) 4294967295) cd).
  { intros Hd. replace (d <=? 1) with false by (symmetry; apply Z.leb_gt; lia).
    cbn [orb]. destruct (Z.eqb_spec (lenZ (zh_Level z)) 0) as [E|E].
    - exists 4294967295. left. split_and!; auto.
      intros j l H. apply lookup_lt_Some in H. unfold lenZ in E. lia.
    - apply (selectBestLoop_spec d (zh_Level z) [] (-1) 4294967295).
      left. split_and!; auto. intros j l H. rewrite lookup_nil in H. discriminate. }
  split_and!.
  - intros Hd. replace (d <=? 1) with true by (symmetry; apply Z.leb_le; lia).
    reflexivity.
  - intros Hd. destruct (Hmain Hd) as [cd [H|(l & H0 & H1 & H2 & _ & _ & H3)]].
    + left. destruct H as (H1 & _ & H2). auto.
    + right. exists l. auto.
  - intros Hd Hpos. destruct (Hmain ltac:(lia)) as [cd [H|(l & H0 & H1 & H2 & _ & _ & H3)]].
    + destruct H as (-> & _ & Hno). split; [intros _|reflexivity].
      apply Forall_lookup_2. intros j l Hl.
      pose proof (Forall_lookup_1 _ _ _ _ Hpos Hl) as Hl0. cbn in Hl0.
      destruct (Hno j l Hl); lia.
    + split; [lia|]. intros Hall.
      pose proof (Forall_lookup_1 _ _ _ _ Hall H1) as Hbad. cbn in Hbad. lia.
Qed.

Lemma bwSelectBestZoomLevel_largest_level_under_witness :
  let z := {| zh_Level := [10; 40; 160]; zh_IndexOffset := [100; 200; 300];
              zh_Idx := [None; None; None] |} in
  bwSelectBestZoomLevel (Some z) 120 <> -1.
Proof.
  intros z.
  destruct (bwSelectBestZoomLevel_largest_level_under z 120) as (_ & _ & H).
  intros E. apply H in E.
  - apply Forall_inv in E. lia.
  - lia.
  - repeat constructor.
Defined.

(** X11. [bwGetBestZoomClosest] selects the level whose distance to the
    desired reduction is least, and the first index among equally distant
    levels.  It returns -1 only when no level is eligible; for a
    non-empty list of positive levels and a positive reduction, all in
    the 32-bit range, it always selects a level. *)
Theorem bwGetBestZoomClosest_least_distance :
  forall z d,
    let r := bwGetBestZoomClosest (Some z) d in
    ((r = -1
      /\ forall (j : nat) l,
          zh_Level z !! j = Some l -> 4294967295 <= Z.abs (d - l))
     \/ (exists l,
           0 <= r /\ zh_Level z !! Z.to_nat r = Some l
           /\ forall (j : nat) l',
               zh_Level z !! j = Some l' ->
               Z.abs (d - l) <= Z.abs (d - l')
               /\ (Z.abs (d - l') = Z.abs (d - l) -> r <= Z.of_nat j)))
    /\ (0 < d < 2 ^ 32 -> zh_Level z <> [] ->
        Forall (fun l => 0 < l < 2 ^ 32) (zh_Level z) -> 0 <= r).
Proof.
  intros z d r. subst r. unfold bwGetBestZoomClosest.
  assert (Hmain :
            exists cd, closestTo d (zh_Level z)
                         (if lenZ (zh_Level z) =? 0 then -1
                          else selectClosestLoop d (zh_Level z) 0 (-1) 4294967295) cd).
  { destruct (Z.eqb_spec (lenZ (zh_Level z)) 0) as [E|E].
    - exists 4294967295. left. split_and!; auto.
      intros j l H. apply lookup_lt_Some in H. unfold lenZ in E. lia.
    - apply (selectClosestLoop_spec d (zh_Level z) [] (-1) 4294967295).
      left. split_and!; auto. intros j l H. rewrite lookup_nil in H. discriminate. }
  destruct Hmain as [cd [H|(l & H0 & H1 & _ & _ & H3)]].
  - destruct H as (Hr & _ & Hno). split; [left; auto|].
    intros Hd Hne Hrange. exfalso.
    destruct (zh_Level z) as [|l ls] eqn:E; [contradiction|].
    pose proof (Hno 0%nat l eq_refl) as Hbad.
    apply Forall_inv in Hrange. lia.
  - split; [right; exists l; auto|]. intros _ _ _. exact H0.
Qed.

Lemma bwGetBestZoomClosest_least_distance_witness :
  let z := {| zh_Level := [10; 40; 160]; zh_IndexOffset := [100; 200; 300];
              zh_Idx := [None; None; None] |} in
  0 <= bwGetBestZoomClosest (Some z) 120.
Proof.
  intros z.
  destruct (bwGetBestZoomClosest_least_distance z 120) as [_ H].
  apply H.
  - lia.
  - discriminate.
  - repeat constructor.
Defined.
(** ** Reading a remote resource *)

Lemma take_take_drop {A} (l : list A) (a b k : nat) :
  drop k (take a (drop b l)) = take (a - k) (drop (b + k) l).
Proof.
  rewrite <- (drop_drop l k b). apply skipn_firstn_comm.
Qed.

Lemma take_length_take {A} (m : nat) (D : list A) :
  take m D = take (length (take m D)) D.
Proof.
  rewrite length_take. destruct (Nat.le_gt_cases m (length D)).
  - f_equal. lia.
  - rewrite !take_ge by lia. reflexivity.
Qed.

(** Taking [n] bytes from a buffer that mirrors the resource. *)
Lemma buffer_take content pos (B : list byte) (k : nat) :
  0 <= pos ->
  B = take (length B) (drop (Z.to_nat pos) content) ->
  take k B = bytesAt content pos (lenZ (take k B))
  /\ drop k B
     = take (length (drop k B))
         (drop (Z.to_nat (pos + lenZ (take k B))) content).
Proof.
  intros Hpos HB. unfold bytesAt, lenZ. rewrite Nat2Z.id. split.
  - rewrite HB at 1. rewrite take_take, length_take. reflexivity.
  - rewrite HB at 1. rewrite take_take_drop, length_drop, length_take.
    destruct (Nat.le_gt_cases k (length B)).
    + replace (Z.to_nat (pos + Z.of_nat (k `min` length B)))
        with (Z.to_nat pos + k)%nat by lia.
      reflexivity.
    + replace (length B - k)%nat with 0%nat by lia. reflexivity.
Qed.

Lemma URL_Read_remote content pos u n :
  remote_at content pos u -> 0 < n ->
  exists got err u',
    URL_Read u n = ((got, err), u')
    /\ got = bytesAt content pos (lenZ got)
    /\ remote_at content (pos + lenZ got) u'
    /\ ((err = None /\ 0 < lenZ got <= n)
        \/ (err = Some EOF /\ got = [] /\ lenZ content <= pos)).
Proof.
  intros ([Hloc Hsrv] & Hpos & HF & HB) Hn.
  unfold URL_Read. rewrite Hloc.
  assert (Hgen : forall B u1,
             B <> [] -> serves content u1 -> FilePos u1 = pos + lenZ B ->
             B = take (length B) (drop (Z.to_nat pos) content) ->
             exists got err u',
               (let '(r, b) := Buffer_Read B n in (r, set_remote u1 (FilePos u1) b))
               = ((got, err), u')
               /\ got = bytesAt content pos (lenZ got)
               /\ remote_at content (pos + lenZ got) u'
               /\ ((err = None /\ 0 < lenZ got <= n)
                   \/ (err = Some EOF /\ got = [] /\ lenZ content <= pos))).
  { intros B u1 HBne Hs1 HF1 HB1.
    destruct (buffer_take content pos B (Z.to_nat n) Hpos HB1) as [Hg Hd].
    unfold Buffer_Read. destruct B as [|x B']; [contradiction|].
    set (B := x :: B') in *.
    eexists _, _, _. split; [reflexivity|]. split; [exact Hg|]. split.
    - split; [exact Hs1|]. split; [unfold lenZ; lia|]. cbn [FilePos buf set_remote].
      split; [|exact Hd].
      rewrite HF1. unfold lenZ. rewrite length_take, length_drop. lia.
    - left. split; [reflexivity|]. unfold lenZ. rewrite length_take.
      subst B. cbn [length]. lia. }
  destruct (buf u) as [|x b] eqn:Hbuf.
  - unfold fillBuffer. rewrite Hsrv. unfold range_server.
    assert (HF0 : FilePos u = pos) by (rewrite HF; unfold lenZ; cbn; lia).
    rewrite HF0.
    replace (pos <? 0) with false by (symmetry; apply Z.ltb_ge; lia).
    remember (take (Z.to_nat 65536) (drop (Z.to_nat pos) content)) as body
      eqn:Ebody.
    assert (Hpre : body = take (length body) (drop (Z.to_nat pos) content)).
    { rewrite Ebody. apply take_length_take. }
    destruct body as [|y body'].
    + cbn [buf set_remote FilePos Buffer_Read lenZ length].
      replace (n <=? 0) with false by (symmetry; apply Z.leb_gt; lia).
      eexists _, _, _. split; [reflexivity|]. split; [reflexivity|].
      split.
      * split; [split; assumption|]. cbn. split_and!; auto; lia.
      * right. split_and!; auto.
        apply (f_equal (@length byte)) in Ebody.
        rewrite length_take, length_drop in Ebody. cbn in Ebody.
        unfold lenZ. lia.
    + cbn [buf set_remote FilePos].
      apply (Hgen (y :: body')).
      * discriminate.
      * split; assumption.
      * reflexivity.
      * exact Hpre.
  - rewrite <- Hbuf in *. apply Hgen; auto.
    + rewrite Hbuf. discriminate.
    + split; assumption.
Qed.

Lemma URL_Seek_remote content u p :
  serves content u -> 0 <= p ->
  URL_Seek u p SeekStart = ((p, None), set_remote u p [])
  /\ remote_at content p (set_remote u p []).
Proof.
  intros [Hloc Hsrv] Hp. unfold URL_Seek. rewrite Hloc. cbn. split; [reflexivity|].
  split; [split; [exact Hloc|exact Hsrv]|]. unfold lenZ. cbn. split_and!; auto; lia.
Qed.

(** X12. Without a seek in between, the reads on a remote resource
    deliver the bytes of the resource in order, each byte once: a read at
    position [pos] returns between 1 and [n] of the bytes that start at
    [pos] and leaves the resource at the position behind them, or reports
    the end of the data when [pos] is at or behind the last byte.  A
    freshly opened remote resource is at position 0. *)
Theorem remote_reads_are_sequential :
  forall content pos u n,
    remote_at content 0 (open_remote content)
    /\ (remote_at content pos u -> 0 < n ->
        exists got err u',
          URL_Read u n = ((got, err), u')
          /\ got = bytesAt content pos (lenZ got)
          /\ remote_at content (pos + lenZ got) u'
          /\ ((err = None /\ 0 < lenZ got <= n)
              \/ (err = Some EOF /\ got = [] /\ lenZ content <= pos))).
Proof.
  intros content pos u n. split.
  - split; [split; reflexivity|]. unfold lenZ. cbn. split_and!; auto; lia.
  - apply URL_Read_remote.
Qed.

Lemma remote_reads_are_sequential_witness :
  exists got err u',
    URL_Read (open_remote Sample.blockB) 24 = ((got, err), u')
    /\ got = bytesAt Sample.blockB 0 (lenZ got)
    /\ remote_at Sample.blockB (0 + lenZ got) u'.
Proof.
  destruct (remote_reads_are_sequential Sample.blockB 0
              (open_remote Sample.blockB) 24) as [_ H].
  destruct H as (got & err & u1 & E1 & Hg & Hat & _).
  - split; [split; reflexivity|]. split; [lia|]. split; reflexivity.
  - lia.
  - exists got, err, u1. auto.
Defined.
(** ** Reading a block *)

Lemma lenZ_bytesAt content off size :
  0 <= off -> 0 < size ->
  (lenZ (bytesAt content off size) =? size) = (off + size <=? lenZ content).
Proof.
  intros Ho Hs. unfold bytesAt, lenZ. rewrite length_take, length_drop.
  destruct (Z.leb_spec (off + size) (Z.of_nat (length content)));
    [apply Z.eqb_eq|apply Z.eqb_neq]; lia.
Qed.

Lemma readBlock_local zlib compressed content off size u :
  holds content u -> 0 <= off < 2 ^ 63 -> 0 < size <= maxAlloc ->
  fst (readBlock zlib compressed off size u)
  = storedBlock zlib compressed content off size.
Proof.
  intros [Hloc Hdata] Hoff Hsize.
  unfold readBlock, bwSetPos, URL_Seek, File_Seek, int64_of_u64.
  rewrite Hloc.
  replace (off <? 2 ^ 63) with true by (symmetry; apply Z.ltb_lt; lia).
  cbn [Z.eqb SeekStart].
  replace (off <? 0) with false by (symmetry; apply Z.ltb_ge; lia).
  cbn [negb Z.eqb].
  replace (maxAlloc <? size) with false by (symmetry; apply Z.ltb_ge; lia).
  unfold URL_Read, is_local in *. cbn [set_rs Type_ rs]. rewrite Hloc.
  unfold File_Read. cbn [f_data f_pos].
  replace (size <=? 0) with false by (symmetry; apply Z.leb_gt; lia).
  rewrite Hdata. unfold storedBlock.
  pose proof (lenZ_bytesAt content off size ltac:(lia) ltac:(lia)) as Hlen.
  destruct (Z.leb_spec (lenZ content) off) as [Hend|Hin].
  - cbn. replace (off + size <=? lenZ content) with false
      by (symmetry; apply Z.leb_gt; lia).
    reflexivity.
  - cbn [fst snd]. fold (bytesAt content off size). rewrite Hlen.
    destruct (off + size <=? lenZ content); cbn [negb]; [|reflexivity].
    destruct compressed; [|reflexivity].
    destruct (zlib (bytesAt content off size)); reflexivity.
Qed.

Lemma readBlock_remote zlib compressed content off size u :
  serves content u -> 0 <= off < 2 ^ 63 -> 0 < size <= 65536 ->
  fst (readBlock zlib compressed off size u)
  = storedBlock zlib compressed content off size.
Proof.
  intros [Hloc Hsrv] Hoff Hsize.
  unfold readBlock, bwSetPos, URL_Seek, int64_of_u64.
  rewrite Hloc.
  replace (off <? 2 ^ 63) with true by (symmetry; apply Z.ltb_lt; lia).
  cbn [Z.eqb SeekStart negb].
  replace (maxAlloc <? size) with false
    by (symmetry; apply Z.ltb_ge; unfold maxAlloc; lia).
  unfold URL_Read, is_local in *. cbn [set_remote Type_ buf]. rewrite Hloc.
  unfold fillBuffer. cbn [set_remote server FilePos]. rewrite Hsrv. unfold range_server.
  replace (off <? 0) with false by (symmetry; apply Z.ltb_ge; lia).
  cbn [set_remote buf FilePos].
  pose proof (lenZ_bytesAt content off size ltac:(lia) ltac:(lia)) as Hlen.
  assert (Hgot : take (Z.to_nat size)
                   (take (Z.to_nat 65536) (drop (Z.to_nat off) content))
                 = bytesAt content off size).
  { unfold bytesAt. rewrite take_take. f_equal. lia. }
  unfold storedBlock, Buffer_Read.
  destruct (take (Z.to_nat 65536) (drop (Z.to_nat off) content)) as [|y body]
    eqn:Ebody.
  - replace (size <=? 0) with false by (symmetry; apply Z.leb_gt; lia).
    cbn [fst]. apply (f_equal (@length byte)) in Ebody.
    rewrite length_take, length_drop in Ebody. cbn [length] in Ebody.
    replace (off + size <=? lenZ content) with false
      by (symmetry; apply Z.leb_gt; unfold lenZ; lia).
    reflexivity.
  - rewrite Hgot. cbn [fst snd]. rewrite Hlen.
    destruct (off + size <=? lenZ content); cbn [negb]; [|reflexivity].
    destruct compressed; [|reflexivity].
    destruct (zlib (bytesAt content off size)); reflexivity.
Qed.

Lemma readBlock_remote_large zlib compressed off size u :
  is_local u = false ->
  (forall p body, server u p = Some body -> lenZ body <= 65536) ->
  65536 < size ->
  fst (readBlock zlib compressed off size u) = Nil
  \/ fst (readBlock zlib compressed off size u) = Panic.
Proof.
  intros Hloc Hsrv Hsize.
  unfold readBlock, bwSetPos, URL_Seek. rewrite Hloc.
  cbn [Z.eqb SeekStart negb].
  destruct (maxAlloc <? size); [right; reflexivity|left].
  unfold URL_Read, is_local in *. cbn [set_remote Type_ buf]. rewrite Hloc.
  unfold fillBuffer. cbn [set_remote server FilePos].
  destruct (server u (int64_of_u64 off)) as [body|] eqn:Es; [|reflexivity].
  pose proof (Hsrv _ _ Es) as Hb. cbn [set_remote buf FilePos].
  unfold Buffer_Read. destruct body as [|y body].
  - replace (size <=? 0) with false by (symmetry; apply Z.leb_gt; lia).
    reflexivity.
  - cbn [fst snd].
    replace (lenZ (take (Z.to_nat size) (y :: body)) =? size) with false.
    + reflexivity.
    + symmetry. apply Z.eqb_neq. unfold lenZ in *. rewrite length_take. lia.
Qed.

(** X13. [readBlock] returns exactly the stored block: the [size] bytes
    at [off], inflated when the file is compressed, and nil when the
    block runs past the end of the data or does not inflate.  This holds
    on a local file and, for blocks of at most 65536 bytes, on a remote
    resource alike, from any state of the resource. *)
Theorem readBlock_returns_stored_block :
  forall zlib compressed content off size u,
    holds content u \/ (serves content u /\ size <= 65536) ->
    0 <= off < 2 ^ 63 ->
    0 < size <= maxAlloc ->
    fst (readBlock zlib compressed off size u)
    = storedBlock zlib compressed content off size.
Proof.
  intros zlib compressed content off size u [Hl|[Hr Hs]] Hoff Hsize.
  - apply readBlock_local; assumption.
  - apply readBlock_remote; try assumption. lia.
Qed.

Lemma readBlock_returns_stored_block_witness :
  fst (readBlock Sample.nozlib false 60 40 Sample.local) = Ok Sample.blockB
  /\ fst (readBlock Sample.nozlib false 200 40 Sample.local) = Nil.
Proof.
  split.
  - rewrite (readBlock_returns_stored_block Sample.nozlib false Sample.content
               60 40 Sample.local).
    + vm_compute. reflexivity.
    + left. split; reflexivity.
    + lia.
    + unfold maxAlloc. lia.
  - rewrite (readBlock_returns_stored_block Sample.nozlib false Sample.content
               200 40 Sample.local).
    + vm_compute. reflexivity.
    + left. split; reflexivity.
    + lia.
    + unfold maxAlloc. lia.
Defined.

(** X14. On a remote resource whose server answers a range request with
    at most the 65536 bytes asked for, a block of more than 65536 bytes
    is never read: [readBlock] asks for one window and takes a short read
    for a failure. *)
Theorem readBlock_remote_window_limit :
  forall zlib compressed off size u,
    is_local u = false ->
    (forall p body, server u p = Some body -> lenZ body <= 65536) ->
    65536 < size ->
    fst (readBlock zlib compressed off size u) = Nil
    \/ fst (readBlock zlib compressed off size u) = Panic.
Proof.
  intros zlib compressed off size u. apply readBlock_remote_large.
Qed.

Lemma readBlock_remote_window_limit_witness :
  fst (readBlock Sample.nozlib false 0 70000 Sample.remote) = Nil
  \/ fst (readBlock Sample.nozlib false 0 70000 Sample.remote) = Panic.
Proof.
  apply readBlock_remote_window_limit.
  - reflexivity.
  - intros p body. unfold Sample.remote, open_remote, range_server.
    cbn [server]. destruct (p <? 0); [discriminate|].
    intros [= <-]. unfold lenZ. rewrite length_take.
    generalize (length (drop (Z.to_nat p) Sample.content)). intros k.
    pose proof (Nat.le_min_l (Z.to_nat 65536) k) as H.
    apply Nat2Z.inj_le in H. rewrite Z2Nat.id in H by discriminate. exact H.
  - reflexivity.
Defined.
(** ** Reading a local file field by field *)

Lemma bwRead_local content p n u :
  local_at content p u -> 0 < n ->
  if p + n <=? lenZ content
  then exists u', bwRead n u = (Ok (bytesAt content p n), u')
                  /\ local_at content (p + n) u'
  else fst (bwRead n u) = Nil.
Proof.
  intros ([Hloc Hdata] & Hpos & Hp) Hn.
  unfold bwRead, URL_Read. rewrite Hloc. unfold File_Read.
  replace (n <=? 0) with false by (symmetry; apply Z.leb_gt; lia).
  rewrite Hdata, Hpos.
  pose proof (lenZ_bytesAt content p n Hp Hn) as Hlen.
  destruct (Z.leb_spec (lenZ content) p) as [Hend|Hin].
  - replace (p + n <=? lenZ content) with false
      by (symmetry; apply Z.leb_gt; lia).
    reflexivity.
  - fold (bytesAt content p n). rewrite Hlen.
    destruct (Z.leb_spec (p + n) (lenZ content)) as [Hfit|Hshort].
    + eexists. split; [reflexivity|].
      apply Z.eqb_eq in Hlen.
      split; [split; [unfold is_local in *; cbn; exact Hloc|reflexivity]|].
      cbn. rewrite Hlen. split; [reflexivity|lia].
    + reflexivity.
Qed.

Lemma setPos_local content pos u :
  holds content u -> 0 <= pos < 2 ^ 63 ->
  exists u', setPos pos u = (Ok tt, u') /\ local_at content pos u'.
Proof.
  intros [Hloc Hdata] Hpos.
  unfold setPos, bwSetPos, URL_Seek, File_Seek, int64_of_u64. rewrite Hloc.
  replace (pos <? 2 ^ 63) with true by (symmetry; apply Z.ltb_lt; lia).
  cbn [Z.eqb SeekStart].
  replace (pos <? 0) with false by (symmetry; apply Z.ltb_ge; lia).
  cbn [Z.eqb]. eexists. split; [reflexivity|].
  split; [split; [unfold is_local in *; cbn; exact Hloc|exact Hdata]|].
  cbn. split; [reflexivity|lia].
Qed.

Lemma setPos_local_far pos u :
  is_local u = true -> 2 ^ 63 <= pos < 2 ^ 64 ->
  fst (setPos pos u) = Nil.
Proof.
  intros Hloc Hpos.
  unfold setPos, bwSetPos, URL_Seek, File_Seek, int64_of_u64. rewrite Hloc.
  replace (pos <? 2 ^ 63) with false by (symmetry; apply Z.ltb_ge; lia).
  cbn [Z.eqb SeekStart].
  replace (pos - 2 ^ 64 <? 0) with true by (symmetry; apply Z.ltb_lt; lia).
  reflexivity.
Qed.

Lemma tell_local content p u :
  local_at content p u -> p < 2 ^ 63 ->
  exists u', tell u = (Ok p, u') /\ local_at content p u'.
Proof.
  intros ([Hloc Hdata] & Hpos & Hp) Hlt.
  unfold tell, bwTell, URL_Seek, File_Seek. rewrite Hloc.
  cbn [Z.eqb Pos.eqb SeekStart SeekCurrent]. rewrite Hpos, Z.add_0_r.
  destruct (Z.ltb_spec p 0) as [|_]; [lia|].
  cbv beta iota. unfold u64. rewrite Z.mod_small by lia.
  eexists. split; [reflexivity|].
  split; [split; [unfold is_local in *; cbn; exact Hloc|exact Hdata]|].
  cbn. split; [reflexivity|lia].
Qed.

(** Decoding looks at the first bytes only. *)
Lemma le_uint32_take (k : nat) (l : list byte) :
  (4 <= k)%nat -> le_uint32 (take k l) = le_uint32 l.
Proof.
  intros Hk. do 4 (destruct k as [|k]; [lia|]).
  destruct l as [|a [|b [|c [|d l]]]]; reflexivity.
Qed.

Lemma le_uint16_take (k : nat) (l : list byte) :
  (2 <= k)%nat -> le_uint16 (take k l) = le_uint16 l.
Proof.
  intros Hk. do 2 (destruct k as [|k]; [lia|]).
  destruct l as [|a [|b l]]; reflexivity.
Qed.

Lemma le_uint8_take (k : nat) (l : list byte) :
  (1 <= k)%nat -> le_uint8 (take k l) = le_uint8 l.
Proof.
  intros Hk. destruct k as [|k]; [lia|]. destruct l; reflexivity.
Qed.

Lemma le_uint64_take (k : nat) (l : list byte) :
  (8 <= k)%nat -> le_uint64 (take k l) = le_uint64 l.
Proof.
  intros Hk. unfold le_uint64.
  rewrite le_uint32_take by lia. f_equal. f_equal.
  rewrite skipn_firstn_comm. apply le_uint32_take. lia.
Qed.

(** The bytes at [p + k], seen from [p]. *)
Lemma bytesAt_shift content p k n :
  0 <= p -> 0 <= k ->
  bytesAt content (p + k) n
  = take (Z.to_nat n) (drop (Z.to_nat k) (drop (Z.to_nat p) content)).
Proof.
  intros Hp Hk. unfold bytesAt. rewrite drop_drop. do 2 f_equal. lia.
Qed.
(** ** Nodes of the index *)

Lemma parseChild_bytes (content : list byte) (leaf : bool) p :
  0 <= p ->
  {| chrIdxStart := le_uint32 (bytesAt content p 4);
     baseStart := le_uint32 (bytesAt content (p + 4) 4);
     chrIdxEnd := le_uint32 (bytesAt content (p + 4 + 4) 4);
     baseEnd := le_uint32 (bytesAt content (p + 4 + 4 + 4) 4);
     dataOffset := le_uint64 (bytesAt content (p + 4 + 4 + 4 + 4) 8);
     rc_size :=
       if leaf then le_uint64 (bytesAt content (p + 4 + 4 + 4 + 4 + 8) 8)
       else 0 |}
  = parseChild leaf (drop (Z.to_nat p) content).
Proof.
  intros Hp. unfold parseChild.
  replace (p + 4 + 4 + 4 + 4 + 8) with (p + 24) by lia.
  replace (p + 4 + 4 + 4 + 4) with (p + 16) by lia.
  replace (p + 4 + 4 + 4) with (p + 12) by lia.
  replace (p + 4 + 4) with (p + 8) by lia.
  rewrite <- (Z.add_0_r p) at 1.
  rewrite !bytesAt_shift by lia.
  rewrite !le_uint32_take, !le_uint64_take by (cbn; lia).
  reflexivity.
Qed.

Lemma readChildren_local content leaf :
  forall (n : nat) p u,
    local_at content p u -> p <= lenZ content ->
    if p + Z.of_nat n * childBytes leaf <=? lenZ content
    then exists u',
        readChildren leaf n u
        = (Ok (parseChildren leaf n (drop (Z.to_nat p) content)), u')
        /\ local_at content (p + Z.of_nat n * childBytes leaf) u'
    else fst (readChildren leaf n u) = Nil.
Proof.
  induction n as [|n IH]; intros p u Hat Hle.
  - pose proof Hat as (_ & _ & Hp).
    cbn [readChildren parseChildren]. rewrite Z.mul_0_l, Z.add_0_r.
    destruct (Z.leb_spec p (lenZ content)); [|lia].
    exists u. split; [reflexivity|exact Hat].
  - pose proof Hat as (_ & _ & Hp).
    cbn [readChildren parseChildren].
    assert (Hcb : 0 < childBytes leaf) by (destruct leaf; cbn; lia).
    destruct (Z.leb_spec (p + Z.of_nat (S n) * childBytes leaf) (lenZ content))
      as [Hfit|Hshort].
    + destruct leaf; unfold childBytes in *.
      * do 6 (read_step bwRead_local Hat; [|exfalso; lia]).
        pose proof (IH _ _ Hat ltac:(lia)) as Hrest.
        replace (p + 4 + 4 + 4 + 4 + 8 + 8 + Z.of_nat n * 32 <=? lenZ content)
          with true in Hrest by (symmetry; apply Z.leb_le; lia).
        destruct Hrest as (u' & Hrest & Hat').
        unfold bind, ret. rewrite Hrest.
        exists u'. split.
        -- rewrite (parseChild_bytes content true p Hp), drop_drop.
           replace (Z.to_nat p + Z.to_nat 32)%nat
             with (Z.to_nat (p + 4 + 4 + 4 + 4 + 8 + 8)) by lia.
           reflexivity.
        -- replace (p + Z.of_nat (S n) * 32)
             with (p + 4 + 4 + 4 + 4 + 8 + 8 + Z.of_nat n * 32) by lia.
           exact Hat'.
      * do 5 (read_step bwRead_local Hat; [|exfalso; lia]).
        pose proof (IH _ _ Hat ltac:(lia)) as Hrest.
        replace (p + 4 + 4 + 4 + 4 + 8 + Z.of_nat n * 24 <=? lenZ content)
          with true in Hrest by (symmetry; apply Z.leb_le; lia).
        destruct Hrest as (u' & Hrest & Hat').
        unfold bind, ret. rewrite Hrest.
        exists u'. split.
        -- rewrite (parseChild_bytes content false p Hp), drop_drop.
           replace (Z.to_nat p + Z.to_nat 24)%nat
             with (Z.to_nat (p + 4 + 4 + 4 + 4 + 8)) by lia.
           reflexivity.
        -- replace (p + Z.of_nat (S n) * 24)
             with (p + 4 + 4 + 4 + 4 + 8 + Z.of_nat n * 24) by lia.
           exact Hat'.
    + destruct leaf; unfold childBytes in *.
      * do 6 (read_step bwRead_local Hat; [|reflexivity]).
        pose proof (IH _ _ Hat ltac:(lia)) as Hrest.
        replace (p + 4 + 4 + 4 + 4 + 8 + 8 + Z.of_nat n * 32 <=? lenZ content)
          with false in Hrest by (symmetry; apply Z.leb_gt; lia).
        unfold bind, ret. destruct (readChildren true n u5) as [[?| |] ?];
          cbn [fst] in Hrest; try discriminate Hrest. reflexivity.
      * do 5 (read_step bwRead_local Hat; [|reflexivity]).
        pose proof (IH _ _ Hat ltac:(lia)) as Hrest.
        replace (p + 4 + 4 + 4 + 4 + 8 + Z.of_nat n * 24 <=? lenZ content)
          with false in Hrest by (symmetry; apply Z.leb_gt; lia).
        unfold bind, ret. destruct (readChildren false n u4) as [[?| |] ?];
          cbn [fst] in Hrest; try discriminate Hrest. reflexivity.
Qed.
Lemma lenZ_drop_Z (content : list byte) q :
  0 <= q -> lenZ (drop (Z.to_nat q) content) = Z.max 0 (lenZ content - q).
Proof. intros Hq. unfold lenZ. rewrite length_drop. lia. Qed.

Lemma bwGetRTreeNode_at content q u :
  holds content u -> 0 <= q < 2 ^ 64 -> lenZ content < 2 ^ 63 ->
  fst ((_ <~ setPos q ;;
        isLeaf <~ bwRead 1 ;;
        padding <~ bwRead 1 ;;
        nChildren <~ bwRead 2 ;;
        children <~ readChildren (negb (le_uint8 isLeaf =? 0))
                      (Z.to_nat (le_uint16 nChildren)) ;;
        ret {| n_IsLeaf := le_uint8 isLeaf; n_NChildren := le_uint16 nChildren;
               n_Children := children |}) u)
  = outcome_of_nil (parseNode content q).
Proof.
  intros Hh Hq Hlen. unfold parseNode.
  rewrite (lenZ_drop_Z content q) by lia.
  destruct (Z.lt_ge_cases q (2 ^ 63)) as [Hq63|Hq63].
  - destruct (setPos_local content q u Hh ltac:(lia)) as (u0 & Hs & Hat).
    unfold bind at 1. rewrite Hs. cbv beta iota.
    destruct (Z.ltb_spec (Z.max 0 (lenZ content - q)) 4) as [Hshort|Hhdr].
    + do 3 (read_step bwRead_local Hat; [|reflexivity]). exfalso. lia.
    + do 3 (read_step bwRead_local Hat; [|exfalso; lia]).
      replace (q + 1 + 1) with (q + 2) by lia.
      assert (E1 : le_uint8 (bytesAt content q 1)
                   = le_uint8 (drop (Z.to_nat q) content))
        by (unfold bytesAt; apply le_uint8_take; cbn; lia).
      assert (E2 : le_uint16 (bytesAt content (q + 2) 2)
                   = le_uint16 (drop 2 (drop (Z.to_nat q) content))).
      { rewrite bytesAt_shift by lia. apply le_uint16_take. cbn. lia. }
      rewrite E1, E2. clear E1 E2.
      set (b := drop (Z.to_nat q) content).
      set (leaf := negb (le_uint8 b =? 0)).
      set (n := le_uint16 (drop 2 b)).
      assert (Hn : 0 <= n).
      { subst n. unfold le_uint16, byteZ.
        destruct (drop 2 b) as [|x [|y l]]; lia. }
      pose proof (readChildren_local content leaf (Z.to_nat n) _ _ Hat ltac:(lia))
        as Hc.
      rewrite Z2Nat.id in Hc by lia.
      replace (q + 1 + 1 + 2 + n * childBytes leaf <=? lenZ content)
        with (negb (Z.max 0 (lenZ content - q) <? 4 + n * childBytes leaf)) in Hc.
      2:{ destruct (Z.ltb_spec (Z.max 0 (lenZ content - q))
                      (4 + n * childBytes leaf));
          destruct (Z.leb_spec (q + 1 + 1 + 2 + n * childBytes leaf)
                      (lenZ content)); cbn; lia. }
      destruct (Z.max 0 (lenZ content - q) <? 4 + n * childBytes leaf);
        cbn [negb] in Hc.
      * unfold bind, ret.
        destruct (readChildren leaf (Z.to_nat n) u3) as [[?| |] ?];
          cbn [fst] in Hc; try discriminate Hc. reflexivity.
      * destruct Hc as (u' & Hc & _). unfold bind, ret. rewrite Hc.
        cbn [fst outcome_of_nil].
        replace (drop 4 b) with (drop (Z.to_nat (q + 1 + 1 + 2)) content);
          [reflexivity|].
        subst b. rewrite drop_drop. f_equal. lia.
  - replace (Z.max 0 (lenZ content - q) <? 4) with true
      by (symmetry; apply Z.ltb_lt; lia).
    unfold bind at 1.
    pose proof (setPos_local_far q u (proj1 Hh) ltac:(lia)) as Hs.
    destruct (setPos q u) as [[?| |] ?]; cbn [fst] in Hs; try discriminate Hs.
    reflexivity.
Qed.
(** The loader reads and seeks; it never changes what the resource
    holds. *)
Lemma bind_same_resource {A B} (m : M A) (k : A -> M B) :
  (forall u, same_resource u (snd (m u))) ->
  (forall a u, same_resource u (snd (k a u))) ->
  forall u, same_resource u (snd (bind m k u)).
Proof.
  intros Hm Hk u. unfold bind. pose proof (Hm u) as H1.
  destruct (m u) as [[a| |] u1]; cbn [snd] in *; try exact H1.
  exact (same_resource_trans _ _ _ H1 (Hk a u1)).
Qed.

Lemma ret_same_resource {A} (a : A) u : same_resource u (snd (ret a u)).
Proof. apply same_resource_refl. Qed.

Lemma fail_same_resource {A} u : same_resource u (snd (@fail A u)).
Proof. apply same_resource_refl. Qed.

Lemma bwRead_same_resource n u : same_resource u (snd (bwRead n u)).
Proof.
  unfold bwRead. pose proof (URL_Read_same_resource u n) as H.
  destruct (URL_Read u n) as [[data [e|]] u1]; cbn [snd] in *; [exact H|].
  destruct (lenZ data =? n); exact H.
Qed.

Lemma setPos_same_resource pos u : same_resource u (snd (setPos pos u)).
Proof.
  unfold setPos, bwSetPos.
  pose proof (URL_Seek_same_resource u (int64_of_u64 pos) SeekStart) as H.
  destruct (URL_Seek u (int64_of_u64 pos) SeekStart) as [[r [e|]] u1];
    cbn [snd] in *; exact H.
Qed.

Lemma tell_same_resource u : same_resource u (snd (tell u)).
Proof.
  unfold tell, bwTell.
  pose proof (URL_Seek_same_resource u 0 SeekCurrent) as H.
  destruct (URL_Seek u 0 SeekCurrent) as [[r e] u1]; cbn [snd] in *; exact H.
Qed.

Lemma readChildren_same_resource leaf n :
  forall u, same_resource u (snd (readChildren leaf n u)).
Proof.
  induction n as [|n IH]; [apply ret_same_resource|].
  cbn [readChildren].
  repeat (apply bind_same_resource;
          [first [apply bwRead_same_resource | exact IH
                 | destruct leaf; [apply bwRead_same_resource
                                  |apply ret_same_resource]]
          |intros ?]).
  apply ret_same_resource.
Qed.

Lemma bwGetRTreeNode_same_resource ro off u :
  same_resource u (snd (bwGetRTreeNode ro off u)).
Proof.
  unfold bwGetRTreeNode.
  destruct (if off =? 0 then ro else Some off); [|apply same_resource_refl].
  revert u.
  repeat (apply bind_same_resource;
          [first [apply bwRead_same_resource | apply setPos_same_resource
                 | apply readChildren_same_resource]
          |intros ?]).
  apply ret_same_resource.
Qed.

Lemma holds_same_resource content u u' :
  holds content u -> same_resource u u' -> holds content u'.
Proof.
  intros [Hl Hd] (Ht & Hf & _). split.
  - unfold is_local in *. rewrite <- Ht. exact Hl.
  - rewrite <- Hf. exact Hd.
Qed.

Lemma bwGetRTreeNode_local content ro off u :
  holds content u -> lenZ content < 2 ^ 63 ->
  0 <= off < 2 ^ 64 -> 0 <= ro < 2 ^ 64 ->
  fst (bwGetRTreeNode (Some ro) off u)
  = outcome_of_nil (parseNode content (if off =? 0 then ro else off))
  /\ holds content (snd (bwGetRTreeNode (Some ro) off u)).
Proof.
  intros Hh Hlen Hoff Hro. split.
  - unfold bwGetRTreeNode.
    destruct (off =? 0); apply bwGetRTreeNode_at; assumption.
  - eapply holds_same_resource; [exact Hh|].
    apply bwGetRTreeNode_same_resource.
Qed.
(** ** The lazy walk on a local file *)

Lemma byteZ_range b : 0 <= byteZ b < 256.
Proof. unfold byteZ. pose proof (Byte.to_N_bounded b). lia. Qed.

Lemma le_uint32_range b : 0 <= le_uint32 b < 2 ^ 32.
Proof.
  unfold le_uint32.
  destruct b as [|b0 [|b1 [|b2 [|b3 ?]]]]; try lia.
  pose proof (byteZ_range b0). pose proof (byteZ_range b1).
  pose proof (byteZ_range b2). pose proof (byteZ_range b3). lia.
Qed.

Lemma le_uint64_range b : 0 <= le_uint64 b < 2 ^ 64.
Proof.
  unfold le_uint64.
  pose proof (le_uint32_range b). pose proof (le_uint32_range (drop 4 b)). lia.
Qed.

Lemma parseChildren_range leaf n :
  forall b, Forall (fun c => 0 <= dataOffset c < 2 ^ 64) (parseChildren leaf n b).
Proof.
  induction n as [|n IH]; intros b; cbn [parseChildren]; constructor.
  - cbn. apply le_uint64_range.
  - apply IH.
Qed.

Lemma parseNode_range content q m :
  parseNode content q = Some m ->
  Forall (fun c => 0 <= dataOffset c < 2 ^ 64) (n_Children m).
Proof.
  unfold parseNode. intros H.
  destruct (_ <? 4); [discriminate|].
  destruct (_ <? _); [discriminate|].
  injection H as <-. cbn. apply parseChildren_range.
Qed.

Lemma agrees_unloaded_node content ro m : agrees content ro (unloaded m) m.
Proof.
  unfold unloaded. constructor; [reflexivity|].
  induction (n_Children m); cbn; constructor; assumption.
Qed.

Lemma agrees_list_fst content ro cs l :
  agrees_list content ro cs l -> map fst cs = l.
Proof. induction 1; cbn; congruence. Qed.

Section LazyWalk.
Variables (content : list byte) (ro tid start end_ : Z).
Hypothesis Hlen : lenZ content < 2 ^ 63.
Hypothesis Hro : 0 <= ro < 2 ^ 64.

Lemma decodeTree_leaf f m :
  (n_IsLeaf m =? 0) = false ->
  decodeTree f content ro m = Some (RLeaf (n_Children m)).
Proof. intros E. destruct f; cbn [decodeTree]; rewrite E; reflexivity. Qed.

Lemma branchLoop_io_local f walk :
  walk_refines content ro tid start end_ f walk ->
  forall cs l out u,
    agrees_list content ro cs l -> holds content u ->
    Forall (fun c => 0 <= dataOffset c < 2 ^ 64) l ->
    holds content (snd (branchLoop_io walk ro tid start end_ cs out u))
    /\ agrees_list content ro
         (snd (fst (branchLoop_io walk ro tid start end_ cs out u))) l
    /\ forall o,
         fst (fst (branchLoop_io walk ro tid start end_ cs out u)) = Ok o
         <-> branchLoop (fun ch => walkRTreeNodes ch tid start end_)
               tid start end_ (map (fun c => (c, childTree content ro f c)) l) out
             = Some o.
Proof.
  intros Hwalk cs. induction cs as [|[c child] cs IH]; intros l out u Hag Hh Hr.
  - inversion Hag; subst. cbn. split_and!; [exact Hh|constructor|].
    intros o. destruct out; cbn; split; congruence.
  - assert (Hl : exists l', l = c :: l' /\ agrees_list content ro cs l').
    { inversion Hag; subst; eauto. }
    destruct Hl as (l' & -> & Hag').
    apply Forall_cons in Hr as [Hc Hr'].
    cbn [branchLoop_io map branchLoop].
    destruct (nonLeafChild tid start end_ c) eqn:Ev.
    + (* the child is taken *)
      assert (Hcont : forall ch m u1,
        holds content u1 ->
        parseNode content (childPos ro c) = Some m ->
        agrees content ro ch m ->
        let r :=
          (let '((nodeBlocks, ch'), u2) :=
             if negb (cn_isLeaf ch =? 0) then
               ((outcome_of_nil
                   (overlapsLeaf (Some (RLeaf (map fst (cn_children ch))))
                      tid start end_), ch), u1)
             else walk ch u1 in
           match nodeBlocks with
           | Ok nb =>
               match mergeOverlapBlocks out (Some nb) with
               | None => ((Nil, (c, Some ch') :: cs), u2)
               | Some o =>
                   let '((r, cs''), u3) :=
                     branchLoop_io walk ro tid start end_ cs (Some o) u2 in
                   ((r, (c, Some ch') :: cs''), u3)
               end
           | Nil => ((Nil, (c, Some ch') :: cs), u2)
           | Panic => ((Panic, (c, Some ch') :: cs), u2)
           end) in
        holds content (snd r)
        /\ agrees_list content ro (snd (fst r)) (c :: l')
        /\ forall o, fst (fst r) = Ok o
             <-> match childTree content ro f c with
                 | None => None
                 | Some t =>
                     match walkRTreeNodes t tid start end_ with
                     | None => None
                     | Some nodeBlocks =>
                         match mergeOverlapBlocks out (Some nodeBlocks) with
                         | None => None
                         | Some o =>
                             branchLoop
                               (fun ch => walkRTreeNodes ch tid start end_)
                               tid start end_
                               (map (fun c => (c, childTree content ro f c)) l') (Some o)
                         end
                     end
                 end = Some o).
      { intros ch m u1 Hh1 Hp Ha.
        unfold childTree at 1. rewrite Hp.
        inversion Ha as [lf cs0 m0 Elf Hcs0]; subst ch m0.
        cbn [cn_isLeaf cn_children]. rewrite Elf.
        destruct (n_IsLeaf m =? 0) eqn:Eleaf; cbn [negb].
        - (* a branch below *)
          apply Z.eqb_eq in Eleaf.
          destruct (Hwalk (CNode lf cs0) m u1 Ha Hh1
                      (parseNode_range _ _ _ Hp) Eleaf) as (Hh2 & Ha2 & Hiff).
          rewrite Elf in *.
          destruct (walk (CNode (n_IsLeaf m) cs0) u1) as [[nb ch'] u2].
          cbn [fst snd] in Hh2, Ha2, Hiff. unfold decodedWalk in Hiff.
          destruct nb as [nb| |].
          + pose proof (proj1 (Hiff nb) eq_refl) as Hw.
            destruct (decodeTree f content ro m) as [t|]; [|discriminate].
            rewrite Hw.
            destruct (mergeOverlapBlocks out (Some nb)) as [o'|].
            * destruct (IH l' (Some o') u2 Hag' Hh2 Hr') as (Hh3 & Ha3 & Hiff3).
              destruct (branchLoop_io walk ro tid start end_ cs (Some o') u2)
                as [[r cs''] u3].
              cbn [fst snd] in *. split_and!; [exact Hh3| |exact Hiff3].
              econstructor; eassumption.
            * cbn [fst snd]. split_and!; [exact Hh2| |].
              -- econstructor; eassumption.
              -- intros o. split; discriminate.
          + cbn [fst snd]. split_and!; [exact Hh2| |].
            * econstructor; eassumption.
            * intros o. split; [discriminate|].
              destruct (decodeTree f content ro m) as [t|]; [|discriminate].
              destruct (walkRTreeNodes t tid start end_) as [w|] eqn:Ew;
                [|discriminate].
              pose proof (proj2 (Hiff w) eq_refl). discriminate.
          + cbn [fst snd]. split_and!; [exact Hh2| |].
            * econstructor; eassumption.
            * intros o. split; [discriminate|].
              destruct (decodeTree f content ro m) as [t|]; [|discriminate].
              destruct (walkRTreeNodes t tid start end_) as [w|] eqn:Ew;
                [|discriminate].
              pose proof (proj2 (Hiff w) eq_refl). discriminate.
        - (* a leaf below *)
          rewrite (decodeTree_leaf f m Eleaf).
          rewrite (agrees_list_fst _ _ _ _ Hcs0).
          cbn [walkRTreeNodes].
          destruct (overlapsLeaf (Some (RLeaf (n_Children m))) tid start end_)
            as [nb|]; cbn [outcome_of_nil].
          + destruct (mergeOverlapBlocks out (Some nb)) as [o'|].
            * destruct (IH l' (Some o') u1 Hag' Hh1 Hr') as (Hh3 & Ha3 & Hiff3).
              destruct (branchLoop_io walk ro tid start end_ cs (Some o') u1)
                as [[r cs''] u3].
              cbn [fst snd] in *. split_and!; [exact Hh3| |exact Hiff3].
              econstructor; try eassumption. rewrite <- Elf. exact Ha.
            * cbn [fst snd]. split_and!; [exact Hh1| |].
              -- econstructor; try eassumption. rewrite <- Elf. exact Ha.
              -- intros o. split; discriminate.
          + cbn [fst snd]. split_and!; [exact Hh1| |].
            * econstructor; try eassumption. rewrite <- Elf. exact Ha.
            * intros o. split; discriminate. }
      inversion Hag as [|c0 cs0 l0 Hag0|c0 ch m cs0 l0 Hp Ha Hag0]; subst.
      * (* not loaded yet *)
        destruct (bwGetRTreeNode_local content ro (dataOffset c) u
                    Hh Hlen Hc Hro) as [Hres Hh1].
        fold (childPos ro c) in Hres.
        destruct (bwGetRTreeNode (Some ro) (dataOffset c) u) as [[n| |] u1];
          cbn [fst snd] in Hres, Hh1.
        -- destruct (parseNode content (childPos ro c)) as [m|] eqn:Hp;
             [|discriminate].
           injection Hres as ->.
           exact (Hcont (unloaded m) m u1 Hh1 eq_refl (agrees_unloaded_node _ _ _)).
        -- cbn [fst snd]. split_and!; [exact Hh1|exact Hag|].
           intros o. split; [discriminate|].
           unfold childTree at 1.
           destruct (parseNode content (childPos ro c)); discriminate.
        -- destruct (parseNode content (childPos ro c)); discriminate.
      * (* loaded by an earlier walk *)
        exact (Hcont ch m u Hh Hp Ha).
    + (* the child is skipped *)
      destruct (IH l' out u Hag' Hh Hr') as (Hh3 & Ha3 & Hiff3).
      destruct (branchLoop_io walk ro tid start end_ cs out u) as [[r cs''] u3].
      cbn [fst snd] in *. split_and!; [exact Hh3| |exact Hiff3].
      inversion Hag; subst; econstructor; eassumption.
    + destruct (IH l' out u Hag' Hh Hr') as (Hh3 & Ha3 & Hiff3).
      destruct (branchLoop_io walk ro tid start end_ cs out u) as [[r cs''] u3].
      cbn [fst snd] in *. split_and!; [exact Hh3| |exact Hiff3].
      inversion Hag; subst; econstructor; eassumption.
Qed.

Lemma overlapsNonLeaf_io_local :
  forall f, walk_refines content ro tid start end_ f (overlapsNonLeaf_io f ro tid start end_).
Proof.
  induction f as [|f IH]; intros cn m u Ha Hh Hr Eleaf.
  - cbn. split_and!; [exact Hh|exact Ha|].
    intros o. unfold decodedWalk. cbn [decodeTree]. rewrite Eleaf. cbn.
    split; discriminate.
  - inversion Ha as [lf cs m0 Elf Hcs]; subst cn m0.
    cbn [overlapsNonLeaf_io cn_children cn_isLeaf].
    destruct (branchLoop_io_local f _ IH cs (n_Children m)
                (Some emptyOverlapBlock) u Hcs Hh Hr) as (Hh1 & Ha1 & Hiff).
    destruct (branchLoop_io _ ro tid start end_ cs (Some emptyOverlapBlock) u)
      as [[r cs'] u'].
    cbn [fst snd] in *. split_and!; [exact Hh1|constructor; assumption|].
    intros o. rewrite Hiff. unfold decodedWalk. cbn [decodeTree].
    rewrite Eleaf. cbn [Z.eqb negb walkRTreeNodes].
    rewrite overlapsNonLeaf_branchLoop. reflexivity.
Qed.

Lemma walkRTreeNodes_io_local f cn m u :
  agrees content ro cn m -> holds content u ->
  Forall (fun c => 0 <= dataOffset c < 2 ^ 64) (n_Children m) ->
  holds content (snd (walkRTreeNodes_io f ro tid start end_ cn u))
  /\ agrees content ro (snd (fst (walkRTreeNodes_io f ro tid start end_ cn u))) m
  /\ forall o, fst (fst (walkRTreeNodes_io f ro tid start end_ cn u)) = Ok o
               <-> decodedWalk f content ro tid start end_ m = Some o.
Proof.
  intros Ha Hh Hr. unfold walkRTreeNodes_io.
  inversion Ha as [lf cs m0 Elf Hcs]. subst cn m0. cbn [cn_isLeaf cn_children].
  rewrite Elf. destruct (n_IsLeaf m =? 0) eqn:Eleaf; cbn [negb].
  - rewrite <- Elf. apply overlapsNonLeaf_io_local; try assumption.
    apply Z.eqb_eq. exact Eleaf.
  - cbn [fst snd]. split_and!; [exact Hh|rewrite <- Elf; exact Ha|].
    intros o. unfold decodedWalk. rewrite (decodeTree_leaf f m Eleaf).
    cbn [walkRTreeNodes]. rewrite (agrees_list_fst _ _ _ _ Hcs).
    destruct (overlapsLeaf _ tid start end_); cbn; split; congruence.
Qed.
End LazyWalk.
(** ** The index header on a local file *)

Lemma readRTreeIdx_same_resource io off u :
  same_resource u (snd (readRTreeIdx io off u)).
Proof.
  unfold readRTreeIdx. revert u.
  apply bind_same_resource; [apply setPos_same_resource|intros _].
  apply bind_same_resource; [apply bwRead_same_resource|intros magic].
  destruct (negb _); [intros u; apply same_resource_refl|].
  repeat (apply bind_same_resource;
          [first [apply bwRead_same_resource | apply tell_same_resource]
          |intros ?]).
  apply ret_same_resource.
Qed.

Lemma readRTreeIdx_at content io off u :
  holds content u -> lenZ content < 2 ^ 63 ->
  0 <= (if off =? 0 then io else off) < 2 ^ 64 ->
  fst (readRTreeIdx io off u)
  = outcome_of_nil
      (parseIdx content (if off =? 0 then io else off)
         ((if off =? 0 then io else off) + 48)).
Proof.
  intros Hh Hlen Hq. unfold readRTreeIdx, parseIdx.
  set (q := if off =? 0 then io else off) in *.
  rewrite (lenZ_drop_Z content q) by lia.
  destruct (Z.lt_ge_cases q (2 ^ 63)) as [Hq63|Hq63].
  - destruct (setPos_local content q u Hh ltac:(lia)) as (u0 & Hs & Hat).
    unfold bind at 1. rewrite Hs. cbv beta iota.
    destruct (Z.ltb_spec (Z.max 0 (lenZ content - q)) 4) as [Hshort|Hhdr].
    + read_step bwRead_local Hat; [exfalso; lia|reflexivity].
    + read_step bwRead_local Hat; [|exfalso; lia].
      assert (E1 : le_uint32 (bytesAt content q 4)
                   = le_uint32 (drop (Z.to_nat q) content))
        by (unfold bytesAt; apply le_uint32_take; cbn; lia).
      rewrite E1. clear E1.
      destruct (negb (le_uint32 (drop (Z.to_nat q) content) =? IDX_MAGIC));
        [reflexivity|].
      destruct (Z.ltb_spec (Z.max 0 (lenZ content - q)) 48) as [Hshort|Hall].
      * repeat (read_step bwRead_local Hat; [|reflexivity]). exfalso. lia.
      * repeat (read_step bwRead_local Hat; [|exfalso; lia]).
        destruct (tell_local content _ _ Hat ltac:(lia)) as (u' & Ht & _).
        unfold bind, ret. rewrite Ht. cbn [fst outcome_of_nil].
        do 2 f_equal; try lia;
          rewrite <- ?Z.add_assoc; cbn [Z.add Pos.add Pos.succ];
          rewrite bytesAt_shift by lia;
          first [apply le_uint32_take | apply le_uint64_take]; cbn; lia.
  - replace (Z.max 0 (lenZ content - q) <? 4) with true
      by (symmetry; apply Z.ltb_lt; lia).
    unfold bind at 1.
    pose proof (setPos_local_far q u (proj1 Hh) ltac:(lia)) as Hs.
    destruct (setPos q u) as [[?| |] ?]; cbn [fst] in Hs; try discriminate Hs.
    reflexivity.
Qed.
Lemma parseIdx_Some content q r idx :
  0 <= q -> parseIdx content q r = Some idx ->
  q + 48 <= lenZ content /\ rt_RootOffset idx = r.
Proof.
  intros Hq. unfold parseIdx. rewrite (lenZ_drop_Z content q) by lia.
  destruct (_ <? 4); [discriminate|].
  destruct (negb _); [discriminate|].
  destruct (Z.ltb_spec (Z.max 0 (lenZ content - q)) 48); [discriminate|].
  intros E. injection E as <-. cbn. split; [lia|reflexivity].
Qed.

Lemma bwGetRTreeNode_nonzero content ro off u :
  holds content u -> lenZ content < 2 ^ 63 -> 0 < off < 2 ^ 64 ->
  fst (bwGetRTreeNode ro off u) = outcome_of_nil (parseNode content off).
Proof.
  intros Hh Hlen Hoff. unfold bwGetRTreeNode.
  replace (off =? 0) with false by (symmetry; apply Z.eqb_neq; lia).
  apply bwGetRTreeNode_at; [assumption|lia|assumption].
Qed.

Lemma bwReadIndex_local content io off u :
  holds content u -> lenZ content < 2 ^ 63 ->
  0 <= (if off =? 0 then io else off) < 2 ^ 64 ->
  fst (bwReadIndex io off u)
  = outcome_of_nil (parseIndex content (if off =? 0 then io else off))
  /\ holds content (snd (bwReadIndex io off u)).
Proof.
  intros Hh Hlen Hq.
  pose proof (readRTreeIdx_at content io off u Hh Hlen Hq) as Hidx.
  pose proof (holds_same_resource _ _ _ Hh (readRTreeIdx_same_resource io off u))
    as Hh1.
  unfold bwReadIndex, parseIndex. unfold bind at 1 3.
  set (q := if off =? 0 then io else off) in *.
  destruct (readRTreeIdx io off u) as [[idx| |] u1]; cbn [fst snd] in Hidx, Hh1.
  - destruct (parseIdx content q (q + 48)) as [idx'|] eqn:Hp; [|discriminate].
    injection Hidx as ->.
    destruct (parseIdx_Some content q (q + 48) _ ltac:(lia) Hp) as [Hfit Hroot].
    rewrite Hroot.
    pose proof (bwGetRTreeNode_nonzero content None (q + 48) u1 Hh1 Hlen
                  ltac:(lia)) as Hn.
    pose proof (holds_same_resource _ _ _ Hh1
                  (bwGetRTreeNode_same_resource None (q + 48) u1)) as Hh2.
    unfold bind, ret.
    destruct (bwGetRTreeNode None (q + 48) u1) as [[root| |] u2];
      cbn [fst snd] in *;
      destruct (parseNode content (q + 48)); try discriminate Hn;
      split; try assumption; try reflexivity.
    injection Hn as ->. reflexivity.
  - destruct (parseIdx content q (q + 48)); [discriminate|].
    split; [reflexivity|assumption].
  - destruct (parseIdx content q (q + 48)); discriminate.
Qed.

(** ** The index header on a remote resource *)

Lemma tell_remote fetched content pos u :
  remote_win fetched content pos u ->
  fst (tell u) = Ok (u64 fetched).
Proof.
  intros [[[Hloc _] _] HF]. unfold tell, bwTell, URL_Seek. rewrite Hloc.
  cbn. rewrite HF, Z.add_0_r. reflexivity.
Qed.

Lemma Buffer_Read_nonempty (B : list byte) n :
  0 < lenZ B ->
  Buffer_Read B n = ((take (Z.to_nat n) B, None), drop (Z.to_nat n) B).
Proof. destruct B; [unfold lenZ; cbn; lia|reflexivity]. Qed.

Lemma window_read (content : list byte) (W : nat) q n :
  0 <= q -> 0 < n <= Z.of_nat W -> q + n <= lenZ content ->
  let B := take W (drop (Z.to_nat q) content) in
  lenZ B = Z.min (Z.of_nat W) (lenZ content - q)
  /\ take (Z.to_nat n) B = bytesAt content q n
  /\ lenZ (bytesAt content q n) = n
  /\ drop (Z.to_nat n) B
     = take (length (drop (Z.to_nat n) B)) (drop (Z.to_nat (q + n)) content).
Proof.
  intros Hq Hn Hfit B.
  assert (HlenB : lenZ B = Z.min (Z.of_nat W) (lenZ content - q)).
  { unfold B, lenZ in *. rewrite length_take, length_drop. lia. }
  assert (Hgot : take (Z.to_nat n) B = bytesAt content q n).
  { unfold B, bytesAt. rewrite take_take. f_equal. lia. }
  split_and!; [exact HlenB|exact Hgot| |].
  - rewrite <- Hgot. unfold lenZ in *. rewrite length_take. lia.
  - unfold B. rewrite length_drop, length_take, length_drop.
    rewrite skipn_firstn_comm, drop_drop.
    replace (Z.to_nat q + Z.to_nat n)%nat with (Z.to_nat (q + n)) by lia.
    destruct (Nat.le_gt_cases W (length content - Z.to_nat q)).
    + f_equal. lia.
    + rewrite !take_ge; [reflexivity|rewrite length_drop; lia..].
Qed.

Lemma bwRead_remote_first content q n u :
  serves content u -> buf u = [] -> FilePos u = q -> 0 <= q ->
  0 < n <= 65536 -> q + n <= lenZ content ->
  exists u', bwRead n u = (Ok (bytesAt content q n), u')
             /\ remote_win (q + windowAt content q) content (q + n) u'.
Proof.
  intros [Hloc Hsrv] Hbuf HF Hq Hn Hfit.
  unfold bwRead, URL_Read. rewrite Hloc, Hbuf.
  unfold fillBuffer. rewrite Hsrv, HF. unfold range_server.
  replace (q <? 0) with false by (symmetry; apply Z.ltb_ge; lia).
  cbn [buf set_remote FilePos].
  assert (HWn : Z.of_nat (Z.to_nat 65536) = 65536)
    by (apply Z2Nat.id; discriminate).
  unfold windowAt.
  replace (Z.min 65536 (lenZ content - q))
    with (Z.min (Z.of_nat (Z.to_nat 65536)) (lenZ content - q))
    by (rewrite HWn; reflexivity).
  rewrite <- HWn in Hn.
  generalize dependent (Z.to_nat 65536). intros W Hn.
  destruct (window_read content W q n Hq Hn Hfit) as (HlenB & Hgot & Hl & Hd).
  rewrite Buffer_Read_nonempty by lia.
  rewrite Hgot, Hl, Z.eqb_refl.
  eexists. split; [reflexivity|].
  unfold remote_win, remote_at, serves, is_local.
  cbn [buf set_remote FilePos server Type_ rs].
  split_and!; try assumption; try lia.
  unfold lenZ in *. rewrite length_drop. lia.
Qed.

Lemma bwRead_remote_in fetched content pos n u :
  remote_win fetched content pos u -> 0 < n -> pos + n <= fetched ->
  exists u', bwRead n u = (Ok (bytesAt content pos n), u')
             /\ remote_win fetched content (pos + n) u'.
Proof.
  intros [([Hloc Hsrv] & Hpos & HF & HB) HF'] Hn Hfit.
  unfold bwRead, URL_Read. rewrite Hloc.
  assert (Hne : 0 < lenZ (buf u)) by lia.
  destruct (buf u) as [|b0 B'] eqn:EB; [unfold lenZ in Hne; cbn in Hne; lia|].
  rewrite <- EB in *. cbv beta iota.
  rewrite Buffer_Read_nonempty by lia.
  destruct (buffer_take content pos (buf u) (Z.to_nat n) Hpos HB) as [Hg Hd].
  assert (Hl : lenZ (take (Z.to_nat n) (buf u)) = n)
    by (unfold lenZ in *; rewrite length_take; lia).
  rewrite Hl in Hg, Hd. rewrite Hl, Z.eqb_refl, Hg.
  eexists. split; [reflexivity|].
  unfold remote_win, remote_at, serves, is_local.
  cbn [buf set_remote FilePos server Type_ rs].
  split_and!; try assumption; try lia.
  unfold lenZ in *. rewrite length_drop. lia.
Qed.

(** One [bwRead] served from the window already fetched. *)
Ltac remote_step Hat :=
  match goal with
  | |- context [bind (bwRead ?n) _ ?u] =>
      let u' := fresh "u" in
      let H' := fresh "Hrd" in
      let Hat' := fresh "Hat" in
      destruct (bwRead_remote_in _ _ _ n u Hat ltac:(lia) ltac:(lia))
        as (u' & H' & Hat');
      unfold bind at 1; rewrite H'; clear H' Hat; rename Hat' into Hat;
      cbv beta iota
  end.
Lemma setPos_remote content pos u :
  serves content u -> 0 <= pos < 2 ^ 63 ->
  setPos pos u = (Ok tt, set_remote u pos [])
  /\ serves content (set_remote u pos []).
Proof.
  intros [Hloc Hsrv] Hpos.
  unfold setPos, bwSetPos, URL_Seek, int64_of_u64. rewrite Hloc.
  replace (pos <? 2 ^ 63) with true by (symmetry; apply Z.ltb_lt; lia).
  cbn [Z.eqb SeekStart]. split; [reflexivity|].
  split; [exact Hloc|exact Hsrv].
Qed.

Lemma readRTreeIdx_remote content io off u :
  serves content u ->
  0 <= (if off =? 0 then io else off) < 2 ^ 63 ->
  (if off =? 0 then io else off) + 48 <= lenZ content ->
  fst (readRTreeIdx io off u)
  = outcome_of_nil
      (parseIdx content (if off =? 0 then io else off)
         ((if off =? 0 then io else off)
          + windowAt content (if off =? 0 then io else off))).
Proof.
  intros Hs Hq Hfit. unfold readRTreeIdx, parseIdx.
  set (q := if off =? 0 then io else off) in *.
  rewrite (lenZ_drop_Z content q) by lia.
  destruct (setPos_remote content q u Hs Hq) as [Hset Hs0].
  unfold bind at 1. rewrite Hset. cbv beta iota.
  destruct (bwRead_remote_first content q 4 (set_remote u q []) Hs0
              eq_refl eq_refl ltac:(lia) ltac:(lia) ltac:(lia))
    as (u1 & Hr & Hat).
  unfold bind at 1. rewrite Hr. cbv beta iota.
  assert (HW : 48 <= windowAt content q) by (unfold windowAt; lia).
  assert (HW' : windowAt content q <= 65536) by (unfold windowAt; lia).
  replace (Z.max 0 (lenZ content - q) <? 4) with false
    by (symmetry; apply Z.ltb_ge; lia).
  replace (Z.max 0 (lenZ content - q) <? 48) with false
    by (symmetry; apply Z.ltb_ge; lia).
  assert (E1 : le_uint32 (bytesAt content q 4)
               = le_uint32 (drop (Z.to_nat q) content))
    by (unfold bytesAt; apply le_uint32_take; cbn; lia).
  rewrite E1. clear E1.
  destruct (negb (le_uint32 (drop (Z.to_nat q) content) =? IDX_MAGIC));
    [reflexivity|].
  repeat remote_step Hat.
  pose proof (tell_remote _ _ _ _ Hat) as Ht.
  unfold bind, ret.
  match goal with
  | |- context [tell ?v] =>
      destruct (tell v) as [[p| |] u']; cbn [fst] in Ht; try discriminate Ht
  end.
  injection Ht as ->. cbn [fst outcome_of_nil].
  unfold u64. rewrite Z.mod_small by lia.
  do 2 f_equal; try lia;
    rewrite <- ?Z.add_assoc; cbn [Z.add Pos.add Pos.succ];
    rewrite bytesAt_shift by lia;
    first [apply le_uint32_take | apply le_uint64_take]; cbn; lia.
Qed.
(** ** The index as it is loaded *)

(** X15. On a local file [bwGetRTreeNode(fp, offset)] returns the node
    written at [offset], or at [fp.Idx.RootOffset] when [offset] is 0: a
    leaf flag, a padding byte and a 16-bit child count, then one slot per
    child, of 32 bytes in a leaf and of 24 bytes, without a size, in a
    branch.  It returns an error exactly when the file ends before the
    node does, and it leaves the contents of the file alone. *)
Theorem bwGetRTreeNode_reads_stored_node :
  forall content rootOffset offset u,
    holds content u -> lenZ content < 2 ^ 63 ->
    0 <= offset < 2 ^ 64 -> 0 <= rootOffset < 2 ^ 64 ->
    fst (bwGetRTreeNode (Some rootOffset) offset u)
    = outcome_of_nil
        (parseNode content (if offset =? 0 then rootOffset else offset))
    /\ holds content (snd (bwGetRTreeNode (Some rootOffset) offset u)).
Proof.
  intros content rootOffset offset u Hh Hlen Hoff Hro.
  apply bwGetRTreeNode_local; assumption.
Qed.

Lemma bwGetRTreeNode_reads_stored_node_witness :
  fst (bwGetRTreeNode (Some 48) 100 IndexSample.local)
  = Ok {| n_IsLeaf := 1; n_NChildren := 2; n_Children := IndexSample.leafA |}
  /\ fst (bwGetRTreeNode (Some 48) 0 IndexSample.local) = Ok IndexSample.root
  /\ fst (bwGetRTreeNode (Some 48) 202 IndexSample.local) = Nil.
Proof.
  assert (Hh : holds IndexSample.content IndexSample.local)
    by (split; reflexivity).
  assert (Hlen : lenZ IndexSample.content < 2 ^ 63) by reflexivity.
  split_and!.
  - rewrite (proj1 (bwGetRTreeNode_reads_stored_node IndexSample.content 48 100
                      IndexSample.local Hh Hlen ltac:(lia) ltac:(lia))).
    vm_compute. reflexivity.
  - rewrite (proj1 (bwGetRTreeNode_reads_stored_node IndexSample.content 48 0
                      IndexSample.local Hh Hlen ltac:(lia) ltac:(lia))).
    vm_compute. reflexivity.
  - rewrite (proj1 (bwGetRTreeNode_reads_stored_node IndexSample.content 48 202
                      IndexSample.local Hh Hlen ltac:(lia) ltac:(lia))).
    vm_compute. reflexivity.
Defined.

(** X16. On a local file the walk with its lazy loads returns what the
    walk over the decoded tree returns, whatever part of the tree earlier
    walks have loaded already: a child that is still nil is read from the
    place its slot points to, a child that is loaded is used as it is,
    and either way the result is the one of [walkRTreeNodes] on the tree
    the bytes spell.  The walk leaves the contents of the file alone, and
    the node it leaves behind still agrees with the file, so the next
    walk is in the same position. *)
Theorem walkRTreeNodes_lazy_loads_follow_the_file :
  forall content rootOffset tid start end_ fuel node root u,
    lenZ content < 2 ^ 63 -> 0 <= rootOffset < 2 ^ 64 ->
    holds content u ->
    parseNode content rootOffset = Some root ->
    agrees content rootOffset node root ->
    holds content
      (snd (walkRTreeNodes_io fuel rootOffset tid start end_ node u))
    /\ agrees content rootOffset
         (snd (fst (walkRTreeNodes_io fuel rootOffset tid start end_ node u)))
         root
    /\ forall o,
         fst (fst (walkRTreeNodes_io fuel rootOffset tid start end_ node u))
         = Ok o
         <-> decodedWalk fuel content rootOffset tid start end_ root = Some o.
Proof.
  intros content rootOffset tid start end_ fuel node root u
    Hlen Hro Hh Hroot Hag.
  apply walkRTreeNodes_io_local; try assumption.
  exact (parseNode_range _ _ _ Hroot).
Qed.

Lemma walkRTreeNodes_lazy_loads_follow_the_file_witness :
  fst (fst (walkRTreeNodes_io 2 48 0 150 1025 (unloaded IndexSample.root)
              IndexSample.local))
  = Ok {| ob_N := 2; ob_Offset := [4096; 4156]; ob_Size := [60; 40] |}
  <-> decodedWalk 2 IndexSample.content 48 0 150 1025 IndexSample.root
      = Some {| ob_N := 2; ob_Offset := [4096; 4156]; ob_Size := [60; 40] |}.
Proof.
  apply (walkRTreeNodes_lazy_loads_follow_the_file IndexSample.content 48
           0 150 1025 2 (unloaded IndexSample.root) IndexSample.root
           IndexSample.local).
  - reflexivity.
  - lia.
  - split; reflexivity.
  - vm_compute. reflexivity.
  - vm_compute. repeat constructor.
Defined.

(** X17. On a local file [readRTreeIdx(fp, offset)] reads the index
    header written at [offset], or at [fp.Hdr.indexoffset] when [offset]
    is 0: the magic number 0x2468ACE0, then the block size, the item
    count, the four bounds, the index size, the items per slot and four
    bytes of padding, 48 bytes in all.  [RootOffset] is the position
    behind them.  It returns an error exactly when the magic number is
    another one or the file ends before the header does. *)
Theorem readRTreeIdx_reads_stored_header :
  forall content indexoffset offset u,
    holds content u -> lenZ content < 2 ^ 63 ->
    0 <= (if offset =? 0 then indexoffset else offset) < 2 ^ 64 ->
    fst (readRTreeIdx indexoffset offset u)
    = outcome_of_nil
        (parseIdx content (if offset =? 0 then indexoffset else offset)
           ((if offset =? 0 then indexoffset else offset) + 48)).
Proof.
  intros content indexoffset offset u Hh Hlen Hq.
  apply readRTreeIdx_at; assumption.
Qed.

Lemma readRTreeIdx_reads_stored_header_witness :
  fst (readRTreeIdx 0 0 IndexSample.local)
  = Ok {| rt_BlockSize := 256; rt_NItems := 3; rt_ChrIdxStart := 0;
          rt_BaseStart := 100; rt_ChrIdxEnd := 1; rt_BaseEnd := 150;
          rt_IdxSize := 204; rt_NItemsPerSlot := 512; rt_RootOffset := 48 |}
  /\ fst (readRTreeIdx 0 48 IndexSample.local) = Nil.
Proof.
  assert (Hh : holds IndexSample.content IndexSample.local)
    by (split; reflexivity).
  assert (Hlen : lenZ IndexSample.content < 2 ^ 63) by reflexivity.
  split.
  - rewrite (readRTreeIdx_reads_stored_header IndexSample.content 0 0
               IndexSample.local Hh Hlen ltac:(cbn; lia)).
    vm_compute. reflexivity.
  - rewrite (readRTreeIdx_reads_stored_header IndexSample.content 0 48
               IndexSample.local Hh Hlen ltac:(cbn; lia)).
    vm_compute. reflexivity.
Defined.

(** X18. On a local file [bwReadIndex(fp, offset)] returns the index
    written at [offset] (at [fp.Hdr.indexoffset] when [offset] is 0): the
    48-byte header with the root node that follows it.  It fails when
    either of them is cut short or the magic number is wrong, and although
    [OpenBigWig] calls it while [fp.Idx] is still nil it never reads
    [fp.Idx]: the root offset it passes on is never 0. *)
Theorem bwReadIndex_reads_header_and_root :
  forall content indexoffset offset u,
    holds content u -> lenZ content < 2 ^ 63 ->
    0 <= (if offset =? 0 then indexoffset else offset) < 2 ^ 64 ->
    fst (bwReadIndex indexoffset offset u)
    = outcome_of_nil
        (parseIndex content (if offset =? 0 then indexoffset else offset))
    /\ holds content (snd (bwReadIndex indexoffset offset u)).
Proof.
  intros content indexoffset offset u Hh Hlen Hq.
  apply bwReadIndex_local; assumption.
Qed.

Lemma bwReadIndex_reads_header_and_root_witness :
  exists idx,
    fst (bwReadIndex 0 0 IndexSample.local) = Ok (idx, IndexSample.root)
    /\ rt_RootOffset idx = 48.
Proof.
  assert (Hh : holds IndexSample.content IndexSample.local)
    by (split; reflexivity).
  assert (Hlen : lenZ IndexSample.content < 2 ^ 63) by reflexivity.
  rewrite (proj1 (bwReadIndex_reads_header_and_root IndexSample.content 0 0
                    IndexSample.local Hh Hlen ltac:(cbn; lia))).
  vm_compute. eexists. split; reflexivity.
Defined.

(** X19. On a remote resource [readRTreeIdx] decodes the fields of the
    header as on a local file, but [RootOffset] is not the position
    behind the header: [bwTell] answers with [FilePos], which is the end
    of the window of up to 65536 bytes that the first read fetched.  The
    root offset is then [offset] plus the size of that window. *)
Theorem readRTreeIdx_remote_root_offset :
  forall content indexoffset offset u,
    serves content u ->
    0 <= (if offset =? 0 then indexoffset else offset) < 2 ^ 63 ->
    (if offset =? 0 then indexoffset else offset) + 48 <= lenZ content ->
    fst (readRTreeIdx indexoffset offset u)
    = outcome_of_nil
        (parseIdx content (if offset =? 0 then indexoffset else offset)
           ((if offset =? 0 then indexoffset else offset)
            + Z.min 65536
                (lenZ content
                 - (if offset =? 0 then indexoffset else offset)))).
Proof.
  intros content indexoffset offset u Hs Hq Hfit.
  apply readRTreeIdx_remote; assumption.
Qed.

Lemma readRTreeIdx_remote_root_offset_witness :
  fst (readRTreeIdx 0 0 IndexSample.remote)
  = Ok {| rt_BlockSize := 256; rt_NItems := 3; rt_ChrIdxStart := 0;
          rt_BaseStart := 100; rt_ChrIdxEnd := 1; rt_BaseEnd := 150;
          rt_IdxSize := 204; rt_NItemsPerSlot := 512; rt_RootOffset := 204 |}.
Proof.
  rewrite (readRTreeIdx_remote_root_offset IndexSample.content 0 0
             IndexSample.remote).
  - vm_compute. reflexivity.
  - split; reflexivity.
  - cbn. lia.
  - vm_compute. discriminate.
Defined.
(** ** The file header on a local file *)

Lemma URL_Read_local content p n u :
  local_at content p u -> 0 < n ->
  if lenZ content <=? p
  then exists u', URL_Read u n = (([], Some EOF), u') /\ local_at content p u'
  else exists u', URL_Read u n = ((bytesAt content p n, None), u')
                  /\ local_at content (p + lenZ (bytesAt content p n)) u'
                  /\ 0 < lenZ (bytesAt content p n).
Proof.
  intros ([Hloc Hdata] & Hpos & Hp) Hn.
  unfold URL_Read. rewrite Hloc. unfold File_Read.
  replace (n <=? 0) with false by (symmetry; apply Z.leb_gt; lia).
  rewrite Hdata, Hpos.
  destruct (Z.leb_spec (lenZ content) p) as [Hend|Hin].
  - eexists. split; [reflexivity|].
    split; [split; [unfold is_local in *; cbn; exact Hloc|exact Hdata]|].
    cbn. split; [exact Hpos|lia].
  - fold (bytesAt content p n). eexists. split; [reflexivity|].
    assert (Hl : 0 < lenZ (bytesAt content p n)).
    { unfold bytesAt, lenZ in *. rewrite length_take, length_drop. lia. }
    split; [|exact Hl].
    split; [split; [unfold is_local in *; cbn; exact Hloc|reflexivity]|].
    cbn. split; [reflexivity|lia].
Qed.

Lemma binaryRead_local content p n u :
  local_at content p u -> 0 < n ->
  if p + n <=? lenZ content
  then exists u', binaryRead n u = (Ok (bytesAt content p n), u')
                  /\ local_at content (p + n) u'
  else fst (binaryRead n u) = Nil.
Proof.
  intros Hat Hn. unfold binaryRead.
  assert (Hp : 0 <= p) by (destruct Hat as (_ & _ & Hp); exact Hp).
  destruct (Z.to_nat n) as [|k] eqn:Ek; [lia|].
  cbn [ReadFull_loop].
  replace (n <=? lenZ (@nil byte)) with false
    by (symmetry; apply Z.leb_gt; unfold lenZ; cbn; lia).
  replace (n - lenZ (@nil byte)) with n by (unfold lenZ; cbn; lia).
  pose proof (URL_Read_local content p n u Hat Hn) as Hr.
  destruct (Z.leb_spec (lenZ content) p) as [Hend|Hin].
  - destruct Hr as (u1 & Hr & _). rewrite Hr. cbn [app].
    replace (n <=? lenZ (@nil byte)) with false
      by (symmetry; apply Z.leb_gt; unfold lenZ; cbn; lia).
    replace (p + n <=? lenZ content) with false
      by (symmetry; apply Z.leb_gt; lia).
    reflexivity.
  - destruct Hr as (u1 & Hr & Hat1 & Hgot). rewrite Hr. cbn [app].
    assert (Hl : lenZ (bytesAt content p n) = Z.min n (lenZ content - p)).
    { unfold bytesAt, lenZ in *. rewrite length_take, length_drop. lia. }
    destruct (Z.leb_spec (p + n) (lenZ content)) as [Hfit|Hshort].
    + destruct k as [|k]; cbn [ReadFull_loop];
        (replace (n <=? lenZ (bytesAt content p n)) with true
           by (symmetry; apply Z.leb_le; lia));
        eexists; (split; [reflexivity|]);
        replace (p + n) with (p + lenZ (bytesAt content p n)) by lia;
        exact Hat1.
    + destruct k as [|k]; [lia|]. cbn [ReadFull_loop].
      replace (n <=? lenZ (bytesAt content p n)) with false
        by (symmetry; apply Z.leb_gt; lia).
      pose proof (URL_Read_local content _ (n - lenZ (bytesAt content p n))
                    u1 Hat1 ltac:(lia)) as Hr2.
      replace (lenZ content <=? p + lenZ (bytesAt content p n)) with true in Hr2
        by (symmetry; apply Z.leb_le; lia).
      destruct Hr2 as (u2 & Hr2 & _). rewrite Hr2. rewrite app_nil_r.
      replace (n <=? lenZ (bytesAt content p n)) with false
        by (symmetry; apply Z.leb_gt; lia).
      reflexivity.
Qed.

Lemma binaryRead_same_resource n u : same_resource u (snd (binaryRead n u)).
Proof.
  unfold binaryRead. generalize (@nil byte). revert u.
  induction (Z.to_nat n) as [|k IH]; intros u acc; cbn [ReadFull_loop].
  - destruct (n <=? lenZ acc); apply same_resource_refl.
  - destruct (n <=? lenZ acc); [apply same_resource_refl|].
    pose proof (URL_Read_same_resource u (n - lenZ acc)) as H1.
    destruct (URL_Read u (n - lenZ acc)) as [[got [e|]] u1]; cbn [snd] in *.
    + destruct (n <=? lenZ (acc ++ got)); exact H1.
    + exact (same_resource_trans _ _ _ H1 (IH u1 (acc ++ got))).
Qed.
Lemma byteZ_inj a b : byteZ a = byteZ b -> a = b.
Proof.
  unfold byteZ. intros H. apply N2Z.inj in H.
  pose proof (Byte.of_to_N a) as Ha. pose proof (Byte.of_to_N b) as Hb.
  rewrite H in Ha. congruence.
Qed.

Lemma le_uint32_magic (l : list byte) :
  length l = 4%nat ->
  (le_uint32 l =? BIGWIG_MAGIC) = true <-> l = [x26; xfc; x8f; x88].
Proof.
  intros Hl.
  destruct l as [|a [|b [|c [|d [|e l]]]]]; try discriminate Hl.
  unfold le_uint32, BIGWIG_MAGIC. rewrite Z.eqb_eq. split.
  - intros H.
    pose proof (byteZ_range a). pose proof (byteZ_range b).
    pose proof (byteZ_range c). pose proof (byteZ_range d).
    assert (Ha : byteZ a = byteZ x26) by (change (byteZ x26) with 38; lia).
    assert (Hb : byteZ b = byteZ xfc) by (change (byteZ xfc) with 252; lia).
    assert (Hc : byteZ c = byteZ x8f) by (change (byteZ x8f) with 143; lia).
    assert (Hd : byteZ d = byteZ x88) by (change (byteZ x88) with 136; lia).
    apply byteZ_inj in Ha, Hb, Hc, Hd. congruence.
  - intros H. injection H as -> -> -> ->. reflexivity.
Qed.

Lemma bwisBigWig_opened content u :
  u = open_local content \/ u = open_remote content ->
  fst (bwisBigWig u)
  = Ok (if lenZ (take 4 content) =? 4
        then le_uint32 (take 4 content) =? BIGWIG_MAGIC else false).
Proof.
  intros [-> | ->]; unfold bwisBigWig, URL_Read.
  - cbn [is_local open_local Type_ rs]. unfold File_Read.
    cbn [f_data f_pos Z.leb Z.compare].
    destruct content as [|b0 content']; [reflexivity|].
    replace (lenZ (b0 :: content') <=? 0) with false
      by (symmetry; apply Z.leb_gt; unfold lenZ; cbn [length]; lia).
    change (Z.to_nat 0) with 0%nat. rewrite drop_0.
    change (Z.to_nat 4) with 4%nat.
    destruct (lenZ (take 4 (b0 :: content')) =? 4); reflexivity.
  - cbn [is_local open_remote Type_ buf]. unfold fillBuffer.
    cbn [server FilePos open_remote]. unfold range_server.
    cbn [Z.ltb Z.compare]. change (Z.to_nat 0) with 0%nat. rewrite drop_0.
    cbn [set_remote buf FilePos].
    destruct content as [|b0 content'].
    + rewrite take_nil. reflexivity.
    + assert (Hne : 0 < lenZ (take (Z.to_nat 65536) (b0 :: content'))).
      { assert (Z.to_nat 65536 = S (Z.to_nat 65535)) as -> by lia.
        unfold lenZ. cbn [take length]. lia. }
      rewrite Buffer_Read_nonempty by exact Hne.
      change (Z.to_nat 4) with 4%nat.
      rewrite take_take.
      replace (4 `min` Z.to_nat 65536)%nat with 4%nat by lia.
      destruct (lenZ (take 4 (b0 :: content')) =? 4); reflexivity.
Qed.

(** X20. [bwisBigWig] answers [true] exactly for a resource that starts
    with the four bytes 26 FC 8F 88, the magic number 0x888FFC26 in
    little-endian order.  On a local file, and on a remote resource
    behind a range server, it never reports an error: a resource of fewer
    than four bytes, an empty one included, is just not a bigWig file. *)
Theorem bwisBigWig_checks_the_magic_bytes :
  forall content u,
    u = open_local content \/ u = open_remote content ->
    exists b, fst (bwisBigWig u) = Ok b
              /\ (b = true <-> take 4 content = [x26; xfc; x8f; x88]).
Proof.
  intros content u Hu. rewrite (bwisBigWig_opened content u Hu).
  eexists. split; [reflexivity|].
  destruct (Z.eqb_spec (lenZ (take 4 content)) 4) as [Hl|Hl].
  - apply le_uint32_magic. unfold lenZ in Hl. lia.
  - split; [discriminate|].
    intros H. rewrite H in Hl. exfalso. apply Hl. reflexivity.
Qed.

Lemma bwisBigWig_checks_the_magic_bytes_witness :
  exists b, fst (bwisBigWig (open_remote [x26; xfc; x8f; x88; x04; x00])) = Ok b
            /\ (b = true
                <-> take 4 [x26; xfc; x8f; x88; x04; x00]
                    = [x26; xfc; x8f; x88]).
Proof.
  apply (bwisBigWig_checks_the_magic_bytes [x26; xfc; x8f; x88; x04; x00]).
  right. reflexivity.
Defined.
(** One [binary.Read] at the head of a chain on a local file; two goals
    remain, for a read that fits and for one that does not. *)
Ltac bin_step Hat :=
  match goal with
  | |- context [bind (binaryRead ?n) _ ?u] =>
      let H := fresh "Hrd" in
      pose proof (binaryRead_local _ _ n u Hat ltac:(lia)) as H;
      unfold bind at 1;
      match type of H with
      | if ?c then _ else _ =>
          let E := fresh "Efit" in
          destruct c eqn:E;
          [ let u' := fresh "u" in
            let H' := fresh "Hrd" in
            let Hat' := fresh "Hat" in
            destruct H as (u' & H' & Hat'); rewrite H'; clear H' Hat;
            rename Hat' into Hat; apply Z.leb_le in E; cbv beta iota
          | destruct (binaryRead n u) as [[?| |] ?]; cbn [fst] in H;
            try discriminate H; clear H; apply Z.leb_gt in E; cbv beta iota ]
      end
  end.

(** A field decoded from the bytes just read is the field at that place
    of the file. *)
Ltac field_at :=
  unfold bytesAt;
  first [ rewrite le_uint64_take by (cbn; lia)
        | rewrite le_uint32_take by (cbn; lia)
        | rewrite le_uint16_take by (cbn; lia) ].

(** The same for a field further on, seen from the start of the
    structure. *)
Ltac field_shift :=
  rewrite <- ?Z.add_assoc; cbn [Z.add Pos.add Pos.succ];
  rewrite bytesAt_shift by lia;
  first [apply le_uint64_take | apply le_uint32_take | apply le_uint16_take];
  cbn; lia.

Lemma readZoomLevels_local content :
  forall (n : nat) p u,
    local_at content p u -> p <= lenZ content ->
    if p + 24 * Z.of_nat n <=? lenZ content
    then exists u',
        readZoomLevels n u
        = (Ok (parseZoomLevels n (drop (Z.to_nat p) content)), u')
        /\ local_at content (p + 24 * Z.of_nat n) u'
    else fst (readZoomLevels n u) = Nil.
Proof.
  induction n as [|n IH]; intros p u Hat Hle.
  - pose proof Hat as (_ & _ & Hp).
    cbn [readZoomLevels parseZoomLevels]. rewrite Z.mul_0_r, Z.add_0_r.
    destruct (Z.leb_spec p (lenZ content)); [|lia].
    exists u. split; [reflexivity|exact Hat].
  - pose proof Hat as (_ & _ & Hp).
    cbn [readZoomLevels parseZoomLevels].
    destruct (Z.leb_spec (p + 24 * Z.of_nat (S n)) (lenZ content))
      as [Hfit|Hshort].
    + do 4 (bin_step Hat; [|exfalso; lia]).
      pose proof (IH _ _ Hat ltac:(lia)) as Hrest.
      replace (p + 4 + 4 + 8 + 8 + 24 * Z.of_nat n <=? lenZ content)
        with true in Hrest by (symmetry; apply Z.leb_le; lia).
      destruct Hrest as (u' & Hrest & Hat').
      unfold bind, ret. rewrite Hrest.
      exists u'. split.
      * replace (drop 24 (drop (Z.to_nat p) content))
          with (drop (Z.to_nat (p + 4 + 4 + 8 + 8)) content)
          by (rewrite drop_drop; f_equal; lia).
        do 3 f_equal. f_equal.
        -- field_at. reflexivity.
        -- field_shift.
        -- field_shift.
      * replace (p + 24 * Z.of_nat (S n))
          with (p + 4 + 4 + 8 + 8 + 24 * Z.of_nat n) by lia.
        exact Hat'.
    + do 4 (bin_step Hat; [|reflexivity]).
      pose proof (IH _ _ Hat ltac:(lia)) as Hrest.
      replace (p + 4 + 4 + 8 + 8 + 24 * Z.of_nat n <=? lenZ content)
        with false in Hrest by (symmetry; apply Z.leb_gt; lia).
      unfold bind, ret.
      match goal with
      | |- context [readZoomLevels n ?v] =>
          destruct (readZoomLevels n v) as [[?| |] ?]
      end; cbn [fst] in Hrest; try discriminate Hrest. reflexivity.
Qed.

Lemma readSummary_local content p u :
  local_at content p u ->
  fst (readSummary u)
  = if p + 40 <=? lenZ content
    then Ok (parseSummary (drop (Z.to_nat p) content)) else Nil.
Proof.
  intros Hat. pose proof Hat as (_ & _ & Hp). unfold readSummary.
  destruct (Z.leb_spec (p + 40) (lenZ content)) as [Hfit|Hshort].
  - do 5 (bin_step Hat; [|exfalso; lia]).
    unfold ret, parseSummary. cbn [fst]. do 2 f_equal;
      try (field_at; reflexivity); f_equal; field_shift.
  - do 5 (bin_step Hat; [|reflexivity]). exfalso. lia.
Qed.
Lemma bwHdrRead_local content u :
  local_at content 0 u -> lenZ content < 2 ^ 63 ->
  fst (bwHdrRead u) = outcome_of_nil (parseHdr content).
Proof.
  intros Hat Hlen. unfold bwHdrRead, parseHdr.
  destruct (Z.ltb_spec (lenZ content) 4) as [Hs4|Hl4].
  { bin_step Hat; [exfalso; lia|reflexivity]. }
  bin_step Hat; [|exfalso; lia].
  assert (E0 : le_uint32 (bytesAt content 0 4) = le_uint32 content)
    by (field_at; reflexivity).
  rewrite E0. clear E0.
  destruct (negb (le_uint32 content =? BIGWIG_MAGIC)); [reflexivity|].
  destruct (Z.ltb_spec (lenZ content) 64) as [Hs64|Hl64].
  { do 11 (bin_step Hat; [|reflexivity]). exfalso. lia. }
  do 11 (bin_step Hat; [|exfalso; lia]).
  repeat match goal with
         | |- context [?f (bytesAt content ?p ?k)] =>
             let q := eval vm_compute in (Z.to_nat p) in
             replace (f (bytesAt content p k)) with (f (drop q content))
               by (field_at; reflexivity)
         end.
  cbn [Z.add Pos.add Pos.succ] in Hat.
  set (nLevels := le_uint16 (drop 6 content)).
  set (so := le_uint64 (drop 44 content)).
  assert (HnL : 0 <= nLevels).
  { subst nLevels. unfold le_uint16.
    destruct (drop 6 content) as [|x [|y l]]; try lia.
    pose proof (byteZ_range x). pose proof (byteZ_range y). lia. }
  assert (Hso : 0 <= so < 2 ^ 64) by apply le_uint64_range.
  (* the zoom levels *)
  match goal with
  | Hat : local_at content _ ?v |- _ => rename v into uz
  end.
  assert (Hzoom :
    if lenZ content <? 64 + 24 * nLevels
    then fst ((if 0 <? nLevels
               then z <~ bwReadZoomHdrs nLevels ;;
                    ret match z with Some l => [l] | None => [] end
               else ret []) uz) = Nil
    else exists u',
        (if 0 <? nLevels
         then z <~ bwReadZoomHdrs nLevels ;;
              ret match z with Some l => [l] | None => [] end
         else ret []) uz
        = (Ok (if 0 <? nLevels
               then [parseZoomLevels (Z.to_nat nLevels) (drop 64 content)]
               else []), u')
        /\ holds content u').
  { destruct (Z.ltb_spec 0 nLevels) as [Hpos|Hzero].
    - unfold bwReadZoomHdrs.
      replace (nLevels =? 0) with false by (symmetry; apply Z.eqb_neq; lia).
      pose proof (readZoomLevels_local content (Z.to_nat nLevels) 64 uz Hat
                    ltac:(lia)) as Hz.
      rewrite Z2Nat.id in Hz by lia.
      destruct (Z.ltb_spec (lenZ content) (64 + 24 * nLevels)) as [Hshort|Hfit].
      + replace (64 + 24 * nLevels <=? lenZ content) with false in Hz
          by (symmetry; apply Z.leb_gt; lia).
        unfold bind, ret.
        destruct (readZoomLevels (Z.to_nat nLevels) uz) as [[?| |] ?];
          cbn [fst] in Hz; try discriminate Hz. reflexivity.
      + replace (64 + 24 * nLevels <=? lenZ content) with true in Hz
          by (symmetry; apply Z.leb_le; lia).
        destruct Hz as (u' & Hz & Hat'). unfold bind, ret. rewrite Hz.
        exists u'. split; [reflexivity|exact (proj1 Hat')].
    - replace nLevels with 0 by lia.
      replace (lenZ content <? 64 + 24 * 0) with false
        by (symmetry; apply Z.ltb_ge; lia).
      exists uz. split; [reflexivity|exact (proj1 Hat)]. }
  unfold bind at 1.
  destruct (lenZ content <? 64 + 24 * nLevels).
  { match goal with
    | |- context [match ?m with _ => _ end] =>
        destruct m as [[?| |] ?]
    end; cbn [fst] in Hzoom; try discriminate Hzoom. reflexivity. }
  destruct Hzoom as (u' & Hzoom & Hh). rewrite Hzoom. clear Hzoom.
  cbv beta iota.
  (* the summary *)
  destruct (Z.ltb_spec 0 so) as [Hpos|Hzero]; cbn [andb].
  - destruct (Z.lt_ge_cases so (2 ^ 63)) as [Hso63|Hso63].
    + destruct (setPos_local content so u' Hh ltac:(lia)) as (us0 & Hs & Hat0).
      unfold bind at 1 2. rewrite Hs. cbv beta iota.
      pose proof (readSummary_local content so us0 Hat0) as Hsum.
      destruct (readSummary us0) as [[sm| |] us]; cbn [fst] in Hsum.
      * destruct (Z.leb_spec (so + 40) (lenZ content)); [|discriminate].
        replace (lenZ content <? so + 40) with false
          by (symmetry; apply Z.ltb_ge; lia).
        injection Hsum as ->. reflexivity.
      * destruct (Z.leb_spec (so + 40) (lenZ content)); [discriminate|].
        replace (lenZ content <? so + 40) with true
          by (symmetry; apply Z.ltb_lt; lia).
        reflexivity.
      * destruct (so + 40 <=? lenZ content); discriminate.
    + replace (lenZ content <? so + 40) with true
        by (symmetry; apply Z.ltb_lt; lia).
      unfold bind at 1 2.
      pose proof (setPos_local_far so u' (proj1 Hh) ltac:(lia)) as Hs.
      destruct (setPos so u') as [[?| |] ?]; cbn [fst] in Hs;
        try discriminate Hs.
      reflexivity.
  - reflexivity.
Qed.
(** ** The chromosome list on a local file *)

Lemma readKey_local content p k u :
  local_at content p u -> 0 <= k -> p <= lenZ content ->
  if p + k <=? lenZ content
  then exists u', readKey k u = (Ok (bytesAt content p k), u')
                  /\ local_at content (p + k) u'
  else fst (readKey k u) = Nil.
Proof.
  intros Hat Hk Hle.
  destruct (Z.eq_dec k 0) as [->|Hk0].
  - destruct Hat as ([Hloc Hdata] & Hpos & Hp).
    replace (p + 0 <=? lenZ content) with true
      by (symmetry; apply Z.leb_le; lia).
    unfold readKey, URL_Read. rewrite Hloc. unfold File_Read.
    cbn [Z.leb Z.compare]. eexists. split; [reflexivity|].
    split; [split; [unfold is_local in *; cbn; exact Hloc|exact Hdata]|].
    cbn. split; [lia|lia].
  - exact (bwRead_local content p k u Hat ltac:(lia)).
Qed.

Lemma readKey_same_resource k u : same_resource u (snd (readKey k u)).
Proof. exact (bwRead_same_resource k u). Qed.

Lemma lift_same_resource {A} (r : outcome A) u :
  same_resource u (snd (lift r u)).
Proof. apply same_resource_refl. Qed.

Lemma readChromEntries_same_resource keySize n :
  forall cl u, same_resource u (snd (readChromEntries keySize n cl u)).
Proof.
  induction n as [|n IH]; intros cl; [apply ret_same_resource|].
  cbn [readChromEntries].
  apply bind_same_resource; [apply readKey_same_resource|intros ?].
  apply bind_same_resource; [apply bwRead_same_resource|intros ?].
  apply bind_same_resource; [apply bwRead_same_resource|intros ?].
  apply bind_same_resource; [apply lift_same_resource|intros ?].
  apply IH.
Qed.

Lemma readChromEntries_local content keySize :
  0 <= keySize ->
  forall n p cl u,
    local_at content p u -> p <= lenZ content ->
    fst (readChromEntries keySize n cl u)
    = parseChromEntries content keySize n p cl.
Proof.
  intros Hk. induction n as [|n IH]; intros p cl u Hat Hle; [reflexivity|].
  pose proof Hat as (_ & _ & Hp).
  cbn [readChromEntries parseChromEntries].
  pose proof (readKey_local content p keySize u Hat Hk Hle) as Hkey.
  unfold bind at 1.
  destruct (Z.leb_spec (p + keySize) (lenZ content)) as [Hfit|Hshort].
  - destruct Hkey as (u1 & Hkey & Hat1). rewrite Hkey. cbv beta iota.
    clear Hat. rename Hat1 into Hat.
    destruct (Z.ltb_spec (lenZ content) (p + keySize + 8)) as [Hs|Hall].
    + do 2 (read_step bwRead_local Hat; [|reflexivity]). exfalso. lia.
    + do 2 (read_step bwRead_local Hat; [|exfalso; lia]).
      replace (le_uint32 (bytesAt content (p + keySize) 4))
        with (le_uint32 (drop (Z.to_nat (p + keySize)) content))
        by (symmetry; field_at; reflexivity).
      replace (le_uint32 (bytesAt content (p + keySize + 4) 4))
        with (le_uint32 (drop (Z.to_nat (p + keySize + 4)) content))
        by (symmetry; field_at; reflexivity).
      unfold bind at 1, lift at 1.
      destruct (storeChrom cl _ _ _) as [cl'| |]; cbn [obind]; try reflexivity.
      replace (p + keySize + 8) with (p + keySize + 4 + 4) by lia.
      apply IH; [exact Hat|lia].
  - destruct (readKey keySize u) as [[?| |] ?]; cbn [fst] in Hkey;
      try discriminate Hkey.
    replace (lenZ content <? p + keySize + 8) with true
      by (symmetry; apply Z.ltb_lt; lia).
    reflexivity.
Qed.
Lemma chromNonLeafLoop_same_resource block keySize :
  (forall cl u, same_resource u (snd (block cl u))) ->
  forall n previous rv cl u,
    same_resource u (snd (chromNonLeafLoop block keySize n previous rv cl u)).
Proof.
  intros Hb. induction n as [|n IH]; intros previous rv cl;
    [apply ret_same_resource|].
  cbn [chromNonLeafLoop].
  apply bind_same_resource; [apply setPos_same_resource|intros ?].
  apply bind_same_resource; [apply bwRead_same_resource|intros ?].
  apply bind_same_resource; [apply setPos_same_resource|intros ?].
  apply bind_same_resource; [apply Hb|intros ?].
  apply IH.
Qed.

Lemma readChromBlock_same_resource keySize :
  forall fuel cl u, same_resource u (snd (readChromBlock fuel keySize cl u)).
Proof.
  induction fuel as [|fuel IH]; intros cl; [intros u; apply same_resource_refl|].
  cbn [readChromBlock].
  apply bind_same_resource; [apply bwRead_same_resource|intros isLeaf].
  apply bind_same_resource; [apply bwRead_same_resource|intros ?].
  destruct (negb _).
  - unfold readChromLeaf.
    apply bind_same_resource; [apply bwRead_same_resource|intros ?].
    apply bind_same_resource; [apply readChromEntries_same_resource|intros ?].
    apply ret_same_resource.
  - unfold readChromNonLeaf.
    apply bind_same_resource; [apply bwRead_same_resource|intros ?].
    apply bind_same_resource; [apply tell_same_resource|intros ?].
    apply chromNonLeafLoop_same_resource. exact IH.
Qed.

Lemma u64_range z : 0 <= u64 z < 2 ^ 64.
Proof. unfold u64. apply Z.mod_pos_bound. lia. Qed.

Lemma chromNonLeafLoop_local content keySize block pblock :
  lenZ content < 2 ^ 63 ->
  (forall cl u, same_resource u (snd (block cl u))) ->
  (forall off cl u, local_at content off u ->
                    fst (block cl u) = pblock off cl) ->
  forall n previous rv cl u,
    holds content u -> 0 <= previous < 2 ^ 64 ->
    fst (chromNonLeafLoop block keySize n previous rv cl u)
    = parseChromChildren pblock content keySize n previous rv cl.
Proof.
  intros Hlen Hsame Hblock.
  induction n as [|n IH]; intros previous rv cl u Hh Hprev; [reflexivity|].
  cbn [chromNonLeafLoop parseChromChildren].
  destruct (Z.leb_spec (2 ^ 63) previous) as [Hfar|Hnear]; cbn [orb].
  { unfold bind at 1.
    pose proof (setPos_local_far previous u (proj1 Hh) ltac:(lia)) as Hs.
    destruct (setPos previous u) as [[?| |] ?]; cbn [fst] in Hs;
      try discriminate Hs.
    reflexivity. }
  destruct (setPos_local content previous u Hh ltac:(lia)) as (u0 & Hs & Hat).
  unfold bind at 1. rewrite Hs. cbv beta iota.
  destruct (Z.ltb_spec (lenZ content) (previous + 8)) as [Hshort|Hfit].
  { read_step bwRead_local Hat; [exfalso; lia|reflexivity]. }
  read_step bwRead_local Hat; [|exfalso; lia].
  replace (le_uint64 (bytesAt content previous 8))
    with (le_uint64 (drop (Z.to_nat previous) content))
    by (symmetry; field_at; reflexivity).
  set (offset := le_uint64 (drop (Z.to_nat previous) content)).
  pose proof (le_uint64_range (drop (Z.to_nat previous) content)) as Hoff.
  fold offset in Hoff.
  destruct (Z.leb_spec (2 ^ 63) offset) as [Hofar|Honear].
  { unfold bind at 1.
    pose proof (setPos_local_far offset u1 (proj1 (proj1 Hat)) ltac:(lia)) as Hs'.
    destruct (setPos offset u1) as [[?| |] ?]; cbn [fst] in Hs';
      try discriminate Hs'.
    reflexivity. }
  destruct (setPos_local content offset u1 (proj1 Hat) ltac:(lia))
    as (u2 & Hs' & Hat').
  unfold bind at 1. rewrite Hs'. cbv beta iota.
  pose proof (Hblock offset cl u2 Hat') as Hb.
  pose proof (holds_same_resource content u2 _ (proj1 Hat') (Hsame cl u2)) as Hh'.
  unfold bind at 1.
  destruct (block cl u2) as [[r| |] u3]; cbn [fst snd] in Hb, Hh';
    rewrite <- Hb; cbn [obind]; try reflexivity.
  apply IH; [exact Hh'|apply u64_range].
Qed.

Lemma readChromBlock_local content keySize :
  lenZ content < 2 ^ 63 -> 0 <= keySize ->
  forall fuel pos cl u,
    local_at content pos u ->
    fst (readChromBlock fuel keySize cl u)
    = parseChromBlock fuel content keySize pos cl.
Proof.
  intros Hlen Hk. induction fuel as [|fuel IH]; intros pos cl u Hat;
    [reflexivity|].
  pose proof Hat as (_ & _ & Hp).
  cbn [readChromBlock parseChromBlock].
  destruct (Z.ltb_spec (lenZ content) (pos + 4)) as [Hshort|Hfit].
  { do 2 (read_step bwRead_local Hat; [|reflexivity]).
    destruct (negb _); [unfold readChromLeaf|unfold readChromNonLeaf];
      (read_step bwRead_local Hat; [exfalso; lia|reflexivity]). }
  do 2 (read_step bwRead_local Hat; [|exfalso; lia]).
  replace (le_uint8 (bytesAt content pos 1))
    with (le_uint8 (drop (Z.to_nat pos) content))
    by (symmetry; unfold bytesAt; apply le_uint8_take; cbn; lia).
  destruct (negb (le_uint8 (drop (Z.to_nat pos) content) =? 0)).
  - unfold readChromLeaf.
    read_step bwRead_local Hat; [|exfalso; lia].
    replace (le_uint16 (bytesAt content (pos + 1 + 1) 2))
      with (le_uint16 (drop (Z.to_nat (pos + 2)) content)).
    2:{ replace (pos + 1 + 1) with (pos + 2) by lia.
        symmetry. field_at. reflexivity. }
    pose proof (readChromEntries_local content keySize Hk
                  (Z.to_nat (le_uint16 (drop (Z.to_nat (pos + 2)) content)))
                  _ cl _ Hat ltac:(lia)) as He.
    replace (pos + 1 + 1 + 2) with (pos + 4) in He by lia.
    unfold bind, ret.
    destruct (readChromEntries _ _ _ _) as [[cl'| |] u']; cbn [fst] in He;
      rewrite <- He; reflexivity.
  - unfold readChromNonLeaf.
    read_step bwRead_local Hat; [|exfalso; lia].
    replace (le_uint16 (bytesAt content (pos + 1 + 1) 2))
      with (le_uint16 (drop (Z.to_nat (pos + 2)) content)).
    2:{ replace (pos + 1 + 1) with (pos + 2) by lia.
        symmetry. field_at. reflexivity. }
    destruct (tell_local content _ _ Hat ltac:(lia)) as (u' & Ht & Hat').
    unfold bind at 1. rewrite Ht. cbv beta iota.
    replace (pos + 1 + 1 + 2) with (pos + 4) by lia.
    apply (chromNonLeafLoop_local content keySize _ _ Hlen
             (readChromBlock_same_resource keySize fuel)
             (fun off cl u => IH off cl u)).
    + exact (proj1 Hat').
    + apply u64_range.
Qed.
Lemma bwReadchromList_local content fuel ctoffset u :
  holds content u -> lenZ content < 2 ^ 63 -> 0 <= ctoffset < 2 ^ 64 ->
  fst (bwReadchromList fuel ctoffset u) = parseChromList fuel content ctoffset.
Proof.
  intros Hh Hlen Hct. unfold bwReadchromList, parseChromList.
  destruct (Z.leb_spec (2 ^ 63) ctoffset) as [Hfar|Hnear].
  { unfold bind at 1.
    pose proof (setPos_local_far ctoffset u (proj1 Hh) ltac:(lia)) as Hs.
    destruct (setPos ctoffset u) as [[?| |] ?]; cbn [fst] in Hs;
      try discriminate Hs.
    reflexivity. }
  destruct (setPos_local content ctoffset u Hh ltac:(lia)) as (u0 & Hs & Hat).
  unfold bind at 1. rewrite Hs. cbv beta iota.
  destruct (Z.ltb_spec (lenZ content) (ctoffset + 4)) as [Hs4|Hl4].
  { bin_step Hat; [exfalso; lia|reflexivity]. }
  bin_step Hat; [|exfalso; lia].
  replace (le_uint32 (bytesAt content ctoffset 4))
    with (le_uint32 (drop (Z.to_nat ctoffset) content))
    by (symmetry; field_at; reflexivity).
  destruct (negb (le_uint32 (drop (Z.to_nat ctoffset) content) =? CIRTREE_MAGIC));
    [reflexivity|].
  destruct (Z.ltb_spec (lenZ content) (ctoffset + 24)) as [Hs24|Hl24].
  { do 4 (bin_step Hat; [|reflexivity]). exfalso. lia. }
  do 4 (bin_step Hat; [|exfalso; lia]).
  assert (Ek : le_uint32 (bytesAt content (ctoffset + 4 + 4) 4)
               = le_uint32 (drop 8 (drop (Z.to_nat ctoffset) content)))
    by field_shift.
  assert (Ei : le_uint64 (bytesAt content (ctoffset + 4 + 4 + 4 + 4) 8)
               = le_uint64 (drop 16 (drop (Z.to_nat ctoffset) content)))
    by field_shift.
  rewrite Ek, Ei. clear Ek Ei.
  set (keySize := le_uint32 (drop 8 (drop (Z.to_nat ctoffset) content))).
  set (itemCount := le_uint64 (drop 16 (drop (Z.to_nat ctoffset) content))).
  destruct (maxAlloc <? 16 * itemCount); [reflexivity|].
  destruct (Z.ltb_spec (lenZ content) (ctoffset + 32)) as [Hs32|Hl32].
  { do 2 (bin_step Hat; [|reflexivity]). exfalso. lia. }
  do 2 (bin_step Hat; [|exfalso; lia]).
  pose proof (le_uint32_range (drop 8 (drop (Z.to_nat ctoffset) content)))
    as Hk. fold keySize in Hk.
  replace (ctoffset + 4 + 4 + 4 + 4 + 8 + 4 + 4) with (ctoffset + 32) in Hat
    by lia.
  match goal with
  | |- context [readChromBlock fuel keySize ?cl0] =>
      pose proof (readChromBlock_local content keySize Hlen (proj1 Hk) fuel
                    (ctoffset + 32) cl0 _ Hat) as Hb;
      unfold bind at 1;
      destruct (readChromBlock fuel keySize cl0 _) as [[r| |] u']
  end; cbn [fst] in Hb; rewrite <- Hb; cbn [obind]; try reflexivity.
  destruct (negb (fst r =? itemCount)); reflexivity.
Qed.

Lemma bwReadchromList_same_resource fuel ctoffset u :
  same_resource u (snd (bwReadchromList fuel ctoffset u)).
Proof.
  unfold bwReadchromList. revert u.
  apply bind_same_resource; [apply setPos_same_resource|intros ?].
  apply bind_same_resource; [apply binaryRead_same_resource|intros ?].
  destruct (negb _); [intros u; apply same_resource_refl|].
  do 4 (apply bind_same_resource; [apply binaryRead_same_resource|intros ?]).
  destruct (_ <? _); [intros u; apply same_resource_refl|].
  do 2 (apply bind_same_resource; [apply binaryRead_same_resource|intros ?]).
  apply bind_same_resource; [apply readChromBlock_same_resource|intros r].
  destruct (negb _); intros u; apply same_resource_refl.
Qed.
(** ** What every chromosome list satisfies *)

Lemma bind_Ok {A B} (m : M A) (k : A -> M B) u b :
  fst (bind m k u) = Ok b ->
  exists a u', m u = (Ok a, u') /\ fst (k a u') = Ok b.
Proof.
  unfold bind. destruct (m u) as [[a| |] u']; cbn [fst]; try discriminate.
  intros H. exists a, u'. split; [reflexivity|exact H].
Qed.

Lemma storeChrom_wf cl idx name len :
  wf_chromList cl -> 0 <= idx ->
  exists cl', storeChrom cl idx name len = Ok cl' /\ wf_chromList cl'.
Proof.
  intros [Heq [Hn0 Hn]] Hidx. unfold storeChrom.
  destruct (Z.leb_spec (lenZ (c_Chrom cl)) idx) as [Hgrow|Hin]; cbn [andb].
  - replace (idx + 1 - lenZ (c_Len cl) <? 0) with false
      by (symmetry; apply Z.ltb_ge; lia).
    assert (Hl : lenZ (c_Len cl
                       ++ replicate (Z.to_nat (idx + 1 - lenZ (c_Len cl))) 0)
                 = idx + 1).
    { unfold lenZ in *. rewrite length_app, length_replicate. lia. }
    rewrite Hl.
    replace (idx + 1 <=? idx) with false by (symmetry; apply Z.leb_gt; lia).
    eexists. split; [reflexivity|].
    unfold wf_chromList, lenZ in *. cbn [c_Chrom c_Len c_NKeys].
    rewrite !length_insert, !length_app, !length_replicate. lia.
  - replace (lenZ (c_Len cl) <=? idx) with false
      by (symmetry; apply Z.leb_gt; lia).
    eexists. split; [reflexivity|].
    unfold wf_chromList, lenZ in *. cbn [c_Chrom c_Len c_NKeys].
    rewrite !length_insert. lia.
Qed.

Lemma readChromEntries_wf keySize :
  forall n cl u cl',
    wf_chromList cl ->
    fst (readChromEntries keySize n cl u) = Ok cl' -> wf_chromList cl'.
Proof.
  induction n as [|n IH]; intros cl u cl' Hwf H.
  - cbn in H. injection H as <-. exact Hwf.
  - cbn [readChromEntries] in H.
    apply bind_Ok in H as (chrom & u1 & _ & H).
    apply bind_Ok in H as (idx & u2 & _ & H).
    apply bind_Ok in H as (len & u3 & _ & H).
    apply bind_Ok in H as (cl1 & u4 & Hst & H).
    unfold lift in Hst. injection Hst as Hst _.
    destruct (storeChrom_wf cl (le_uint32 idx)
                (string_of_list_byte (trimNul chrom)) (le_uint32 len) Hwf
                (proj1 (le_uint32_range idx))) as (cl2 & Hst2 & Hwf2).
    rewrite Hst2 in Hst. injection Hst as ->.
    exact (IH _ _ _ Hwf2 H).
Qed.

Lemma chromNonLeafLoop_wf block keySize :
  (forall cl u r, wf_chromList cl -> fst (block cl u) = Ok r ->
                  wf_chromList (snd r)) ->
  forall n previous rv cl u r,
    wf_chromList cl ->
    fst (chromNonLeafLoop block keySize n previous rv cl u) = Ok r ->
    wf_chromList (snd r).
Proof.
  intros Hb. induction n as [|n IH]; intros previous rv cl u r Hwf H.
  - cbn in H. injection H as <-. exact Hwf.
  - cbn [chromNonLeafLoop] in H.
    apply bind_Ok in H as (? & u1 & _ & H).
    apply bind_Ok in H as (offset & u2 & _ & H).
    apply bind_Ok in H as (? & u3 & _ & H).
    apply bind_Ok in H as (r1 & u4 & Hr1 & H).
    apply (IH _ _ _ _ _ (Hb cl u3 r1 Hwf ltac:(rewrite Hr1; reflexivity)) H).
Qed.

Lemma readChromBlock_wf keySize :
  forall fuel cl u r,
    wf_chromList cl ->
    fst (readChromBlock fuel keySize cl u) = Ok r -> wf_chromList (snd r).
Proof.
  induction fuel as [|fuel IH]; intros cl u r Hwf H; [discriminate H|].
  cbn [readChromBlock] in H.
  apply bind_Ok in H as (isLeaf & u1 & _ & H).
  apply bind_Ok in H as (? & u2 & _ & H).
  destruct (negb _).
  - unfold readChromLeaf in H.
    apply bind_Ok in H as (nVals & u3 & _ & H).
    apply bind_Ok in H as (cl1 & u4 & He & H).
    cbn in H. injection H as <-. cbn [snd].
    eapply (readChromEntries_wf keySize); [exact Hwf|].
    rewrite He. reflexivity.
  - unfold readChromNonLeaf in H.
    apply bind_Ok in H as (nVals & u3 & _ & H).
    apply bind_Ok in H as (pos & u4 & _ & H).
    eapply (chromNonLeafLoop_wf _ keySize IH); [exact Hwf|exact H].
Qed.

Lemma bwReadchromList_wf fuel ctoffset u cl :
  fst (bwReadchromList fuel ctoffset u) = Ok cl -> wf_chromList cl.
Proof.
  unfold bwReadchromList. intros H.
  apply bind_Ok in H as (? & u1 & _ & H).
  apply bind_Ok in H as (magic & u2 & _ & H).
  destruct (negb _); [discriminate H|].
  apply bind_Ok in H as (? & u3 & _ & H).
  apply bind_Ok in H as (keySize & u4 & _ & H).
  apply bind_Ok in H as (? & u5 & _ & H).
  apply bind_Ok in H as (itemCount & u6 & _ & H).
  destruct (Z.ltb_spec maxAlloc (16 * le_uint64 itemCount)) as [|Hsmall];
    [discriminate H|].
  apply bind_Ok in H as (? & u7 & _ & H).
  apply bind_Ok in H as (? & v8 & _ & H).
  apply bind_Ok in H as (r & ur & Hr & H).
  destruct (negb _); [discriminate H|].
  cbn in H. injection H as <-.
  eapply (readChromBlock_wf (le_uint32 keySize) fuel);
    [|rewrite Hr; reflexivity].
  pose proof (le_uint64_range itemCount) as Hic.
  unfold maxAlloc in Hsmall.
  unfold wf_chromList, lenZ, int64_of_u64. cbn [c_Chrom c_Len c_NKeys].
  rewrite !length_replicate.
  replace (le_uint64 itemCount <? 2 ^ 63) with true
    by (symmetry; apply Z.ltb_lt; lia).
  lia.
Qed.

Lemma bwGetTid_loop_in_range names chrom :
  forall n i,
    0 <= i -> i + Z.of_nat n <= lenZ names ->
    bwGetTid_loop names chrom n i <> Panic.
Proof.
  induction n as [|n IH]; intros i Hi Hle; [discriminate|].
  cbn [bwGetTid_loop].
  destruct (names !! Z.to_nat i) as [c|] eqn:Hc.
  - destruct (String.eqb c chrom); [discriminate|]. apply IH; lia.
  - apply lookup_ge_None in Hc. unfold lenZ in Hle. lia.
Qed.

(** X23. Whatever the resource delivers, a chromosome list that
    [bwReadchromList] returns has as many names as lengths, and at least
    [NKeys] of them: the two slices start with [itemCount] entries and
    grow together.  So the loop of [bwGetTid], which indexes [Chrom] up
    to [NKeys], stays inside the slice for any file that was opened with
    this list. *)
Theorem bwReadchromList_result_is_consistent :
  forall fuel ctoffset u cl,
    fst (bwReadchromList fuel ctoffset u) = Ok cl ->
    wf_chromList cl
    /\ forall fp chrom,
         Cl fp = chromList_of cl -> bwGetTid fp chrom <> Panic.
Proof.
  intros fuel ctoffset u cl H.
  pose proof (bwReadchromList_wf fuel ctoffset u cl H) as Hwf.
  split; [exact Hwf|]. intros fp chrom Hcl. unfold bwGetTid.
  destruct (String.eqb chrom ""); [discriminate|].
  rewrite Hcl. cbn [chromList_of NKeys Chrom].
  destruct Hwf as [_ [Hn0 Hn]].
  apply bwGetTid_loop_in_range; [lia|].
  assert (u32 (c_NKeys cl) <= c_NKeys cl).
  { unfold u32. apply Z.mod_le; lia. }
  pose proof (u32_range (c_NKeys cl)). lia.
Qed.
(** ** Opening a local file *)

Lemma readZoomLevels_same_resource n :
  forall u, same_resource u (snd (readZoomLevels n u)).
Proof.
  induction n as [|n IH]; [apply ret_same_resource|].
  cbn [readZoomLevels].
  do 4 (apply bind_same_resource; [apply binaryRead_same_resource|intros ?]).
  apply bind_same_resource; [exact IH|intros ?].
  apply ret_same_resource.
Qed.

Lemma bwHdrRead_same_resource u : same_resource u (snd (bwHdrRead u)).
Proof.
  unfold bwHdrRead. revert u.
  apply bind_same_resource; [apply binaryRead_same_resource|intros ?].
  destruct (negb _); [intros u; apply same_resource_refl|].
  do 11 (apply bind_same_resource; [apply binaryRead_same_resource|intros ?]).
  apply bind_same_resource.
  - destruct (0 <? _); [|apply ret_same_resource].
    apply bind_same_resource; [|intros ?; apply ret_same_resource].
    unfold bwReadZoomHdrs. destruct (_ =? 0); [apply ret_same_resource|].
    apply bind_same_resource; [apply readZoomLevels_same_resource|intros ?].
    apply ret_same_resource.
  - intros zoom. apply bind_same_resource; [|intros ?; apply ret_same_resource].
    destruct (0 <? _); [|apply ret_same_resource].
    apply bind_same_resource; [apply setPos_same_resource|intros ?].
    unfold readSummary.
    do 5 (apply bind_same_resource; [apply binaryRead_same_resource|intros ?]).
    apply ret_same_resource.
Qed.

Lemma parseHdr_magic content hdr :
  parseHdr content = Some hdr ->
  4 <= lenZ content /\ (le_uint32 content =? BIGWIG_MAGIC) = true.
Proof.
  unfold parseHdr.
  destruct (Z.ltb_spec (lenZ content) 4); [discriminate|].
  destruct (le_uint32 content =? BIGWIG_MAGIC); [|discriminate].
  intros _. split; [assumption|reflexivity].
Qed.

Lemma parseHdr_ranges content hdr :
  parseHdr content = Some hdr ->
  0 <= h_ctoffset hdr < 2 ^ 64 /\ 0 <= h_indexoffset hdr < 2 ^ 64.
Proof.
  unfold parseHdr.
  repeat match goal with
         | |- context [if ?c then None else _] => destruct c; [discriminate|]
         end.
  intros H. injection H as <-. cbn [h_ctoffset h_indexoffset].
  split; apply le_uint64_range.
Qed.

Lemma OpenBigWig_local fuel content :
  lenZ content < 2 ^ 63 ->
  fst (OpenBigWig fuel (open_local content)) = parseFile fuel content.
Proof.
  intros Hlen. unfold OpenBigWig, parseFile.
  rewrite (bwisBigWig_opened content (open_local content) (or_introl eq_refl)).
  assert (Hat : local_at content 0 (open_local content)).
  { split; [split; reflexivity|]. cbn. split; [reflexivity|lia]. }
  pose proof (bwHdrRead_local content _ Hat Hlen) as Hhdr.
  pose proof (holds_same_resource content _ _ (proj1 Hat)
                (bwHdrRead_same_resource (open_local content))) as Hh1.
  assert (Hl4 : lenZ (take 4 content) = Z.min 4 (lenZ content)).
  { unfold lenZ. rewrite length_take. lia. }
  destruct (parseHdr content) as [hdr|] eqn:Hp.
  - destruct (parseHdr_magic content hdr Hp) as [H4 Hmagic].
    destruct (parseHdr_ranges content hdr Hp) as [Hct Hio].
    replace (lenZ (take 4 content) =? 4) with true
      by (symmetry; apply Z.eqb_eq; lia).
    rewrite (le_uint32_take 4 content) by lia. rewrite Hmagic.
    unfold bind at 1.
    destruct (bwHdrRead (open_local content)) as [[hdr'| |] u1];
      cbn [fst snd outcome_of_nil] in Hhdr, Hh1; try discriminate Hhdr.
    injection Hhdr as ->.
    pose proof (bwReadchromList_local content fuel (h_ctoffset hdr) u1 Hh1
                  Hlen Hct) as Hcl.
    pose proof (holds_same_resource content _ _ Hh1
                  (bwReadchromList_same_resource fuel (h_ctoffset hdr) u1))
      as Hh2.
    unfold bind at 1.
    destruct (bwReadchromList fuel (h_ctoffset hdr) u1) as [[cl| |] u2];
      cbn [fst snd] in Hcl, Hh2; rewrite <- Hcl; cbn [obind];
      try reflexivity.
    destruct (bwReadIndex_local content (h_indexoffset hdr) 0 u2 Hh2 Hlen
                ltac:(cbn; lia)) as [Hidx _].
    cbn [Z.eqb] in Hidx. unfold bind, ret.
    destruct (bwReadIndex (h_indexoffset hdr) 0 u2) as [[idx| |] u3];
      cbn [fst] in Hidx;
      destruct (parseIndex content (h_indexoffset hdr)) as [idx'|];
      try discriminate Hidx; try reflexivity.
    injection Hidx as ->. reflexivity.
  - destruct (Z.eqb_spec (lenZ (take 4 content)) 4) as [H4|H4];
      [|reflexivity].
    rewrite (le_uint32_take 4 content) by lia.
    destruct (le_uint32 content =? BIGWIG_MAGIC) eqn:Emagic; [|reflexivity].
    unfold bind at 1.
    destruct (bwHdrRead (open_local content)) as [[hdr'| |] u1];
      cbn [fst outcome_of_nil] in Hhdr; try discriminate Hhdr.
    reflexivity.
Qed.
Lemma bwReadchromList_result_is_consistent_witness :
  wf_chromList {| c_NKeys := 2; c_Chrom := ["chr1"%string; "chr2"%string];
                  c_Len := [5000; 3000] |}.
Proof.
  apply (bwReadchromList_result_is_consistent 3 128 FileSample.local).
  vm_compute. reflexivity.
Defined.

(** X21. On a local file at its first byte [bwHdrRead] returns the
    header that the bytes spell: after the magic number 0x888FFC26 the
    fixed fields up to byte 64, then 24 bytes per zoom level, all
    collected in one zoom header, and, when [summaryoffset] is not 0, the
    40 bytes of the summary at that offset.  It returns an error exactly
    when the magic number is another one or the file ends before one of
    these parts does; a file without zoom levels gets an empty
    [ZoomHdrs]. *)
Theorem bwHdrRead_reads_stored_header :
  forall content u,
    local_at content 0 u -> lenZ content < 2 ^ 63 ->
    fst (bwHdrRead u) = outcome_of_nil (parseHdr content).
Proof.
  intros content u Hat Hlen. apply bwHdrRead_local; assumption.
Qed.

Lemma bwHdrRead_reads_stored_header_witness :
  exists hdr,
    fst (bwHdrRead FileSample.local) = Ok hdr
    /\ h_nLevels hdr = 1 /\ h_ctoffset hdr = 128 /\ h_indexoffset hdr = 468
    /\ h_ZoomHdrs hdr
       = [[{| zl_Level := 10; zl_DataOffset := 404; zl_IndexOffset := 672 |}]]
    /\ hs_NBasesCovered (h_summary hdr) = 830.
Proof.
  rewrite (bwHdrRead_reads_stored_header FileSample.content FileSample.local).
  - vm_compute. eexists. split_and!; reflexivity.
  - split; [split; reflexivity|]. cbn. split; [reflexivity|lia].
  - reflexivity.
Defined.

(** X22. On a local file [bwReadchromList] returns the chromosome list
    that the bytes at [ctoffset] spell: a 32-byte header with the magic
    number 0x78CA8C91, the key size and the item count, then the tree of
    blocks.  A leaf entry is a key of [keySize] bytes, an id and a
    length; the name is the key without its leading and trailing zero
    bytes and is stored, with the length, at index id, the slices growing
    when id is beyond them.  A branch entry is a key followed by the
    64-bit offset of the child block.  The call fails when a part is cut
    short, a seek target is beyond 2^63, the magic number is wrong or the
    number of leaf entries read differs from the item count. *)
Theorem bwReadchromList_reads_stored_tree :
  forall content fuel ctoffset u,
    holds content u -> lenZ content < 2 ^ 63 -> 0 <= ctoffset < 2 ^ 64 ->
    fst (bwReadchromList fuel ctoffset u)
    = parseChromList fuel content ctoffset.
Proof.
  intros content fuel ctoffset u Hh Hlen Hct.
  apply bwReadchromList_local; assumption.
Qed.

Lemma bwReadchromList_reads_stored_tree_witness :
  fst (bwReadchromList 2 128 FileSample.local)
  = Ok {| c_NKeys := 2; c_Chrom := ["chr1"%string; "chr2"%string];
          c_Len := [5000; 3000] |}
  /\ fst (bwReadchromList 1 128 FileSample.local) = Panic
  /\ fst (bwReadchromList 2 160 FileSample.local) = Nil.
Proof.
  assert (Hh : holds FileSample.content FileSample.local)
    by (split; reflexivity).
  assert (Hlen : lenZ FileSample.content < 2 ^ 63) by reflexivity.
  split_and!.
  - rewrite (bwReadchromList_reads_stored_tree FileSample.content 2 128
               FileSample.local Hh Hlen ltac:(lia)).
    vm_compute. reflexivity.
  - rewrite (bwReadchromList_reads_stored_tree FileSample.content 1 128
               FileSample.local Hh Hlen ltac:(lia)).
    vm_compute. reflexivity.
  - rewrite (bwReadchromList_reads_stored_tree FileSample.content 2 160
               FileSample.local Hh Hlen ltac:(lia)).
    vm_compute. reflexivity.
Defined.

(** X24. On a local file [OpenBigWig] succeeds exactly when the file
    spells a header, a chromosome list at the header's [ctoffset] and an
    index with its root node at the header's [indexoffset], and it
    returns these: each of the three loaders finds its part whatever
    position the one before left the file at, and the magic number check
    of [bwisBigWig] rejects nothing that [bwHdrRead] would accept. *)
Theorem OpenBigWig_loads_what_the_file_spells :
  forall fuel content,
    lenZ content < 2 ^ 63 ->
    fst (OpenBigWig fuel (open_local content)) = parseFile fuel content.
Proof.
  intros fuel content Hlen. apply OpenBigWig_local. exact Hlen.
Qed.

Lemma OpenBigWig_loads_what_the_file_spells_witness :
  exists f,
    fst (OpenBigWig 2 FileSample.local) = Ok f
    /\ c_Chrom (bf_Cl f) = ["chr1"%string; "chr2"%string]
    /\ rt_RootOffset (bf_Idx f) = 516
    /\ n_Children (bf_Root f) = FileSample.mainRootSlots.
Proof.
  unfold FileSample.local.
  rewrite (OpenBigWig_loads_what_the_file_spells 2 FileSample.content).
  - vm_compute. eexists. split_and!; reflexivity.
  - reflexivity.
Defined.
(** ** Block lookup on a local file *)

Lemma parseIndex_parts content io h root :
  parseIdx content io (io + 48) = Some h ->
  parseNode content (io + 48) = Some root ->
  parseIndex content io = Some (h, root).
Proof. intros Hh Hr. unfold parseIndex. rewrite Hh, Hr. reflexivity. Qed.

Lemma bwGetOverlappingBlocks_io_local content fuel fp io idx chrom start end_ u :
  holds content u -> lenZ content < 2 ^ 63 -> 0 <= io < 2 ^ 64 ->
  idx_agrees content io idx ->
  holds content
    (snd (bwGetOverlappingBlocks_io fuel fp io idx chrom start end_ u))
  /\ idx_agrees content io
       (snd (fst (bwGetOverlappingBlocks_io fuel fp io idx chrom start end_ u)))
  /\ forall o,
       fst (fst (bwGetOverlappingBlocks_io fuel fp io idx chrom start end_ u))
       = Ok o
       <-> bwGetOverlappingBlocks
             {| Hdr := Hdr fp; Cl := Cl fp;
                Idx := indexTree fuel content io; bw_Type := bw_Type fp |}
             chrom start end_ = Ok o.
Proof.
  intros Hh Hlen Hio Hidx.
  unfold bwGetOverlappingBlocks_io, bwGetOverlappingBlocks.
  change (bwGetTid {| Hdr := Hdr fp; Cl := Cl fp;
                      Idx := indexTree fuel content io;
                      bw_Type := bw_Type fp |} chrom)
    with (bwGetTid fp chrom).
  cbn [Idx].
  destruct (bwGetTid fp chrom) as [tid| |]; cbn [obind fst snd];
    try (split_and!; [exact Hh|exact Hidx|intros o; split; discriminate]).
  destruct (tid =? TID_NONE);
    [split_and!; [exact Hh|exact Hidx|intros o; split; discriminate]|].
  (* from the root on *)
  assert (Hwalk : forall h root cn u2,
    parseIdx content io (io + 48) = Some h ->
    parseNode content (io + 48) = Some root ->
    agrees content (io + 48) cn root ->
    holds content u2 ->
    let r := (let '((res, cn'), u3) :=
                walkRTreeNodes_io fuel (rt_RootOffset h) tid start end_ cn u2 in
              ((res, Some (h, Some cn')), u3)) in
    holds content (snd r)
    /\ idx_agrees content io (snd (fst r))
    /\ forall o,
         fst (fst r) = Ok o
         <-> match indexTree fuel content io with
             | Some root0 =>
                 match walkRTreeNodes root0 tid start end_ with
                 | Some o0 => Ok o0
                 | None => Nil
                 end
             | None => Nil
             end = Ok o).
  { intros h root cn u2 Hph Hpr Hag Hh2.
    destruct (parseIdx_Some content io (io + 48) h ltac:(lia) Hph) as [Hfit Hro].
    rewrite Hro.
    destruct (walkRTreeNodes_io_local content (io + 48) tid start end_ Hlen
                ltac:(lia) fuel cn root u2 Hag Hh2 (parseNode_range _ _ _ Hpr))
      as (Hh3 & Hag3 & Hiff).
    destruct (walkRTreeNodes_io fuel (io + 48) tid start end_ cn u2)
      as [[res cn'] u3].
    cbn [fst snd] in *. split_and!.
    - exact Hh3.
    - split; [exact Hph|]. exists root. split; assumption.
    - intros o. rewrite Hiff. unfold indexTree, decodedWalk.
      rewrite (parseIndex_parts content io h root Hph Hpr).
      destruct (decodeTree fuel content (io + 48) root) as [t|];
        [|split; discriminate].
      destruct (walkRTreeNodes t tid start end_); split; congruence. }
  (* from the index header on *)
  assert (Hroot : forall h r u1,
    parseIdx content io (io + 48) = Some h ->
    idx_agrees content io (Some (h, r)) ->
    holds content u1 ->
    let r' := (let '(root, u2) :=
                 match r with
                 | Some cn => (Ok cn, u1)
                 | None =>
                     match bwGetRTreeNode (Some (rt_RootOffset h)) 0 u1 with
                     | (Ok n, u2) => (Ok (unloaded n), u2)
                     | (Nil, u2) => (Nil, u2)
                     | (Panic, u2) => (Panic, u2)
                     end
                 end in
               match root with
               | Nil => ((Nil, Some (h, None)), u2)
               | Panic => ((Panic, Some (h, None)), u2)
               | Ok cn =>
                   let '((res, cn'), u3) :=
                     walkRTreeNodes_io fuel (rt_RootOffset h) tid start end_
                       cn u2 in
                   ((res, Some (h, Some cn')), u3)
               end) in
    holds content (snd r')
    /\ idx_agrees content io (snd (fst r'))
    /\ forall o,
         fst (fst r') = Ok o
         <-> match indexTree fuel content io with
             | Some root0 =>
                 match walkRTreeNodes root0 tid start end_ with
                 | Some o0 => Ok o0
                 | None => Nil
                 end
             | None => Nil
             end = Ok o).
  { intros h r u1 Hph Hagr Hh1.
    destruct (parseIdx_Some content io (io + 48) h ltac:(lia) Hph) as [Hfit Hro].
    destruct r as [cn|].
    - destruct Hagr as [_ (root & Hpr & Hag)].
      exact (Hwalk h root cn u1 Hph Hpr Hag Hh1).
    - destruct (bwGetRTreeNode_local content (rt_RootOffset h) 0 u1 Hh1 Hlen
                  ltac:(lia) ltac:(lia)) as [Hres Hh2].
      cbn [Z.eqb] in Hres. rewrite Hro in *.
      destruct (bwGetRTreeNode (Some (io + 48)) 0 u1) as [[n| |] u2];
        cbn [fst snd] in Hres, Hh2;
        destruct (parseNode content (io + 48)) as [root|] eqn:Hpr;
        try discriminate Hres.
      + injection Hres as ->. rewrite <- Hro.
        exact (Hwalk h root (unloaded root) u2 Hph eq_refl
                 (agrees_unloaded_node _ _ _) Hh2).
      + cbn [fst snd]. split_and!; [exact Hh2|split; [exact Hph|exact I]|].
        intros o. unfold indexTree, parseIndex. rewrite Hph, Hpr.
        split; discriminate. }
  destruct idx as [[h r]|].
  - exact (Hroot h r u (proj1 Hidx) Hidx Hh).
  - pose proof (readRTreeIdx_at content io io u Hh Hlen) as Hres.
    pose proof (holds_same_resource content u _ Hh
                  (readRTreeIdx_same_resource io io u)) as Hh1.
    assert (Eq : (if io =? 0 then io else io) = io) by (destruct (io =? 0); reflexivity).
    rewrite Eq in Hres. specialize (Hres Hio).
    destruct (readRTreeIdx io io u) as [[h| |] u1]; cbn [fst snd] in Hres, Hh1;
      destruct (parseIdx content io (io + 48)) as [h'|] eqn:Hph;
      try discriminate Hres.
    + injection Hres as ->.
      exact (Hroot h' None u1 eq_refl (conj Hph I) Hh1).
    + cbn [fst snd]. split_and!; [exact Hh1|exact I|].
      intros o. unfold indexTree, parseIndex. rewrite Hph. split; discriminate.
Qed.
(** X25. On a local file [bwGetOverlappingBlocks] with the loads it
    does, of the index header, of the root node and of the children the
    walk needs, returns the block list that the same lookup returns on
    the index decoded from the bytes at [fp.Hdr.indexoffset].  This holds
    from any state of [fp.Idx] that agrees with the file, nothing loaded
    yet included, and the call leaves [fp.Idx] in such a state. *)
Theorem bwGetOverlappingBlocks_loads_follow_the_file :
  forall content fuel fp indexoffset idx chrom start end_ u,
    holds content u -> lenZ content < 2 ^ 63 ->
    0 <= indexoffset < 2 ^ 64 ->
    idx_agrees content indexoffset idx ->
    holds content
      (snd (bwGetOverlappingBlocks_io fuel fp indexoffset idx chrom
              start end_ u))
    /\ idx_agrees content indexoffset
         (snd (fst (bwGetOverlappingBlocks_io fuel fp indexoffset idx chrom
                      start end_ u)))
    /\ forall o,
         fst (fst (bwGetOverlappingBlocks_io fuel fp indexoffset idx chrom
                     start end_ u)) = Ok o
         <-> bwGetOverlappingBlocks
               {| Hdr := Hdr fp; Cl := Cl fp;
                  Idx := indexTree fuel content indexoffset;
                  bw_Type := bw_Type fp |}
               chrom start end_ = Ok o.
Proof.
  intros content fuel fp indexoffset idx chrom start end_ u Hh Hlen Hio Hidx.
  apply bwGetOverlappingBlocks_io_local; assumption.
Qed.

Lemma bwGetOverlappingBlocks_loads_follow_the_file_witness :
  fst (fst (bwGetOverlappingBlocks_io 2 Sample.file 468 None "chr1" 150 1025
              FileSample.local))
  = Ok {| ob_N := 2; ob_Offset := [256; 316]; ob_Size := [60; 40] |}
  <-> bwGetOverlappingBlocks
        {| Hdr := Hdr Sample.file; Cl := Cl Sample.file;
           Idx := indexTree 2 FileSample.content 468;
           bw_Type := bw_Type Sample.file |}
        "chr1" 150 1025
      = Ok {| ob_N := 2; ob_Offset := [256; 316]; ob_Size := [60; 40] |}.
Proof.
  apply (bwGetOverlappingBlocks_loads_follow_the_file FileSample.content 2
           Sample.file 468 None "chr1" 150 1025 FileSample.local).
  - split; reflexivity.
  - reflexivity.
  - lia.
  - exact I.
Defined.

Lemma bwReadZoomIndex_local content ro io off u :
  holds content u -> lenZ content < 2 ^ 63 -> 0 <= off < 2 ^ 64 ->
  fst (bwReadZoomIndex ro io off u)
  = if off =? 0 then Nil else outcome_of_nil (parseIndex content off).
Proof.
  intros Hh Hlen Hoff. unfold bwReadZoomIndex.
  destruct (Z.eqb_spec off 0) as [->|Hnz]; [reflexivity|].
  pose proof (readRTreeIdx_at content io off u Hh Hlen) as Hidx.
  pose proof (holds_same_resource _ _ _ Hh (readRTreeIdx_same_resource io off u))
    as Hh1.
  replace (off =? 0) with false in Hidx by (symmetry; apply Z.eqb_neq; lia).
  specialize (Hidx Hoff).
  unfold parseIndex. unfold bind at 1.
  destruct (readRTreeIdx io off u) as [[idx| |] u1]; cbn [fst snd] in Hidx, Hh1;
    destruct (parseIdx content off (off + 48)) as [idx'|] eqn:Hp;
    try discriminate Hidx; try reflexivity.
  injection Hidx as ->.
  destruct (parseIdx_Some content off (off + 48) _ ltac:(lia) Hp) as [Hfit Hroot].
  rewrite Hroot.
  pose proof (bwGetRTreeNode_nonzero content ro (off + 48) u1 Hh1 Hlen
                ltac:(lia)) as Hn.
  unfold bind, ret.
  destruct (bwGetRTreeNode ro (off + 48) u1) as [[root| |] u2];
    cbn [fst] in Hn; destruct (parseNode content (off + 48));
    try discriminate Hn; try reflexivity.
  injection Hn as ->. reflexivity.
Qed.

(** X26. [bwReadZoomIndex(fp, indexOffset)] refuses the offset 0 and, on
    a local file, returns for any other offset the index written there,
    header and root node, as [bwReadIndex] does; like that function it
    does not depend on [fp.Idx], nil or not. *)
Theorem bwReadZoomIndex_reads_index_at_offset :
  forall content rootOffset indexoffset offset u,
    holds content u -> lenZ content < 2 ^ 63 -> 0 <= offset < 2 ^ 64 ->
    fst (bwReadZoomIndex rootOffset indexoffset offset u)
    = if offset =? 0 then Nil else outcome_of_nil (parseIndex content offset).
Proof.
  intros content rootOffset indexoffset offset u Hh Hlen Hoff.
  apply bwReadZoomIndex_local; assumption.
Qed.

Lemma bwReadZoomIndex_reads_index_at_offset_witness :
  exists idx,
    fst (bwReadZoomIndex (Some 516) 468 672 FileSample.local)
    = Ok (idx, {| n_IsLeaf := 1; n_NChildren := 1;
                  n_Children := [Sample.child 0 0 0 200 404 64] |})
    /\ rt_RootOffset idx = 720.
Proof.
  rewrite (bwReadZoomIndex_reads_index_at_offset FileSample.content (Some 516)
             468 672 FileSample.local).
  - vm_compute. eexists. split; reflexivity.
  - split; reflexivity.
  - reflexivity.
  - lia.
Defined.
